(** * CVRP route optimisation backend: a shallow embedding of the solver core

    The definitions below are transcribed from the optimisation controller
    (the file that defines [createOptimization], [clarkeWrightAlgorithm],
    [improveRouteWithLocalSearch], [tabuSearchVRP], [crossover],
    [assignVehiclesToRoutes], [calculateDistance], [generateSolutionKey], ...).

    Conventions of the embedding

    - A JavaScript number that holds a distance or a coverage percentage is
      a rational ([Q]); demands, capacities and durations are integers ([Z]);
      array indices and the [order] field are [nat]. A coordinate is a
      [Coordinate]: a finite value (every finite double is a rational), an
      infinity or NaN.
      The great-circle kernel, which needs transcendental functions, is
      modelled separately over the reals (module [Geo]) and enters the route
      code as the function argument [calc].
    - The algorithms compute with these rationals exactly. The values that
      metric recomputation leaves in [distance] and [duration] depend on the
      rounding of each operation; for them the two metric functions are
      modelled once more on doubles (module [Double]), where every
      operation rounds to binary64.
    - [x || d] on numbers is [js_or]: the default is taken when [x] is 0.
    - An ObjectId is the string its [toString()] yields.
    - A property that may be absent ([vehicle], [capacityExceeded], [error])
      is an [option]; [undefined] and [null] are both [None].
    - [Math.random()] is replaced by an explicit list of drawn values. *)

From Stdlib Require Import Reals Qreals Lra.
From Stdlib Require Import QArith Qround Qminmax Qabs ZArith Ascii String List Lia OrderedTypeEx Permutation.
From Stdlib Require Floats Lqa.
From stdpp Require Import gmap strings list.

Open Scope Z_scope.

(** ** JavaScript primitives *)

(** [x || d] for a number [x]: 0 is falsy. *)
Definition js_or (x d : Q) : Q := if Qeq_bool x 0 then d else x.

Definition js_orZ (x d : Z) : Z := if Z.eqb x 0 then d else x.

(** A number or [Infinity], for [x || Infinity]. *)
Inductive ext : Type :=
| Fin (q : Q)
| Infinity.

Definition js_or_infinity (x : Q) : ext := if Qeq_bool x 0 then Infinity else Fin x.

(** [a < b] on numbers extended with [Infinity]. *)
Definition ext_ltb (a b : ext) : bool :=
  match a, b with
  | Fin x, Fin y => if Qlt_le_dec x y then true else false
  | Fin _, Infinity => true
  | Infinity, _ => false
  end.

(** Truthiness of a string: only the empty string is falsy. *)
Definition truthy_string (s : string) : bool :=
  match s with
  | EmptyString => false
  | String _ _ => true
  end.

(** [Math.round] of an exact value: the nearest integer, halves rounded up. *)
Definition Math_round (x : Q) : Z := Qfloor (x + (1 # 2)).

(** [Math.max(...xs)] on a non-empty argument list [x :: xs]. *)
Definition Math_max (x : Q) (xs : list Q) : Q := fold_left Qmax xs x.

Definition Math_maxZ (x : Z) (xs : list Z) : Z := fold_left Z.max xs x.

(** [Array.prototype.sort(cmp)] is stable; [insert_by] and [sort_by] are a
    stable insertion sort for the comparator "[a] goes after [b] when
    [gtb a b]" (that is, when [cmp(a, b) > 0]). *)
Fixpoint insert_by {A : Type} (gtb : A -> A -> bool) (x : A) (l : list A) : list A :=
  match l with
  | [] => [x]
  | y :: l' => if gtb x y then y :: insert_by gtb x l' else x :: l
  end.

Definition sort_by {A : Type} (gtb : A -> A -> bool) (l : list A) : list A :=
  fold_right (insert_by gtb) [] l.

(** ** Data model *)

Definition Id : Type := string.

(** The value of a [Number] field that holds a latitude or a longitude. *)
Inductive Coordinate : Type :=
| Num (q : Q)
| PosInfinity
| NegInfinity
| NaN.

Record Location : Type := mkLocation {
  loc_id : Id;
  loc_name : string;
  loc_latitude : Coordinate;
  loc_longitude : Coordinate;
  loc_demand : Z;
  isDepot : bool
}.

Record Vehicle : Type := mkVehicle {
  veh_id : Id;
  veh_name : string;
  capacity : Z;
  count : Z
}.

Record Stop : Type := mkStop {
  locationId : Id;
  locationName : string;
  latitude : Coordinate;
  longitude : Coordinate;
  demand : Z;
  order : nat
}.

Record Route : Type := mkRoute {
  vehicle : option Id;
  vehicleName : string;
  stops : list Stop;
  distance : Q;
  duration : Z;
  totalCapacity : Z;
  capacityExceeded : option bool
}.

Record AlgorithmResult : Type := mkResult {
  algorithm : string;
  algorithmKey : string;
  routes : list Route;
  totalDistance : Q;
  coveragePercentage : Q;
  error : option string
}.

(** ** Double-precision arithmetic

    A number is the rational a finite double denotes, an infinity or NaN
    (the type [Coordinate]; the two zeros are one value). Every operation
    rounds its exact result to binary64: to the nearest value, ties going
    to the even significand. *)

Module Double.

Definition pow2 (e : Z) : Q := (2 ^ e)%Q.

(** The unit roundoff of binary64, [2 ^ -53], and a bound ([2 ^ -100]) on
    the spacing of the subnormal numbers. *)
Definition unitRoundoff : Q := 1 # 9007199254740992.
Definition tiny : Q := 1 # 1267650600228229401496703205376.

(** The exponent of the leading bit of a positive rational [n / d]:
    [2 ^ ilog2 q <= q < 2 ^ (ilog2 q + 1)]. *)
Definition ilog2 (q : Q) : Z :=
  let k := Z.log2 (Qnum q) - Z.log2 (Z.pos (Qden q)) in
  if Qle_bool (pow2 k) q then k else k - 1.

(** The nearest integer, a half going to the even neighbour. *)
Definition roundHalfEven (x : Q) : Z :=
  let f := Qfloor x in
  match (x - inject_Z f ?= 1 # 2)%Q with
  | Lt => f
  | Gt => f + 1
  | Eq => if Z.even f then f else f + 1
  end.

(** A positive rational rounded to binary64: a significand of 53 bits on a
    unit in the last place [2 ^ e], where [e] is at least -1074 (below that
    the values are subnormal); [None] when the rounded value reaches
    [2 ^ 1024] (overflow). *)
Definition roundPositive (q : Q) : option Q :=
  let e := Z.max (ilog2 q - 52) (-1074) in
  let r := (inject_Z (roundHalfEven (q / pow2 e)) * pow2 e)%Q in
  if Qle_bool (pow2 1024) r then None else Some (Qred r).

Definition binary64 (q : Q) : Coordinate :=
  match (q ?= 0)%Q with
  | Eq => Num 0
  | Gt => match roundPositive q with Some r => Num r | None => PosInfinity end
  | Lt => match roundPositive (- q) with Some r => Num (- r) | None => NegInfinity end
  end.

(** [x + y] *)
Definition add (x y : Coordinate) : Coordinate :=
  match x, y with
  | NaN, _ | _, NaN => NaN
  | Num a, Num b => binary64 (a + b)
  | PosInfinity, NegInfinity | NegInfinity, PosInfinity => NaN
  | PosInfinity, _ | _, PosInfinity => PosInfinity
  | NegInfinity, _ | _, NegInfinity => NegInfinity
  end.

(** An infinity of the sign of [a], NaN for [a = 0]. *)
Definition signedInfinity (a : Q) : Coordinate :=
  match (a ?= 0)%Q with
  | Gt => PosInfinity
  | Lt => NegInfinity
  | Eq => NaN
  end.

(** [x * y] *)
Definition mul (x y : Coordinate) : Coordinate :=
  match x, y with
  | NaN, _ | _, NaN => NaN
  | Num a, Num b => binary64 (a * b)
  | PosInfinity, Num b | Num b, PosInfinity => signedInfinity b
  | NegInfinity, Num b | Num b, NegInfinity => signedInfinity (- b)
  | PosInfinity, PosInfinity | NegInfinity, NegInfinity => PosInfinity
  | PosInfinity, NegInfinity | NegInfinity, PosInfinity => NegInfinity
  end.

(** [x / y]; a divisor 0 is the positive zero. *)
Definition div (x y : Coordinate) : Coordinate :=
  match x, y with
  | NaN, _ | _, NaN => NaN
  | Num a, Num b => if Qeq_bool b 0 then signedInfinity a else binary64 (a / b)
  | Num _, _ => Num 0
  | PosInfinity, Num b => if Qle_bool 0 b then PosInfinity else NegInfinity
  | NegInfinity, Num b => if Qle_bool 0 b then NegInfinity else PosInfinity
  | _, _ => NaN
  end.

(** [Math.round]: the nearest integer, a half going up. The result is a
    double whenever the argument is one. *)
Definition round (x : Coordinate) : Coordinate :=
  match x with
  | Num a => Num (inject_Z (Qfloor (a + (1 # 2))))
  | other => other
  end.

(** Truthiness of a number: 0 and NaN are falsy. *)
Definition truthy (x : Coordinate) : bool :=
  match x with
  | Num a => negb (Qeq_bool a 0)
  | NaN => false
  | _ => true
  end.

(** The doubles of the kernel, to compare the rounding above with. *)
Definition ofSpec (x : SpecFloat.spec_float) : Coordinate :=
  match x with
  | SpecFloat.S754_zero _ => Num 0
  | SpecFloat.S754_infinity false => PosInfinity
  | SpecFloat.S754_infinity true => NegInfinity
  | SpecFloat.S754_nan => NaN
  | SpecFloat.S754_finite s m e =>
      Num (Qred ((if s then -1 else 1) * inject_Z (Z.pos m) * pow2 e))
  end.

Definition ofFloat (x : PrimFloat.float) : Coordinate := ofSpec (FloatOps.Prim2SF x).

Definition toFloat (z : Z) : PrimFloat.float := PrimFloat.of_uint63 (Uint63.of_Z z).

End Double.

(** ** Comparison driver: winner selection ([createOptimization], compare mode) *)

Module Winner.

(** [!r.error] *)
Definition noError (r : AlgorithmResult) : bool :=
  match error r with
  | Some msg => negb (truthy_string msg)
  | None => true
  end.

(** [r.coveragePercentage || 0] *)
Definition coverage (r : AlgorithmResult) : Q := js_or (coveragePercentage r) 0.

(** [r.totalDistance || Infinity] *)
Definition effDistance (r : AlgorithmResult) : ext := js_or_infinity (totalDistance r).

Definition validResults (algorithmResults : list AlgorithmResult) : list AlgorithmResult :=
  List.filter noError algorithmResults.

Definition maxCoverageOf (v : AlgorithmResult) (vs : list AlgorithmResult) : Q :=
  Math_max (coverage v) (map coverage vs).

(** The callback of [maxCoverageResults.reduce]. *)
Definition pickCloser (best current : AlgorithmResult) : AlgorithmResult :=
  if ext_ltb (effDistance current) (effDistance best) then current else best.

(** [bestResult] as computed in compare mode; [None] stands for [undefined]
    (an empty [algorithmResults]). The branch for an empty
    [maxCoverageResults], where [reduce] would throw, is never taken: the
    maximum is the coverage of some valid result. *)
Definition selectBest (algorithmResults : list AlgorithmResult) : option AlgorithmResult :=
  match validResults algorithmResults with
  | [] => head algorithmResults
  | v :: vs =>
      let maxCoverage := maxCoverageOf v vs in
      let maxCoverageResults :=
        List.filter (fun r => Qeq_bool (coverage r) maxCoverage) (v :: vs) in
      match maxCoverageResults with
      | [] => None
      | [r] => Some r
      | b :: rest => Some (fold_left pickCloser rest b)
      end
  end.

(** The winner rule as the specification words it: an error-free result of
    maximum coverage whose total distance is minimal among those, the first
    such in insertion order. *)
Definition specWinner (algorithmResults : list AlgorithmResult) (w : AlgorithmResult) : Prop :=
  exists before after,
    validResults algorithmResults = before ++ w :: after /\
    (forall r, In r (validResults algorithmResults) -> (coverage r <= coverage w)%Q) /\
    (forall r, In r before -> (coverage r == coverage w)%Q ->
               (totalDistance w < totalDistance r)%Q) /\
    (forall r, In r after -> (coverage r == coverage w)%Q ->
               (totalDistance w <= totalDistance r)%Q).

(** The rule the code implements: as above, with [totalDistance || Infinity]
    in place of the total distance. *)
Definition codeWinner (algorithmResults : list AlgorithmResult) (w : AlgorithmResult) : Prop :=
  exists before after,
    validResults algorithmResults = before ++ w :: after /\
    (forall r, In r (validResults algorithmResults) -> (coverage r <= coverage w)%Q) /\
    (forall r, In r before -> (coverage r == coverage w)%Q ->
               ext_ltb (effDistance w) (effDistance r) = true) /\
    (forall r, In r after -> (coverage r == coverage w)%Q ->
               ext_ltb (effDistance r) (effDistance w) = false).

End Winner.

(** *** Sample result lists *)

(** Three results of coverage 60, 80, 80 and distance 50, 100, 90 (the
    comparison example of the specification). *)
Definition result_of (key : string) (cov dist : Q) (err : option string) : AlgorithmResult :=
  mkResult key key [] dist cov err.

Definition results_60_80_80 : list AlgorithmResult :=
  [ result_of "clarke-wright" 60 50 None;
    result_of "nearest-neighbor" 80 100 None;
    result_of "genetic" 80 90 None ].

(** Two error-free results of equal coverage, the second with total
    distance 0 (its only customer stands at the depot). *)
Definition results_zero_distance : list AlgorithmResult :=
  [ result_of "genetic" 50 10 None;
    result_of "ant-colony" 50 0 None ].

(** ** Distance matrix and route metrics *)

(** [distances]: the object of objects built at the start of every
    algorithm, keyed by the string ids of the locations. *)
Abbreviation DistanceMatrix := (gmap string (gmap string Q)).

(** The kernel [calculateDistance(lat1, lon1, lat2, lon2)] as the route code
    sees it. *)
Abbreviation DistanceKernel := (Coordinate -> Coordinate -> Coordinate -> Coordinate -> Q).

Definition buildRow (calc : DistanceKernel) (l1 : Location) (locations : list Location)
  : gmap string Q :=
  fold_left
    (fun row l2 =>
       <[loc_id l2 := calc (loc_latitude l1) (loc_longitude l1)
                           (loc_latitude l2) (loc_longitude l2)]> row)
    locations ∅.

(** [locations.forEach(l1 => { distances[id1] = {}; locations.forEach(l2 => ...) })] *)
Definition buildDistances (calc : DistanceKernel) (locations : list Location)
  : DistanceMatrix :=
  fold_left (fun m l1 => <[loc_id l1 := buildRow calc l1 locations]> m) locations ∅.

(** [distances[a]?.[b]] *)
Definition matrixEntry (distances : DistanceMatrix) (a b : Id) : option Q :=
  match distances !! a with
  | Some row => row !! b
  | None => None
  end.

(** [distances[fromId]?.[toIdStr] ?? calculateDistance(...)] *)
Definition legNullish (calc : DistanceKernel) (distances : DistanceMatrix)
    (from to : Stop) : Q :=
  match matrixEntry distances (locationId from) (locationId to) with
  | Some d => d
  | None => calc (latitude from) (longitude from) (latitude to) (longitude to)
  end.

(** [distances[fromId]?.[toIdStr] || calculateDistance(...)] *)
Definition legOr (calc : DistanceKernel) (distances : DistanceMatrix)
    (from to : Stop) : Q :=
  match matrixEntry distances (locationId from) (locationId to) with
  | Some d =>
      if Qeq_bool d 0
      then calc (latitude from) (longitude from) (latitude to) (longitude to)
      else d
  | None => calc (latitude from) (longitude from) (latitude to) (longitude to)
  end.

(** [distances[fromId]?.[toIdStr] || 0] *)
Definition legOrZero (distances : DistanceMatrix) (from to : Stop) : Q :=
  match matrixEntry distances (locationId from) (locationId to) with
  | Some d => js_or d 0
  | None => 0%Q
  end.

(** [for (let k = 0; k < stops.length - 1; k++) dist += leg(stops[k], stops[k + 1])] *)
Definition sumLegs (leg : Stop -> Stop -> Q) (stops : list Stop) : Q :=
  fold_left
    (fun dist k =>
       match stops !! k, stops !! S k with
       | Some from, Some to => (dist + leg from to)%Q
       | _, _ => dist
       end)
    (seq 0 (length stops - 1)) 0%Q.

(** [Math.round((dist / speedKmh) * 60)] with the quotient and the product
    taken exactly; [Metrics.durationOf] rounds them as the doubles do. *)
Definition durationOf (speedKmh : Q) (dist : Q) : Z :=
  Math_round ((dist / speedKmh) * 60).

Definition SPEED_KMH : Q := 40.

Definition setMetrics (rt : Route) (dist : Q) (dur : Z) : Route :=
  {| vehicle := vehicle rt; vehicleName := vehicleName rt; stops := stops rt;
     distance := dist; duration := dur; totalCapacity := totalCapacity rt;
     capacityExceeded := capacityExceeded rt |}.

Definition setStops (rt : Route) (newStops : list Stop) : Route :=
  {| vehicle := vehicle rt; vehicleName := vehicleName rt; stops := newStops;
     distance := distance rt; duration := duration rt;
     totalCapacity := totalCapacity rt; capacityExceeded := capacityExceeded rt |}.

(** [recomputeRouteMetrics], the closure of both Clarke-Wright variants. *)
Definition recomputeRouteMetrics (calc : DistanceKernel) (distances : DistanceMatrix)
    (speedKmh : Q) (rt : Route) : Route :=
  let dist := sumLegs (legNullish calc distances) (stops rt) in
  setMetrics rt dist (durationOf speedKmh dist).

(** [recomputeRouteMetricsInline], used by [mutate]. *)
Definition recomputeRouteMetricsInline (calc : DistanceKernel) (distances : DistanceMatrix)
    (speedKmh : Q) (route : Route) : Route :=
  let dist := sumLegs (legOr calc distances) (stops route) in
  setMetrics route dist (durationOf speedKmh dist).

(** [recomputeAllRouteMetrics]: the same loop body for every route. *)
Definition recomputeAllRouteMetrics (calc : DistanceKernel) (distances : DistanceMatrix)
    (speedKmh : Q) (solution : list Route) : list Route :=
  map (fun route =>
         let dist := sumLegs (legOr calc distances) (stops route) in
         setMetrics route dist (durationOf speedKmh dist))
      solution.

(** [calculateTotalCost] *)
Definition calculateTotalCost (distances : DistanceMatrix) (solution : list Route) : Q :=
  fold_left (fun total route => (total + sumLegs (legOrZero distances) (stops route))%Q)
            solution 0%Q.

(** The stop record every algorithm builds from a location. *)
Definition stopOf (loc : Location) (ord : nat) : Stop :=
  {| locationId := loc_id loc; locationName := loc_name loc;
     latitude := loc_latitude loc; longitude := loc_longitude loc;
     demand := js_orZ (loc_demand loc) 0; order := ord |}.

Definition setOrder (st : Stop) (idx : nat) : Stop :=
  {| locationId := locationId st; locationName := locationName st;
     latitude := latitude st; longitude := longitude st;
     demand := demand st; order := idx |}.

(** [stops.map((st, idx) => ({ ...st, order: idx }))] *)
Definition renumber (sts : list Stop) : list Stop := imap (fun idx st => setOrder st idx) sts.

(** A stop denormalises a location of the instance. *)
Definition stopFrom (locations : list Location) (st : Stop) : Prop :=
  exists loc, In loc locations /\ locationId st = loc_id loc /\
              latitude st = loc_latitude loc /\ longitude st = loc_longitude loc.

(** The sum of the matrix entries over consecutive stop pairs, as the route
    invariant of the specification states it; [None] when an entry is absent. *)
Fixpoint matrixPathLength (distances : DistanceMatrix) (sts : list Stop) : option Q :=
  match sts with
  | a :: (b :: _) as rest =>
      match matrixEntry distances (locationId a) (locationId b),
            matrixPathLength distances rest with
      | Some d, Some total => Some (d + total)%Q
      | _, _ => None
      end
  | _ => Some 0%Q
  end.

(** *** A sample instance

    A depot and two customers on a line, and a kernel that evaluates in [Q]
    (the taxicab distance in degrees). The theorems below hold for every
    kernel; this one only serves to run the definitions. *)

Definition taxicab : DistanceKernel :=
  fun lat1 lon1 lat2 lon2 =>
    match lat1, lon1, lat2, lon2 with
    | Num a1, Num o1, Num a2, Num o2 => (Qabs (a2 - a1) + Qabs (o2 - o1))%Q
    | _, _, _, _ => 0%Q
    end.

Definition depotD : Location := mkLocation "D" "Depot" (Num 0) (Num 0) 0 true.
Definition customerA : Location := mkLocation "A" "Customer A" (Num 0) (Num 1) 5 false.
Definition customerB : Location := mkLocation "B" "Customer B" (Num 0) (Num 2) 5 false.

Definition sampleLocations : list Location := [depotD; customerA; customerB].

Definition sampleDistances : DistanceMatrix := buildDistances taxicab sampleLocations.

(** depot -> loc -> depot, not yet assigned and with no metrics. *)
Definition roundTrip (depot loc : Location) : Route :=
  {| vehicle := None; vehicleName := "Unassigned";
     stops := [stopOf depot 0; stopOf loc 1; stopOf depot 2];
     distance := 0; duration := 0; totalCapacity := js_orZ (loc_demand loc) 0;
     capacityExceeded := None |}.

(** ** Tabu Search: the solution key *)

(** [xs.sort()] on strings: ascending by code units; [a] goes after [b]
    when [b < a]. *)
Definition sortStrings (xs : list string) : list string :=
  sort_by (fun a b => String.ltb b a) xs.

(** [route.stops.map(stop => stop.locationId.toString()).join('-')] *)
Definition routeKey (route : Route) : string :=
  String.concat "-" (map locationId (stops route)).

Definition generateSolutionKey (solution : list Route) : string :=
  String.concat "|" (sortStrings (map routeKey solution)).

(** [tabuList.has(generateSolutionKey(solution))], the tabu list being a
    [Map] from keys to expiry iterations. *)
Definition isTabu (tabuList : gmap string Q) (solution : list Route) : bool :=
  match tabuList !! generateSolutionKey solution with
  | Some _ => true
  | None => false
  end.

(** ** Request validation ([createOptimization]) *)

Module Validation.

(** The body of the request; [None] stands for a field that is absent or of
    the wrong type ([name] not a string, an id list that is not an array). *)
Record Request : Type := mkRequest {
  req_name : option string;
  req_vehicleIds : option (list Id);
  req_locationIds : option (list Id);
  req_algorithm : string;
  req_runComparison : bool
}.

(** The documents of the requesting user. *)
Record Store : Type := mkStore {
  storedVehicles : list Vehicle;
  storedLocations : list Location
}.

(** A 400 response with its message, or the response after the solve stage. *)
Inductive Response (A : Type) : Type :=
| BadRequest (msg : string)
| Solved (result : A).

Arguments BadRequest {A} msg.
Arguments Solved {A} result.

Definition isWhitespace (c : ascii) : bool :=
  match Ascii.nat_of_ascii c with
  | 9%nat | 10%nat | 11%nat | 12%nat | 13%nat | 32%nat => true
  | _ => false
  end.

(** [name.trim().length === 0], for names in ASCII: the white space outside
    ASCII that [trim] also removes is not modelled. *)
Definition isBlank (s : string) : bool := forallb isWhitespace (list_ascii_of_string s).

(** [!name || typeof name !== 'string' || name.trim().length === 0] *)
Definition invalidName (name : option string) : bool :=
  match name with
  | None => true
  | Some s => negb (truthy_string s) || isBlank s
  end.

(** [!Array.isArray(ids) || ids.length === 0] *)
Definition missingIds (ids : option (list Id)) : bool :=
  match ids with
  | None | Some [] => true
  | Some (_ :: _) => false
  end.

Definition idsOf (ids : option (list Id)) : list Id :=
  match ids with
  | Some l => l
  | None => []
  end.

(** [Model.find({ _id: { $in: ids }, user })] over the user's documents. *)
Definition findByIds {A : Type} (idOf : A -> Id) (ids : list Id) (docs : list A) : list A :=
  List.filter (fun d => existsb (String.eqb (idOf d)) ids) docs.

(** The handler up to the solve stage; [solve vehicles locations depot]
    stands for everything that follows the checks. *)
Definition createOptimization {A : Type}
    (solve : list Vehicle -> list Location -> Location -> A)
    (store : Store) (req : Request) : Response A :=
  if invalidName (req_name req) then
    BadRequest "Valid optimization name is required"
  else if missingIds (req_vehicleIds req) then
    BadRequest "At least one vehicle must be selected"
  else if missingIds (req_locationIds req) then
    BadRequest "At least one location must be selected"
  else if (100 <? length (idsOf (req_locationIds req)))%nat then
    BadRequest "Maximum 100 locations allowed for optimization. Please reduce the number of locations."
  else if (20 <? length (idsOf (req_vehicleIds req)))%nat then
    BadRequest "Maximum 20 vehicles allowed for optimization. Please reduce the number of vehicles."
  else
    let vehicles := findByIds veh_id (idsOf (req_vehicleIds req)) (storedVehicles store) in
    let locations := findByIds loc_id (idsOf (req_locationIds req)) (storedLocations store) in
    match vehicles, locations with
    | [], _ => BadRequest "No valid vehicles found. Please check your vehicle selection."
    | _, [] => BadRequest "No valid locations found. Please check your location selection."
    | _ :: _, _ :: _ =>
        match List.find isDepot locations with
        | None => BadRequest "At least one location must be marked as a depot"
        | Some depot => Solved (solve vehicles locations depot)
        end
    end.

Definition finiteCoordinate (c : Coordinate) : bool :=
  match c with
  | Num _ => true
  | _ => false
  end.

Definition finiteCoordinates (loc : Location) : bool :=
  finiteCoordinate (loc_latitude loc) && finiteCoordinate (loc_longitude loc).

(** The vehicles and locations a request selects. *)
Definition selectedVehicles (store : Store) (req : Request) : list Vehicle :=
  findByIds veh_id (idsOf (req_vehicleIds req)) (storedVehicles store).

Definition selectedLocations (store : Store) (req : Request) : list Location :=
  findByIds loc_id (idsOf (req_locationIds req)) (storedLocations store).

(** The conditions under which the handler answers 400 before the solve stage. *)
Definition oversizedOrEmpty (store : Store) (req : Request) : Prop :=
  (100 < length (idsOf (req_locationIds req)))%nat \/
  (20 < length (idsOf (req_vehicleIds req)))%nat \/
  selectedVehicles store req = [] \/
  selectedLocations store req = [] \/
  List.find isDepot (selectedLocations store req) = None.

(** A request for an instance whose second location has an infinite latitude. *)
Definition farAway : Location :=
  mkLocation "F" "Far away" PosInfinity (Num 1) 5 false.

Definition truck : Vehicle := mkVehicle "V1" "Truck" 10 1.

Definition storeWithInfinity : Store := mkStore [truck] [depotD; farAway].

Definition requestWithInfinity : Request :=
  mkRequest (Some "plan") (Some ["V1"]) (Some ["D"; "F"]) "clarke-wright" false.

(** A request that lists 101 location ids. *)
Definition request101 : Request :=
  mkRequest (Some "plan") (Some ["V1"]) (Some (repeat "D" 101)) "clarke-wright" false.

End Validation.

(** ** Local search: the 3-opt pass of [improveRouteWithLocalSearch] *)

Module ThreeOpt.

(** [seq.slice(i, j)] for [0 <= i <= j]. *)
Definition slice {A : Type} (i j : nat) (l : list A) : list A := take (j - i) (drop i l).

(** [d + 1e-9 < bestD] *)
Definition tolerance : Q := 1 # 1000000000.

Definition improves (d bestD : Q) : bool :=
  if Qlt_le_dec (d + tolerance) bestD then true else false.

(** The two arrays [B] and [C], which [Array.prototype.reverse] changes in
    place: the candidate expressions are evaluated one after the other on
    this store. *)
Record Segments : Type := mkSegments { segB : list Stop; segC : list Stop }.

Definition Eval (X : Type) : Type := Segments -> X * Segments.

Definition ret {X : Type} (x : X) : Eval X := fun s => (x, s).

Definition bind {X Y : Type} (m : Eval X) (f : X -> Eval Y) : Eval Y :=
  fun s => let '(x, s') := m s in f x s'.

Notation "'run' x <- m ; k" := (bind m (fun x => k))
  (at level 10, x name, m at level 99, k at level 200).

(** [...B] and [...C] *)
Definition spreadB : Eval (list Stop) := fun s => (segB s, s).
Definition spreadC : Eval (list Stop) := fun s => (segC s, s).

(** [...B.reverse()] and [...C.reverse()]: the array is reversed in place and
    then spread. *)
Definition spreadReverseB : Eval (list Stop) :=
  fun s => (rev (segB s), mkSegments (rev (segB s)) (segC s)).
Definition spreadReverseC : Eval (list Stop) :=
  fun s => (rev (segC s), mkSegments (segB s) (rev (segC s))).

(** [[...A, ...x, ...y, ...D]] *)
Definition between (A D : list Stop) (x y : Eval (list Stop)) : Eval (list Stop) :=
  run mid1 <- x; run mid2 <- y; ret (A ++ mid1 ++ mid2 ++ D).

(** The array literal [candidates], element by element as it is written. *)
Definition candidates (A B C D : list Stop) : list (list Stop) :=
  fst ((run c1 <- between A D spreadB spreadC;
        run c2 <- between A D spreadReverseB spreadC;
        run c3 <- between A D spreadB spreadReverseC;
        run c4 <- between A D spreadC spreadB;
        run c5 <- between A D spreadReverseC spreadB;
        run c6 <- between A D spreadReverseB spreadReverseC;
        ret [c1; c2; c3; c4; c5; c6]) (mkSegments B C)).

(** The loop over the candidates: [(best, bestD)], with [None] for a [best]
    that is still [seq] itself. *)
Definition pickStep (calcDist : list Stop -> Q) (acc : option (list Stop) * Q)
    (cand : list Stop) : option (list Stop) * Q :=
  let d := calcDist cand in
  if improves d (snd acc) then (Some cand, d) else acc.

Definition pickBest (calcDist : list Stop -> Q) (seq0 : list Stop)
    (cands : list (list Stop)) : option (list Stop) * Q :=
  fold_left (pickStep calcDist) cands (None, calcDist seq0).

(** The body of the innermost loop for the triple [(i, j, k)]: the new
    sequence when [best !== seq]. *)
Definition tryTriple (calcDist : list Stop -> Q) (seq0 : list Stop)
    (t : nat * nat * nat) : option (list Stop) :=
  let '(i, j, k) := t in
  let A := slice 0 i seq0 in
  let B := slice i j seq0 in
  let C := slice j k seq0 in
  let D := drop k seq0 in
  fst (pickBest calcDist seq0 (candidates A B C D)).

(** The triples in loop order: [1 <= i < n - 3], [i < j < n - 2],
    [j < k < n - 1]. *)
Definition triples (n : nat) : list (nat * nat * nat) :=
  flat_map (fun i =>
    flat_map (fun j =>
      map (fun k => (i, j, k)) (seq (j + 1) (n - 1 - (j + 1))))
      (seq (i + 1) (n - 2 - (i + 1))))
    (seq 1 (n - 3 - 1)).

(** [threeOptOnce]: the first triple with an improving candidate decides;
    [None] is the result [false]. *)
Definition threeOptOnce (calcDist : list Stop -> Q) (seq0 : list Stop) : option (list Stop) :=
  fold_left
    (fun acc t => match acc with Some _ => acc | None => tryTriple calcDist seq0 t end)
    (triples (length seq0)) None.

(** The invariant of the loop over the candidates, after the candidates
    [seen]. *)
Definition pickState (cost : list Stop -> Q) (seq0 : list Stop)
    (seen : list (list Stop)) (acc : option (list Stop) * Q) : Prop :=
  (snd acc <= cost seq0)%Q /\
  (forall c, In c seen -> (snd acc <= cost c + tolerance)%Q) /\
  match fst acc with
  | Some best => In best seen /\ snd acc = cost best /\ (cost best + tolerance < cost seq0)%Q
  | None => snd acc = cost seq0
  end.

(** The reconnections the specification lists. *)
Definition listedReconnections (A B C D : list Stop) : list (list Stop) :=
  [ A ++ B ++ C ++ D;
    A ++ rev B ++ C ++ D;
    A ++ B ++ rev C ++ D;
    A ++ C ++ B ++ D;
    A ++ C ++ rev B ++ D;
    A ++ rev C ++ B ++ D;
    A ++ rev B ++ rev C ++ D ].

End ThreeOpt.

(** [calcDist] of both local searches. *)
Definition calcDist (calc : DistanceKernel) (distances : DistanceMatrix)
    (sq : list Stop) : Q :=
  sumLegs (legNullish calc distances) sq.

(** *** A second sample instance: four customers on a grid *)

Definition gridP1 : Location := mkLocation "P1" "P1" (Num 3) (Num 0) 1 false.
Definition gridP2 : Location := mkLocation "P2" "P2" (Num 3) (Num 1) 1 false.
Definition gridP3 : Location := mkLocation "P3" "P3" (Num 1) (Num 0) 1 false.
Definition gridP4 : Location := mkLocation "P4" "P4" (Num 0) (Num 1) 1 false.

Definition gridLocations : list Location := [depotD; gridP1; gridP2; gridP3; gridP4].

Definition gridDistances : DistanceMatrix := buildDistances taxicab gridLocations.

(** depot, P1, P2, P3, P4, depot *)
Definition gridTour : list Stop :=
  [stopOf depotD 0; stopOf gridP1 1; stopOf gridP2 2; stopOf gridP3 3;
   stopOf gridP4 4; stopOf depotD 5].

(** ** Clarke-Wright: initial routes and the savings phase

    [clarkeWrightAlgorithm] and [enhancedClarkeWrightAlgorithm] share, word
    for word, the construction of the initial routes, the helpers
    [findRouteIndexByLocation], [isStartEndpoint], [isEndEndpoint] and the
    body of the loop over the sorted savings; they differ in the score by
    which the savings are sorted. *)

Module ClarkeWright.

(** [vehicles.length > 0 ? Math.max(...vehicles.map(v => v.capacity || 0)) : 0] *)
Definition maxCapacityOf (vehicles : list Vehicle) : Z :=
  match map (fun v => js_orZ (capacity v) 0) vehicles with
  | [] => 0
  | c :: cs => Math_maxZ c cs
  end.

(** [locations.filter(l => toId(l._id) !== depotId)] *)
Definition nonDepotOf (locations : list Location) (depot : Location) : list Location :=
  List.filter (fun l => negb (String.eqb (loc_id l) (loc_id depot))) locations.

(** [distances[a][b]], an entry that the construction of the matrix put
    there; an absent entry reads as 0 here. *)
Definition entry (distances : DistanceMatrix) (a b : Id) : Q :=
  match matrixEntry distances a b with
  | Some d => d
  | None => 0%Q
  end.

(** depot -> loc -> depot, as [nonDepot.map] builds it. *)
Definition initialRoute (distances : DistanceMatrix) (speedKmh : Q)
    (depot loc : Location) : Route :=
  let dist := (entry distances (loc_id depot) (loc_id loc) * 2)%Q in
  {| vehicle := None; vehicleName := "Unassigned";
     stops := [stopOf depot 0; stopOf loc 1; stopOf depot 2];
     distance := dist; duration := durationOf speedKmh dist;
     totalCapacity := js_orZ (loc_demand loc) 0;
     capacityExceeded := None |}.

Definition initialRoutes (distances : DistanceMatrix) (speedKmh : Q)
    (depot : Location) (nonDepot : list Location) : list Route :=
  map (initialRoute distances speedKmh depot) nonDepot.

(** [arr.findIndex(p)], with [None] for -1. *)
Fixpoint findIndex {A : Type} (p : A -> bool) (l : list A) : option nat :=
  match l with
  | [] => None
  | x :: l' => if p x then Some 0%nat else option_map S (findIndex p l')
  end.

(** [{ routeIndex, stopIndex }] of the first route that holds the location. *)
Fixpoint findRouteIndexByLocation (routes : list Route) (idStr : Id)
  : option (nat * nat) :=
  match routes with
  | [] => None
  | rt :: rest =>
      match findIndex (fun s => String.eqb (locationId s) idStr) (stops rt) with
      | Some foundIdx => Some (0%nat, foundIdx)
      | None =>
          option_map (fun p => (S (fst p), snd p)) (findRouteIndexByLocation rest idStr)
      end
  end.

Definition isStartEndpoint (rt : Route) (idx : nat) : bool := Nat.eqb idx 1.

(** [idx === rt.stops.length - 2] *)
Definition isEndEndpoint (rt : Route) (idx : nat) : bool :=
  Z.eqb (Z.of_nat idx) (Z.of_nat (length (stops rt)) - 2).

(** The merged stop sequence, when the endpoints allow a merge. *)
Definition mergedStops (r1 r2 : Route) (stopI stopJ : nat) : option (list Stop) :=
  let iAtEndOfR1 := isEndEndpoint r1 stopI in
  let iAtStartOfR1 := isStartEndpoint r1 stopI in
  let jAtEndOfR2 := isEndEndpoint r2 stopJ in
  let jAtStartOfR2 := isStartEndpoint r2 stopJ in
  if iAtEndOfR1 && jAtStartOfR2 then
    Some (removelast (stops r1) ++ drop 1 (stops r2))
  else if jAtEndOfR2 && iAtStartOfR1 then
    Some (removelast (stops r2) ++ drop 1 (stops r1))
  else None.

Definition mergedRoute (calc : DistanceKernel) (distances : DistanceMatrix)
    (speedKmh : Q) (newStops : list Stop) (combinedDemand : Z) : Route :=
  recomputeRouteMetrics calc distances speedKmh
    {| vehicle := None; vehicleName := "Unassigned"; stops := renumber newStops;
       distance := 0; duration := 0; totalCapacity := combinedDemand;
       capacityExceeded := None |}.

(** [routes.splice(idxToRemove, 1); routes.splice(idxToReplace, 1, merged)] *)
Definition replaceTwo (routes : list Route) (a b : nat) (merged : Route) : list Route :=
  <[Nat.min a b := merged]> (delete (Nat.max a b) routes).

(** One iteration of [for (const s of savings)], for the saving of the
    locations with ids [idI] and [idJ]. *)
Definition mergeStep (calc : DistanceKernel) (distances : DistanceMatrix)
    (speedKmh : Q) (maxCapacity : Z) (routes : list Route) (s : Id * Id)
  : list Route :=
  let '(idI, idJ) := s in
  match findRouteIndexByLocation routes idI, findRouteIndexByLocation routes idJ with
  | Some (routeI, stopI), Some (routeJ, stopJ) =>
      if Nat.eqb routeI routeJ then routes
      else
        match routes !! routeI, routes !! routeJ with
        | Some r1, Some r2 =>
            match mergedStops r1 r2 stopI stopJ with
            | None => routes
            | Some newStops =>
                let combinedDemand :=
                  js_orZ (totalCapacity r1) 0 + js_orZ (totalCapacity r2) 0 in
                if combinedDemand >? maxCapacity then routes
                else
                  replaceTwo routes routeI routeJ
                    (mergedRoute calc distances speedKmh newStops combinedDemand)
            end
        | _, _ => routes
        end
  | _, _ => routes
  end.

(** The loop over the sorted savings. *)
Definition savingsPhase (calc : DistanceKernel) (distances : DistanceMatrix)
    (speedKmh : Q) (maxCapacity : Z) (savings : list (Id * Id)) (routes : list Route)
  : list Route :=
  fold_left (mergeStep calc distances speedKmh maxCapacity) savings routes.

(** The savings of the basic algorithm:
    [distances[depotId][idI] + distances[depotId][idJ] - distances[idI][idJ]]
    for [i < j], sorted by [(a, b) => b.saving - a.saving]. *)
Fixpoint pairsOf {A : Type} (l : list A) : list (A * A) :=
  match l with
  | [] => []
  | x :: l' => map (fun y => (x, y)) l' ++ pairsOf l'
  end.

Definition basicSaving (distances : DistanceMatrix) (depot : Location)
    (p : Location * Location) : Q :=
  (entry distances (loc_id depot) (loc_id (fst p))
   + entry distances (loc_id depot) (loc_id (snd p))
   - entry distances (loc_id (fst p)) (loc_id (snd p)))%Q.

(** Savings sorted in descending order of [score]. *)
Definition sortedSavings (score : Location * Location -> Q) (nonDepot : list Location)
  : list (Id * Id) :=
  map (fun p => (loc_id (fst p), loc_id (snd p)))
      (sort_by (fun a b => if Qlt_le_dec (score a) (score b) then true else false)
               (pairsOf nonDepot)).

(** The routes of [clarkeWrightAlgorithm] after its savings phase. *)
Definition routesAfterSavings (calc : DistanceKernel) (vehicles : list Vehicle)
    (locations : list Location) (depot : Location) : list Route :=
  let distances := buildDistances calc locations in
  let nonDepot := nonDepotOf locations depot in
  savingsPhase calc distances SPEED_KMH (maxCapacityOf vehicles)
    (sortedSavings (basicSaving distances depot) nonDepot)
    (initialRoutes distances SPEED_KMH depot nonDepot).

(** [stops.slice(1, -1)]: the stops between the two depot stops. *)
Definition interior (sts : list Stop) : list Stop := removelast (drop 1 sts).

(** The demand a route carries: the sum over its interior stops. *)
Definition demandOf (sts : list Stop) : Z :=
  fold_right Z.add 0 (map demand (interior sts)).

(** What the savings phase maintains for every route: its [totalCapacity] is
    the demand of its stops, and a route of more than one customer respects
    the capacity gate. *)
Definition gated (maxCapacity : Z) (r : Route) : Prop :=
  (3 <= length (stops r))%nat /\
  totalCapacity r = demandOf (stops r) /\
  (length (stops r) = 3%nat \/ totalCapacity r <= maxCapacity).

(** The instances S3 and S4 of the specification: two customers of demand 3,
    respectively 8, and two vehicles of capacity 10. *)
Definition fleet10 : list Vehicle := [mkVehicle "V1" "Truck" 10 2].

Definition customerOf (id : string) (lon : Q) (dem : Z) : Location :=
  mkLocation id id (Num 0) (Num lon) dem false.

Definition instanceS3 : list Location := [depotD; customerOf "A" 1 3; customerOf "B" 2 3].
Definition instanceS4 : list Location := [depotD; customerOf "A" 1 8; customerOf "B" 2 8].

End ClarkeWright.

(** ** Vehicle assignment *)

(** A vehicle slot; [slot_ix] is the identity of the slot object (its place
    in the array built by [vehicles.forEach]), by which an assignment finds
    the object it marks as used. *)
Record VehicleSlot : Type := mkSlot {
  slot_ix : nat;
  slot_id : Id;
  slot_name : string;
  slot_capacity : Z;
  used : bool;
  currentLoad : Z
}.

(** [count = v.count || 1] slots per vehicle, each with
    [capacity: v.capacity || 0, used: false, currentLoad: 0]. *)
Definition slotsOf (v : Vehicle) : list VehicleSlot :=
  replicate (Z.to_nat (js_orZ (count v) 1))
    (mkSlot 0 (veh_id v) (veh_name v) (js_orZ (capacity v) 0) false 0).

Definition setIx (ix : nat) (vs : VehicleSlot) : VehicleSlot :=
  mkSlot ix (slot_id vs) (slot_name vs) (slot_capacity vs) (used vs) (currentLoad vs).

Definition expandSlots (vehicles : list Vehicle) : list VehicleSlot :=
  imap setIx (flat_map slotsOf vehicles).

(** [slot.used = true; slot.currentLoad += load] on the slot object [ix]. *)
Definition occupy (ix : nat) (load : Z) (slots : list VehicleSlot) : list VehicleSlot :=
  map (fun vs =>
         if Nat.eqb (slot_ix vs) ix
         then mkSlot (slot_ix vs) (slot_id vs) (slot_name vs) (slot_capacity vs)
                     true (currentLoad vs + load)
         else vs)
      slots.

Definition setVehicle (rt : Route) (vs : VehicleSlot) : Route :=
  {| vehicle := Some (slot_id vs); vehicleName := slot_name vs; stops := stops rt;
     distance := distance rt; duration := duration rt;
     totalCapacity := totalCapacity rt; capacityExceeded := capacityExceeded rt |}.

Module Assign.

(** [routes.sort((a, b) => (b.totalCapacity || 0) - (a.totalCapacity || 0))] *)
Definition sortRoutes (routes : list Route) : list Route :=
  sort_by (fun a b => js_orZ (totalCapacity a) 0 <? js_orZ (totalCapacity b) 0) routes.

(** [vehicleSlots.sort((a, b) => b.capacity - a.capacity)] *)
Definition sortSlots (slots : list VehicleSlot) : list VehicleSlot :=
  sort_by (fun a b => slot_capacity a <? slot_capacity b) slots.

(** [capacity - (currentLoad + (route.totalCapacity || 0))] *)
Definition slack (required : Z) (vs : VehicleSlot) : Z :=
  slot_capacity vs - (currentLoad vs + required).

(** [vehicleSlots.filter(...).sort(...)[0]]: the unused slot that fits with
    the least slack. *)
Definition bestSlot (slots : list VehicleSlot) (required : Z) : option VehicleSlot :=
  head
    (sort_by (fun a b => slack required b <? slack required a)
       (List.filter (fun vs => negb (used vs) && (required <=? slot_capacity vs)) slots)).

(** One iteration of [for (const route of routes)]. *)
Definition assignStep (acc : list Route * list VehicleSlot) (route : Route)
  : list Route * list VehicleSlot :=
  let required := js_orZ (totalCapacity route) 0 in
  match bestSlot (snd acc) required with
  | Some vs => (fst acc ++ [setVehicle route vs], occupy (slot_ix vs) required (snd acc))
  | None => (fst acc ++ [route], snd acc)
  end.

(** [assignVehiclesToRoutes]; [validateRoutes] only writes to the log. *)
Definition assignVehiclesToRoutes (routes : list Route) (vehicles : list Vehicle)
  : list Route :=
  fst (fold_left assignStep (sortRoutes routes) ([], sortSlots (expandSlots vehicles))).

(** The else branch of the third pass of [clarkeWrightAlgorithm]: a route
    with a single customer takes any unused slot that fits, or is flagged. *)
Definition setFlag (rt : Route) (flag : bool) : Route :=
  {| vehicle := vehicle rt; vehicleName := vehicleName rt; stops := stops rt;
     distance := distance rt; duration := duration rt;
     totalCapacity := totalCapacity rt; capacityExceeded := Some flag |}.

Definition assignSingleStop (slots : list VehicleSlot) (unassignedRoute : Route)
  : Route * list VehicleSlot :=
  let requiredCapacity := js_orZ (totalCapacity unassignedRoute) 0 in
  match List.find (fun vs => negb (used vs) && (requiredCapacity <=? slot_capacity vs)) slots with
  | Some slot =>
      (setFlag (setVehicle unassignedRoute slot) false,
       map (fun vs =>
              if Nat.eqb (slot_ix vs) (slot_ix slot)
              then mkSlot (slot_ix vs) (slot_id vs) (slot_name vs) (slot_capacity vs)
                          true requiredCapacity
              else vs)
           slots)
  | None =>
      ({| vehicle := None; vehicleName := "Unassigned - Insufficient Capacity";
          stops := stops unassignedRoute; distance := distance unassignedRoute;
          duration := duration unassignedRoute;
          totalCapacity := totalCapacity unassignedRoute;
          capacityExceeded := Some true |},
       slots)
  end.

(** The invariant of the specification for one route: with an assigned
    vehicle, the load is within that vehicle's capacity unless the route is
    flagged. *)
Definition capacityRespected (vehicles : list Vehicle) (r : Route) : Prop :=
  forall vid, vehicle r = Some vid ->
    capacityExceeded r = Some true \/
    exists v, In v vehicles /\ veh_id v = vid /\ totalCapacity r <= capacity v.

(** A slot stands for a vehicle of the fleet, with that vehicle's capacity. *)
Definition slotFrom (vehicles : list Vehicle) (vs : VehicleSlot) : Prop :=
  exists v, In v vehicles /\ veh_id v = slot_id vs /\ slot_capacity vs = capacity v.

End Assign.

(** ** Nearest Neighbor *)

Module NearestNeighbor.

(** The vehicle slots of this algorithm carry no [used] flag; the records of
    [expandSlots] are reused with the flag left [false]. *)

(** [calculateDistance(a.latitude, a.longitude, b.latitude, b.longitude)] *)
Definition dist (calc : DistanceKernel) (a b : Location) : Q :=
  calc (loc_latitude a) (loc_longitude a) (loc_latitude b) (loc_longitude b).

(** The inner [for (const loc of pending)]: the nearest location not yet
    used whose demand fits; ties keep the earlier one. *)
Definition pickNearest (calc : DistanceKernel) (pending : list Location)
    (usedIds : gset Id) (remaining : Z) (current : Location) : option Location :=
  fst (fold_left
         (fun (acc : option Location * ext) loc =>
            if bool_decide (loc_id loc ∈ usedIds) then acc
            else if js_orZ (loc_demand loc) 0 >? remaining then acc
            else
              let d := dist calc current loc in
              if ext_ltb (Fin d) (snd acc) then (Some loc, Fin d) else acc)
         pending (None, Infinity)).

(** The [while (true)] loop of one slot: the stops, the used ids and the
    counter [order] when it ends. Every turn marks one more pending location
    as used, so at most [length pending] turns occur; [fuel] counts them
    down. *)
Fixpoint fillRoute (fuel : nat) (calc : DistanceKernel) (pending : list Location)
    (usedIds : gset Id) (remaining : Z) (current : Location)
    (rtStops : list Stop) (ord : nat) : list Stop * gset Id * nat :=
  match fuel with
  | O => (rtStops, usedIds, ord)
  | S fuel' =>
      match pickNearest calc pending usedIds remaining current with
      | None => (rtStops, usedIds, ord)
      | Some best =>
          fillRoute fuel' calc pending ({[loc_id best]} ∪ usedIds)
            (remaining - js_orZ (loc_demand best) 0) best
            (rtStops ++ [stopOf best ord]) (S ord)
      end
  end.

(** [totalDist]: the kernel summed over consecutive stops. *)
Definition kernelLength (calc : DistanceKernel) (sts : list Stop) : Q :=
  sumLegs (fun a b => calc (latitude a) (longitude a) (latitude b) (longitude b)) sts.

(** The route closed for one slot, when it visited something. *)
Definition closeRoute (calc : DistanceKernel) (speedKmh : Q) (depot : Location)
    (vs : VehicleSlot) (rtStops : list Stop) (ord : nat) : Route :=
  let closed := rtStops ++ [stopOf depot ord] in
  let totalDist := kernelLength calc closed in
  {| vehicle := Some (slot_id vs); vehicleName := slot_name vs; stops := closed;
     distance := totalDist; duration := durationOf speedKmh totalDist;
     totalCapacity :=
       fold_left (fun s st => s + js_orZ (demand st) 0) closed 0
       - js_orZ (loc_demand depot) 0;
     capacityExceeded := None |}.

(** [for (const vs of vehicleSlots)], with the early [break] once every
    pending location is used. *)
Fixpoint slotPass (calc : DistanceKernel) (speedKmh : Q) (depot : Location)
    (pending : list Location) (slots : list VehicleSlot)
    (routes : list Route) (usedIds : gset Id) : list Route * gset Id :=
  match slots with
  | [] => (routes, usedIds)
  | vs :: rest =>
      let '(rtStops, usedIds', ord) :=
        fillRoute (length pending) calc pending usedIds (slot_capacity vs) depot
          [stopOf depot 0] 1 in
      let routes' :=
        if (1 <? length rtStops)%nat
        then routes ++ [closeRoute calc speedKmh depot vs rtStops ord]
        else routes in
      if Nat.eqb (size usedIds') (length pending) then (routes', usedIds')
      else slotPass calc speedKmh depot pending rest routes' usedIds'
  end.

(** The last loop: a location still unused gets a route of its own on the
    first slot whose capacity covers it. *)
Definition leftoverPass (calc : DistanceKernel) (speedKmh : Q) (depot : Location)
    (pending : list Location) (slots : list VehicleSlot)
    (state : list Route * gset Id) : list Route * gset Id :=
  fold_left
    (fun (st : list Route * gset Id) loc =>
       if bool_decide (loc_id loc ∈ snd st) then st
       else
         match List.find (fun v => js_orZ (loc_demand loc) 0 <=? js_orZ (slot_capacity v) 0)
                         slots with
         | None => st
         | Some vs =>
             let d := (dist calc depot loc * 2)%Q in
             (fst st ++
                [{| vehicle := Some (slot_id vs); vehicleName := slot_name vs;
                    stops := [stopOf depot 0; stopOf loc 1; stopOf depot 2];
                    distance := d; duration := durationOf speedKmh d;
                    totalCapacity := js_orZ (loc_demand loc) 0;
                    capacityExceeded := None |}],
              {[loc_id loc]} ∪ snd st)
         end)
    pending state.

Definition nearestNeighborAlgorithm (calc : DistanceKernel) (vehicles : list Vehicle)
    (locations : list Location) (depot : Location) : list Route :=
  let pending :=
    List.filter (fun l => negb (String.eqb (loc_id l) (loc_id depot))) locations in
  let vehicleSlots := expandSlots vehicles in
  fst (leftoverPass calc SPEED_KMH depot pending vehicleSlots
         (slotPass calc SPEED_KMH depot pending vehicleSlots [] ∅)).

(** An instance whose depot carries a demand of its own: depot demand 5, one
    customer of demand 8, one vehicle of capacity 10. *)
Definition depotWithDemand : Location := mkLocation "D" "Depot" (Num 0) (Num 0) 5 true.

Definition loadedInstance : list Location :=
  [depotWithDemand; mkLocation "A" "Customer A" (Num 0) (Num 1) 8 false].

Definition oneTruck : list Vehicle := [mkVehicle "V1" "Truck" 10 1].

End NearestNeighbor.

(** ** Genetic algorithm: random solutions, crossover, mutation *)

Module Genetic.

(** The slots of [createRandomSolution]: one per vehicle record (the count
    is not expanded), with the locations put on it so far. *)
Record Bin : Type := mkBin {
  bin_vehicle : Vehicle;
  bin_locations : list Location;
  bin_capacity : Z;
  usedCapacity : Z
}.

(** [vehicleSlots.find(slot => slot.usedCapacity + (location.demand || 0) <=
    slot.capacity)] followed by the two updates of the slot found. *)
Fixpoint place (location : Location) (bins : list Bin) : list Bin :=
  match bins with
  | [] => []
  | b :: rest =>
      if usedCapacity b + js_orZ (loc_demand location) 0 <=? bin_capacity b
      then mkBin (bin_vehicle b) (bin_locations b ++ [location]) (bin_capacity b)
                 (usedCapacity b + js_orZ (loc_demand location) 0) :: rest
      else b :: place location rest
  end.

Definition routeOfBin (distances : DistanceMatrix) (speedKmh : Q) (depot : Location)
    (b : Bin) : Route :=
  let sts :=
    stopOf depot 0
    :: imap (fun idx loc => stopOf loc (idx + 1)) (bin_locations b)
    ++ [stopOf depot (length (bin_locations b) + 1)] in
  let dist := sumLegs (legOrZero distances) sts in
  {| vehicle := Some (veh_id (bin_vehicle b)); vehicleName := veh_name (bin_vehicle b);
     stops := sts; distance := dist; duration := durationOf speedKmh dist;
     totalCapacity := usedCapacity b; capacityExceeded := None |}.

(** [createRandomSolution], for the order [shuffledLocations] in which the
    random sort left the non-depot locations. *)
Definition createRandomSolution (distances : DistanceMatrix) (speedKmh : Q)
    (vehicles : list Vehicle) (depot : Location) (shuffledLocations : list Location)
  : list Route :=
  let vehicleSlots :=
    map (fun v => mkBin v [] (js_orZ (capacity v) 0) 0) vehicles in
  let filled := fold_left (fun bins location => place location bins)
                          shuffledLocations vehicleSlots in
  map (routeOfBin distances speedKmh depot)
      (List.filter (fun b => (0 <? length (bin_locations b))%nat) filled).

(** The loop of [crossover]; [coins] holds the outcomes of
    [Math.random() < 0.5], one for every index at which both parents have a
    route (a missing outcome reads as [false]). *)
Fixpoint crossoverFrom (coins : list bool) (parent1 parent2 : list Route) : list Route :=
  match parent1, parent2 with
  | r1 :: rest1, r2 :: rest2 =>
      match coins with
      | c :: coins' => (if c then r1 else r2) :: crossoverFrom coins' rest1 rest2
      | [] => r2 :: crossoverFrom [] rest1 rest2
      end
  | _ :: _, [] => parent1
  | [], _ => parent2
  end.

Definition crossover (calc : DistanceKernel) (distances : DistanceMatrix) (speedKmh : Q)
    (coins : list bool) (parent1 parent2 : list Route) : list Route :=
  recomputeAllRouteMetrics calc distances speedKmh (crossoverFrom coins parent1 parent2).

(** [Math.floor(Math.random() * n)] for the drawn value [u]. *)
Definition randomIndex (u : Q) (n : nat) : nat := Z.to_nat (Qfloor (u * inject_Z (Z.of_nat n))).

(** [[a[i], a[j]] = [a[j], a[i]]] *)
Definition swapAt {A : Type} (i j : nat) (l : list A) : list A :=
  match l !! i, l !! j with
  | Some x, Some y => <[j := x]> (<[i := y]> l)
  | _, _ => l
  end.

(** [mutate], for the three drawn values. *)
Definition mutate (calc : DistanceKernel) (distances : DistanceMatrix) (speedKmh : Q)
    (u0 u1 u2 : Q) (solution : list Route) : list Route :=
  match solution with
  | [] => solution
  | _ :: _ =>
      let routeIndex := randomIndex u0 (length solution) in
      match solution !! routeIndex with
      | None => solution
      | Some route =>
          if (3 <? length (stops route))%nat then
            let stop1 := (randomIndex u1 (length (stops route) - 2) + 1)%nat in
            let stop2 := (randomIndex u2 (length (stops route) - 2) + 1)%nat in
            if Nat.eqb stop1 stop2 then solution
            else
              (* route.stops.forEach((stop, idx) => stop.order = idx) *)
              let swapped := renumber (swapAt stop1 stop2 (stops route)) in
              <[routeIndex :=
                  recomputeRouteMetricsInline calc distances speedKmh
                    (setStops route swapped)]> solution
          else solution
      end
  end.

(** Two vehicles of capacity 5 for the customers A and B of demand 5. *)
Definition twoVans : list Vehicle := [mkVehicle "V1" "Van 1" 5 1; mkVehicle "V2" "Van 2" 5 1].

End Genetic.

(** ** Route invariants of a solution *)

(** The ids of the non-depot stops of a solution, route after route. *)
Definition servedIds (depotId : Id) (solution : list Route) : list Id :=
  List.filter (fun id => negb (String.eqb id depotId))
    (flat_map (fun r => map locationId (stops r)) solution).

(** No location is served twice, on one route or on two. *)
Definition servedAtMostOnce (depotId : Id) (solution : list Route) : Prop :=
  NoDup (servedIds depotId solution).

(** Every stop's [order] is its index in [stops]: the orders read 0, 1, 2, ... *)
Definition ordersMatch (r : Route) : Prop :=
  map order (stops r) = seq 0 (length (stops r)).

(** The two parents of the crossover example: the random solutions for the
    shuffles A, B and B, A of the sample instance on two vans. *)
Definition parentAB : list Route :=
  Genetic.createRandomSolution sampleDistances SPEED_KMH Genetic.twoVans depotD
    [customerA; customerB].

Definition parentBA : list Route :=
  Genetic.createRandomSolution sampleDistances SPEED_KMH Genetic.twoVans depotD
    [customerB; customerA].

(** The child that takes route 0 from the first parent and route 1 from the
    second. *)
Definition childAA : list Route :=
  Genetic.crossover taxicab sampleDistances SPEED_KMH [true; false] parentAB parentBA.

(** ** Clarke-Wright: the second assignment pass

    The body of [for (const unassignedRoute of unassignedRoutes)] for the
    route at index [ui] of [routes]. The stop objects of the unassigned route
    are shared with the route they are merged into, so the renumbering of the
    merged stops also changes the [order] of the stops the unassigned route
    keeps. *)

Module Repair.

Definition setAssigned (rt : Route) (vs : VehicleSlot) (sts : list Stop) : Route :=
  {| vehicle := Some (slot_id vs); vehicleName := slot_name vs; stops := sts;
     distance := distance rt; duration := duration rt;
     totalCapacity := totalCapacity rt; capacityExceeded := Some false |}.

Definition setLoad (rt : Route) (sts : list Stop) (load : Z) : Route :=
  {| vehicle := vehicle rt; vehicleName := vehicleName rt; stops := sts;
     distance := distance rt; duration := duration rt;
     totalCapacity := load; capacityExceeded := capacityExceeded rt |}.

(** [r.vehicle && r.vehicle.toString() === availableSlot._id.toString()] *)
Definition drivenBy (vs : VehicleSlot) (r : Route) : bool :=
  match vehicle r with
  | Some vid => String.eqb vid (slot_id vs)
  | None => false
  end.

Definition packStep (calc : DistanceKernel) (distances : DistanceMatrix) (speedKmh : Q)
    (state : list Route * list VehicleSlot) (ui : nat) : list Route * list VehicleSlot :=
  let '(routes, vehicleSlots) := state in
  match routes !! ui with
  | None => state
  | Some unassignedRoute =>
      match vehicle unassignedRoute with
      | Some _ => state
      | None =>
          let requiredCapacity := js_orZ (totalCapacity unassignedRoute) 0 in
          match List.find
                  (fun vs => used vs
                             && (requiredCapacity <=? slot_capacity vs - currentLoad vs))
                  vehicleSlots with
          | None => state
          | Some availableSlot =>
              match ClarkeWright.findIndex (drivenBy availableSlot) routes with
              | None => state
              | Some ei =>
                  match routes !! ei with
                  | None => state
                  | Some existingRoute =>
                      let kept := removelast (stops existingRoute) in
                      let moved := ClarkeWright.interior (stops unassignedRoute) in
                      let depotStop := drop (length (stops existingRoute) - 1)
                                            (stops existingRoute) in
                      let newStops := renumber (kept ++ moved ++ depotStop) in
                      let existing' :=
                        recomputeRouteMetrics calc distances speedKmh
                          (setLoad existingRoute newStops
                             (js_orZ (totalCapacity existingRoute) 0 + requiredCapacity)) in
                      let shared :=
                        imap (fun t st => setOrder st (length kept + t)) moved in
                      let unassigned' :=
                        setAssigned unassignedRoute availableSlot
                          (take 1 (stops unassignedRoute) ++ shared
                           ++ drop (length (stops unassignedRoute) - 1)
                                   (stops unassignedRoute)) in
                      (<[ui := unassigned']> (<[ei := existing']> routes),
                       occupy (slot_ix availableSlot) requiredCapacity vehicleSlots)
                  end
              end
          end
      end
  end.

(** A state in which the pass merges: a route of demand 6 on the only slot
    (capacity 10) and an unassigned route of demand 4. *)
Definition slotUsed : VehicleSlot := mkSlot 0 "V1" "Truck" 10 true 6.

Definition routeOn (vid : option Id) (loc : Location) : Route :=
  {| vehicle := vid; vehicleName := "Truck";
     stops := [stopOf depotD 0; stopOf loc 1; stopOf depotD 2];
     distance := 0; duration := 0; totalCapacity := js_orZ (loc_demand loc) 0;
     capacityExceeded := None |}.

Definition stateBeforePack : list Route * list VehicleSlot :=
  ([routeOn (Some "V1") (ClarkeWright.customerOf "A" 1 6);
    routeOn None (ClarkeWright.customerOf "B" 2 4)],
   [slotUsed]).

End Repair.

(** ** Enhanced local search: 2-opt to a fixed point, then Or-opt *)

Module LocalSearch.

Definition improves (d bestD : Q) : bool := ThreeOpt.improves d bestD.

(** [[...seq.slice(0, i), ...seq.slice(i, k + 1).reverse(), ...seq.slice(k + 1)]] *)
Definition reverseSegment (i k : nat) (sq : list Stop) : list Stop :=
  take i sq ++ rev (ThreeOpt.slice i (k + 1) sq) ++ drop (k + 1) sq.

(** The pairs [(i, k)] of one sweep: [1 <= i < n - 2], [i < k < n - 1]. *)
Definition sweepPairs (n : nat) : list (nat * nat) :=
  flat_map (fun i => map (fun k => (i, k)) (seq (i + 1) (n - 1 - (i + 1))))
           (seq 1 (n - 2 - 1)).

(** One pass of the two [for] loops: the sequence, and [improved]. *)
Definition twoOptSweep (cost : list Stop -> Q) (sq : list Stop) : list Stop * bool :=
  fold_left
    (fun (st : list Stop * bool) p =>
       let newSeq := reverseSegment (fst p) (snd p) (fst st) in
       if improves (cost newSeq) (cost (fst st)) then (newSeq, true) else st)
    (sweepPairs (length sq)) (sq, false).

(** [while (improved) { ... }]; [None] when [fuel] sweeps did not reach a
    sweep without improvement. *)
Fixpoint twoOpt (fuel : nat) (cost : list Stop -> Q) (sq : list Stop)
  : option (list Stop) :=
  match fuel with
  | O => None
  | S fuel' =>
      let '(sq', improved) := twoOptSweep cost sq in
      if improved then twoOpt fuel' cost sq' else Some sq'
  end.

(** The body of the loop over [i] of Or-opt for one segment length: the
    segment and the rest are taken once, and every reinsertion that beats
    the current sequence replaces it. *)
Definition orOptAt (cost : list Stop -> Q) (len i : nat) (sq : list Stop) : list Stop :=
  let segment := ThreeOpt.slice i (i + len) sq in
  let remaining := take i sq ++ drop (i + len) sq in
  fold_left
    (fun cur j =>
       let newSeq := take j remaining ++ segment ++ drop j remaining in
       if improves (cost newSeq) (cost cur) then newSeq else cur)
    (seq 1 (length remaining - 1)) sq.

(** [for (let length = 1; length <= 3; length++)
      for (let i = 1; i < seq.length - length - 1; i++)] *)
Definition orOpt (cost : list Stop -> Q) (sq : list Stop) : list Stop :=
  fold_left
    (fun cur len =>
       fold_left (fun cur' i => orOptAt cost len i cur')
                 (seq 1 (length sq - len - 1 - 1)) cur)
    [1; 2; 3]%nat sq.

(** [enhancedLocalSearch]: routes of fewer than four stops are left alone. *)
Definition enhancedLocalSearch (fuel : nat) (calc : DistanceKernel)
    (distances : DistanceMatrix) (speedKmh : Q) (route : Route) : option Route :=
  if (length (stops route) <? 4)%nat then Some route
  else
    match twoOpt fuel (calcDist calc distances) (stops route) with
    | None => None
    | Some sq =>
        let sq' := orOpt (calcDist calc distances) sq in
        Some (recomputeRouteMetrics calc distances speedKmh (setStops route (renumber sq')))
    end.

End LocalSearch.

(** ** Enhanced Clarke-Wright, Tabu Search and Simulated Annealing *)

Module Tabu.

(** All of a list of optional results, or [None]. *)
Fixpoint allSome {A : Type} (l : list (option A)) : option (list A) :=
  match l with
  | [] => Some []
  | None :: _ => None
  | Some x :: l' => option_map (cons x) (allSome l')
  end.

(** [enhancedClarkeWrightAlgorithm]. The [saving] by which the savings are
    sorted involves [Math.atan2] and is taken as the function [score]; the
    best-fit assignment is the text of [assignVehiclesToRoutes]. *)
Definition enhancedClarkeWrightAlgorithm (fuel : nat) (calc : DistanceKernel)
    (score : Location * Location -> Q) (vehicles : list Vehicle)
    (locations : list Location) (depot : Location) : option (list Route) :=
  let distances := buildDistances calc locations in
  let nonDepot := ClarkeWright.nonDepotOf locations depot in
  let merged :=
    ClarkeWright.savingsPhase calc distances SPEED_KMH
      (ClarkeWright.maxCapacityOf vehicles)
      (ClarkeWright.sortedSavings score nonDepot)
      (ClarkeWright.initialRoutes distances SPEED_KMH depot nonDepot) in
  allSome (map (LocalSearch.enhancedLocalSearch fuel calc distances SPEED_KMH)
               (Assign.assignVehiclesToRoutes merged vehicles)).

(** The neighbours of [generateNeighbors] that swap two interior stops of
    the route at index [ri]. The stop records move as they are: their
    [order] is not touched. [take 1] and [drop (length - 1)] are
    [route.stops[0]] and [route.stops[route.stops.length - 1]];
    [solution.map(r => r === route ? newRoute : r)] replaces the route at its
    index. *)
Definition neighborsOfRoute (calc : DistanceKernel) (distances : DistanceMatrix)
    (speedKmh : Q) (solution : list Route) (ri : nat) (route : Route)
  : list (list Route) :=
  if (length (stops route) <? 4)%nat then []
  else
    let middleStops := ClarkeWright.interior (stops route) in
    flat_map
      (fun i =>
         map (fun j =>
                let newMiddle := Genetic.swapAt i j middleStops in
                let newRoute :=
                  setStops route
                    (take 1 (stops route) ++ newMiddle
                     ++ drop (length (stops route) - 1) (stops route)) in
                recomputeAllRouteMetrics calc distances speedKmh
                  (<[ri := newRoute]> solution))
             (seq (i + 1) (length middleStops - (i + 1))))
      (seq 0 (length middleStops - 1)).

(** [generateNeighbors]: at most the first 50. *)
Definition generateNeighbors (calc : DistanceKernel) (distances : DistanceMatrix)
    (speedKmh : Q) (solution : list Route) : list (list Route) :=
  take 50
    (concat (imap (neighborsOfRoute calc distances speedKmh solution) solution)).

(** The state of the main loop. *)
Record State : Type := mkState {
  currentSolution : list Route;
  bestSolution : list Route;
  bestCost : Q;
  tabuList : gmap string Q
}.

(** The scan of the neighbours: the cheapest one whose key is not tabu, the
    first such on ties. *)
Definition bestNeighbor (distances : DistanceMatrix) (tabu : gmap string Q)
    (neighbors : list (list Route)) : option (list Route) * ext :=
  fold_left
    (fun (acc : option (list Route) * ext) neighbor =>
       let cost := calculateTotalCost distances neighbor in
       if negb (isTabu tabu neighbor) && ext_ltb (Fin cost) (snd acc)
       then (Some neighbor, Fin cost) else acc)
    neighbors (None, Infinity).

(** One iteration; [None] is the [break]. *)
Definition iterate (calc : DistanceKernel) (distances : DistanceMatrix) (speedKmh : Q)
    (tabuTenure : Q) (st : State) (iteration : nat) : option State :=
  match bestNeighbor distances (tabuList st)
          (generateNeighbors calc distances speedKmh (currentSolution st)) with
  | (Some neighbor, Fin neighborCost) =>
      let better := if Qlt_le_dec neighborCost (bestCost st) then true else false in
      let expiry := (inject_Z (Z.of_nat iteration) + tabuTenure)%Q in
      let marked := <[generateSolutionKey neighbor := expiry]> (tabuList st) in
      Some {| currentSolution := neighbor;
              bestSolution := if better then neighbor else bestSolution st;
              bestCost := if better then neighborCost else bestCost st;
              tabuList :=
                (* entries with [expiry <= iteration] are deleted *)
                filter (fun kv => Qle_bool (snd kv) (inject_Z (Z.of_nat iteration)) = false)
                       marked |}
  | _ => None
  end.

(** [for (let iteration = 0; iteration < maxIterations; iteration++)] *)
Fixpoint mainLoop (calc : DistanceKernel) (distances : DistanceMatrix) (speedKmh : Q)
    (tabuTenure : Q) (iterations : list nat) (st : State) : State :=
  match iterations with
  | [] => st
  | iteration :: rest =>
      match iterate calc distances speedKmh tabuTenure st iteration with
      | None => st
      | Some st' => mainLoop calc distances speedKmh tabuTenure rest st'
      end
  end.

(** [Math.min(15, Math.max(5, n / 2))] and [Math.min(100, Math.max(20, n * 3))] *)
Definition tabuTenureOf (n : nat) : Q :=
  Qmin 15 (Qmax 5 (inject_Z (Z.of_nat n) / 2)).

Definition maxIterationsOf (n : nat) : nat := Nat.min 100 (Nat.max 20 (n * 3)).

(** [tabuSearchVRP]; [None] only when the local search of the seed ran out
    of [fuel]. *)
Definition tabuSearchVRP (fuel : nat) (calc : DistanceKernel)
    (score : Location * Location -> Q) (vehicles : list Vehicle)
    (locations : list Location) (depot : Location) : option (list Route) :=
  let distances := buildDistances calc locations in
  let nonDepot := ClarkeWright.nonDepotOf locations depot in
  match enhancedClarkeWrightAlgorithm fuel calc score vehicles locations depot with
  | None => None
  | Some seed =>
      let st :=
        mainLoop calc distances SPEED_KMH (tabuTenureOf (length nonDepot))
          (seq 0 (maxIterationsOf (length nonDepot)))
          {| currentSolution := seed; bestSolution := seed;
             bestCost := calculateTotalCost distances seed; tabuList := ∅ |} in
      Some (Assign.assignVehiclesToRoutes (bestSolution st) vehicles)
  end.

(** [generateNeighbor] of [simulatedAnnealingVRP], for the three drawn
    values. *)
Definition generateNeighbor (calc : DistanceKernel) (distances : DistanceMatrix)
    (speedKmh : Q) (u0 u1 u2 : Q) (solution : list Route) : list Route :=
  let neighbor :=
    if (2 <=? length solution)%nat then
      let routeIndex := Genetic.randomIndex u0 (length solution) in
      match solution !! routeIndex with
      | None => solution
      | Some route =>
          if (4 <=? length (stops route))%nat then
            let i := (Genetic.randomIndex u1 (length (stops route) - 3) + 1)%nat in
            let j := (Genetic.randomIndex u2 (length (stops route) - 3) + 1)%nat in
            if Nat.eqb i j then solution
            else <[routeIndex := setStops route (Genetic.swapAt i j (stops route))]> solution
          else solution
      end
    else solution in
  recomputeAllRouteMetrics calc distances speedKmh neighbor.

End Tabu.

(** *** A third sample instance: five customers around the depot

    Coordinates in degrees; [kmTable] holds the great-circle distances of the
    pairs in km, rounded to 0.001, and [scoreTable] the enhanced savings of
    the customer pairs (rounded to six decimals), both as the source computes
    them for these coordinates. One vehicle of capacity 10; every customer
    has demand 1. *)

Module TabuInstance.

Definition at_ (id : string) (lat lon : Q) (dep : bool) : Location :=
  mkLocation id id (Num lat) (Num lon) (if dep then 0 else 1) dep.

Definition depot : Location := at_ "D" 0 0 true.

Definition locations : list Location :=
  [ depot;
    at_ "P1" (1 # 100) (2 # 100) false;
    at_ "P2" 0 (1 # 100) false;
    at_ "P3" (-3 # 100) (1 # 100) false;
    at_ "P4" (-3 # 100) (-3 # 100) false;
    at_ "P5" (-1 # 100) 0 false ].

Definition vehicles : list Vehicle := [mkVehicle "V1" "Truck" 10 1].

Definition kmTable : list (string * string * Q) :=
  [ ("D", "P1", 2486 # 1000); ("D", "P2", 1112 # 1000); ("D", "P3", 3516 # 1000);
    ("D", "P4", 4718 # 1000); ("D", "P5", 1112 # 1000);
    ("P1", "P2", 1573 # 1000); ("P1", "P3", 4585 # 1000); ("P1", "P4", 7120 # 1000);
    ("P1", "P5", 3145 # 1000);
    ("P2", "P3", 3336 # 1000); ("P2", "P4", 5560 # 1000); ("P2", "P5", 1573 # 1000);
    ("P3", "P4", 4448 # 1000); ("P3", "P5", 2486 # 1000);
    ("P4", "P5", 4009 # 1000) ].

Definition scoreTable : list (string * string * Q) :=
  [ ("P3", "P4", 3776792 # 1000000); ("P3", "P5", 2149441 # 1000000);
    ("P1", "P2", 2084900 # 1000000); ("P4", "P5", 1807317 # 1000000);
    ("P1", "P3", 1448003 # 1000000); ("P2", "P3", 1328817 # 1000000);
    ("P2", "P5", 704921 # 1000000); ("P1", "P5", 484371 # 1000000);
    ("P2", "P4", 277652 # 1000000); ("P1", "P4", 85007 # 1000000) ].

(** The entry of an unordered pair of ids; 0 for a pair that is not listed
    (a location and itself). *)
Definition lookupPair (table : list (string * string * Q)) (a b : string) : Q :=
  match List.find (fun e => (String.eqb (fst (fst e)) a && String.eqb (snd (fst e)) b)
                            || (String.eqb (fst (fst e)) b && String.eqb (snd (fst e)) a))
                  table with
  | Some e => snd e
  | None => 0%Q
  end.

Definition sameCoordinate (c d : Coordinate) : bool :=
  match c, d with
  | Num x, Num y => Qeq_bool x y
  | _, _ => false
  end.

Definition idAt (lat lon : Coordinate) : string :=
  match List.find (fun l => sameCoordinate (loc_latitude l) lat
                            && sameCoordinate (loc_longitude l) lon) locations with
  | Some l => loc_id l
  | None => EmptyString
  end.

(** The kernel restricted to the points of the instance. *)
Definition km : DistanceKernel :=
  fun lat1 lon1 lat2 lon2 => lookupPair kmTable (idAt lat1 lon1) (idAt lat2 lon2).

Definition score (p : Location * Location) : Q :=
  lookupPair scoreTable (loc_id (fst p)) (loc_id (snd p)).

End TabuInstance.

(** A solution of two routes for the neighbour move of Simulated Annealing:
    the first visits P1, P2, P3 of the instance above. *)
Definition annealingSolution : list Route :=
  [ {| vehicle := Some "V1"; vehicleName := "Truck";
       stops := map (fun p => stopOf (fst p) (snd p))
                    [ (TabuInstance.depot, 0%nat);
                      (TabuInstance.at_ "P1" (1 # 100) (2 # 100) false, 1%nat);
                      (TabuInstance.at_ "P2" 0 (1 # 100) false, 2%nat);
                      (TabuInstance.at_ "P3" (-3 # 100) (1 # 100) false, 3%nat);
                      (TabuInstance.depot, 4%nat) ];
       distance := 0; duration := 0; totalCapacity := 3; capacityExceeded := None |};
    {| vehicle := Some "V2"; vehicleName := "Van";
       stops := map (fun p => stopOf (fst p) (snd p))
                    [ (TabuInstance.depot, 0%nat);
                      (TabuInstance.at_ "P5" (-1 # 100) 0 false, 1%nat);
                      (TabuInstance.depot, 2%nat) ];
       distance := 0; duration := 0; totalCapacity := 1; capacityExceeded := None |} ].

(** ** The great-circle kernel [calculateDistance]

    The function works on doubles. Here a number is a real, an infinity or
    NaN: finite arithmetic is exact, and the special values follow IEEE 754
    (an operation on NaN is NaN, the sine and cosine of an infinity are NaN,
    the square root of a negative number is NaN). *)

Module Geo.

Local Open Scope R_scope.

Inductive Number : Type :=
| Real (x : R)
| PosInf
| NegInf
| NotANumber.

Definition ofCoordinate (c : Coordinate) : Number :=
  match c with
  | Num q => Real (Q2R q)
  | PosInfinity => PosInf
  | NegInfinity => NegInf
  | NaN => NotANumber
  end.

Definition isNaN (x : Number) : bool :=
  match x with
  | NotANumber => true
  | _ => false
  end.

Definition neg (x : Number) : Number :=
  match x with
  | Real a => Real (- a)
  | PosInf => NegInf
  | NegInf => PosInf
  | NotANumber => NotANumber
  end.

Definition add (x y : Number) : Number :=
  match x, y with
  | NotANumber, _ | _, NotANumber => NotANumber
  | Real a, Real b => Real (a + b)
  | PosInf, NegInf | NegInf, PosInf => NotANumber
  | PosInf, _ | _, PosInf => PosInf
  | NegInf, _ | _, NegInf => NegInf
  end.

Definition sub (x y : Number) : Number := add x (neg y).

(** An infinity of the sign of [a], NaN for [a = 0]. *)
Definition signedInf (a : R) : Number :=
  if Rlt_dec 0 a then PosInf else if Rlt_dec a 0 then NegInf else NotANumber.

Definition mul (x y : Number) : Number :=
  match x, y with
  | NotANumber, _ | _, NotANumber => NotANumber
  | Real a, Real b => Real (a * b)
  | PosInf, Real b | Real b, PosInf => signedInf b
  | NegInf, Real b | Real b, NegInf => signedInf (- b)
  | PosInf, PosInf | NegInf, NegInf => PosInf
  | PosInf, NegInf | NegInf, PosInf => NegInf
  end.

(** Division by a finite non-zero constant. *)
Definition divBy (x : Number) (k : R) : Number := mul x (Real (/ k)).

Definition sin (x : Number) : Number :=
  match x with
  | Real a => Real (Rtrigo_def.sin a)
  | _ => NotANumber
  end.

Definition cos (x : Number) : Number :=
  match x with
  | Real a => Real (Rtrigo_def.cos a)
  | _ => NotANumber
  end.

Definition sqrt (x : Number) : Number :=
  match x with
  | Real a => if Rlt_dec a 0 then NotANumber else Real (R_sqrt.sqrt a)
  | PosInf => PosInf
  | _ => NotANumber
  end.

(** [x ** 2] *)
Definition square (x : Number) : Number := mul x x.

(** [Math.atan2(y, x)] on reals. *)
Definition atan2R (y x : R) : R :=
  if Rlt_dec 0 x then atan (y / x)
  else if Rlt_dec x 0 then
    (if Rle_dec 0 y then atan (y / x) + PI else atan (y / x) - PI)
  else if Rlt_dec 0 y then PI / 2
  else if Rlt_dec y 0 then - (PI / 2)
  else 0.

Definition atan2 (y x : Number) : Number :=
  match y, x with
  | NotANumber, _ | _, NotANumber => NotANumber
  | Real b, Real a => Real (atan2R b a)
  | Real b, PosInf => Real 0
  | Real b, NegInf => Real (if Rle_dec 0 b then PI else - PI)
  | PosInf, Real _ => Real (PI / 2)
  | NegInf, Real _ => Real (- (PI / 2))
  | PosInf, PosInf => Real (PI / 4)
  | NegInf, PosInf => Real (- (PI / 4))
  | PosInf, NegInf => Real (3 * PI / 4)
  | NegInf, NegInf => Real (- (3 * PI / 4))
  end.

(** [Math.round]: the greatest integer not above [x + 1/2]. *)
Definition round (x : Number) : Number :=
  match x with
  | Real a => Real (IZR (Int_part (a + / 2)))
  | other => other
  end.

(** [deg * Math.PI / 180] *)
Definition toRad (deg : Number) : Number := divBy (mul deg (Real PI)) 180.

Definition calculateDistance (lat1 lon1 lat2 lon2 : Coordinate) : Number :=
  let lat1 := ofCoordinate lat1 in
  let lon1 := ofCoordinate lon1 in
  let lat2 := ofCoordinate lat2 in
  let lon2 := ofCoordinate lon2 in
  if isNaN lat1 || isNaN lon1 || isNaN lat2 || isNaN lon2 then Real 0
  else
    let R_km := Real 6371 in
    let dLat := toRad (sub lat2 lat1) in
    let dLon := toRad (sub lon2 lon1) in
    let a :=
      add (square (sin (divBy dLat 2)))
          (mul (mul (cos (toRad lat1)) (cos (toRad lat2)))
               (square (sin (divBy dLon 2)))) in
    let c := mul (Real 2) (atan2 (sqrt a) (sqrt (sub (Real 1) a))) in
    divBy (round (mul (mul R_km c) (Real 1000))) 1000.

(** The haversine formula as the specification names it: the great-circle
    distance on a sphere of radius 6371 km between two points given in
    degrees, [2 r asin (sqrt h)], and its rounding to 0.001 km. *)
Definition radians (deg : R) : R := deg * PI / 180.

Definition haversine (lat1 lon1 lat2 lon2 : R) : R :=
  (Rtrigo_def.sin ((radians lat2 - radians lat1) / 2))²
  + Rtrigo_def.cos (radians lat1) * Rtrigo_def.cos (radians lat2)
    * (Rtrigo_def.sin ((radians lon2 - radians lon1) / 2))².

Definition greatCircleKm (lat1 lon1 lat2 lon2 : R) : R :=
  6371 * (2 * asin (R_sqrt.sqrt (haversine lat1 lon1 lat2 lon2))).

Definition roundToMetres (km : R) : R := IZR (Int_part (km * 1000 + / 2)) / 1000.

Definition isInfinite (c : Coordinate) : bool :=
  match c with
  | PosInfinity | NegInfinity => true
  | _ => false
  end.

Definition isNaNCoordinate (c : Coordinate) : bool :=
  match c with
  | NaN => true
  | _ => false
  end.

End Geo.

(** ** Route metrics in double precision

    What [recomputeRouteMetrics] and [recomputeAllRouteMetrics] leave in
    [distance] and [duration] depends on the rounding of every addition,
    so the two functions are modelled here once more with a matrix, a
    running sum and metrics that are doubles. *)

Module Metrics.
Import Double.

Abbreviation Matrix := (gmap string (gmap string Coordinate)).

Abbreviation Kernel :=
  (Coordinate -> Coordinate -> Coordinate -> Coordinate -> Coordinate).

Definition buildRow (calc : Kernel) (l1 : Location) (locations : list Location)
  : gmap string Coordinate :=
  fold_left
    (fun row l2 =>
       <[loc_id l2 := calc (loc_latitude l1) (loc_longitude l1)
                           (loc_latitude l2) (loc_longitude l2)]> row)
    locations ∅.

Definition buildDistances (calc : Kernel) (locations : list Location) : Matrix :=
  fold_left (fun m l1 => <[loc_id l1 := buildRow calc l1 locations]> m) locations ∅.

(** [distances[a]?.[b]] *)
Definition matrixEntry (distances : Matrix) (a b : Id) : option Coordinate :=
  match distances !! a with
  | Some row => row !! b
  | None => None
  end.

(** [distances[fromId]?.[toIdStr] ?? calculateDistance(...)] *)
Definition legNullish (calc : Kernel) (distances : Matrix) (from to : Stop) : Coordinate :=
  match matrixEntry distances (locationId from) (locationId to) with
  | Some d => d
  | None => calc (latitude from) (longitude from) (latitude to) (longitude to)
  end.

(** [distances[fromId]?.[toIdStr] || calculateDistance(...)] *)
Definition legOr (calc : Kernel) (distances : Matrix) (from to : Stop) : Coordinate :=
  match matrixEntry distances (locationId from) (locationId to) with
  | Some d =>
      if truthy d then d
      else calc (latitude from) (longitude from) (latitude to) (longitude to)
  | None => calc (latitude from) (longitude from) (latitude to) (longitude to)
  end.

(** [let dist = 0; for (let k = 0; k < stops.length - 1; k++) dist += leg(...)] *)
Definition sumLegs (leg : Stop -> Stop -> Coordinate) (stops : list Stop) : Coordinate :=
  fold_left
    (fun dist k =>
       match stops !! k, stops !! S k with
       | Some from, Some to => add dist (leg from to)
       | _, _ => dist
       end)
    (seq 0 (length stops - 1)) (Num 0).

(** [Math.round((dist / speedKmh) * 60)] *)
Definition durationOf (speedKmh dist : Coordinate) : Coordinate :=
  round (mul (div dist speedKmh) (Num 60)).

Record Route : Type := mkRoute {
  vehicle : option Id;
  vehicleName : string;
  stops : list Stop;
  distance : Coordinate;
  duration : Coordinate;
  totalCapacity : Z;
  capacityExceeded : option bool
}.

Definition setMetrics (rt : Route) (dist dur : Coordinate) : Route :=
  {| vehicle := vehicle rt; vehicleName := vehicleName rt; stops := stops rt;
     distance := dist; duration := dur; totalCapacity := totalCapacity rt;
     capacityExceeded := capacityExceeded rt |}.

(** [recomputeRouteMetrics], the closure of both Clarke-Wright variants. *)
Definition recomputeRouteMetrics (calc : Kernel) (distances : Matrix)
    (speedKmh : Coordinate) (rt : Route) : Route :=
  let dist := sumLegs (legNullish calc distances) (stops rt) in
  setMetrics rt dist (durationOf speedKmh dist).

(** [recomputeAllRouteMetrics]: [solution.forEach(route => ...)]. *)
Definition recomputeAllRouteMetrics (calc : Kernel) (distances : Matrix)
    (speedKmh : Coordinate) (solution : list Route) : list Route :=
  map (fun route =>
         let dist := sumLegs (legOr calc distances) (stops route) in
         setMetrics route dist (durationOf speedKmh dist))
      solution.

(** The sum of the matrix entries over consecutive stop pairs in exact
    arithmetic, as the route invariant of the specification states it;
    [None] when an entry is absent or not a finite number. *)
Fixpoint exactPathLength (distances : Matrix) (sts : list Stop) : option Q :=
  match sts with
  | a :: (b :: _) as rest =>
      match matrixEntry distances (locationId a) (locationId b),
            exactPathLength distances rest with
      | Some (Num d), Some total => Some (d + total)%Q
      | _, _ => None
      end
  | _ => Some 0%Q
  end.

(** The legs the loop of [sumLegs] adds up, in its order. *)
Fixpoint legsOf (leg : Stop -> Stop -> Coordinate) (sts : list Stop) : list Coordinate :=
  match sts with
  | a :: (b :: _) as rest => leg a b :: legsOf leg rest
  | _ => []
  end.

(** A route after its metrics were recomputed: nothing but [distance] and
    [duration] differs. *)
Definition sameButMetrics (r r' : Route) : Prop :=
  vehicle r' = vehicle r /\ vehicleName r' = vehicleName r /\ stops r' = stops r /\
  totalCapacity r' = totalCapacity r /\ capacityExceeded r' = capacityExceeded r.

(** What the specification asks of the metrics of [r'], a route over the
    stops of [r]: [distance] is within 1e-6 of the exact sum of the matrix
    entries, and [duration] is the integer nearest (a half going up) to the
    double [x] that [distance / 40 * 60] evaluates to, itself within 1e-8
    of one and a half times the distance. *)
Definition metricsMatch (distances : Matrix) (r r' : Route) : Prop :=
  exists (total dist x : Q) (minutes : Z),
    exactPathLength distances (stops r) = Some total /\
    distance r' = Num dist /\
    (total - (1 # 1000000) <= dist <= total + (1 # 1000000))%Q /\
    mul (div (distance r') (Num 40)) (Num 60) = Num x /\
    ((3 # 2) * dist - (1 # 100000000) <= x <= (3 # 2) * dist + (1 # 100000000))%Q /\
    duration r' = Num (inject_Z minutes) /\
    (inject_Z minutes - (1 # 2) <= x < inject_Z minutes + (1 # 2))%Q.

(** The routes the claim on the metrics is stated for: stops that
    denormalise locations of the instance, at most 1000 of them, and a path
    of at most 4,000,000 km by the matrix. *)
Definition inRange (locations : list Location) (distances : Matrix) (r : Route) : Prop :=
  Forall (stopFrom locations) (stops r) /\ (length (stops r) <= 1000)%nat /\
  forall total, exactPathLength distances (stops r) = Some total -> (total <= 4000000)%Q.

(** A kernel that puts 20.5 km between two points of different longitude,
    and the round trip depot, customer A, depot on it: 41 km. *)
Definition farKernel : Kernel :=
  fun lat1 lon1 lat2 lon2 =>
    match lon1, lon2 with
    | Num a, Num b => if Qeq_bool a b then Num 0 else Num (41 # 2)
    | _, _ => NaN
    end.

Definition farTrip : Route :=
  {| vehicle := Some "V1"; vehicleName := "Truck";
     stops := [stopOf depotD 0; stopOf customerA 1; stopOf depotD 2];
     distance := Num 0; duration := Num 0; totalCapacity := 5;
     capacityExceeded := None |}.

End Metrics.

(** ** Well-formed tours

    The stop list every constructive algorithm builds for a vehicle: the
    depot, the customers in the order given, the depot again, with the
    [order] fields 0, 1, ..., n + 1. *)
Definition tourStops (depot : Location) (picked : list Location) : list Stop :=
  stopOf depot 0
  :: imap (fun idx loc => stopOf loc (S idx)) picked
  ++ [stopOf depot (S (length picked))].

(** The demand of a list of customers, each read as [loc.demand || 0]. *)
Definition sumDemand (picked : list Location) : Z :=
  fold_right Z.add 0 (map (fun loc => js_orZ (loc_demand loc) 0) picked).

(** A route with nothing in it, the default when a list of routes is read
    by position. *)
Definition noRoute : Route :=
  {| vehicle := None; vehicleName := EmptyString; stops := []; distance := 0;
     duration := 0; totalCapacity := 0; capacityExceeded := None |}.

(** ** What vehicle assignment touches

    [tripOf]: the fields of a route that an assignment leaves alone.
    [routesOf] and [slotsOfId]: the routes a vehicle id drives in a
    solution, and the slots the fleet holds for that id. *)
Definition tripOf (r : Route) : list Stop * Q * Z * Z * option bool :=
  (stops r, distance r, duration r, totalCapacity r, capacityExceeded r).

Definition routesOf (vid : Id) (solution : list Route) : list Route :=
  List.filter
    (fun r => match vehicle r with Some id => String.eqb id vid | None => false end)
    solution.

Definition slotsOfId (vid : Id) (vehicles : list Vehicle) : list VehicleSlot :=
  List.filter (fun vs => String.eqb (slot_id vs) vid) (expandSlots vehicles).

(** ** Local search on a route

    [rearranges sq sq']: [sq'] holds the stops of [sq] in some order, with
    the first and the last stop where they were. *)
Definition rearranges (sq sq' : list Stop) : Prop :=
  Permutation sq' sq /\ head sq' = head sq /\ last sq' = last sq.

(** [improveRouteWithLocalSearch]: 2-opt to a fixed point, one 3-opt pass
    and, when that pass changed the sequence, 2-opt again; then the stops
    are renumbered and the metrics recomputed. Routes of fewer than three
    stops are left alone. [None] when a 2-opt loop ran out of [fuel]. *)
Definition improveRouteWithLocalSearch (fuel : nat) (calc : DistanceKernel)
    (distances : DistanceMatrix) (speedKmh : Q) (route : Route) : option Route :=
  if (length (stops route) <? 3)%nat then Some route
  else
    let rebuild sq :=
      recomputeRouteMetrics calc distances speedKmh (setStops route (renumber sq)) in
    match LocalSearch.twoOpt fuel (calcDist calc distances) (stops route) with
    | None => None
    | Some sq =>
        match ThreeOpt.threeOptOnce (calcDist calc distances) sq with
        | Some sq3 =>
            match LocalSearch.twoOpt fuel (calcDist calc distances) sq3 with
            | None => None
            | Some sq' => Some (rebuild sq')
            end
        | None => Some (rebuild sq)
        end
    end.

(** A number of sweeps that suffices for the 2-opt loop on [sq] when no
    sequence has a negative length: every sweep but the last shortens the
    sequence by more than the tolerance. *)
Definition sweepBound (cost : list Stop -> Q) (sq : list Stop) : nat :=
  S (Z.to_nat (Qceiling (cost sq / ThreeOpt.tolerance))).

(** The grid tour as the route of a vehicle. *)
Definition gridRoute : Route :=
  {| vehicle := Some "V1"; vehicleName := "Truck"; stops := gridTour; distance := 0;
     duration := 0; totalCapacity := 4; capacityExceeded := None |}.

(** [searched r r']: [r'] is the route [r] after a local search: the same
    vehicle, load and flag, and either nothing changed or the stops were
    rearranged between the two ends and renumbered. *)
Definition searched (r r' : Route) : Prop :=
  vehicle r' = vehicle r /\ totalCapacity r' = totalCapacity r /\
  capacityExceeded r' = capacityExceeded r /\
  (r' = r \/ exists sq', rearranges (stops r) sq' /\ stops r' = renumber sq').

(** ** Tabu Search and Simulated Annealing: what a swap keeps *)

(** A route after swaps of its stops: the same vehicle, load and flag, and
    the same stops between the same first and last stop, in another order. *)
Definition moved (r r' : Route) : Prop :=
  vehicle r' = vehicle r /\ totalCapacity r' = totalCapacity r /\
  capacityExceeded r' = capacityExceeded r /\ rearranges (stops r) (stops r').

(** ** Simulated Annealing: the loop *)

Module Annealing.

(** What one iteration of the inner loop draws: the three values of
    [generateNeighbor], and whether
    [Math.random() < Math.exp(-costDifference / temperature)] held (the
    source evaluates it only when the cost difference is not negative). *)
Record Draw : Type := mkDraw { u0 : Q; u1 : Q; u2 : Q; lucky : bool }.

(** [Math.random()] yields a value in [0, 1). *)
Definition unitDraw (d : Draw) : Prop :=
  (0 <= u0 d < 1)%Q /\ (0 <= u1 d < 1)%Q /\ (0 <= u2 d < 1)%Q.

Record State : Type := mkState {
  currentSolution : list Route;
  currentCost : Q;
  bestSolution : list Route;
  bestCost : Q
}.

(** The body of [for (let i = 0; i < maxIterations; i++)]. *)
Definition step (calc : DistanceKernel) (distances : DistanceMatrix) (speedKmh : Q)
    (st : State) (d : Draw) : State :=
  let neighbor :=
    Tabu.generateNeighbor calc distances speedKmh (u0 d) (u1 d) (u2 d)
      (currentSolution st) in
  let neighborCost := calculateTotalCost distances neighbor in
  let costDifference := (neighborCost - currentCost st)%Q in
  if (if Qlt_le_dec costDifference 0 then true else false) || lucky d then
    let better := if Qlt_le_dec neighborCost (bestCost st) then true else false in
    {| currentSolution := neighbor; currentCost := neighborCost;
       bestSolution := if better then neighbor else bestSolution st;
       bestCost := if better then neighborCost else bestCost st |}
  else st.

Definition initialTemperature : Q := 1000.
Definition coolingRate : Q := 95 # 100.
Definition minTemperature : Q := 1.

(** [Math.min(200, Math.max(50, nonDepot.length * 5))] *)
Definition maxIterationsOf (n : nat) : nat := Nat.min 200 (Nat.max 50 (n * 5)).

(** [while (temperature > minTemperature) { ...; temperature *= coolingRate }]:
    the temperatures at which the inner loop runs; [None] when [fuel] rounds
    did not bring the temperature down to [minTemperature]. *)
Fixpoint coolingSchedule (fuel : nat) (temperature : Q) : option (list Q) :=
  match fuel with
  | O => None
  | S fuel' =>
      if Qlt_le_dec minTemperature temperature
      then option_map (cons temperature) (coolingSchedule fuel' (temperature * coolingRate))
      else Some []
  end.

(** The two loops; [draws k] is what iteration [k] draws, counted over all
    rounds. *)
Definition anneal (calc : DistanceKernel) (distances : DistanceMatrix) (speedKmh : Q)
    (maxIterations : nat) (draws : nat -> Draw) (rounds : nat) (st : State) : State :=
  fold_left
    (fun st round =>
       fold_left
         (fun st i => step calc distances speedKmh st (draws (round * maxIterations + i)%nat))
         (seq 0 maxIterations) st)
    (seq 0 rounds) st.

(** [simulatedAnnealingVRP]; [None] only when the local search of the seed
    or the cooling ran out of [fuel]. *)
Definition simulatedAnnealingVRP (fuel : nat) (calc : DistanceKernel)
    (score : Location * Location -> Q) (vehicles : list Vehicle)
    (locations : list Location) (depot : Location) (draws : nat -> Draw)
  : option (list Route) :=
  let distances := buildDistances calc locations in
  let nonDepot := ClarkeWright.nonDepotOf locations depot in
  match Tabu.enhancedClarkeWrightAlgorithm fuel calc score vehicles locations depot,
        coolingSchedule fuel initialTemperature with
  | Some seed, Some temperatures =>
      let cost := calculateTotalCost distances seed in
      let st :=
        anneal calc distances SPEED_KMH (maxIterationsOf (length nonDepot)) draws
          (length temperatures)
          {| currentSolution := seed; currentCost := cost;
             bestSolution := seed; bestCost := cost |} in
      Some (Assign.assignVehiclesToRoutes (bestSolution st) vehicles)
  | _, _ => None
  end.

End Annealing.

(** ** Invariants of the two loops *)

(** What the loop keeps: the current and the best solution are the seed with
    stops moved, and the best cost is the cost of the best solution and not
    above the seed's. *)
Definition tabuInv (distances : DistanceMatrix) (seed : list Route) (st : Tabu.State) : Prop :=
  Forall2 moved seed (Tabu.currentSolution st) /\
  Forall2 moved seed (Tabu.bestSolution st) /\
  Tabu.bestCost st = calculateTotalCost distances (Tabu.bestSolution st) /\
  (Tabu.bestCost st <= calculateTotalCost distances seed)%Q.

Definition annealInv (distances : DistanceMatrix) (seed : list Route) (st : Annealing.State) : Prop :=
  Forall2 moved seed (Annealing.currentSolution st) /\
  Forall2 moved seed (Annealing.bestSolution st) /\
  Annealing.bestCost st = calculateTotalCost distances (Annealing.bestSolution st) /\
  (Annealing.bestCost st <= calculateTotalCost distances seed)%Q.

(** With fewer than two routes no step changes the stops of the current
    solution, and the best solution stays the seed. *)
Definition idleInv (distances : DistanceMatrix) (seed : list Route) (st : Annealing.State) : Prop :=
  map stops (Annealing.currentSolution st) = map stops seed /\
  Annealing.bestSolution st = seed /\
  Annealing.bestCost st = calculateTotalCost distances seed.

(** ** Ant Colony Optimization *)

Module AntColony.

(** [for (let i = n - 1; i > 0; i--) { j = Math.floor(Math.random() * (i + 1));
    swap i and j }], the values drawn being [draws k], [draws (k + 1)], ... *)
Fixpoint shuffleFrom {A : Type} (i k : nat) (draws : nat -> Q) (l : list A) : list A :=
  match i with
  | O => l
  | S i' =>
      shuffleFrom i' (S k) draws
        (Genetic.swapAt i (Genetic.randomIndex (draws k) (i + 1)) l)
  end.

Definition shuffle {A : Type} (draws : nat -> Q) (l : list A) : list A :=
  shuffleFrom (length l - 1) 0 draws l.

(** [slot.usedCapacity + (location.demand || 0) <= slot.capacity] *)
Definition fits (location : Location) (slot : Genetic.Bin) : bool :=
  Genetic.usedCapacity slot + js_orZ (loc_demand location) 0 <=? Genetic.bin_capacity slot.

(** [slot.locations.push(location); slot.usedCapacity += location.demand || 0] *)
Definition put (location : Location) (slot : Genetic.Bin) : Genetic.Bin :=
  Genetic.mkBin (Genetic.bin_vehicle slot) (Genetic.bin_locations slot ++ [location])
    (Genetic.bin_capacity slot)
    (Genetic.usedCapacity slot + js_orZ (loc_demand location) 0).

(** The body of [for (const location of nonDepot)]: the slots, the
    [currentVehicleIndex] and the set [assignedLocations]. The first loop
    looks at the slots before index [Math.min(vehicleSlots.length,
    currentVehicleIndex + 1)] and stops at the first that fits; the second
    block looks at the slot at [currentVehicleIndex]. *)
Definition antStep (st : list Genetic.Bin * nat * gset Id) (location : Location)
  : list Genetic.Bin * nat * gset Id :=
  let '(vehicleSlots, currentVehicleIndex, assignedLocations) := st in
  if bool_decide (loc_id location ∈ assignedLocations) then st
  else
    let reach := Nat.min (length vehicleSlots) (currentVehicleIndex + 1) in
    if existsb (fits location) (take reach vehicleSlots) then
      (Genetic.place location (take reach vehicleSlots) ++ drop reach vehicleSlots,
       currentVehicleIndex, {[loc_id location]} ∪ assignedLocations)
    else if (currentVehicleIndex <? length vehicleSlots)%nat then
      match vehicleSlots !! currentVehicleIndex with
      | Some slot =>
          if fits location slot
          then (<[currentVehicleIndex := put location slot]> vehicleSlots,
                S currentVehicleIndex, {[loc_id location]} ∪ assignedLocations)
          else st
      | None => st
      end
    else st.

(** [vehicles.map(v => ({ vehicle: v, locations: [], capacity: v.capacity || 0,
    usedCapacity: 0 }))] *)
Definition emptySlot (v : Vehicle) : Genetic.Bin :=
  Genetic.mkBin v [] (js_orZ (capacity v) 0) 0.

(** [constructAntSolution]; [None] is [null]. The parameters [pheromones],
    [alpha], [beta] and [maxCapacity] are not read by the source function.
    The duration is computed with the literal 40. *)
Definition constructAntSolution (distances : DistanceMatrix) (vehicles : list Vehicle)
    (locations : list Location) (depot : Location) (draws : nat -> Q) : option Route :=
  let nonDepot := shuffle draws (ClarkeWright.nonDepotOf locations depot) in
  let vehicleSlots := map emptySlot vehicles in
  let filled := fst (fst (fold_left antStep nonDepot (vehicleSlots, 0%nat, ∅))) in
  head (map (Genetic.routeOfBin distances 40 depot)
            (List.filter (fun b => (0 <? length (Genetic.bin_locations b))%nat) filled)).

(** [Math.min(20, Math.max(5, n))] and [Math.min(50, Math.max(10, n * 2))] *)
Definition numAntsOf (n : nat) : nat := Nat.min 20 (Nat.max 5 n).
Definition numIterationsOf (n : nat) : nat := Nat.min 50 (Nat.max 10 (n * 2)).

(** The body of [for (let ant = 0; ant < numAnts; ant++)] for the solution
    the ant constructed: [bestSolution] and [bestCost]. *)
Definition antBest (distances : DistanceMatrix) (acc : option Route * ext)
    (solution : option Route) : option Route * ext :=
  match solution with
  | Some route =>
      let cost := calculateTotalCost distances [route] in
      if ext_ltb (Fin cost) (snd acc) then (Some route, Fin cost) else acc
  | None => acc
  end.

(** [antColonyOptimizationVRP]; [draws a] are the values the ant number [a]
    draws, the ants counted over all iterations. [updatePheromones] writes
    to the pheromone table only, which nothing else reads. *)
Definition antColonyOptimizationVRP (calc : DistanceKernel) (vehicles : list Vehicle)
    (locations : list Location) (depot : Location) (draws : nat -> nat -> Q)
  : list Route :=
  let distances := buildDistances calc locations in
  let nonDepot := ClarkeWright.nonDepotOf locations depot in
  let numAnts := numAntsOf (length nonDepot) in
  let numIterations := numIterationsOf (length nonDepot) in
  let best :=
    fold_left
      (fun acc iteration =>
         fold_left
           (fun acc ant =>
              antBest distances acc
                (constructAntSolution distances vehicles locations depot
                   (draws (iteration * numAnts + ant)%nat)))
           (seq 0 numAnts) acc)
      (seq 0 numIterations) (None, Infinity) in
  match fst best with
  | Some bestSolution => [bestSolution]
  | None => []
  end.

End AntColony.

(** What the routes of the first slot look like: a tour over customers
    [picked] of the instance, each at most once, on the first vehicle and
    within its capacity. *)
Definition firstVehicleTour (vehicles : list Vehicle) (locations : list Location)
    (depot : Location) (r : Route) : Prop :=
  exists v0 rest picked,
    vehicles = v0 :: rest /\
    vehicle r = Some (veh_id v0) /\ vehicleName r = veh_name v0 /\
    stops r = tourStops depot picked /\ picked <> [] /\
    (forall l, In l picked -> In l (ClarkeWright.nonDepotOf locations depot)) /\
    NoDup (map loc_id picked) /\
    totalCapacity r = sumDemand picked /\
    sumDemand picked <= js_orZ (capacity v0) 0.

(** With a fleet [v0 :: rest], what the loop of [constructAntSolution] keeps
    over the locations [seen] so far: the index of the current vehicle stays
    0 and only the first slot is filled. *)
Definition antInv (v0 : Vehicle) (rest : list Vehicle) (seen : list Location)
    (st : list Genetic.Bin * nat * gset Id) : Prop :=
  let cap0 := js_orZ (capacity v0) 0 in
  exists picked,
    st = (Genetic.mkBin v0 picked cap0 (sumDemand picked) :: map AntColony.emptySlot rest,
          0%nat, list_to_set (map loc_id picked)) /\
    NoDup (map loc_id picked) /\
    (forall l, In l picked -> In l seen) /\
    (picked <> [] -> sumDemand picked <= cap0) /\
    (picked <> [] -> exists l, In l seen /\ js_orZ (loc_demand l) 0 <= cap0) /\
    (picked = [] -> forall l, In l seen -> cap0 < js_orZ (loc_demand l) 0).

(** No customer fits the first vehicle, or there is no vehicle. *)
Definition nothingFits (vehicles : list Vehicle) (locations : list Location)
    (depot : Location) : Prop :=
  match vehicles with
  | [] => True
  | v0 :: _ =>
      forall l, In l (ClarkeWright.nonDepotOf locations depot) ->
                js_orZ (capacity v0) 0 < js_orZ (loc_demand l) 0
  end.

(** The best solution after [n] ants. *)
Definition antBestInv (vehicles : list Vehicle) (locations : list Location)
    (depot : Location) (n : nat) (acc : option Route * ext) : Prop :=
  (acc = (None, Infinity) /\ ((0 < n)%nat -> nothingFits vehicles locations depot)) \/
  (exists r c, acc = (Some r, Fin c) /\
               firstVehicleTour vehicles locations depot r /\
               ~ nothingFits vehicles locations depot).

(** ** The genetic algorithm: selection and the generations *)

Module GeneticSearch.

(** What the construction of one offspring draws, in the order of the calls
    of [Math.random]: three values for each of the two tournaments, the value
    compared with [crossoverRate], the outcomes of [Math.random() < 0.5] in
    [crossover], the value compared with [mutationRate], and the three
    values of [mutate]. *)
Record Brood : Type := mkBrood {
  firstPicks : Q * Q * Q;
  secondPicks : Q * Q * Q;
  crossoverDraw : Q;
  coins : list bool;
  mutationDraw : Q;
  swapDraws : Q * Q * Q
}.

Definition unit (u : Q) : Prop := (0 <= u < 1)%Q.

Definition unit3 (us : Q * Q * Q) : Prop :=
  unit (fst (fst us)) /\ unit (snd (fst us)) /\ unit (snd us).

(** [Math.random()] yields values in [0, 1). *)
Definition unitBrood (b : Brood) : Prop :=
  unit3 (firstPicks b) /\ unit3 (secondPicks b) /\ unit3 (swapDraws b).

Definition crossoverRate : Q := 8 # 10.
Definition mutationRate : Q := 1 # 10.

(** [calculateTotalCost(a, distances) < calculateTotalCost(b, distances)] *)
Definition cheaper (distances : DistanceMatrix) (a b : list Route) : bool :=
  if Qlt_le_dec (calculateTotalCost distances a) (calculateTotalCost distances b)
  then true else false.

(** [population.reduce((best, current) => cost(current) < cost(best) ? current : best)];
    [None] is the [TypeError] of [reduce] on an empty array. *)
Definition fittest (distances : DistanceMatrix) (population : list (list Route))
  : option (list Route) :=
  match population with
  | [] => None
  | first :: others =>
      Some (fold_left
              (fun best current => if cheaper distances current best then current else best)
              others first)
  end.

(** [tournamentSelection] with [tournamentSize = 3]; [None] is the
    [TypeError] of [calculateTotalCost] on [undefined], when an index is not
    one of the population. [bestCost] is the cost of [best] throughout. *)
Definition tournamentSelection (distances : DistanceMatrix)
    (population : list (list Route)) (us : Q * Q * Q) : option (list Route) :=
  let '(ua, ub, uc) := us in
  match population !! Genetic.randomIndex ua (length population) with
  | None => None
  | Some first =>
      fold_left
        (fun best u =>
           match best with
           | None => None
           | Some best =>
               match population !! Genetic.randomIndex u (length population) with
               | None => None
               | Some competitor =>
                   Some (if cheaper distances competitor best then competitor else best)
               end
           end)
        [ub; uc] (Some first)
  end.

(** The body of [while (newPopulation.length < populationSize)]. *)
Definition offspring (calc : DistanceKernel) (distances : DistanceMatrix) (speedKmh : Q)
    (population : list (list Route)) (b : Brood) : option (list Route) :=
  match tournamentSelection distances population (firstPicks b),
        tournamentSelection distances population (secondPicks b) with
  | Some parent1, Some parent2 =>
      let child :=
        if Qlt_le_dec (crossoverDraw b) crossoverRate
        then Genetic.crossover calc distances speedKmh (coins b) parent1 parent2
        else parent1 in
      Some (if Qlt_le_dec (mutationDraw b) mutationRate
            then let '(u0, u1, u2) := swapDraws b in
                 Genetic.mutate calc distances speedKmh u0 u1 u2 child
            else child)
  | _, _ => None
  end.

(** One generation: the population and [bestSolution]. The new population
    starts with [bestSolution], and the loop adds offspring of the old one
    until there are [populationSize]. *)
Definition generation (calc : DistanceKernel) (distances : DistanceMatrix) (speedKmh : Q)
    (populationSize : nat) (draws : nat -> Brood)
    (st : list (list Route) * list Route) : option (list (list Route) * list Route) :=
  let '(population, bestSolution) := st in
  match Tabu.allSome
          (map (fun k => offspring calc distances speedKmh population (draws k))
               (seq 0 (populationSize - 1))) with
  | None => None
  | Some children =>
      let newPopulation := bestSolution :: children in
      match fittest distances newPopulation with
      | None => None
      | Some currentBest =>
          Some (newPopulation,
                if cheaper distances currentBest bestSolution
                then currentBest else bestSolution)
      end
  end.

(** [Math.min(30, Math.max(10, n * 2))] and [Math.min(50, Math.max(15, n * 2))] *)
Definition populationSizeOf (n : nat) : nat := Nat.min 30 (Nat.max 10 (n * 2)).
Definition generationsOf (n : nat) : nat := Nat.min 50 (Nat.max 15 (n * 2)).

(** The initial population: [shuffles i] is the order in which the random
    sort of [createRandomSolution] leaves the non-depot locations for the
    individual [i]. *)
Definition initialPopulation (distances : DistanceMatrix) (vehicles : list Vehicle)
    (depot : Location) (shuffles : nat -> list Location) (populationSize : nat)
  : list (list Route) :=
  map (fun i => Genetic.createRandomSolution distances SPEED_KMH vehicles depot (shuffles i))
      (seq 0 populationSize).

(** [for (let generation = 0; generation < generations; generation++)] *)
Definition evolve (calc : DistanceKernel) (distances : DistanceMatrix)
    (populationSize : nat) (draws : nat -> nat -> Brood) (generations : list nat)
    (st : option (list (list Route) * list Route))
  : option (list (list Route) * list Route) :=
  fold_left
    (fun st g =>
       match st with
       | None => None
       | Some st => generation calc distances SPEED_KMH populationSize (draws g) st
       end)
    generations st.

(** [geneticAlgorithmVRP]; [None] is a [TypeError]. *)
Definition geneticAlgorithmVRP (calc : DistanceKernel) (vehicles : list Vehicle)
    (locations : list Location) (depot : Location)
    (shuffles : nat -> list Location) (draws : nat -> nat -> Brood)
  : option (list Route) :=
  let distances := buildDistances calc locations in
  let nonDepot := ClarkeWright.nonDepotOf locations depot in
  let populationSize := populationSizeOf (length nonDepot) in
  let population := initialPopulation distances vehicles depot shuffles populationSize in
  match fittest distances population with
  | None => None
  | Some bestSolution =>
      match evolve calc distances populationSize draws
              (seq 0 (generationsOf (length nonDepot)))
              (Some (population, bestSolution)) with
      | None => None
      | Some (_, bestSolution) =>
          Some (Assign.assignVehiclesToRoutes bestSolution vehicles)
      end
  end.

End GeneticSearch.

(** A route of the genetic algorithm: a tour over customers of the
    instance (each at most once when the ids of the instance are distinct),
    on a vehicle record of the fleet and within its capacity. *)
Definition vehicleTour (vehicles : list Vehicle) (locations : list Location)
    (depot : Location) (r : Route) : Prop :=
  exists v picked,
    In v vehicles /\ vehicle r = Some (veh_id v) /\
    stops r = tourStops depot picked /\ picked <> [] /\
    (forall l, In l picked -> In l (ClarkeWright.nonDepotOf locations depot)) /\
    (NoDup (map loc_id locations) -> NoDup (map loc_id picked)) /\
    totalCapacity r = sumDemand picked /\
    sumDemand picked <= js_orZ (capacity v) 0 /\
    capacityExceeded r = None.

(** The bins of [createRandomSolution] after the locations [seen]. *)
Definition binsInv (vehicles : list Vehicle) (seen : list Location)
    (bins : list Genetic.Bin) : Prop :=
  map Genetic.bin_vehicle bins = vehicles /\
  Forall (fun b =>
            Genetic.bin_capacity b = js_orZ (capacity (Genetic.bin_vehicle b)) 0 /\
            Genetic.usedCapacity b = sumDemand (Genetic.bin_locations b) /\
            (Genetic.bin_locations b <> [] ->
             Genetic.usedCapacity b <= Genetic.bin_capacity b)) bins /\
  concat (map Genetic.bin_locations bins) ⊆+ seen.

(** An individual of the genetic algorithm: no more routes than vehicle
    records, each a tour on one of them. *)
Definition goodSolution (vehicles : list Vehicle) (locations : list Location)
    (depot : Location) (solution : list Route) : Prop :=
  (length solution <= length vehicles)%nat /\
  forall r, In r solution -> vehicleTour vehicles locations depot r.

(** What the generations keep: a population of good individuals that is not
    empty, and a best solution that is good and costs no more than [bound]. *)
Definition evolveInv (distances : DistanceMatrix) (vehicles : list Vehicle)
    (locations : list Location) (depot : Location) (bound : Q)
    (st : list (list Route) * list Route) : Prop :=
  fst st <> [] /\
  (forall s, In s (fst st) -> goodSolution vehicles locations depot s) /\
  goodSolution vehicles locations depot (snd st) /\
  (calculateTotalCost distances (snd st) <= bound)%Q.

(** A route the genetic algorithm returns: a tour over customers of the
    instance whose summed demand, the load of the route, is within the
    capacity of some vehicle record. *)
Definition customerTour (vehicles : list Vehicle) (locations : list Location)
    (depot : Location) (r : Route) : Prop :=
  exists picked,
    stops r = tourStops depot picked /\ picked <> [] /\
    (forall l, In l picked -> In l (ClarkeWright.nonDepotOf locations depot)) /\
    (NoDup (map loc_id locations) -> NoDup (map loc_id picked)) /\
    totalCapacity r = sumDemand picked /\
    exists v, In v vehicles /\ sumDemand picked <= js_orZ (capacity v) 0.

(** Draws that are all 0, with no crossover coin. *)
Definition zeroBrood : GeneticSearch.Brood :=
  GeneticSearch.mkBrood (0, 0, 0)%Q (0, 0, 0)%Q 0 [] 0 (0, 0, 0)%Q.

(** ** Clarke-Wright: routes that could still be joined *)

(** The id of the first and of the last customer of a route:
    [rt.stops[1]] and [rt.stops[rt.stops.length - 2]]. *)
Definition firstCustomer (r : Route) : option Id :=
  option_map locationId (stops r !! 1%nat).

Definition lastCustomer (r : Route) : option Id :=
  option_map locationId (stops r !! (length (stops r) - 2)%nat).

(** The saving of [x] and [y] could join [p] and [q]: one of the two ends
    [p], the other starts [q]. *)
Definition joinable (x y : Id) (p q : Route) : Prop :=
  (lastCustomer p = Some x /\ firstCustomer q = Some y) \/
  (lastCustomer p = Some y /\ firstCustomer q = Some x).

(** No two routes that the saving of [x] and [y] could join fit together. *)
Definition blocked (maxCapacity : Z) (routes : list Route) (s : Id * Id) : Prop :=
  forall p q, In p routes -> In q routes -> p <> q -> joinable (fst s) (snd s) p q ->
              maxCapacity < totalCapacity p + totalCapacity q.

(** ** Clarke-Wright after the savings: slot pressure and the three
       assignment passes *)

Module Passes.

(** The outcome of an attempt that can throw a [TypeError]. *)
Inductive Tried (A : Type) : Type :=
| Thrown
| NotMerged
| MergedInto (x : A).

Arguments Thrown {A}.
Arguments NotMerged {A}.
Arguments MergedInto {A} x.

(** [vehicles.reduce((sum, v) => sum + (v.count || 0), 0)] *)
Definition totalVehicleSlotsOf (vehicles : list Vehicle) : Z :=
  fold_left (fun sum v => sum + js_orZ (count v) 0) vehicles 0.

(** [routes.sort((a, b) => (a.totalCapacity || 0) - (b.totalCapacity || 0))] *)
Definition sortAscending (routes : list Route) : list Route :=
  sort_by (fun a b => js_orZ (totalCapacity b) 0 <? js_orZ (totalCapacity a) 0) routes.

(** [sts[i]] for an index that may be negative. *)
Definition stopAt (sts : list Stop) (i : Z) : option Stop :=
  if i <? 0 then None else sts !! Z.to_nat i.

(** [distances[a] && distances[a][b] != null] *)
Definition known (distances : DistanceMatrix) (a b : Id) : bool :=
  match matrixEntry distances a b with
  | Some _ => true
  | None => false
  end.

(** The body of the two [for] loops for the routes at [a < b]: [Thrown]
    when a route has no stop at index 1 or at its length less 2. *)
Definition tryPair (calc : DistanceKernel) (distances : DistanceMatrix) (speedKmh : Q)
    (maxCapacity : Z) (routes : list Route) (a b : nat) : Tried (list Route) :=
  match routes !! a, routes !! b with
  | Some ra, Some rb =>
      let combined := js_orZ (totalCapacity ra) 0 + js_orZ (totalCapacity rb) 0 in
      if combined >? maxCapacity then NotMerged
      else
        match stopAt (stops ra) (Z.of_nat (length (stops ra)) - 2), stops ra !! 1%nat,
              stopAt (stops rb) (Z.of_nat (length (stops rb)) - 2), stops rb !! 1%nat with
        | Some raEnd, Some raStart, Some rbEnd, Some rbStart =>
            let ns :=
              if known distances (locationId raEnd) (locationId rbStart)
              then Some (removelast (stops ra) ++ drop 1 (stops rb))
              else if known distances (locationId rbEnd) (locationId raStart)
              then Some (removelast (stops rb) ++ drop 1 (stops ra))
              else None in
            match ns with
            | None => NotMerged
            | Some ns =>
                (* routes.splice(b, 1); routes.splice(a, 1, mergedR) *)
                MergedInto
                  (<[a := ClarkeWright.mergedRoute calc distances speedKmh ns combined]>
                     (delete b routes))
            end
        | _, _, _, _ => Thrown
        end
  | _, _ => NotMerged
  end.

(** The pairs [(a, b)], [a < b < n], in the order of the two loops. *)
Definition pairIndices (n : nat) : list (nat * nat) :=
  flat_map (fun a => map (fun b => (a, b)) (seq (a + 1) (n - (a + 1)))) (seq 0 (n - 1)).

(** The two loops: they stop at the first merge. *)
Fixpoint firstMerge (calc : DistanceKernel) (distances : DistanceMatrix) (speedKmh : Q)
    (maxCapacity : Z) (routes : list Route) (pairs : list (nat * nat))
  : Tried (list Route) :=
  match pairs with
  | [] => NotMerged
  | (a, b) :: rest =>
      match tryPair calc distances speedKmh maxCapacity routes a b with
      | NotMerged => firstMerge calc distances speedKmh maxCapacity routes rest
      | other => other
      end
  end.

(** [while (routes.length > totalVehicleSlots && guard < 1000)], with
    [guardLeft] for [1000 - guard]; [None] is a [TypeError]. *)
Fixpoint pressureLoop (calc : DistanceKernel) (distances : DistanceMatrix) (speedKmh : Q)
    (maxCapacity totalVehicleSlots : Z) (guardLeft : nat) (routes : list Route)
  : option (list Route) :=
  match guardLeft with
  | O => Some routes
  | S guardLeft' =>
      if Z.of_nat (length routes) >? totalVehicleSlots then
        let sorted := sortAscending routes in
        match firstMerge calc distances speedKmh maxCapacity sorted
                (pairIndices (length sorted)) with
        | Thrown => None
        | NotMerged => Some sorted
        | MergedInto routes' =>
            pressureLoop calc distances speedKmh maxCapacity totalVehicleSlots
              guardLeft' routes'
        end
      else Some routes
  end.

(** [if (Number.isFinite(totalVehicleSlots) && totalVehicleSlots > 0) { ... }] *)
Definition slotPressure (calc : DistanceKernel) (distances : DistanceMatrix) (speedKmh : Q)
    (vehicles : list Vehicle) (routes : list Route) : option (list Route) :=
  let totalVehicleSlots := totalVehicleSlotsOf vehicles in
  if 0 <? totalVehicleSlots
  then pressureLoop calc distances speedKmh (ClarkeWright.maxCapacityOf vehicles)
         totalVehicleSlots 1000 routes
  else Some routes.

(** [slot.used = true; slot.currentLoad = load] on the slot object [ix]. *)
Definition engage (ix : nat) (load : Z) (slots : list VehicleSlot) : list VehicleSlot :=
  map (fun vs =>
         if Nat.eqb (slot_ix vs) ix
         then mkSlot (slot_ix vs) (slot_id vs) (slot_name vs) (slot_capacity vs) true load
         else vs)
      slots.

(** [vehicleSlots.find(vs => !vs.used && vs.capacity >= required)] *)
Definition freeSlot (slots : list VehicleSlot) (required : Z) : option VehicleSlot :=
  List.find (fun vs => negb (used vs) && (required <=? slot_capacity vs)) slots.

(** The first pass: one iteration of [for (const r of routes)]. *)
Definition firstPassStep (acc : list Route * list VehicleSlot) (r : Route)
  : list Route * list VehicleSlot :=
  match vehicle r with
  | Some _ => (fst acc ++ [r], snd acc)
  | None =>
      let requiredCapacity := js_orZ (totalCapacity r) 0 in
      match freeSlot (snd acc) requiredCapacity with
      | Some slot =>
          (fst acc ++ [Assign.setFlag (setVehicle r slot) false],
           engage (slot_ix slot) requiredCapacity (snd acc))
      | None => (fst acc ++ [r], snd acc)
      end
  end.

Definition firstPass (routes : list Route) (slots : list VehicleSlot)
  : list Route * list VehicleSlot :=
  fold_left firstPassStep routes ([], slots).

(** The indices of [routes.filter(r => !r.vehicle)]. *)
Definition unassignedIndices (routes : list Route) : list nat :=
  List.filter (fun i => match routes !! i with
                        | Some r => match vehicle r with None => true | Some _ => false end
                        | None => false
                        end)
              (seq 0 (length routes)).

(** The second pass. *)
Definition secondPass (calc : DistanceKernel) (distances : DistanceMatrix) (speedKmh : Q)
    (state : list Route * list VehicleSlot) : list Route * list VehicleSlot :=
  fold_left (Repair.packStep calc distances speedKmh) (unassignedIndices (fst state)) state.

(** The state of the loop that splits a route over vehicles. *)
Record Split : Type := mkSplit {
  currentVehicleLoad : Z;
  currentVehicleStops : list Stop;
  assignedVehicle : option VehicleSlot;
  splitSlots : list VehicleSlot;
  pushed : list Route
}.

(** [assignedVehicle.used = true] on the slot object [ix]. *)
Definition markUsed (ix : nat) (slots : list VehicleSlot) : list VehicleSlot :=
  map (fun vs =>
         if Nat.eqb (slot_ix vs) ix
         then mkSlot (slot_ix vs) (slot_id vs) (slot_name vs) (slot_capacity vs) true
                     (currentLoad vs)
         else vs)
      slots.

(** The route that closes the current vehicle: the stops so far and the
    final depot stop, renumbered. *)
Definition closedRoute (calc : DistanceKernel) (distances : DistanceMatrix) (speedKmh : Q)
    (v : VehicleSlot) (sts : list Stop) (lastStop : list Stop) (load : Z) : Route :=
  recomputeRouteMetrics calc distances speedKmh
    {| vehicle := Some (slot_id v); vehicleName := slot_name v;
       stops := renumber (sts ++ lastStop); distance := 0; duration := 0;
       totalCapacity := load; capacityExceeded := None |}.

(** One iteration of [for (let i = 0; i < middleStops.length; i++)];
    [firstStop] and [lastStop] are [unassignedRoute.stops[0]] and the last
    stop of the route. *)
Definition splitStep (calc : DistanceKernel) (distances : DistanceMatrix) (speedKmh : Q)
    (firstStop lastStop : list Stop) (st : Split) (stop : Stop) : Split :=
  let stopDemand := js_orZ (demand stop) 0 in
  let st1 :=
    match assignedVehicle st with
    | Some v =>
        if currentVehicleLoad st + stopDemand >? slot_capacity v then
          mkSplit 0 firstStop None (splitSlots st)
            (pushed st ++ [closedRoute calc distances speedKmh v (currentVehicleStops st)
                             lastStop (currentVehicleLoad st)])
        else st
    | None => st
    end in
  match assignedVehicle st1 with
  | Some v =>
      mkSplit (currentVehicleLoad st1 + stopDemand) (currentVehicleStops st1 ++ [stop])
        (Some v) (splitSlots st1) (pushed st1)
  | None =>
      match freeSlot (splitSlots st1) stopDemand with
      | None => st1
      | Some v =>
          mkSplit (currentVehicleLoad st1 + stopDemand) (currentVehicleStops st1 ++ [stop])
            (Some v) (markUsed (slot_ix v) (splitSlots st1)) (pushed st1)
      end
  end.

(** The split of one route: the routes pushed and the slots. *)
Definition splitRoute (calc : DistanceKernel) (distances : DistanceMatrix) (speedKmh : Q)
    (slots : list VehicleSlot) (unassignedRoute : Route) : list Route * list VehicleSlot :=
  let firstStop := take 1 (stops unassignedRoute) in
  let lastStop := drop (length (stops unassignedRoute) - 1) (stops unassignedRoute) in
  let st :=
    fold_left (splitStep calc distances speedKmh firstStop lastStop)
      (ClarkeWright.interior (stops unassignedRoute))
      (mkSplit 0 firstStop None slots []) in
  match assignedVehicle st with
  | Some v =>
      if (1 <? length (currentVehicleStops st))%nat
      then (pushed st ++ [closedRoute calc distances speedKmh v (currentVehicleStops st)
                            lastStop (currentVehicleLoad st)],
            splitSlots st)
      else (pushed st, splitSlots st)
  | None => (pushed st, splitSlots st)
  end.

(** The third pass over the routes as they stand after the second. The
    routes that stay keep their places, a route that is split is removed
    ([routes.splice(routes.indexOf(unassignedRoute), 1)]) and the routes it
    is split into are pushed to the end of the array. *)
Record Third : Type := mkThird {
  kept : list Route;
  added : list Route;
  thirdSlots : list VehicleSlot
}.

Definition thirdPassStep (calc : DistanceKernel) (distances : DistanceMatrix) (speedKmh : Q)
    (st : Third) (r : Route) : Third :=
  match vehicle r with
  | Some _ => mkThird (kept st ++ [r]) (added st) (thirdSlots st)
  | None =>
      if (3 <? length (stops r))%nat then
        let '(routes', slots') := splitRoute calc distances speedKmh (thirdSlots st) r in
        mkThird (kept st) (added st ++ routes') slots'
      else
        let '(r', slots') := Assign.assignSingleStop (thirdSlots st) r in
        mkThird (kept st ++ [r']) (added st) slots'
  end.

Definition thirdPass (calc : DistanceKernel) (distances : DistanceMatrix) (speedKmh : Q)
    (state : list Route * list VehicleSlot) : list Route :=
  let st := fold_left (thirdPassStep calc distances speedKmh) (fst state)
                      (mkThird [] [] (snd state)) in
  kept st ++ added st.

(** [clarkeWrightAlgorithm]; [None] when a local search ran out of [fuel]
    or the slot pressure loop threw. *)
Definition clarkeWrightAlgorithm (fuel : nat) (calc : DistanceKernel)
    (vehicles : list Vehicle) (locations : list Location) (depot : Location)
  : option (list Route) :=
  let distances := buildDistances calc locations in
  match slotPressure calc distances SPEED_KMH vehicles
          (ClarkeWright.routesAfterSavings calc vehicles locations depot) with
  | None => None
  | Some routes =>
      let sortedRoutes := Assign.sortRoutes (Assign.sortRoutes routes) in
      let vehicleSlots := Assign.sortSlots (expandSlots vehicles) in
      let assigned :=
        thirdPass calc distances SPEED_KMH
          (secondPass calc distances SPEED_KMH (firstPass sortedRoutes vehicleSlots)) in
      Tabu.allSome
        (map (fun r =>
                improveRouteWithLocalSearch fuel calc distances SPEED_KMH
                  (recomputeRouteMetrics calc distances SPEED_KMH r))
             assigned)
  end.

(** A fleet of one truck and two vans, and five customers of demand 5 along
    a road. *)
Definition mixedFleet : list Vehicle :=
  [mkVehicle "V1" "Truck" 10 1; mkVehicle "V2" "Van" 5 2].

Definition roadside : list Location :=
  [depotD; ClarkeWright.customerOf "A" 1 5; ClarkeWright.customerOf "B" 2 5;
   ClarkeWright.customerOf "C" 3 5; ClarkeWright.customerOf "E" 4 5;
   ClarkeWright.customerOf "F" 5 5].

End Passes.

(** No two of the loads fit together in [maxCapacity]. *)
Definition maximalLoads (maxCapacity : Z) (loads : list Z) : Prop :=
  forall x y rest, Permutation loads (x :: y :: rest) -> maxCapacity < x + y.

(** The slots in use for a vehicle id. *)
Definition usedSlots (vid : Id) (slots : list VehicleSlot) : list VehicleSlot :=
  List.filter (fun vs => used vs && String.eqb (slot_id vs) vid) slots.

(** No unused slot can carry [need]. *)
Definition noFree (slots : list VehicleSlot) (need : Z) : Prop :=
  forall vs, In vs slots -> used vs = false -> slot_capacity vs < need.

(** [booked slots0 routes slots]: the slots are those of [slots0], some of
    them marked as used; every vehicle id drives as many of the routes as
    it has slots in use, and a route with a vehicle fits a slot of that
    vehicle. *)
Definition booked (slots0 : list VehicleSlot) (routes : list Route)
    (slots : list VehicleSlot) : Prop :=
  map slot_ix slots = map slot_ix slots0 /\
  map slot_id slots = map slot_id slots0 /\
  map slot_capacity slots = map slot_capacity slots0 /\
  (forall vid, length (routesOf vid routes) = length (usedSlots vid slots)) /\
  forall r vid, In r routes -> vehicle r = Some vid ->
    exists vs, In vs slots0 /\ slot_id vs = vid /\ totalCapacity r <= slot_capacity vs.

(** Every slot in use carries the load of a route that has a vehicle. *)
Definition loaded (routes : list Route) (slots : list VehicleSlot) : Prop :=
  forall vs, In vs slots -> used vs = true ->
    exists r, In r routes /\ vehicle r <> None /\ currentLoad vs = totalCapacity r.

(** What the first pass leaves of a route: the stops and the load, and the
    whole route when it gets no vehicle. *)
Definition sameTrip (r r' : Route) : Prop :=
  stops r' = stops r /\ totalCapacity r' = totalCapacity r /\
  (vehicle r = None -> vehicle r' = None -> r' = r) /\
  (vehicle r <> None -> r' = r).

(** A loop from the depot [d]: the depot, one stop or more that are
    not the depot, the depot again, with the demand of those stops as the
    load. *)
Definition depotLoop (d : Id) (r : Route) : Prop :=
  (exists mids, mids <> [] /\ map locationId (stops r) = d :: mids ++ [d] /\
                (forall x, In x mids -> x <> d)) /\
  totalCapacity r = ClarkeWright.demandOf (stops r).

(** Slots only pass from unused to used: what no unused slot could carry
    before, none can carry after. *)
Definition moreUsed (slots slots' : list VehicleSlot) : Prop :=
  forall need, noFree slots need -> noFree slots' need.

(** The slot [v] has the id and the capacity of one of [slots0]. *)
Definition fromSlots (slots0 : list VehicleSlot) (v : VehicleSlot) : Prop :=
  exists vs0, In vs0 slots0 /\ slot_id vs0 = slot_id v /\
              slot_capacity vs0 = slot_capacity v.

(** The location [id] is on a route that has a vehicle. *)
Definition onVehicle (routes : list Route) (id : Id) : Prop :=
  exists p, In p routes /\ vehicle p <> None /\ In id (map locationId (stops p)).

(** The routes of a split so far: those pushed and the one being filled. *)
Definition pendingRoutes (calc : DistanceKernel) (distances : DistanceMatrix)
    (speedKmh : Q) (lastStop : list Stop) (st : Passes.Split) : list Route :=
  match Passes.assignedVehicle st with
  | Some v =>
      [Passes.closedRoute calc distances speedKmh v (Passes.currentVehicleStops st)
         lastStop (Passes.currentVehicleLoad st)]
  | None => []
  end.

Definition splitRoutes (calc : DistanceKernel) (distances : DistanceMatrix)
    (speedKmh : Q) (lastStop : list Stop) (st : Passes.Split) : list Route :=
  Passes.pushed st ++ pendingRoutes calc distances speedKmh lastStop st.

(** ** Assigning vehicles a second time

    [sameBooking a b]: the routes [a] and [b] have the same vehicle, vehicle
    name and load; they may differ in stops, distance, duration and flag. *)
Definition sameBooking (a b : Route) : Prop :=
  vehicle b = vehicle a /\ vehicleName b = vehicleName a /\
  totalCapacity b = totalCapacity a.

(** ** The result summary of [createOptimization]

    What the driver computes from the routes of an algorithm, in both modes;
    [executionTime], which reads the clock, is left out. *)

Module Report.

Record Summary : Type := mkSummary {
  sum_routes : list Route;
  sum_totalDistance : Q;
  sum_totalDuration : Z;
  sum_totalLocationsServed : nat;
  sum_totalDemandServed : Z;
  sum_coveragePercentage : Q;
  sum_totalLocations : nat;
  sum_vehicleUtilization : Q;
  sum_totalVehicleCapacity : Z;
  sum_routesCount : nat;
  sum_averageRouteDistance : Q;
  sum_averageRouteDuration : Q
}.

(** [stop.locationId && stop.locationId.toString() !== depot._id.toString()] *)
Definition countedStop (depot : Location) (id : Id) : bool :=
  truthy_string id && negb (String.eqb id (loc_id depot)).

(** The set [servedLocationIds] after the loop over the routes. *)
Definition servedLocationIds (depot : Location) (routes : list Route) : gset string :=
  list_to_set
    (List.filter (countedStop depot) (flat_map (fun r => map locationId (stops r)) routes)).

(** [locations.filter(l => !l.isDepot).length] *)
Definition totalLocationsOf (locations : list Location) : nat :=
  length (List.filter (fun l => negb (isDepot l)) locations).

(** [vehicles.reduce((sum, v) => sum + ((v.capacity || 0) * (v.count || 1)), 0)] *)
Definition totalVehicleCapacityOf (vehicles : list Vehicle) : Z :=
  fold_left (fun sum v => sum + js_orZ (capacity v) 0 * js_orZ (count v) 1) vehicles 0.

(** [total > 0 ? (part / total) * 100 : 0] *)
Definition percentage (part total : Z) : Q :=
  if 0 <? total then (inject_Z part / inject_Z total) * 100 else 0.

(** [n > 0 ? sum / n : 0] *)
Definition average (sum : Q) (n : nat) : Q :=
  if (0 <? n)%nat then sum / inject_Z (Z.of_nat n) else 0.

Definition summarize (vehicles : list Vehicle) (locations : list Location)
    (depot : Location) (routes : list Route) : Summary :=
  let totalDistance := fold_left (fun s r => s + js_or (distance r) 0)%Q routes 0%Q in
  let totalDuration := fold_left (fun s r => s + js_orZ (duration r) 0) routes 0 in
  let totalDemandServed := fold_left (fun s r => s + js_orZ (totalCapacity r) 0) routes 0 in
  let totalLocationsServed := size (servedLocationIds depot routes) in
  let totalLocations := totalLocationsOf locations in
  let totalVehicleCapacity := totalVehicleCapacityOf vehicles in
  {| sum_routes := routes;
     sum_totalDistance := totalDistance;
     sum_totalDuration := totalDuration;
     sum_totalLocationsServed := totalLocationsServed;
     sum_totalDemandServed := totalDemandServed;
     sum_coveragePercentage :=
       percentage (Z.of_nat totalLocationsServed) (Z.of_nat totalLocations);
     sum_totalLocations := totalLocations;
     sum_vehicleUtilization := percentage totalDemandServed totalVehicleCapacity;
     sum_totalVehicleCapacity := totalVehicleCapacity;
     sum_routesCount := length routes;
     sum_averageRouteDistance := average totalDistance (length routes);
     sum_averageRouteDuration := average (inject_Z totalDuration) (length routes) |}.

(** The single mode after the checks: the routes of the selected algorithm
    get their vehicles from [assignVehiclesToRoutes] and are summarized.
    [None] stands for an algorithm that threw (or ran out of fuel here): the
    handler answers 500. *)
Definition singleMode
    (solve : list Vehicle -> list Location -> Location -> option (list Route))
    (vehicles : list Vehicle) (locations : list Location) (depot : Location)
  : option Summary :=
  match solve vehicles locations depot with
  | Some routes =>
      Some (summarize vehicles locations depot
              (Assign.assignVehiclesToRoutes routes vehicles))
  | None => None
  end.

End Report.

(** The depot is the only location flagged as a depot. *)
Definition oneDepot (locations : list Location) (depot : Location) : Prop :=
  In depot locations /\ isDepot depot = true /\
  forall l, In l locations -> isDepot l = true -> l = depot.

(** A request in single mode for the roadside instance. *)
Definition roadsideStore : Validation.Store :=
  Validation.mkStore Passes.mixedFleet Passes.roadside.

Definition roadsideRequest : Validation.Request :=
  Validation.mkRequest (Some "plan") (Some ["V1"; "V2"])
    (Some ["D"; "A"; "B"; "C"; "E"; "F"]) "clarke-wright" false.

(** ** A route with a leg that is not a number *)

(** A leg of a route whose distance by the kernel is NaN. *)
Definition hasNaNLeg (calc : Metrics.Kernel) (sts : list Stop) : Prop :=
  exists i a b,
    sts !! i = Some a /\ sts !! S i = Some b /\
    calc (latitude a) (longitude a) (latitude b) (longitude b) = NaN.

(** A customer whose longitude is [Infinity], and the round trip to it. *)
Definition lostCustomer : Location :=
  mkLocation "L" "Customer L" (Num 0) PosInfinity 5 false.

Definition lostTrip : Metrics.Route :=
  {| Metrics.vehicle := Some "V1"; Metrics.vehicleName := "Truck";
     Metrics.stops := [stopOf depotD 0; stopOf lostCustomer 1; stopOf depotD 2];
     Metrics.distance := Num 0; Metrics.duration := Num 0; Metrics.totalCapacity := 5;
     Metrics.capacityExceeded := None |}.

(** * Verification *)

(** ** Winner selection *)

Section WinnerFacts.
Import Winner.

Lemma ext_ltb_trans a b c :
  ext_ltb a b = true -> ext_ltb b c = true -> ext_ltb a c = true.
Proof.
  destruct a as [x|], b as [y|], c as [z|]; simpl; try congruence.
  destruct (Qlt_le_dec x y), (Qlt_le_dec y z), (Qlt_le_dec x z); try congruence.
  exfalso. apply (Qlt_irrefl x). eapply Qlt_le_trans; [|eassumption].
  eapply Qlt_trans; eassumption.
Qed.

Lemma ext_ltb_le_trans a b c :
  ext_ltb a b = true -> ext_ltb c b = false -> ext_ltb a c = true.
Proof.
  destruct a as [x|], b as [y|], c as [z|]; simpl; try congruence.
  destruct (Qlt_le_dec x y), (Qlt_le_dec z y), (Qlt_le_dec x z); try congruence.
  exfalso. apply (Qlt_irrefl x). eapply Qlt_le_trans; [eassumption|].
  eapply Qle_trans; eassumption.
Qed.

(** [reduce] with [pickCloser] returns the first element of least effective
    distance. The accumulator [b] is tracked with what was scanned before and
    after it. *)
Lemma reduce_pickCloser_split rest : forall pre b post,
  (forall r, In r pre -> ext_ltb (effDistance b) (effDistance r) = true) ->
  (forall r, In r post -> ext_ltb (effDistance r) (effDistance b) = false) ->
  exists l1 l2,
    pre ++ b :: post ++ rest = l1 ++ fold_left pickCloser rest b :: l2 /\
    (forall r, In r l1 ->
       ext_ltb (effDistance (fold_left pickCloser rest b)) (effDistance r) = true) /\
    (forall r, In r l2 ->
       ext_ltb (effDistance r) (effDistance (fold_left pickCloser rest b)) = false).
Proof.
  induction rest as [|cur rest IH]; intros pre b post Hpre Hpost.
  - exists pre, post. rewrite app_nil_r. simpl. auto.
  - simpl. unfold pickCloser at 2 4 6.
    destruct (ext_ltb (effDistance cur) (effDistance b)) eqn:Hlt.
    + destruct (IH (pre ++ b :: post) cur []) as (l1 & l2 & Heq & H1 & H2).
      * intros r Hr. apply in_app_or in Hr as [Hr|[<-|Hr]].
        -- eapply ext_ltb_trans; [exact Hlt|]. auto.
        -- exact Hlt.
        -- eapply ext_ltb_le_trans; [exact Hlt|]. auto.
      * intros r [].
      * exists l1, l2. split; [|auto].
        rewrite <- Heq. simpl. rewrite <- app_assoc. reflexivity.
    + destruct (IH pre b (post ++ [cur])) as (l1 & l2 & Heq & H1 & H2).
      * exact Hpre.
      * intros r Hr. apply in_app_or in Hr as [Hr|[<-|[]]]; auto.
      * exists l1, l2. split; [|auto].
        rewrite <- Heq. rewrite <- app_assoc. reflexivity.
Qed.

Lemma Math_max_ge_init xs : forall x, (x <= Math_max x xs)%Q.
Proof.
  unfold Math_max. induction xs as [|y xs IH]; intros x; simpl.
  - apply Qle_refl.
  - eapply Qle_trans; [|apply IH]. apply Q.le_max_l.
Qed.

Lemma Math_max_ge_elem xs : forall x y, In y xs -> (y <= Math_max x xs)%Q.
Proof.
  unfold Math_max. induction xs as [|z xs IH]; intros x y Hy; simpl; [destruct Hy|].
  destruct Hy as [->|Hy].
  - eapply Qle_trans; [|apply Math_max_ge_init]. apply Q.le_max_r.
  - apply IH, Hy.
Qed.

(** The maximum is reached: some result has that coverage. *)
Lemma Math_max_reached xs : forall x,
  (Math_max x xs == x)%Q \/ exists y, In y xs /\ (Math_max x xs == y)%Q.
Proof.
  unfold Math_max. induction xs as [|z xs IH]; intros x; simpl.
  - left. reflexivity.
  - destruct (IH (Qmax x z)) as [H|(y & Hy & H)].
    + destruct (Q.max_spec x z) as [[_ E]|[_ E]].
      * right. exists z. split; [now left|]. rewrite H. exact E.
      * left. rewrite H. exact E.
    + right. exists y. split; [now right|exact H].
Qed.

(** A split of a filtered list lifts to a split of the list. *)
Lemma filter_split {A} (f : A -> bool) (l : list A) : forall l1 w l2,
  List.filter f l = l1 ++ w :: l2 ->
  exists v1 v2, l = v1 ++ w :: v2 /\ List.filter f v1 = l1 /\ List.filter f v2 = l2.
Proof.
  induction l as [|a l IH]; intros l1 w l2 H; simpl in H.
  - destruct l1; discriminate.
  - destruct (f a) eqn:Hfa.
    + destruct l1 as [|b l1]; simpl in H.
      * injection H as -> <-. exists [], l. simpl. auto.
      * injection H as -> H. destruct (IH _ _ _ H) as (v1 & v2 & -> & E1 & E2).
        exists (b :: v1), v2. simpl. rewrite Hfa, E1. auto.
    + destruct (IH _ _ _ H) as (v1 & v2 & -> & E1 & E2).
      exists (a :: v1), v2. simpl. rewrite Hfa. auto.
Qed.

End WinnerFacts.

Section WinnerTheorems.
Import Winner.

Lemma selectBest_valid_cons rs v vs :
  validResults rs = v :: vs ->
  exists w, selectBest rs = Some w /\ codeWinner rs w.
Proof.
  intros Hv. unfold selectBest, codeWinner. rewrite Hv. cbv zeta.
  set (mx := maxCoverageOf v vs).
  set (P := fun r => Qeq_bool (coverage r) mx).
  assert (Hle : forall r, In r (v :: vs) -> (coverage r <= mx)%Q).
  { intros r [<-|Hr]; [apply Math_max_ge_init|].
    apply Math_max_ge_elem, in_map, Hr. }
  assert (Hne : List.filter P (v :: vs) <> []).
  { destruct (Math_max_reached (map coverage vs) (coverage v)) as [H|(y & Hy & H)].
    - simpl. replace (P v) with true; [discriminate|].
      symmetry. apply Qeq_bool_iff. symmetry. exact H.
    - apply in_map_iff in Hy as (r & <- & Hr).
      assert (Hin : In r (List.filter P (v :: vs))).
      { apply filter_In. split; [now right|]. apply Qeq_bool_iff. symmetry. exact H. }
      intros E. rewrite E in Hin. destruct Hin. }
  assert (Hgen : forall b rest, List.filter P (v :: vs) = b :: rest ->
            exists w, Some (fold_left pickCloser rest b) = Some w /\
              exists before after, v :: vs = before ++ w :: after /\
                (forall r, In r (v :: vs) -> (coverage r <= coverage w)%Q) /\
                (forall r, In r before -> (coverage r == coverage w)%Q ->
                   ext_ltb (effDistance w) (effDistance r) = true) /\
                (forall r, In r after -> (coverage r == coverage w)%Q ->
                   ext_ltb (effDistance r) (effDistance w) = false)).
  { intros b rest Hf.
    destruct (reduce_pickCloser_split rest [] b []) as (l1 & l2 & Heq & H1 & H2);
      [intros r []|intros r []|].
    simpl in Heq. set (w := fold_left pickCloser rest b) in *.
    exists w. split; [reflexivity|].
    rewrite <- Hf in Heq.
    destruct (filter_split P (v :: vs) l1 w l2 Heq) as (v1 & v2 & Hsplit & E1 & E2).
    assert (Hw : (coverage w == mx)%Q).
    { assert (Hin : In w (List.filter P (v :: vs))).
      { rewrite Heq. apply in_elt. }
      apply filter_In in Hin as [_ Hin]. apply Qeq_bool_iff, Hin. }
    exists v1, v2. split; [exact Hsplit|]. split; [|split].
    - intros r Hr. rewrite Hw. apply Hle, Hr.
    - intros r Hr Hc. apply H1. rewrite <- E1. apply filter_In. split; [exact Hr|].
      apply Qeq_bool_iff. rewrite Hc. exact Hw.
    - intros r Hr Hc. apply H2. rewrite <- E2. apply filter_In. split; [exact Hr|].
      apply Qeq_bool_iff. rewrite Hc. exact Hw. }
  destruct (List.filter P (v :: vs)) as [|b rest] eqn:Hf; [congruence|].
  destruct (Hgen b rest eq_refl) as (w & Hw & Hrest).
  destruct rest as [|c rest]; exists w; (split; [exact Hw|exact Hrest]).
Qed.

(** C1 (as amended). In compare mode the driver selects, among the results
    whose [error] is falsy, one of maximum coverage percentage; among those of
    maximum coverage it selects the first in insertion order whose
    [totalDistance || Infinity] is least (a total distance of 0 counts as
    infinite); with no error-free result it selects the first result. *)
Theorem selectBest_winner_rule (algorithmResults : list AlgorithmResult) :
  (validResults algorithmResults = [] ->
     selectBest algorithmResults = head algorithmResults) /\
  (validResults algorithmResults <> [] ->
     exists w, selectBest algorithmResults = Some w /\ codeWinner algorithmResults w).
Proof.
  split.
  - intros H. unfold selectBest. rewrite H. reflexivity.
  - intros H. destruct (validResults algorithmResults) as [|v vs] eqn:Hv; [congruence|].
    eapply selectBest_valid_cons, Hv.
Qed.

End WinnerTheorems.

Lemma selectBest_winner_rule_witness :
  Winner.validResults results_60_80_80 <> [] /\
  exists w, Winner.selectBest results_60_80_80 = Some w /\
            Winner.codeWinner results_60_80_80 w.
Proof.
  assert (H : Winner.validResults results_60_80_80 <> []) by (vm_compute; discriminate).
  split; [exact H|].
  exact (proj2 (selectBest_winner_rule results_60_80_80) H).
Defined.

Example selectBest_60_80_80 :
  option_map algorithmKey (Winner.selectBest results_60_80_80) = Some "genetic".
Proof. reflexivity. Qed.

(** C1 (as stated) fails: on [results_zero_distance] the driver selects the
    result of distance 10 although the other, of equal coverage, has the
    smaller total distance 0. *)
Lemma selectBest_not_min_distance :
  exists w, Winner.selectBest results_zero_distance = Some w /\
            ~ Winner.specWinner results_zero_distance w.
Proof.
  exists (result_of "genetic" 50 10 None). split; [reflexivity|].
  intros (before & after & Hsplit & _ & _ & Hafter).
  change (Winner.validResults results_zero_distance)
    with ([] ++ result_of "genetic" 50 10 None :: [result_of "ant-colony" 50 0 None]) in Hsplit.
  destruct before as [|b before].
  - simpl in Hsplit. injection Hsplit as <-.
    specialize (Hafter (result_of "ant-colony" 50 0 None) (or_introl eq_refl)).
    assert (Hc : (Winner.coverage (result_of "ant-colony" 50 0 None) ==
                  Winner.coverage (result_of "genetic" 50 10 None))%Q) by reflexivity.
    specialize (Hafter Hc). vm_compute in Hafter. apply Hafter. reflexivity.
  - simpl in Hsplit. injection Hsplit as _ Hsplit.
    destruct before as [|b' before]; simpl in Hsplit.
    + injection Hsplit as Hw _. discriminate Hw.
    + injection Hsplit as _ Hsplit. destruct before; discriminate.
Qed.

(** ** Route metrics *)

Section MetricFacts.

Lemma js_orZ_zero x : js_orZ x 0 = x.
Proof. unfold js_orZ. destruct (Z.eqb_spec x 0); congruence. Qed.

(** The loop body of [sumLegs]. *)
Let legStep (leg : Stop -> Stop -> Q) (sts : list Stop) (dist : Q) (k : nat) : Q :=
  match sts !! k, sts !! S k with
  | Some from, Some to => (dist + leg from to)%Q
  | _, _ => dist
  end.

Lemma legStep_acc leg sts ks : forall acc,
  (fold_left (legStep leg sts) ks acc == acc + fold_left (legStep leg sts) ks 0)%Q.
Proof.
  induction ks as [|k ks IH]; intros acc; simpl.
  - ring.
  - rewrite IH. rewrite (IH (legStep leg sts 0%Q k)).
    unfold legStep. destruct (sts !! k), (sts !! S k); ring.
Qed.

Lemma legStep_shift leg a sts ks : forall acc,
  fold_left (legStep leg (a :: sts)) (map S ks) acc = fold_left (legStep leg sts) ks acc.
Proof.
  induction ks as [|k ks IH]; intros acc; simpl; [reflexivity|].
  rewrite <- IH. reflexivity.
Qed.

(** The index loop adds the legs of consecutive stops. *)
Lemma sumLegs_cons leg a b sts :
  (sumLegs leg (a :: b :: sts) == leg a b + sumLegs leg (b :: sts))%Q.
Proof.
  unfold sumLegs. fold (legStep leg (a :: b :: sts)). fold (legStep leg (b :: sts)).
  replace (length (a :: b :: sts) - 1)%nat with (S (length sts)) by (simpl; lia).
  replace (length (b :: sts) - 1)%nat with (length sts) by (simpl; lia).
  rewrite <- cons_seq, <- seq_shift. simpl fold_left at 1.
  rewrite legStep_shift, legStep_acc.
  unfold legStep at 1. simpl. ring.
Qed.

Lemma matrixPathLength_cons distances a b sts :
  matrixPathLength distances (a :: b :: sts) =
  match matrixEntry distances (locationId a) (locationId b),
        matrixPathLength distances (b :: sts) with
  | Some d, Some total => Some (d + total)%Q
  | _, _ => None
  end.
Proof. reflexivity. Qed.

(** When every leg is the matrix entry, the loop yields the matrix path length. *)
Lemma sumLegs_matrix leg distances sts : forall total,
  (forall a b d, In a sts -> In b sts ->
     matrixEntry distances (locationId a) (locationId b) = Some d -> (leg a b == d)%Q) ->
  matrixPathLength distances sts = Some total ->
  (sumLegs leg sts == total)%Q.
Proof.
  induction sts as [|a sts IH]; intros total Hleg Hp.
  - injection Hp as <-. reflexivity.
  - destruct sts as [|b sts].
    + injection Hp as <-. reflexivity.
    + rewrite matrixPathLength_cons in Hp.
      destruct (matrixEntry distances (locationId a) (locationId b)) as [d|] eqn:Hd;
        [|discriminate].
      destruct (matrixPathLength distances (b :: sts)) as [t|] eqn:Ht; [|discriminate].
      injection Hp as <-. rewrite sumLegs_cons.
      rewrite (Hleg a b d); [|now left|right; now left|exact Hd].
      rewrite (IH t); [reflexivity| |reflexivity].
      intros x y e Hx Hy. apply Hleg; now right.
Qed.

(** Lookups in the matrix built from locations with distinct ids. *)
Lemma fold_insert_lookup {V} (f : Location -> V) (ls : list Location) :
  forall (m : gmap string V) l,
    NoDup (map loc_id ls) -> In l ls ->
    fold_left (fun m x => <[loc_id x := f x]> m) ls m !! loc_id l = Some (f l).
Proof.
  induction ls as [|x ls IH]; intros m l Hnd Hin; [destruct Hin|].
  simpl in Hnd. apply NoDup_cons in Hnd as [Hx Hnd].
  destruct Hin as [->|Hin]; simpl.
  - clear IH. revert m. induction ls as [|y ls IH]; intros m; simpl.
    + apply lookup_insert_eq.
    + apply NoDup_cons in Hnd as [_ Hnd].
      assert (Hne : loc_id y <> loc_id l).
      { intros E. apply Hx. rewrite list_elem_of_In. simpl. left. exact E. }
      rewrite insert_insert_ne by exact Hne.
      apply IH; [|exact Hnd].
      intros H. apply Hx. rewrite list_elem_of_In in *. simpl. right. exact H.
  - apply IH; assumption.
Qed.

Lemma matrixEntry_build calc locations l1 l2 :
  NoDup (map loc_id locations) -> In l1 locations -> In l2 locations ->
  matrixEntry (buildDistances calc locations) (loc_id l1) (loc_id l2) =
  Some (calc (loc_latitude l1) (loc_longitude l1) (loc_latitude l2) (loc_longitude l2)).
Proof.
  intros Hnd H1 H2. unfold matrixEntry, buildDistances.
  rewrite (fold_insert_lookup (fun l => buildRow calc l locations)) by assumption.
  unfold buildRow.
  apply (fold_insert_lookup
           (fun l => calc (loc_latitude l1) (loc_longitude l1)
                          (loc_latitude l) (loc_longitude l))); assumption.
Qed.

Lemma matrixEntry_stops calc locations a b :
  NoDup (map loc_id locations) -> stopFrom locations a -> stopFrom locations b ->
  matrixEntry (buildDistances calc locations) (locationId a) (locationId b) =
  Some (calc (latitude a) (longitude a) (latitude b) (longitude b)).
Proof.
  intros Hnd (la & Hla & -> & -> & ->) (lb & Hlb & -> & -> & ->).
  apply matrixEntry_build; assumption.
Qed.

(** Every consecutive pair of a route over the instance has its entry. *)
Lemma matrixPathLength_defined calc locations sts :
  NoDup (map loc_id locations) -> Forall (stopFrom locations) sts ->
  exists total, matrixPathLength (buildDistances calc locations) sts = Some total.
Proof.
  intros Hnd. induction sts as [|a sts IH]; intros Hall; [now exists 0%Q|].
  apply Forall_cons in Hall as [Ha Hall]. destruct (IH Hall) as (t & Ht).
  destruct sts as [|b sts]; [now exists 0%Q|].
  rewrite matrixPathLength_cons, Ht.
  apply Forall_cons in Hall as [Hb _].
  rewrite (matrixEntry_stops calc locations a b) by assumption. eauto.
Qed.

Lemma legNullish_entry calc distances a b d :
  matrixEntry distances (locationId a) (locationId b) = Some d ->
  (legNullish calc distances a b == d)%Q.
Proof. intros H. unfold legNullish. rewrite H. reflexivity. Qed.

Lemma legOr_entry calc locations a b d :
  NoDup (map loc_id locations) -> stopFrom locations a -> stopFrom locations b ->
  matrixEntry (buildDistances calc locations) (locationId a) (locationId b) = Some d ->
  (legOr calc (buildDistances calc locations) a b == d)%Q.
Proof.
  intros Hnd Ha Hb H. unfold legOr. rewrite H.
  rewrite (matrixEntry_stops calc locations a b) in H by assumption.
  injection H as <-. destruct (Qeq_bool _ 0); reflexivity.
Qed.

End MetricFacts.


Lemma sampleLocations_nodup : NoDup (map loc_id sampleLocations).
Proof. apply (bool_decide_unpack _). vm_compute. exact I. Qed.

Lemma roundTrip_stopFrom depot loc locations :
  In depot locations -> In loc locations ->
  Forall (stopFrom locations) (stops (roundTrip depot loc)).
Proof.
  intros Hd Hl. repeat constructor.
  - exists depot. auto.
  - exists loc. auto.
  - exists depot. auto.
Qed.

Example roundTrip_metrics :
  let rt := recomputeRouteMetrics taxicab sampleDistances SPEED_KMH (roundTrip depotD customerB) in
  (distance rt == 4)%Q /\ duration rt = 6.
Proof. split; reflexivity. Qed.

(** ** Route metrics in double precision *)

Section RoundingFacts.
Import Double.
Local Open Scope Q_scope.

Lemma pow2_pos e : 0 < pow2 e.
Proof. apply Qpower.Qpower_0_lt. reflexivity. Qed.

Lemma two_nonzero : ~ 2 == 0.
Proof. discriminate. Qed.

Lemma pow2_plus a b : pow2 (a + b) == pow2 a * pow2 b.
Proof. apply Qpower.Qpower_plus, two_nonzero. Qed.

Lemma pow2_le a b : (a <= b)%Z -> pow2 a <= pow2 b.
Proof. intros H. apply Qpower.Qpower_le_compat_l; [exact H|discriminate]. Qed.

Lemma pow2_inject (n : Z) : (0 <= n)%Z -> inject_Z (2 ^ n) == pow2 n.
Proof. intros H. apply Qpower.Zpower_Qpower, H. Qed.

(** [ilog2] does not overshoot. *)
Lemma ilog2_le q : 0 < q -> pow2 (ilog2 q) <= q.
Proof.
  intros Hq. unfold ilog2. cbv zeta.
  destruct (Qle_bool (pow2 (Z.log2 (Qnum q) - Z.log2 (Z.pos (Qden q)))) q) eqn:E.
  { apply Qle_bool_iff, E. }
  clear E. destruct q as [n d]. simpl Qnum. simpl Qden.
  assert (Hn : (0 < n)%Z) by (unfold Qlt in Hq; simpl in Hq; lia).
  set (a := Z.log2 n). set (b := Z.log2 (Z.pos d)).
  assert (Ha : (0 <= a)%Z) by apply Z.log2_nonneg.
  assert (Hb : (0 <= b)%Z) by apply Z.log2_nonneg.
  destruct (Z.log2_spec n Hn) as [Hn1 _]. fold a in Hn1.
  destruct (Z.log2_spec (Z.pos d) (Pos2Z.is_pos d)) as [_ Hd2]. fold b in Hd2.
  replace (a - b - 1)%Z with (a - (b + 1))%Z by lia.
  unfold pow2. rewrite Qpower.Qpower_minus by exact two_nonzero.
  fold (pow2 a). fold (pow2 (b + 1)).
  rewrite <- (pow2_inject a) by exact Ha. rewrite <- (pow2_inject (b + 1)) by lia.
  rewrite (Qmake_Qdiv n d).
  assert (P1 : 0 < inject_Z (2 ^ (b + 1))).
  { rewrite pow2_inject by lia. apply pow2_pos. }
  assert (P2 : 0 < inject_Z (Z.pos d)) by (unfold Qlt; simpl; lia).
  apply Qle_shift_div_r; [exact P1|].
  unfold Qdiv. rewrite <- Qmult_assoc, (Qmult_comm (/ _)), Qmult_assoc.
  apply Qle_shift_div_l; [exact P2|].
  rewrite <- !inject_Z_mult. rewrite <- Zle_Qle.
  replace (Z.succ b) with (b + 1)%Z in Hd2 by lia.
  assert (0 < 2 ^ a)%Z by (apply Z.pow_pos_nonneg; lia). nia.
Qed.

Lemma roundHalfEven_near x :
  x - (1 # 2) <= inject_Z (roundHalfEven x) <= x + (1 # 2) /\
  (0 <= x -> 0 <= inject_Z (roundHalfEven x)).
Proof.
  unfold roundHalfEven. cbv zeta.
  pose proof (Qfloor_le x) as H1. pose proof (Qlt_floor x) as H2.
  rewrite inject_Z_plus in H2. change (inject_Z 1) with 1 in H2.
  assert (H0 : 0 <= x -> 0 <= inject_Z (Qfloor x)).
  { intros Hx. change 0 with (inject_Z 0). rewrite <- Zle_Qle.
    change 0%Z with (Qfloor 0). apply Qfloor_resp_le, Hx. }
  destruct (x - inject_Z (Qfloor x) ?= 1 # 2) eqn:E.
  - apply Qeq_alt in E. destruct (Z.even (Qfloor x)); rewrite ?inject_Z_plus;
      change (inject_Z 1) with 1; split; try (intros Hx; specialize (H0 Hx)); Lqa.lra.
  - apply Qlt_alt in E. split; [|exact H0]. Lqa.lra.
  - apply Qgt_alt in E. rewrite inject_Z_plus. change (inject_Z 1) with 1.
    split; [|intros Hx; specialize (H0 Hx)]; Lqa.lra.
Qed.

(** Rounding a positive number of moderate size: no overflow, and an error
    of at most the unit roundoff times the number, or of half the spacing
    of the subnormal numbers. *)
Lemma roundPositive_error q :
  0 < q -> q <= 1000000000000000 ->
  exists r, roundPositive q = Some r /\ 0 <= r /\
            q - (unitRoundoff * q + tiny) <= r <= q + (unitRoundoff * q + tiny).
Proof.
  intros Hq Hbig. unfold roundPositive. cbv zeta.
  set (e := Z.max (ilog2 q - 52) (-1074)).
  set (x := q / pow2 e).
  pose proof (pow2_pos e) as Pe.
  assert (Hx : x * pow2 e == q).
  { unfold x. field. intros E. rewrite E in Pe. discriminate Pe. }
  assert (Hx0 : 0 <= x).
  { unfold x. apply Qle_shift_div_l; [exact Pe|]. Lqa.lra. }
  destruct (roundHalfEven_near x) as ((M1 & M2) & M0). specialize (M0 Hx0).
  set (m := inject_Z (roundHalfEven x)) in *.
  assert (Hhalf : pow2 e <= 2 * (unitRoundoff * q + tiny)).
  { unfold e. destruct (Z.max_spec (ilog2 q - 52) (-1074)) as [(_ & ->)|(_ & ->)].
    - apply Qle_trans with (pow2 (-99)); [apply pow2_le; lia|].
      unfold unitRoundoff, tiny.
      assert (E : pow2 (-99) == 1 # 633825300114114700748351602688) by reflexivity.
      rewrite E. Lqa.lra.
    - replace (ilog2 q - 52)%Z with (ilog2 q + -52)%Z by lia. rewrite pow2_plus.
      assert (E : pow2 (-52) == 1 # 4503599627370496) by reflexivity.
      rewrite E. pose proof (ilog2_le q Hq) as HL. unfold unitRoundoff, tiny. Lqa.lra. }
  assert (R1 : (x - (1 # 2)) * pow2 e <= m * pow2 e)
    by (apply Qmult_le_compat_r; [exact M1|apply Qlt_le_weak, Pe]).
  assert (R2 : m * pow2 e <= (x + (1 # 2)) * pow2 e)
    by (apply Qmult_le_compat_r; [exact M2|apply Qlt_le_weak, Pe]).
  assert (R0 : 0 <= m * pow2 e) by (apply Qmult_le_0_compat; [exact M0|apply Qlt_le_weak, Pe]).
  assert (E1 : (x - (1 # 2)) * pow2 e == q - pow2 e * (1 # 2)) by (rewrite <- Hx; ring).
  assert (E2 : (x + (1 # 2)) * pow2 e == q + pow2 e * (1 # 2)) by (rewrite <- Hx; ring).
  rewrite E1 in R1. rewrite E2 in R2.
  assert (Hover : Qle_bool (pow2 1024) (m * pow2 e) = false).
  { destruct (Qle_bool (pow2 1024) (m * pow2 e)) eqn:E; [|reflexivity].
    apply Qle_bool_iff in E.
    assert (P52 : pow2 52 <= pow2 1024) by (apply pow2_le; lia).
    assert (V52 : pow2 52 == 4503599627370496) by reflexivity.
    rewrite V52 in P52. unfold unitRoundoff, tiny in Hhalf. Lqa.lra. }
  rewrite Hover. exists (Qred (m * pow2 e)). split; [reflexivity|].
  rewrite Qred_correct. split; [exact R0|]. Lqa.lra.
Qed.

Lemma binary64_error q :
  0 <= q -> q <= 1000000000000000 ->
  exists r, binary64 q = Num r /\ 0 <= r /\
            q - (unitRoundoff * q + tiny) <= r <= q + (unitRoundoff * q + tiny).
Proof.
  intros Hq Hbig. unfold binary64. destruct (q ?= 0) eqn:E.
  - apply Qeq_alt in E. exists 0. split; [reflexivity|]. split; [apply Qle_refl|].
    unfold unitRoundoff, tiny. Lqa.lra.
  - apply Qlt_alt in E. Lqa.lra.
  - apply Qgt_alt in E. destruct (roundPositive_error q E Hbig) as (r & -> & Hr).
    exists r. split; [reflexivity|exact Hr].
Qed.

End RoundingFacts.

Section SumFacts.
Import Double Metrics.
Local Open Scope Q_scope.

(** The loop body of [sumLegs]. *)
Let step (leg : Stop -> Stop -> Coordinate) (sts : list Stop) (dist : Coordinate) (k : nat)
  : Coordinate :=
  match sts !! k, sts !! S k with
  | Some from, Some to => add dist (leg from to)
  | _, _ => dist
  end.

Lemma step_shift leg a sts ks : forall acc,
  fold_left (step leg (a :: sts)) (map S ks) acc = fold_left (step leg sts) ks acc.
Proof.
  induction ks as [|k ks IH]; intros acc; simpl; [reflexivity|].
  rewrite <- IH. reflexivity.
Qed.

Lemma loop_legs leg sts : forall acc,
  fold_left (step leg sts) (seq 0 (length sts - 1)) acc = fold_left add (legsOf leg sts) acc.
Proof.
  induction sts as [|a sts IH]; intros acc; [reflexivity|].
  destruct sts as [|b sts]; [reflexivity|].
  replace (length (a :: b :: sts) - 1)%nat with (S (length (b :: sts) - 1))
    by (simpl; lia).
  rewrite <- cons_seq, <- seq_shift. simpl fold_left at 1.
  rewrite step_shift, IH. reflexivity.
Qed.

(** The index loop adds the legs of consecutive stops, from the left. *)
Lemma sumLegs_legs leg sts : sumLegs leg sts = fold_left add (legsOf leg sts) (Num 0).
Proof. unfold sumLegs. apply (loop_legs leg sts). Qed.

Let sumQ (ds : list Q) : Q := fold_right Qplus 0 ds.

Let count (k : nat) : Q := inject_Z (Z.of_nat k).

Lemma count_succ k : count (S k) == count k + 1.
Proof. unfold count. rewrite Nat2Z.inj_succ, <- Z.add_1_r, inject_Z_plus. reflexivity. Qed.

Lemma count_le k n : (k <= n)%nat -> count k <= count n.
Proof. intros H. unfold count. rewrite <- Zle_Qle. lia. Qed.

(** Adding up to a thousand legs that are not negative and sum to at most
    four million: every addition is off by at most 1e-9. *)
Lemma fold_add_error ds : forall (k : nat) (s A : Q),
  Forall (fun d => 0 <= d) ds ->
  0 <= s -> 0 <= A ->
  A - count k * (1 # 1000000000) <= s <= A + count k * (1 # 1000000000) ->
  A + sumQ ds <= 4000000 ->
  (k + length ds <= 1000)%nat ->
  exists s',
    fold_left add (map Num ds) (Num s) = Num s' /\ 0 <= s' /\
    A + sumQ ds - count (k + length ds) * (1 # 1000000000) <= s'
      <= A + sumQ ds + count (k + length ds) * (1 # 1000000000).
Proof.
  induction ds as [|d ds IH]; intros k s A Hpos Hs HA Hnear Hsum Hlen.
  - exists s. split; [reflexivity|]. split; [exact Hs|].
    simpl. rewrite Nat.add_0_r. unfold sumQ in *. simpl in *. Lqa.lra.
  - apply Forall_cons in Hpos as [Hd Hpos]. simpl length in Hlen.
    assert (Hrest : 0 <= sumQ ds).
    { clear -Hpos. induction Hpos as [|x l Hx _ IHl]; [apply Qle_refl|].
      unfold sumQ in *. simpl. Lqa.lra. }
    assert (Hk : count k <= 1000).
    { change 1000 with (count 1000). apply count_le. lia. }
    change (sumQ (d :: ds)) with (d + sumQ ds) in *.
    destruct (binary64_error (s + d)) as (r & Er & Hr0 & Hr); [Lqa.lra|Lqa.lra|].
    unfold unitRoundoff, tiny in Hr.
    destruct (IH (S k) r (A + d)) as (s' & Es & Hs0 & Hs'); try assumption.
    + Lqa.lra.
    + rewrite count_succ. Lqa.lra.
    + Lqa.lra.
    + lia.
    + exists s'. split; [simpl; rewrite Er; exact Es|]. split; [exact Hs0|].
      simpl length.
      replace (k + S (length ds))%nat with (S k + length ds)%nat by lia. Lqa.lra.
Qed.

(** [(dist / 40) * 60] and its rounding to minutes, for a distance of at
    most 4000001 km. *)
Lemma duration_error dist :
  0 <= dist -> dist <= 4000001 ->
  exists (x : Q) (minutes : Z),
    mul (div (Num dist) (Num 40)) (Num 60) = Num x /\
    (3 # 2) * dist - (1 # 100000000) <= x <= (3 # 2) * dist + (1 # 100000000) /\
    durationOf (Num 40) (Num dist) = Num (inject_Z minutes) /\
    inject_Z minutes - (1 # 2) <= x < inject_Z minutes + (1 # 2).
Proof.
  intros H0 H1. unfold durationOf.
  change (div (Num dist) (Num 40)) with (binary64 (dist / 40)).
  assert (Hq : dist / 40 == dist * (1 # 40)) by (field; discriminate).
  destruct (binary64_error (dist / 40)) as (a & -> & Ha0 & Ha);
    [rewrite Hq; Lqa.lra|rewrite Hq; Lqa.lra|].
  rewrite Hq in Ha. unfold unitRoundoff, tiny in Ha.
  change (mul (Num a) (Num 60)) with (binary64 (a * 60)).
  destruct (binary64_error (a * 60)) as (x & -> & Hx0 & Hx); [Lqa.lra|Lqa.lra|].
  unfold unitRoundoff, tiny in Hx.
  exists x, (Qfloor (x + (1 # 2))). split; [reflexivity|]. split; [Lqa.lra|].
  split; [reflexivity|].
  pose proof (Qfloor_le (x + (1 # 2))) as F1. pose proof (Qlt_floor (x + (1 # 2))) as F2.
  rewrite inject_Z_plus in F2. change (inject_Z 1) with 1 in F2. Lqa.lra.
Qed.

Variables (calc : Kernel) (locations : list Location).

Hypothesis ids_distinct : NoDup (map loc_id locations).

Hypothesis kernel_number : forall l1 l2,
  In l1 locations -> In l2 locations ->
  exists d, calc (loc_latitude l1) (loc_longitude l1) (loc_latitude l2) (loc_longitude l2)
            = Num d /\ 0 <= d.

Let distances : Matrix := buildDistances calc locations.

Lemma matrixEntry_built l1 l2 :
  In l1 locations -> In l2 locations ->
  matrixEntry distances (loc_id l1) (loc_id l2) =
  Some (calc (loc_latitude l1) (loc_longitude l1) (loc_latitude l2) (loc_longitude l2)).
Proof.
  intros H1 H2. unfold matrixEntry, distances, buildDistances.
  rewrite (fold_insert_lookup (fun l => buildRow calc l locations)) by assumption.
  unfold buildRow.
  apply (fold_insert_lookup
           (fun l => calc (loc_latitude l1) (loc_longitude l1)
                          (loc_latitude l) (loc_longitude l))); assumption.
Qed.

(** Between two stops of the instance both ways of reading a leg yield the
    matrix entry, a number that is not negative. *)
Lemma leg_number a b :
  stopFrom locations a -> stopFrom locations b ->
  exists d, 0 <= d /\
    matrixEntry distances (locationId a) (locationId b) = Some (Num d) /\
    legNullish calc distances a b = Num d /\ legOr calc distances a b = Num d.
Proof.
  intros (la & Hla & Ea & Eat & Eon) (lb & Hlb & Eb & Ebt & Ebn).
  destruct (kernel_number la lb Hla Hlb) as (d & Hd & Hd0).
  pose proof (matrixEntry_built la lb Hla Hlb) as He. rewrite Hd in He.
  exists d. split; [exact Hd0|]. rewrite Ea, Eb. split; [exact He|].
  unfold legNullish, legOr. rewrite Ea, Eb, He.
  split; [reflexivity|]. rewrite Eat, Eon, Ebt, Ebn, Hd.
  destruct (truthy (Num d)); reflexivity.
Qed.

Lemma legs_numbers sts :
  Forall (stopFrom locations) sts ->
  exists ds,
    Forall (fun d => 0 <= d) ds /\
    legsOf (legNullish calc distances) sts = map Num ds /\
    legsOf (legOr calc distances) sts = map Num ds /\
    exactPathLength distances sts = Some (sumQ ds) /\
    (length ds <= length sts)%nat.
Proof.
  induction sts as [|a sts IH]; intros Hall.
  { exists []. repeat split; auto. }
  apply Forall_cons in Hall as [Ha Hall]. destruct (IH Hall) as (ds & P & L1 & L2 & E & Hl).
  destruct sts as [|b sts].
  { exists []. repeat split; simpl; auto. }
  pose proof Hall as Hall'. apply Forall_cons in Hall' as [Hb _].
  destruct (leg_number a b Ha Hb) as (d & Hd & He & N1 & N2).
  exists (d :: ds). split; [constructor; assumption|].
  split; [change (legsOf (legNullish calc distances) (a :: b :: sts))
            with (legNullish calc distances a b :: legsOf (legNullish calc distances) (b :: sts));
          rewrite N1, L1; reflexivity|].
  split; [change (legsOf (legOr calc distances) (a :: b :: sts))
            with (legOr calc distances a b :: legsOf (legOr calc distances) (b :: sts));
          rewrite N2, L2; reflexivity|].
  split; [|simpl in *; lia].
  change (exactPathLength distances (a :: b :: sts))
    with (match matrixEntry distances (locationId a) (locationId b),
                exactPathLength distances (b :: sts) with
          | Some (Num d), Some total => Some (d + total)
          | _, _ => None
          end).
  rewrite He, E. reflexivity.
Qed.

(** The metrics both functions write, for either way of reading a leg. *)
Lemma metrics_match leg r :
  (leg = legNullish calc distances \/ leg = legOr calc distances) ->
  Forall (stopFrom locations) (stops r) ->
  (length (stops r) <= 1000)%nat ->
  (forall total, exactPathLength distances (stops r) = Some total -> total <= 4000000) ->
  let dist := sumLegs leg (stops r) in
  metricsMatch distances r (setMetrics r dist (durationOf (Num 40) dist)).
Proof.
  intros Hleg Hall Hlen Hbound dist.
  destruct (legs_numbers (stops r) Hall) as (ds & P & L1 & L2 & E & Hl).
  assert (HL : legsOf leg (stops r) = map Num ds) by (destruct Hleg as [->| ->]; assumption).
  specialize (Hbound _ E).
  destruct (fold_add_error ds 0 0 0 P) as (s & Es & Hs0 & Hs);
    [apply Qle_refl|apply Qle_refl|change (count 0) with 0; Lqa.lra|Lqa.lra|lia|].
  assert (Hc : count (0 + length ds) <= 1000).
  { change 1000 with (count 1000). apply count_le. lia. }
  assert (Hsum0 : 0 <= sumQ ds).
  { clear -P. induction P as [|x l Hx _ IHl]; [apply Qle_refl|].
    unfold sumQ in *. simpl. Lqa.lra. }
  assert (Hd : dist = Num s).
  { unfold dist. rewrite sumLegs_legs, HL. exact Es. }
  destruct (duration_error s) as (x & minutes & Ex & Hx & Edur & Hmin);
    [exact Hs0|Lqa.lra|].
  exists (sumQ ds), s, x, minutes. rewrite Hd.
  cbn [setMetrics distance duration stops].
  split; [exact E|]. split; [reflexivity|]. split; [Lqa.lra|].
  split; [exact Ex|]. split; [exact Hx|]. split; [exact Edur|exact Hmin].
Qed.

(** On the Earth no entry exceeds 20016 km, half the circumference: then
    every route of at most 200 stops is in range. *)
Lemma inRange_earth r :
  (forall l1 l2 d, In l1 locations -> In l2 locations ->
     calc (loc_latitude l1) (loc_longitude l1) (loc_latitude l2) (loc_longitude l2) = Num d ->
     d <= 20016) ->
  Forall (stopFrom locations) (stops r) -> (length (stops r) <= 200)%nat ->
  inRange locations distances r.
Proof.
  intros Hmax Hall Hlen. split; [exact Hall|]. split; [lia|].
  assert (H : forall sts total,
            Forall (stopFrom locations) sts ->
            exactPathLength distances sts = Some total ->
            total <= count (length sts - 1) * 20016).
  { induction sts as [|a sts IH]; intros total Hs E.
    { injection E as <-. discriminate. }
    destruct sts as [|b sts]; [injection E as <-; discriminate|].
    apply Forall_cons in Hs as [Ha Hs]. pose proof Hs as Hs'.
    apply Forall_cons in Hs' as [Hb _].
    change (exactPathLength distances (a :: b :: sts))
      with (match matrixEntry distances (locationId a) (locationId b),
                  exactPathLength distances (b :: sts) with
            | Some (Num d), Some total => Some (d + total)
            | _, _ => None
            end) in E.
    destruct Ha as (la & Hla & Ea & _). destruct Hb as (lb & Hlb & Eb & _).
    rewrite Ea, Eb, (matrixEntry_built la lb Hla Hlb) in E.
    destruct (calc _ _ _ _) as [d| | |] eqn:Ed; try discriminate.
    destruct (exactPathLength distances (b :: sts)) as [t|] eqn:Et; [|discriminate].
    injection E as <-. specialize (IH t Hs eq_refl).
    pose proof (Hmax la lb d Hla Hlb Ed) as Hd.
    replace (length (a :: b :: sts) - 1)%nat with (S (length (b :: sts) - 1))
      by (simpl; lia).
    rewrite count_succ. Lqa.lra. }
  intros total E. specialize (H _ _ Hall E).
  assert (Hc : count (length (stops r) - 1) <= 199).
  { change 199 with (count 199). apply count_le. lia. }
  Lqa.lra.
Qed.

End SumFacts.

Section DoubleMetricTheorems.
Local Open Scope Q_scope.


End DoubleMetricTheorems.

Lemma farLocations_nodup : NoDup (map loc_id [depotD; customerA]).
Proof. apply (bool_decide_unpack _). vm_compute. exact I. Qed.

Lemma farKernel_number l1 l2 :
  In l1 [depotD; customerA] -> In l2 [depotD; customerA] ->
  exists d, Metrics.farKernel (loc_latitude l1) (loc_longitude l1)
                             (loc_latitude l2) (loc_longitude l2) = Num d /\ (0 <= d)%Q.
Proof.
  intros [<-|[<-|[]]] [<-|[<-|[]]]; eexists; (split; [reflexivity|discriminate]).
Qed.

Lemma farTrip_inRange :
  Metrics.inRange [depotD; customerA]
    (Metrics.buildDistances Metrics.farKernel [depotD; customerA]) Metrics.farTrip.
Proof.
  split; [|split].
  - repeat constructor; [exists depotD|exists customerA|exists depotD]; simpl; auto.
  - simpl. lia.
  - intros total H. vm_compute in H. injection H as <-. discriminate.
Qed.


(** A round trip of 41 km: [41 / 40] is not a double, the quotient rounds
    down, and the duration is 61 minutes, not the 62 of exact arithmetic. *)
Example recomputeAllRouteMetrics_41km :
  map (fun r => (Metrics.distance r, Metrics.duration r))
      (Metrics.recomputeAllRouteMetrics Metrics.farKernel
         (Metrics.buildDistances Metrics.farKernel [depotD; customerA]) (Num 40)
         [Metrics.farTrip])
  = [(Num 41, Num 61)] /\
  durationOf 40 41 = 62%Z.
Proof. split; vm_compute; reflexivity. Qed.

(** The rounding of [binary64] against the doubles of the kernel: the same
    values for quotients, products and sums of a few operands. *)
Example binary64_agrees_with_hardware :
  map (fun '(a, b, c) =>
         Double.mul (Double.div (Num (inject_Z a)) (Num (inject_Z b))) (Num (inject_Z c)))
      [(41, 40, 60); (1, 3, 3); (2, 3, 9); (123457, 1000, 60); (20015087, 1000, 60);
       (1, 10, 3); (7, 1000, 1)]%Z
  = map (fun '(a, b, c) =>
           Double.ofFloat
             (PrimFloat.mul (PrimFloat.div (Double.toFloat a) (Double.toFloat b))
                            (Double.toFloat c)))
        [(41, 40, 60); (1, 3, 3); (2, 3, 9); (123457, 1000, 60); (20015087, 1000, 60);
         (1, 10, 3); (7, 1000, 1)]%Z /\
  map (fun '(a, b, c) =>
         Double.add (Double.div (Num (inject_Z a)) (Num (inject_Z c)))
                    (Double.div (Num (inject_Z b)) (Num (inject_Z c))))
      [(1, 2, 10); (13700, 27300, 1000); (1, 1, 3); (20015087, 1, 1000)]%Z
  = map (fun '(a, b, c) =>
           Double.ofFloat
             (PrimFloat.add (PrimFloat.div (Double.toFloat a) (Double.toFloat c))
                            (PrimFloat.div (Double.toFloat b) (Double.toFloat c))))
        [(1, 2, 10); (13700, 27300, 1000); (1, 1, 3); (20015087, 1, 1000)]%Z.
Proof. split; vm_compute; reflexivity. Qed.

(** ** Solution key *)

Section SolutionKeyFacts.

(** The comparator of [sortStrings]. *)
Let after (a b : string) : bool := String.ltb b a.

Lemma after_asym a b : after a b = true -> after b a = false.
Proof.
  unfold after, String.ltb. rewrite (String.compare_antisym a b).
  destruct (String.compare b a); simpl; congruence.
Qed.

Lemma after_total a b : after a b = false -> after b a = false -> a = b.
Proof.
  unfold after, String.ltb. rewrite (String.compare_antisym a b).
  destruct (String.compare b a) eqn:E; simpl; try congruence.
  intros _ _. symmetry. apply String.compare_eq_iff, E.
Qed.

Lemma after_trans x y z : after x z = false -> after y z = true -> after y x = true.
Proof.
  unfold after, String.ltb. intros Hxz Hyz.
  destruct (String.compare z y) eqn:Ezy; try discriminate.
  destruct (String.compare z x) eqn:Ezx; try discriminate.
  - apply String.compare_eq_iff in Ezx as <-. rewrite Ezy. reflexivity.
  - assert (Hxz' : String.compare x z = Lt).
    { rewrite String.compare_antisym, Ezx. reflexivity. }
    assert (H : String_as_OT.lt x y).
    { eapply String_as_OT.lt_trans; apply String_as_OT.cmp_lt; eassumption. }
    apply String_as_OT.cmp_lt in H. unfold String_as_OT.cmp in H. rewrite H. reflexivity.
Qed.

(** Two insertions commute, whatever the list. *)
Lemma insert_after_comm x y l :
  insert_by after x (insert_by after y l) = insert_by after y (insert_by after x l).
Proof.
  induction l as [|z l IH]; simpl.
  - destruct (after x y) eqn:Exy, (after y x) eqn:Eyx; try reflexivity.
    + apply after_asym in Exy. congruence.
    + rewrite (after_total x y Exy Eyx). reflexivity.
  - destruct (after y z) eqn:Eyz, (after x z) eqn:Exz; simpl.
    + rewrite Eyz, Exz, IH. reflexivity.
    + rewrite Exz, (after_trans x y z Exz Eyz). simpl. rewrite Eyz. reflexivity.
    + rewrite Eyz, (after_trans y x z Eyz Exz). simpl. rewrite Exz. reflexivity.
    + destruct (after x y) eqn:Exy, (after y x) eqn:Eyx; simpl;
        rewrite ?Exz, ?Eyz; try reflexivity.
      * apply after_asym in Exy. congruence.
      * rewrite (after_total x y Exy Eyx). reflexivity.
Qed.

Lemma sortStrings_permutation xs ys :
  Permutation xs ys -> sortStrings xs = sortStrings ys.
Proof.
  unfold sortStrings. fold after.
  induction 1 as [|x xs ys _ IH|x y xs|xs ys zs _ IH1 _ IH2]; simpl.
  - reflexivity.
  - rewrite IH. reflexivity.
  - apply insert_after_comm.
  - congruence.
Qed.

End SolutionKeyFacts.

(** C10. The Tabu Search key does not depend on the order of the routes: two
    solutions that are permutations of one another get the same key, and
    hence the same answer from the tabu list. *)
Theorem generateSolutionKey_permutation (solution solution' : list Route) :
  Permutation solution solution' ->
  generateSolutionKey solution = generateSolutionKey solution' /\
  (forall tabuList, isTabu tabuList solution = isTabu tabuList solution').
Proof.
  intros Hperm.
  assert (Hkey : generateSolutionKey solution = generateSolutionKey solution').
  { unfold generateSolutionKey. f_equal.
    apply sortStrings_permutation, Permutation_map, Hperm. }
  split; [exact Hkey|].
  intros tabuList. unfold isTabu. rewrite Hkey. reflexivity.
Qed.

Lemma generateSolutionKey_permutation_witness :
  generateSolutionKey [roundTrip depotD customerB; roundTrip depotD customerA] =
  generateSolutionKey [roundTrip depotD customerA; roundTrip depotD customerB] /\
  (forall tabuList,
     isTabu tabuList [roundTrip depotD customerB; roundTrip depotD customerA] =
     isTabu tabuList [roundTrip depotD customerA; roundTrip depotD customerB]).
Proof.
  apply generateSolutionKey_permutation. apply perm_swap.
Defined.

Example generateSolutionKey_sample :
  generateSolutionKey [roundTrip depotD customerB; roundTrip depotD customerA] = "D-A-D|D-B-D".
Proof. reflexivity. Qed.

(** ** Request validation *)

Section ValidationFacts.
Import Validation.

Lemma findByIds_no_ids {A} (idOf : A -> Id) docs : findByIds idOf [] docs = [].
Proof.
  unfold findByIds. induction docs as [|d docs IH]; simpl; [reflexivity|exact IH].
Qed.

(** C8 (as amended). A request that lists more than 100 location ids or more
    than 20 vehicle ids, that selects no vehicle or no location, or whose
    locations hold no depot, is answered with a 400 message, and the answer
    is fixed before the solve stage: it is the same whatever the algorithms
    would compute. *)
Theorem createOptimization_rejects (store : Store) (req : Request) :
  oversizedOrEmpty store req ->
  exists msg, forall (A : Type) (solve : list Vehicle -> list Location -> Location -> A),
    createOptimization solve store req = BadRequest msg.
Proof.
  unfold oversizedOrEmpty, selectedVehicles, selectedLocations, createOptimization.
  intros H.
  destruct (invalidName (req_name req)); [eauto|].
  destruct (req_vehicleIds req) as [[|v vids]|]; simpl missingIds; cbv iota; [eauto| |eauto].
  destruct (req_locationIds req) as [[|l lids]|]; simpl missingIds; cbv iota; [eauto| |eauto].
  cbn [idsOf] in *.
  destruct (Nat.ltb_spec 100 (length (l :: lids))) as [Hl|Hl]; [eauto|].
  destruct (Nat.ltb_spec 20 (length (v :: vids))) as [Hv|Hv]; [eauto|].
  cbv zeta.
  destruct (findByIds veh_id (v :: vids) (storedVehicles store)) as [|fv fvs]; [eauto|].
  destruct (findByIds loc_id (l :: lids) (storedLocations store)) as [|fl fls]; [eauto|].
  destruct (List.find isDepot (fl :: fls)) as [depot|] eqn:Hd; [|eauto].
  exfalso. destruct H as [H|[H|[H|[H|H]]]]; try discriminate; lia.
Qed.

End ValidationFacts.

Lemma createOptimization_rejects_witness :
  exists msg, forall (A : Type) (solve : list Vehicle -> list Location -> Location -> A),
    Validation.createOptimization solve Validation.storeWithInfinity Validation.request101
    = Validation.BadRequest msg.
Proof.
  apply createOptimization_rejects. left. vm_compute. lia.
Defined.

(** C8 (as stated) fails for non-finite coordinates: a request whose
    location has an infinite latitude passes every check and reaches the
    solve stage. *)
Lemma createOptimization_accepts_infinite_coordinate :
  existsb (fun loc => negb (Validation.finiteCoordinates loc))
    (Validation.selectedLocations Validation.storeWithInfinity Validation.requestWithInfinity)
  = true /\
  forall (A : Type) (solve : list Vehicle -> list Location -> Location -> A),
    Validation.createOptimization solve Validation.storeWithInfinity
      Validation.requestWithInfinity =
    Validation.Solved (solve [Validation.truck] [depotD; Validation.farAway] depotD).
Proof. split; [reflexivity|]. intros A solve. reflexivity. Qed.

(** ** The 3-opt pass *)

Section ThreeOptFacts.
Import ThreeOpt.

(** What the six candidate expressions evaluate to: since [reverse] works in
    place, the third to sixth read segments that earlier elements reversed. *)
Lemma candidates_evaluated A B C D :
  candidates A B C D =
  [ A ++ B ++ C ++ D;
    A ++ rev B ++ C ++ D;
    A ++ rev B ++ rev C ++ D;
    A ++ rev C ++ rev B ++ D;
    A ++ C ++ rev B ++ D;
    A ++ B ++ rev C ++ D ].
Proof.
  unfold candidates, between, bind, ret, spreadB, spreadC, spreadReverseB, spreadReverseC.
  simpl. rewrite !rev_involutive. reflexivity.
Qed.

Lemma improves_true d bestD : improves d bestD = true -> (d + tolerance < bestD)%Q.
Proof. unfold improves. destruct (Qlt_le_dec _ _); [auto|discriminate]. Qed.

Lemma improves_false d bestD : improves d bestD = false -> (bestD <= d + tolerance)%Q.
Proof. unfold improves. destruct (Qlt_le_dec _ _); [discriminate|auto]. Qed.

Lemma tolerance_nonneg d : (d <= d + tolerance)%Q.
Proof.
  rewrite <- (Qplus_0_r d) at 1. apply Qplus_le_r. unfold tolerance. discriminate.
Qed.

Lemma pickBest_state cost seq0 cands : forall seen acc,
  pickState cost seq0 seen acc ->
  pickState cost seq0 (seen ++ cands) (fold_left (pickStep cost) cands acc).
Proof.
  induction cands as [|c cands IH]; intros seen acc Hst.
  - rewrite app_nil_r. exact Hst.
  - simpl. replace (seen ++ c :: cands) with ((seen ++ [c]) ++ cands)
      by (rewrite <- app_assoc; reflexivity).
    apply IH. unfold pickState in Hst. destruct Hst as (Hle & Hseen & Hbest).
    unfold pickStep. cbv zeta.
    destruct (improves (cost c) (snd acc)) eqn:Himp.
    + apply improves_true in Himp. unfold pickState. simpl. split; [|split].
      * eapply Qle_trans; [apply tolerance_nonneg|].
        eapply Qle_trans; [apply Qlt_le_weak, Himp|exact Hle].
      * intros c' Hc'. apply in_app_or in Hc' as [Hc'|[<-|[]]].
        -- eapply Qle_trans; [apply tolerance_nonneg|].
           eapply Qle_trans; [apply Qlt_le_weak, Himp|]. apply Hseen, Hc'.
        -- apply tolerance_nonneg.
      * split; [apply in_or_app; right; now left|]. split; [reflexivity|].
        eapply Qlt_le_trans; [exact Himp|exact Hle].
    + apply improves_false in Himp. unfold pickState. split; [exact Hle|]. split.
      * intros c' Hc'. apply in_app_or in Hc' as [Hc'|[<-|[]]]; [apply Hseen, Hc'|exact Himp].
      * destruct (fst acc) as [best|]; [|exact Hbest].
        destruct Hbest as (Hin & Hb). split; [apply in_or_app; now left|exact Hb].
Qed.

Lemma pickBest_spec cost seq0 cands :
  match fst (pickBest cost seq0 cands) with
  | Some best =>
      In best cands /\ (cost best + tolerance < cost seq0)%Q /\
      (forall c, In c cands -> (cost best <= cost c + tolerance)%Q)
  | None => forall c, In c cands -> (cost seq0 <= cost c + tolerance)%Q
  end.
Proof.
  assert (H0 : pickState cost seq0 [] (None, cost seq0)).
  { unfold pickState. simpl. split; [apply Qle_refl|]. split; [intros c []|reflexivity]. }
  apply (pickBest_state cost seq0 cands) in H0. simpl app in H0.
  change (fold_left (pickStep cost) cands (None, cost seq0))
    with (pickBest cost seq0 cands) in H0.
  unfold pickState in H0.
  destruct H0 as (_ & Hseen & Hbest).
  destruct (fst (pickBest cost seq0 cands)) as [best|].
  - destruct Hbest as (Hin & Heq & Hlt). split; [exact Hin|]. split; [exact Hlt|].
    intros c Hc. rewrite <- Heq. apply Hseen, Hc.
  - intros c Hc. rewrite <- Hbest. apply Hseen, Hc.
Qed.

Lemma slices_partition {A} (l : list A) i j k :
  (i <= j)%nat -> (j <= k)%nat ->
  slice 0 i l ++ slice i j l ++ slice j k l ++ drop k l = l.
Proof.
  intros Hij Hjk. unfold slice. rewrite Nat.sub_0_r, drop_0.
  replace (drop k l) with (drop (k - j) (drop j l))
    by (rewrite drop_drop; f_equal; lia).
  rewrite take_drop.
  replace (drop j l) with (drop (j - i) (drop i l))
    by (rewrite drop_drop; f_equal; lia).
  rewrite take_drop. apply take_drop.
Qed.

Lemma triples_spec n i j k :
  In (i, j, k) (triples n) <->
  (1 <= i)%nat /\ (i < j)%nat /\ (j < k)%nat /\ (k + 2 <= n)%nat.
Proof.
  unfold triples. rewrite in_flat_map. split.
  - intros (i' & Hi & H). apply in_flat_map in H as (j' & Hj & H).
    apply in_map_iff in H as (k' & E & Hk). injection E as -> -> ->.
    apply in_seq in Hi, Hj, Hk. lia.
  - intros (H1 & H2 & H3 & H4). exists i. split; [apply in_seq; lia|].
    apply in_flat_map. exists j. split; [apply in_seq; lia|].
    apply in_map_iff. exists k. split; [reflexivity|apply in_seq; lia].
Qed.

End ThreeOptFacts.

Section ThreeOptTheorems.
Import ThreeOpt.

(** What the pass does for one triple with [1 <= i < j < k <= len - 2]: the
    triple is one the pass enumerates, the four slices partition the
    sequence as A | B | C | D, six candidates are evaluated, among them the
    identity, reverse B, reverse C and the double-reverse, and the triple
    yields a candidate that is shorter than the current sequence by more
    than 1e-9 and, up to 1e-9, not longer than any other candidate (none
    when no candidate is that much shorter). *)
Lemma threeOpt_triple (cost : list Stop -> Q) (seq0 : list Stop) (i j k : nat) :
  (1 <= i)%nat -> (i < j)%nat -> (j < k)%nat -> (k + 2 <= length seq0)%nat ->
  let A := slice 0 i seq0 in
  let B := slice i j seq0 in
  let C := slice j k seq0 in
  let D := drop k seq0 in
  In (i, j, k) (triples (length seq0)) /\
  A ++ B ++ C ++ D = seq0 /\
  length (candidates A B C D) = 6%nat /\
  In (A ++ B ++ C ++ D) (candidates A B C D) /\
  In (A ++ rev B ++ C ++ D) (candidates A B C D) /\
  In (A ++ B ++ rev C ++ D) (candidates A B C D) /\
  In (A ++ rev B ++ rev C ++ D) (candidates A B C D) /\
  match tryTriple cost seq0 (i, j, k) with
  | Some best =>
      In best (candidates A B C D) /\
      (cost best + tolerance < cost seq0)%Q /\
      (forall c, In c (candidates A B C D) -> (cost best <= cost c + tolerance)%Q)
  | None =>
      forall c, In c (candidates A B C D) -> (cost seq0 <= cost c + tolerance)%Q
  end.
Proof.
  intros Hi Hij Hjk Hk A B C D.
  split; [apply triples_spec; lia|].
  split; [apply slices_partition; lia|].
  rewrite candidates_evaluated.
  split; [reflexivity|].
  split; [simpl; tauto|]. split; [simpl; tauto|]. split; [simpl; tauto|].
  split; [simpl; tauto|].
  unfold tryTriple. fold A B C D. rewrite candidates_evaluated.
  apply pickBest_spec.
Qed.

End ThreeOptTheorems.

(** C7 (as stated) fails: for the triple (1, 3, 4) of the tour
    depot, P1, P2, P3, P4, depot the plain swap A C B D, which the
    specification lists, is not among the evaluated candidates. On the grid
    instance that swap is shorter (8 against 10), no evaluated candidate is,
    and the whole pass reports no improvement. *)
Lemma threeOpt_swap_not_evaluated :
  let A := ThreeOpt.slice 0 1 gridTour in
  let B := ThreeOpt.slice 1 3 gridTour in
  let C := ThreeOpt.slice 3 4 gridTour in
  let D := drop 4 gridTour in
  In (A ++ C ++ B ++ D) (ThreeOpt.listedReconnections A B C D) /\
  ~ In (A ++ C ++ B ++ D) (ThreeOpt.candidates A B C D) /\
  (calcDist taxicab gridDistances (A ++ C ++ B ++ D) == 8)%Q /\
  (calcDist taxicab gridDistances gridTour == 10)%Q /\
  ThreeOpt.threeOptOnce (calcDist taxicab gridDistances) gridTour = None.
Proof.
  cbv zeta. split; [simpl; tauto|]. split.
  - rewrite candidates_evaluated. simpl.
    intros [H|[H|[H|[H|[H|[H|[]]]]]]]; discriminate H.
  - split; [reflexivity|]. split; [reflexivity|]. vm_compute. reflexivity.
Qed.

(** ** Clarke-Wright savings phase *)

Section SavingsFacts.
Import ClarkeWright.

Lemma map_removelast {A B} (f : A -> B) (l : list A) :
  map f (removelast l) = removelast (map f l).
Proof.
  induction l as [|a l IH]; [reflexivity|].
  destruct l as [|b l]; [reflexivity|].
  cbn [removelast map] in *. rewrite IH. reflexivity.
Qed.

Lemma map_demand_renumber sts : map demand (renumber sts) = map demand sts.
Proof.
  unfold renumber. change (map demand) with (fmap (M := list) demand).
  rewrite fmap_imap. apply imap_const.
Qed.

(** The demand of a stop sequence depends on the demands only. *)
Lemma demandOf_map sts sts' :
  map demand sts = map demand sts' -> demandOf sts = demandOf sts'.
Proof.
  intros H. unfold demandOf, interior. rewrite !map_removelast.
  change (map demand) with (fmap (M := list) demand). rewrite !fmap_drop.
  change (fmap (M := list) demand) with (map demand). rewrite H. reflexivity.
Qed.

Lemma demandOf_renumber sts : demandOf (renumber sts) = demandOf sts.
Proof. apply demandOf_map, map_demand_renumber. Qed.

Lemma drop1_nonempty {A} (l : list A) : (2 <= length l)%nat -> drop 1 l <> [].
Proof. destruct l as [|a [|b l]]; simpl; intros H; [lia|lia|discriminate]. Qed.

(** Joining two routes end to start joins their interiors. *)
Lemma interior_join s1 s2 :
  (2 <= length s1)%nat -> (2 <= length s2)%nat ->
  interior (removelast s1 ++ drop 1 s2) = interior s1 ++ interior s2.
Proof.
  intros H1 H2. unfold interior.
  destruct s1 as [|a s1]; [simpl in H1; lia|].
  assert (Hs1 : s1 <> []) by (destruct s1; [simpl in H1; lia|discriminate]).
  replace (removelast (a :: s1)) with (a :: removelast s1)
    by (destruct s1; [congruence|reflexivity]).
  change (drop 1 ((a :: removelast s1) ++ drop 1 s2)) with (removelast s1 ++ drop 1 s2).
  change (drop 1 (a :: s1)) with s1.
  apply removelast_app, drop1_nonempty, H2.
Qed.

Lemma sum_app (l1 l2 : list Z) :
  fold_right Z.add 0 (l1 ++ l2) = fold_right Z.add 0 l1 + fold_right Z.add 0 l2.
Proof. induction l1 as [|x l1 IH]; simpl; [reflexivity|]. rewrite IH. lia. Qed.

Lemma demandOf_join s1 s2 :
  (2 <= length s1)%nat -> (2 <= length s2)%nat ->
  demandOf (removelast s1 ++ drop 1 s2) = demandOf s1 + demandOf s2.
Proof.
  intros H1 H2. unfold demandOf. rewrite interior_join by assumption.
  rewrite map_app. apply sum_app.
Qed.

Lemma length_join (s1 s2 : list Stop) :
  (3 <= length s1)%nat -> (3 <= length s2)%nat ->
  (3 < length (removelast s1 ++ drop 1 s2))%nat.
Proof.
  intros H1 H2. rewrite length_app, removelast_firstn_len, length_take, length_drop. lia.
Qed.

Lemma In_replaceTwo routes a b merged r :
  In r (replaceTwo routes a b merged) -> r = merged \/ In r routes.
Proof.
  unfold replaceTwo. rewrite <- !list_elem_of_In. intros H.
  apply list_elem_of_lookup in H as (n & Hn).
  destruct (decide (n = Nat.min a b)) as [->|Hne].
  - destruct (decide (Nat.min a b < length (delete (Nat.max a b) routes))%nat) as [Hlt|Hge].
    + rewrite list_lookup_insert_eq in Hn by exact Hlt. left. congruence.
    + rewrite list_insert_ge in Hn by lia. right.
      eapply list_elem_of_delete_inv, list_elem_of_lookup. eauto.
  - rewrite list_lookup_insert_ne in Hn by congruence. right.
    eapply list_elem_of_delete_inv, list_elem_of_lookup. eauto.
Qed.

Lemma mergedStops_shape r1 r2 stopI stopJ newStops :
  mergedStops r1 r2 stopI stopJ = Some newStops ->
  newStops = removelast (stops r1) ++ drop 1 (stops r2) \/
  newStops = removelast (stops r2) ++ drop 1 (stops r1).
Proof.
  unfold mergedStops. cbv zeta.
  destruct (isEndEndpoint r1 stopI && isStartEndpoint r2 stopJ);
    [intros [= <-]; now left|].
  destruct (isEndEndpoint r2 stopJ && isStartEndpoint r1 stopI);
    [intros [= <-]; now right|discriminate].
Qed.

Lemma mergeStep_gated calc distances speedKmh maxCapacity routes s :
  (forall r, In r routes -> gated maxCapacity r) ->
  forall r, In r (mergeStep calc distances speedKmh maxCapacity routes s) ->
            gated maxCapacity r.
Proof.
  intros Hall r. unfold mergeStep. destruct s as [idI idJ].
  destruct (findRouteIndexByLocation routes idI) as [[routeI stopI]|]; [|apply Hall].
  destruct (findRouteIndexByLocation routes idJ) as [[routeJ stopJ]|]; [|apply Hall].
  destruct (Nat.eqb routeI routeJ); [apply Hall|].
  destruct (routes !! routeI) as [r1|] eqn:E1; [|apply Hall].
  destruct (routes !! routeJ) as [r2|] eqn:E2; [|apply Hall].
  destruct (mergedStops r1 r2 stopI stopJ) as [newStops|] eqn:Em; [|apply Hall].
  cbv zeta. rewrite !js_orZ_zero.
  destruct (Z.gtb_spec (totalCapacity r1 + totalCapacity r2) maxCapacity) as [Hgt|Hle];
    [apply Hall|].
  intros Hin. apply In_replaceTwo in Hin as [->|Hin]; [|apply Hall, Hin].
  assert (G1 : gated maxCapacity r1).
  { apply Hall. rewrite <- list_elem_of_In. eapply list_elem_of_lookup_2, E1. }
  assert (G2 : gated maxCapacity r2).
  { apply Hall. rewrite <- list_elem_of_In. eapply list_elem_of_lookup_2, E2. }
  destruct G1 as (L1 & D1 & _), G2 as (L2 & D2 & _).
  unfold gated, mergedRoute, recomputeRouteMetrics. simpl.
  unfold renumber at 1 3. rewrite length_imap, demandOf_renumber.
  apply mergedStops_shape in Em as [->| ->].
  - split; [pose proof (length_join _ _ L1 L2); lia|].
    split; [rewrite demandOf_join by lia; lia|right; exact Hle].
  - split; [pose proof (length_join _ _ L2 L1); lia|].
    split; [rewrite demandOf_join by lia; lia|right; exact Hle].
Qed.

Lemma savingsPhase_gated calc distances speedKmh maxCapacity savings : forall routes,
  (forall r, In r routes -> gated maxCapacity r) ->
  forall r, In r (savingsPhase calc distances speedKmh maxCapacity savings routes) ->
            gated maxCapacity r.
Proof.
  unfold savingsPhase. induction savings as [|s savings IH]; intros routes Hall; simpl.
  - exact Hall.
  - apply IH. apply mergeStep_gated, Hall.
Qed.

Lemma initialRoutes_gated distances speedKmh maxCapacity depot nonDepot r :
  In r (initialRoutes distances speedKmh depot nonDepot) -> gated maxCapacity r.
Proof.
  unfold initialRoutes. intros Hin. apply in_map_iff in Hin as (loc & <- & _).
  unfold gated, initialRoute, demandOf. simpl. split; [lia|]. split; [lia|now left].
Qed.

End SavingsFacts.

Section SavingsTheorems.
Import ClarkeWright.

(** C6. In the savings phase shared by the basic and the enhanced
    Clarke-Wright algorithm, a saving whose two routes carry a combined
    demand above the maximum vehicle capacity leaves the routes as they are;
    and whatever the order of the savings, every route built by merging
    carries a demand (the sum over its customer stops, equal to its
    [totalCapacity]) of at most the maximum vehicle capacity. *)
Theorem savings_capacity_gate
    (calc : DistanceKernel) (distances : DistanceMatrix) (speedKmh : Q)
    (maxCapacity : Z) :
  (forall routes idI idJ routeI stopI routeJ stopJ r1 r2,
     findRouteIndexByLocation routes idI = Some (routeI, stopI) ->
     findRouteIndexByLocation routes idJ = Some (routeJ, stopJ) ->
     routes !! routeI = Some r1 -> routes !! routeJ = Some r2 ->
     maxCapacity < totalCapacity r1 + totalCapacity r2 ->
     mergeStep calc distances speedKmh maxCapacity routes (idI, idJ) = routes) /\
  (forall depot nonDepot savings r,
     In r (savingsPhase calc distances speedKmh maxCapacity savings
             (initialRoutes distances speedKmh depot nonDepot)) ->
     totalCapacity r = demandOf (stops r) /\
     ((3 < length (stops r))%nat -> totalCapacity r <= maxCapacity)).
Proof.
  split.
  - intros routes idI idJ routeI stopI routeJ stopJ r1 r2 HI HJ E1 E2 Hgt.
    unfold mergeStep. rewrite HI, HJ, E1, E2.
    destruct (Nat.eqb routeI routeJ); [reflexivity|].
    destruct (mergedStops r1 r2 stopI stopJ); [|reflexivity].
    cbv zeta. rewrite !js_orZ_zero.
    destruct (Z.gtb_spec (totalCapacity r1 + totalCapacity r2) maxCapacity); [reflexivity|lia].
  - intros depot nonDepot savings r Hin.
    apply savingsPhase_gated in Hin as (Hlen & Hdem & Hcap).
    + split; [exact Hdem|]. intros H. destruct Hcap as [Hcap|Hcap]; [lia|exact Hcap].
    + intros r0. apply initialRoutes_gated.
Qed.

End SavingsTheorems.

Lemma savings_capacity_gate_witness :
  let distances := buildDistances taxicab ClarkeWright.instanceS4 in
  let routes :=
    ClarkeWright.initialRoutes distances SPEED_KMH depotD
      (ClarkeWright.nonDepotOf ClarkeWright.instanceS4 depotD) in
  ClarkeWright.mergeStep taxicab distances SPEED_KMH
    (ClarkeWright.maxCapacityOf ClarkeWright.fleet10) routes ("A", "B") = routes.
Proof.
  cbv zeta.
  eapply (proj1 (savings_capacity_gate taxicab
                   (buildDistances taxicab ClarkeWright.instanceS4) SPEED_KMH
                   (ClarkeWright.maxCapacityOf ClarkeWright.fleet10)));
    [reflexivity|reflexivity|reflexivity|reflexivity|vm_compute; reflexivity].
Defined.

(** Scenario S4: two customers of demand 8 stay on two routes. *)
Example capacity_refusal_S4 :
  map (fun r => map locationId (stops r))
      (ClarkeWright.routesAfterSavings taxicab ClarkeWright.fleet10
         ClarkeWright.instanceS4 depotD)
  = [["D"; "A"; "D"]; ["D"; "B"; "D"]].
Proof. vm_compute. reflexivity. Qed.

(** Scenario S3: two customers of demand 3 are merged. *)
Example merge_S3 :
  map (fun r => (map locationId (stops r), totalCapacity r))
      (ClarkeWright.routesAfterSavings taxicab ClarkeWright.fleet10
         ClarkeWright.instanceS3 depotD)
  = [(["D"; "A"; "B"; "D"], 6)].
Proof. vm_compute. reflexivity. Qed.

(** ** Vehicle assignment *)

Section AssignFacts.
Import Assign.

Lemma In_insert_by {A} (gtb : A -> A -> bool) x y (l : list A) :
  In x (insert_by gtb y l) <-> x = y \/ In x l.
Proof.
  induction l as [|z l IH]; simpl; [intuition|].
  destruct (gtb y z); simpl; [rewrite IH|]; intuition.
Qed.

Lemma In_sort_by {A} (gtb : A -> A -> bool) x (l : list A) :
  In x (sort_by gtb l) <-> In x l.
Proof.
  unfold sort_by. induction l as [|y l IH]; simpl; [reflexivity|].
  rewrite In_insert_by, IH. intuition.
Qed.

Lemma expandSlots_from vehicles vs : In vs (expandSlots vehicles) -> slotFrom vehicles vs.
Proof.
  unfold expandSlots. rewrite <- list_elem_of_In. intros H.
  apply list_elem_of_lookup in H as (n & Hn).
  rewrite list_lookup_imap in Hn.
  destruct (flat_map slotsOf vehicles !! n) as [vs0|] eqn:E; [|discriminate].
  injection Hn as <-.
  apply list_elem_of_lookup_2, list_elem_of_In, in_flat_map in E as (v & Hv & Hvs).
  unfold slotsOf in Hvs. rewrite <- list_elem_of_In in Hvs.
  apply elem_of_replicate in Hvs as [-> _].
  exists v. simpl. rewrite js_orZ_zero. auto.
Qed.

Lemma occupy_from vehicles ix load slots :
  (forall vs, In vs slots -> slotFrom vehicles vs) ->
  forall vs, In vs (occupy ix load slots) -> slotFrom vehicles vs.
Proof.
  intros Hall vs Hin. unfold occupy in Hin. apply in_map_iff in Hin as (vs0 & <- & Hin0).
  specialize (Hall vs0 Hin0). destruct (Nat.eqb (slot_ix vs0) ix); [|exact Hall].
  destruct Hall as (v & Hv & Hid & Hcap). exists v. simpl. auto.
Qed.

Lemma bestSlot_fits slots required vs :
  bestSlot slots required = Some vs ->
  In vs slots /\ used vs = false /\ required <= slot_capacity vs.
Proof.
  unfold bestSlot. intros H.
  assert (Hin : In vs (sort_by (fun a b => slack required b <? slack required a)
                         (List.filter
                            (fun vs => negb (used vs) && (required <=? slot_capacity vs))
                            slots))).
  { destruct (sort_by _ _) as [|x l]; [discriminate|]. injection H as ->. now left. }
  apply In_sort_by, filter_In in Hin as (Hin & Hf).
  apply andb_prop in Hf as (Hu & Hc).
  split; [exact Hin|]. split; [destruct (used vs); [discriminate|reflexivity]|].
  apply Z.leb_le, Hc.
Qed.

Lemma assignStep_respected vehicles acc route :
  (forall r, In r (fst acc) -> capacityRespected vehicles r) ->
  (forall vs, In vs (snd acc) -> slotFrom vehicles vs) ->
  capacityRespected vehicles route ->
  (forall r, In r (fst (assignStep acc route)) -> capacityRespected vehicles r) /\
  (forall vs, In vs (snd (assignStep acc route)) -> slotFrom vehicles vs).
Proof.
  intros Hr Hs Hroute. unfold assignStep. rewrite js_orZ_zero.
  destruct (bestSlot (snd acc) (totalCapacity route)) as [vs|] eqn:Hb; simpl.
  - apply bestSlot_fits in Hb as (Hin & _ & Hfit). split.
    + intros r Hin'. apply in_app_or in Hin' as [Hin'|[<-|[]]]; [apply Hr, Hin'|].
      intros vid Hvid. simpl in Hvid. injection Hvid as <-. right.
      destruct (Hs vs Hin) as (v & Hv & Hid & Hcap).
      exists v. simpl. split; [exact Hv|]. split; [exact Hid|lia].
    + apply occupy_from, Hs.
  - split; [|exact Hs].
    intros r Hin'. apply in_app_or in Hin' as [Hin'|[<-|[]]]; [apply Hr, Hin'|exact Hroute].
Qed.

Lemma assign_fold_respected vehicles routes : forall acc,
  (forall r, In r (fst acc) -> capacityRespected vehicles r) ->
  (forall vs, In vs (snd acc) -> slotFrom vehicles vs) ->
  (forall r, In r routes -> capacityRespected vehicles r) ->
  forall r, In r (fst (fold_left assignStep routes acc)) -> capacityRespected vehicles r.
Proof.
  induction routes as [|route routes IH]; intros acc Hr Hs Hall; simpl; [exact Hr|].
  destruct (assignStep_respected vehicles acc route Hr Hs) as (Hr' & Hs');
    [apply Hall; now left|].
  apply IH; [exact Hr'|exact Hs'|]. intros r Hin. apply Hall. now right.
Qed.

Lemma assignSingleStop_respected vehicles slots route :
  (forall vs, In vs slots -> slotFrom vehicles vs) ->
  capacityRespected vehicles (fst (assignSingleStop slots route)).
Proof.
  intros Hs. unfold assignSingleStop. rewrite js_orZ_zero.
  destruct (List.find _ slots) as [slot|] eqn:Hf; simpl.
  - apply find_some in Hf as (Hin & Hfit). apply andb_prop in Hfit as (_ & Hfit).
    apply Z.leb_le in Hfit.
    intros vid Hvid. simpl in Hvid. injection Hvid as <-. right.
    destruct (Hs slot Hin) as (v & Hv & Hid & Hcap).
    exists v. simpl. split; [exact Hv|]. split; [exact Hid|lia].
  - intros vid Hvid. discriminate Hvid.
Qed.

End AssignFacts.

Section AssignTheorems.
Import Assign.

(** [assignVehiclesToRoutes] establishes the capacity invariant for every
    route it gives a slot, and keeps it for the routes it leaves as they
    were. *)
Theorem assignVehiclesToRoutes_respects (vehicles : list Vehicle) (routes : list Route) :
  (forall r, In r routes -> capacityRespected vehicles r) ->
  forall r, In r (assignVehiclesToRoutes routes vehicles) -> capacityRespected vehicles r.
Proof.
  intros Hall. unfold assignVehiclesToRoutes.
  apply assign_fold_respected; simpl.
  - intros r [].
  - intros vs Hin. apply In_sort_by in Hin. apply expandSlots_from, Hin.
  - intros r Hin. apply In_sort_by in Hin. apply Hall, Hin.
Qed.

(** The single-customer branch of the third Clarke-Wright pass assigns a
    slot that covers the route, or flags the route and leaves it without a
    vehicle. *)
Theorem assignSingleStop_respects (vehicles : list Vehicle) (route : Route) :
  capacityRespected vehicles (fst (assignSingleStop (expandSlots vehicles) route)) /\
  (vehicle (fst (assignSingleStop (expandSlots vehicles) route)) = None ->
   capacityExceeded (fst (assignSingleStop (expandSlots vehicles) route)) = Some true).
Proof.
  split.
  - apply assignSingleStop_respected. intros vs. apply expandSlots_from.
  - unfold assignSingleStop. destruct (List.find _ _); simpl; [discriminate|reflexivity].
Qed.

End AssignTheorems.

Lemma assignVehiclesToRoutes_respects_witness :
  forall r,
    In r (Assign.assignVehiclesToRoutes
            [roundTrip depotD customerA; roundTrip depotD customerB] Genetic.twoVans) ->
    Assign.capacityRespected Genetic.twoVans r.
Proof.
  apply assignVehiclesToRoutes_respects.
  intros r [<-|[<-|[]]] vid H; discriminate H.
Defined.

(** C3, at the failing input. With a depot of demand 5, a customer of demand
    8 and one vehicle of capacity 10, Nearest Neighbor returns the route
    depot, A, depot on vehicle V1 with [totalCapacity] 13 and no
    [capacityExceeded] flag; the assignment that follows in single mode
    leaves the route as it is. The depot stop is summed twice and subtracted
    once. The outcome is the same for every distance kernel. *)
Theorem nearestNeighbor_overstated_load (calc : DistanceKernel) :
  let out :=
    NearestNeighbor.nearestNeighborAlgorithm calc NearestNeighbor.oneTruck
      NearestNeighbor.loadedInstance NearestNeighbor.depotWithDemand in
  map (fun r => (vehicle r, map locationId (stops r), totalCapacity r, capacityExceeded r)) out
    = [(Some "V1", ["D"; "A"; "D"], 13, None)] /\
  map (fun r => (vehicle r, map locationId (stops r), totalCapacity r, capacityExceeded r))
      (Assign.assignVehiclesToRoutes out NearestNeighbor.oneTruck)
    = [(Some "V1", ["D"; "A"; "D"], 13, None)] /\
  (forall r, In r (Assign.assignVehiclesToRoutes out NearestNeighbor.oneTruck) ->
             ~ Assign.capacityRespected NearestNeighbor.oneTruck r).
Proof.
  cbv zeta.
  assert (Hout :
    exists r, NearestNeighbor.nearestNeighborAlgorithm calc NearestNeighbor.oneTruck
                NearestNeighbor.loadedInstance NearestNeighbor.depotWithDemand = [r] /\
              vehicle r = Some "V1" /\ map locationId (stops r) = ["D"; "A"; "D"] /\
              totalCapacity r = 13 /\ capacityExceeded r = None).
  { eexists. split; [vm_compute; reflexivity|]. repeat split. }
  destruct Hout as (r & -> & Hv & Hs & Ht & Hc).
  assert (Hassign : Assign.assignVehiclesToRoutes [r] NearestNeighbor.oneTruck = [r]).
  { unfold Assign.assignVehiclesToRoutes. change (Assign.sortRoutes [r]) with [r].
    simpl fold_left. unfold Assign.assignStep. rewrite js_orZ_zero, Ht. reflexivity. }
  rewrite Hassign. simpl. rewrite Hv, Hs, Ht, Hc.
  split; [reflexivity|]. split; [reflexivity|].
  intros r' [<-|[]] H. destruct (H "V1" Hv) as [Hflag|(v & [<-|[]] & _ & Hcap)].
  - rewrite Hc in Hflag. discriminate.
  - rewrite Ht in Hcap. simpl in Hcap. lia.
Qed.

(** ** Route-based crossover *)

(** C2, at the failing input. On the sample instance (customers A and B of
    demand 5, two vans of capacity 5) the two random solutions serve every
    customer once, and the crossover that takes route 0 from the first and
    route 1 from the second serves A on both routes and B on none. The child
    is the cheaper solution, so the selection keeps it, and the final
    vehicle assignment leaves the duplicate in place. *)
Theorem crossover_duplicates_location :
  servedAtMostOnce "D" parentAB /\
  servedAtMostOnce "D" parentBA /\
  map (fun r => map locationId (stops r)) childAA = [["D"; "A"; "D"]; ["D"; "A"; "D"]] /\
  ~ servedAtMostOnce "D" childAA /\
  (calculateTotalCost sampleDistances childAA
   < calculateTotalCost sampleDistances parentAB)%Q /\
  ~ servedAtMostOnce "D" (Assign.assignVehiclesToRoutes childAA Genetic.twoVans).
Proof.
  assert (Hdup : ~ NoDup ["A"; "A"]).
  { intros H. apply NoDup_cons in H as [H _]. apply H. left. }
  split; [apply (bool_decide_unpack _); vm_compute; exact I|].
  split; [apply (bool_decide_unpack _); vm_compute; exact I|].
  split; [vm_compute; reflexivity|].
  split; [exact Hdup|].
  split; [vm_compute; reflexivity|exact Hdup].
Qed.

(** ** Stop order after the swap moves *)

Section OrderFacts.

Lemma map_order_renumber sts : map order (renumber sts) = seq 0 (length sts).
Proof.
  unfold renumber. change (map order) with (fmap (M := list) order).
  rewrite fmap_imap.
  change (imap (fun n => order ∘ (fun st => setOrder st n)) sts)
    with (imap (fun (n : nat) (_ : Stop) => n) sts).
  rewrite (imap_seq_0 sts (fun n => n)). apply list_fmap_id.
Qed.

(** Renumbered stops carry their indices. *)
Lemma renumber_ordersMatch rt sts : ordersMatch (setStops rt (renumber sts)).
Proof.
  unfold ordersMatch. simpl. unfold renumber at 2. rewrite length_imap.
  apply map_order_renumber.
Qed.

(** [mutate], which swaps two stops as the moves of Tabu Search and
    Simulated Annealing do, renumbers the route it changes: a solution whose
    orders match keeps that property. *)
Lemma mutate_ordersMatch calc distances speedKmh u0 u1 u2 solution :
  (forall r, In r solution -> ordersMatch r) ->
  forall r, In r (Genetic.mutate calc distances speedKmh u0 u1 u2 solution) ->
            ordersMatch r.
Proof.
  intros Hall r. unfold Genetic.mutate.
  destruct solution as [|r0 rest]; [intros []|].
  set (solution := r0 :: rest) in *.
  destruct (solution !! Genetic.randomIndex u0 (length solution)) as [route|] eqn:E;
    [|apply Hall].
  destruct (3 <? length (stops route))%nat; [|apply Hall].
  destruct (Nat.eqb _ _); [apply Hall|].
  rewrite <- !list_elem_of_In. intros Hin.
  apply list_elem_of_lookup in Hin as (n & Hn).
  destruct (decide (n = Genetic.randomIndex u0 (length solution))) as [->|Hne].
  - rewrite list_lookup_insert_eq in Hn by (eapply lookup_lt_Some, E).
    injection Hn as <-. unfold recomputeRouteMetricsInline, ordersMatch. simpl.
    unfold renumber at 2. rewrite length_imap. apply map_order_renumber.
  - rewrite list_lookup_insert_ne in Hn by congruence.
    apply Hall. rewrite <- list_elem_of_In. eapply list_elem_of_lookup_2, Hn.
Qed.

End OrderFacts.

(** C9, at the failing input. On the instance [TabuInstance] the seed of
    Tabu Search (the Enhanced Clarke-Wright routes) has matching orders; the
    first iteration swaps the stops P1 and P2, which is an improvement, and
    the search returns the route depot, P2, P1, P3, P4, P5, depot with the
    orders 0, 2, 1, 3, 4, 5, 6. The move of Simulated Annealing leaves the
    same stale orders. *)
Theorem tabu_output_orders_stale :
  (exists seed,
     Tabu.enhancedClarkeWrightAlgorithm 10 TabuInstance.km TabuInstance.score
       TabuInstance.vehicles TabuInstance.locations TabuInstance.depot = Some seed /\
     forall r, In r seed -> ordersMatch r) /\
  (exists r,
     Tabu.tabuSearchVRP 10 TabuInstance.km TabuInstance.score
       TabuInstance.vehicles TabuInstance.locations TabuInstance.depot = Some [r] /\
     map locationId (stops r) = ["D"; "P2"; "P1"; "P3"; "P4"; "P5"; "D"] /\
     map order (stops r) = [0; 2; 1; 3; 4; 5; 6]%nat /\
     ~ ordersMatch r) /\
  (exists r rest,
     (forall r0, In r0 annealingSolution -> ordersMatch r0) /\
     Tabu.generateNeighbor TabuInstance.km
       (buildDistances TabuInstance.km TabuInstance.locations) SPEED_KMH
       0 0 (1 # 2) annealingSolution = r :: rest /\
     map locationId (stops r) = ["D"; "P2"; "P1"; "P3"; "D"] /\
     map order (stops r) = [0; 2; 1; 3; 4]%nat /\
     ~ ordersMatch r).
Proof.
  split; [|split].
  - eexists. split; [vm_compute; reflexivity|].
    intros r [<-|[]]. reflexivity.
  - eexists. split; [vm_compute; reflexivity|].
    split; [reflexivity|]. split; [reflexivity|].
    unfold ordersMatch. simpl. discriminate.
  - eexists. eexists. split.
    + intros r0 [<-|[<-|[]]]; reflexivity.
    + split; [vm_compute; reflexivity|].
      split; [reflexivity|]. split; [reflexivity|].
      unfold ordersMatch. simpl. discriminate.
Qed.

(** ** The great-circle kernel *)

Section GeoFacts.
Import Geo.
Local Open Scope R_scope.

(** A value that is not a real: an infinity or NaN. *)
Let special (x : Number) : Prop :=
  match x with
  | Real _ => False
  | _ => True
  end.

Lemma signedInf_special a : special (signedInf a).
Proof. unfold signedInf. destruct (Rlt_dec 0 a); [exact I|]. destruct (Rlt_dec a 0); exact I. Qed.

Lemma mul_special_l x b : special x -> special (mul x (Real b)).
Proof. destruct x; simpl; intros H; try exact I; [destruct H| |]; apply signedInf_special. Qed.

Lemma toRad_special x : special x -> special (toRad x).
Proof. intros H. unfold toRad, divBy. apply mul_special_l, mul_special_l, H. Qed.

Lemma divBy_special x k : special x -> special (divBy x k).
Proof. intros H. unfold divBy. apply mul_special_l, H. Qed.

Lemma sin_special x : special x -> sin x = NotANumber.
Proof. destruct x; simpl; intros H; [destruct H|reflexivity..]. Qed.

Lemma cos_special x : special x -> cos x = NotANumber.
Proof. destruct x; simpl; intros H; [destruct H|reflexivity..]. Qed.

Lemma mul_nan_r x : mul x NotANumber = NotANumber.
Proof. destruct x; reflexivity. Qed.

Lemma add_nan_r x : add x NotANumber = NotANumber.
Proof. destruct x; reflexivity. Qed.

(** Once [a] is NaN, so is the result. *)
Lemma result_of_nan :
  divBy (round (mul (mul (Real 6371)
                       (mul (Real 2)
                          (atan2 (sqrt NotANumber) (sqrt (sub (Real 1) NotANumber)))))
                  (Real 1000))) 1000 = NotANumber.
Proof. reflexivity. Qed.

Lemma sub_special_l x y : special x -> isNaN y = false -> special (sub x y).
Proof. destruct x, y; simpl; intros H1 H2; try exact I; try destruct H1; discriminate. Qed.

Lemma sub_special_r x y : special y -> isNaN x = false -> special (sub x y).
Proof. destruct x, y; simpl; intros H1 H2; try exact I; try destruct H1; discriminate. Qed.

Lemma infinite_special c : isInfinite c = true -> special (ofCoordinate c).
Proof. destruct c; simpl; intros H; try discriminate; exact I. Qed.

Lemma notNaN_ofCoordinate c : isNaNCoordinate c = false -> isNaN (ofCoordinate c) = false.
Proof. destruct c; simpl; intros H; try discriminate; reflexivity. Qed.

Lemma calculateDistance_infinite lat1 lon1 lat2 lon2 :
  isNaNCoordinate lat1 = false -> isNaNCoordinate lon1 = false ->
  isNaNCoordinate lat2 = false -> isNaNCoordinate lon2 = false ->
  isInfinite lat1 || isInfinite lon1 || isInfinite lat2 || isInfinite lon2 = true ->
  calculateDistance lat1 lon1 lat2 lon2 = NotANumber.
Proof.
  intros N1 N2 N3 N4 Hinf. unfold calculateDistance. cbv zeta.
  apply notNaN_ofCoordinate in N1, N2, N3, N4. rewrite N1, N2, N3, N4. simpl orb. cbv iota.
  match goal with
  | |- divBy (round (mul (mul _ (mul _ (atan2 (sqrt ?a) (sqrt (sub _ ?a))))) _)) _ = _ =>
      assert (Ha : a = NotANumber); [|rewrite Ha; apply result_of_nan]
  end.
  destruct (isInfinite lat1) eqn:I1.
  { rewrite (cos_special (toRad (ofCoordinate lat1)))
      by (apply toRad_special, infinite_special, I1).
    simpl mul at 2. simpl mul. apply add_nan_r. }
  destruct (isInfinite lat2) eqn:I3.
  { rewrite (cos_special (toRad (ofCoordinate lat2)))
      by (apply toRad_special, infinite_special, I3).
    rewrite mul_nan_r. simpl mul. apply add_nan_r. }
  assert (Hlon : special (sub (ofCoordinate lon2) (ofCoordinate lon1))).
  { destruct (isInfinite lon1) eqn:I2.
    - apply sub_special_r; [apply infinite_special, I2|exact N4].
    - apply sub_special_l; [apply infinite_special|exact N2].
      simpl in Hinf. destruct (isInfinite lon2); [reflexivity|discriminate]. }
  rewrite (sin_special (divBy (toRad (sub (ofCoordinate lon2) (ofCoordinate lon1))) 2))
    by (apply divBy_special, toRad_special, Hlon).
  change (square NotANumber) with NotANumber. rewrite mul_nan_r. apply add_nan_r.
Qed.

Lemma calculateDistance_nan lat1 lon1 lat2 lon2 :
  isNaNCoordinate lat1 || isNaNCoordinate lon1
  || isNaNCoordinate lat2 || isNaNCoordinate lon2 = true ->
  calculateDistance lat1 lon1 lat2 lon2 = Real 0.
Proof.
  intros H. unfold calculateDistance. cbv zeta.
  replace (isNaN (ofCoordinate lat1) || isNaN (ofCoordinate lon1)
           || isNaN (ofCoordinate lat2) || isNaN (ofCoordinate lon2))%bool with true;
    [reflexivity|].
  rewrite <- H. destruct lat1, lon1, lat2, lon2; reflexivity.
Qed.

End GeoFacts.

Section GeoFinite.
Import Geo.
Local Open Scope R_scope.

Lemma atan2_asin a : 0 <= a <= 1 -> atan2R (R_sqrt.sqrt a) (R_sqrt.sqrt (1 - a)) = asin (R_sqrt.sqrt a).
Proof.
  intros [H0 H1]. unfold atan2R.
  destruct (Req_dec a 1) as [->|Hne].
  - replace (1 - 1) with 0 by ring. rewrite sqrt_0, sqrt_1.
    destruct (Rlt_dec 0 0) as [H|_]; [lra|].
    destruct (Rlt_dec 0 1) as [_|H]; [|lra]. symmetry. apply asin_1.
  - assert (Hlt : 0 < R_sqrt.sqrt (1 - a)) by (apply sqrt_lt_R0; lra).
    destruct (Rlt_dec 0 (R_sqrt.sqrt (1 - a))) as [_|H]; [|lra].
    rewrite asin_atan.
    + rewrite Rsqr_sqrt by exact H0. reflexivity.
    + split.
      * pose proof (sqrt_pos a). lra.
      * rewrite <- sqrt_1. apply sqrt_lt_1; lra.
Qed.

Lemma sqrt_real a : 0 <= a -> sqrt (Real a) = Real (R_sqrt.sqrt a).
Proof. intros H. simpl. destruct (Rlt_dec a 0); [lra|reflexivity]. Qed.

End GeoFinite.

(** C4 (as stated) fails for an infinite coordinate: the guard of
    [calculateDistance] tests the type and [isNaN] only. A NaN coordinate is
    caught and gives 0; [Infinity] passes the guard, the sine of an infinite
    angle is NaN, and the result is NaN, not 0. *)
Lemma calculateDistance_infinite_not_zero :
  Geo.calculateDistance NaN (Num 0) (Num 0) (Num 0) = Geo.Real 0 /\
  Geo.calculateDistance PosInfinity (Num 0) (Num 0) (Num 0) = Geo.NotANumber /\
  Geo.calculateDistance PosInfinity (Num 0) (Num 0) (Num 0) <> Geo.Real 0.
Proof.
  split; [apply calculateDistance_nan; reflexivity|].
  rewrite calculateDistance_infinite by reflexivity. split; [reflexivity|discriminate].
Qed.

(** ** The second assignment pass of Clarke-Wright *)

(** When the pass merges an unassigned route into the route of a used slot,
    the unassigned route stays in [routes] with its stops: here customer B
    ends on both routes. The state is built by hand. *)
Lemma repair_pass_keeps_merged_stops :
  servedAtMostOnce "D" (fst Repair.stateBeforePack) /\
  map (fun r => (vehicle r, map locationId (stops r), map order (stops r)))
      (fst (Repair.packStep taxicab sampleDistances SPEED_KMH Repair.stateBeforePack 1))
  = [ (Some "V1", ["D"; "A"; "B"; "D"], [0; 1; 2; 3]%nat);
      (Some "V1", ["D"; "B"; "D"], [0; 2; 2]%nat) ] /\
  ~ servedAtMostOnce "D"
      (fst (Repair.packStep taxicab sampleDistances SPEED_KMH Repair.stateBeforePack 1)).
Proof.
  split; [apply (bool_decide_unpack _); vm_compute; exact I|].
  split; [vm_compute; reflexivity|].
  intros H. apply (bool_decide_pack _) in H. vm_compute in H. exact H.
Qed.

(** * Further properties of the solver

    The sections below cover the parts of the controller that the claims
    above leave out: the complete constructive algorithms, the local
    searches, the metaheuristics and the result summary. *)

#[local] Set Warnings "-clear-no-such-hyp".

(** ** Nearest Neighbor *)

Section NearestNeighborFacts.
Import NearestNeighbor.

Variable calc : DistanceKernel.

(** A pending location the inner loop may pick. *)
Let eligible (usedIds : gset Id) (remaining : Z) (loc : Location) : Prop :=
  (loc_id loc ∉ usedIds) /\ js_orZ (loc_demand loc) 0 <= remaining.

Let pickStep (usedIds : gset Id) (remaining : Z) (current : Location)
    (acc : option Location * ext) (loc : Location) : option Location * ext :=
  if bool_decide (loc_id loc ∈ usedIds) then acc
  else if js_orZ (loc_demand loc) 0 >? remaining then acc
  else
    let d := dist calc current loc in
    if ext_ltb (Fin d) (snd acc) then (Some loc, Fin d) else acc.

Lemma pickNearest_fold pending usedIds remaining current :
  pickNearest calc pending usedIds remaining current =
  fst (fold_left (pickStep usedIds remaining current) pending (None, Infinity)).
Proof. reflexivity. Qed.

Lemma pickStep_inv usedIds remaining current seen : forall acc,
  (fst acc = None -> snd acc = Infinity) ->
  (forall b, fst acc = Some b -> eligible usedIds remaining b) ->
  let res := fold_left (pickStep usedIds remaining current) seen acc in
  (forall b, fst res = Some b ->
     (fst acc = Some b \/ In b seen) /\ eligible usedIds remaining b) /\
  (fst res = None ->
     fst acc = None /\ forall l, In l seen -> ~ eligible usedIds remaining l).
Proof.
  induction seen as [|loc seen IH]; intros acc Hnone Hsome; simpl.
  - split; [intros b Hb; split; [now left|auto]|]. intros H. split; [exact H|intros l []].
  - assert (Hstep :
      (fst (pickStep usedIds remaining current acc loc) = None ->
       snd (pickStep usedIds remaining current acc loc) = Infinity) /\
      (forall b, fst (pickStep usedIds remaining current acc loc) = Some b ->
         (fst acc = Some b \/ b = loc) /\ eligible usedIds remaining b) /\
      (fst (pickStep usedIds remaining current acc loc) = None ->
         fst acc = None /\ ~ eligible usedIds remaining loc)).
    { unfold pickStep. destruct (bool_decide (loc_id loc ∈ usedIds)) eqn:Hu.
      - apply bool_decide_eq_true in Hu.
        split; [exact Hnone|]. split; [intros b Hb; split; [now left|auto]|].
        intros H. split; [exact H|]. intros [Hn _]. contradiction.
      - apply bool_decide_eq_false in Hu.
        destruct (js_orZ (loc_demand loc) 0 >? remaining) eqn:Hd.
        + split; [exact Hnone|]. split; [intros b Hb; split; [now left|auto]|].
          intros H. split; [exact H|]. intros [_ Hle]. lia.
        + cbv zeta. destruct (ext_ltb (Fin (dist calc current loc)) (snd acc)) eqn:Hlt; simpl.
          * split; [discriminate|]. split; [|discriminate].
            intros b Hb. injection Hb as <-. split; [now right|]. split; [exact Hu|lia].
          * split; [exact Hnone|]. split; [intros b Hb; split; [now left|auto]|].
            intros H. specialize (Hnone H). rewrite Hnone in Hlt. discriminate. }
    destruct Hstep as (H1 & H2 & H3).
    destruct (IH (pickStep usedIds remaining current acc loc) H1 (fun b Hb => proj2 (H2 b Hb)))
      as (IH1 & IH2).
    split.
    + intros b Hb. destruct (IH1 b Hb) as ([Hacc|Hin] & He); split; auto.
      destruct (H2 b Hacc) as ([?| ->] & _); auto.
    + intros Hn. destruct (IH2 Hn) as (Hacc & Hrest). destruct (H3 Hacc) as (Ha & Hl).
      split; [exact Ha|]. intros l [<-|Hin]; auto.
Qed.

Lemma pickNearest_Some pending usedIds remaining current best :
  pickNearest calc pending usedIds remaining current = Some best ->
  In best pending /\ (loc_id best ∉ usedIds) /\ js_orZ (loc_demand best) 0 <= remaining.
Proof.
  rewrite pickNearest_fold. intros H.
  destruct (pickStep_inv usedIds remaining current pending (None, Infinity)) as (H1 & _);
    [reflexivity|discriminate|].
  destruct (H1 best H) as ([Hb|Hin] & He); [discriminate|]. destruct He. auto.
Qed.

Lemma pickNearest_None pending usedIds remaining current :
  pickNearest calc pending usedIds remaining current = None ->
  forall l, In l pending -> (loc_id l ∈ usedIds) \/ remaining < js_orZ (loc_demand l) 0.
Proof.
  rewrite pickNearest_fold. intros H l Hl.
  destruct (pickStep_inv usedIds remaining current pending (None, Infinity)) as (_ & H2);
    [reflexivity|discriminate|].
  destruct (H2 H) as (_ & Hrest). specialize (Hrest l Hl).
  destruct (decide (loc_id l ∈ usedIds)) as [|Hn]; [now left|right].
  destruct (Z_lt_le_dec remaining (js_orZ (loc_demand l) 0)); [assumption|].
  exfalso. apply Hrest. split; assumption.
Qed.


(** The locations of [pending] that are not yet used. *)
Let unusedOf (pending : list Location) (usedIds : gset Id) : list Location :=
  List.filter (fun l => negb (bool_decide (loc_id l ∈ usedIds))) pending.

Lemma unusedOf_shrinks pending usedIds best :
  In best pending -> loc_id best ∉ usedIds ->
  (length (unusedOf pending ({[loc_id best]} ∪ usedIds)) < length (unusedOf pending usedIds))%nat.
Proof.
  intros Hin Hn. unfold unusedOf.
  induction pending as [|l pending IH]; [destruct Hin|].
  assert (Hle : forall ls,
    (length (List.filter (fun l => negb (bool_decide (loc_id l ∈ {[loc_id best]} ∪ usedIds))) ls)
     <= length (List.filter (fun l => negb (bool_decide (loc_id l ∈ usedIds))) ls))%nat).
  { induction ls as [|x ls IHls]; simpl; [lia|].
    destruct (decide (loc_id x ∈ usedIds)) as [Hx|Hx].
    - rewrite !bool_decide_eq_true_2 by set_solver. simpl. exact IHls.
    - rewrite (bool_decide_eq_false_2 (loc_id x ∈ usedIds)) by exact Hx. simpl.
      destruct (bool_decide (loc_id x ∈ {[loc_id best]} ∪ usedIds)); simpl; lia. }
  simpl. destruct Hin as [->|Hin].
  - rewrite bool_decide_eq_true_2 by set_solver.
    rewrite (bool_decide_eq_false_2 (loc_id best ∈ usedIds)) by exact Hn. simpl.
    specialize (Hle pending). lia.
  - specialize (IH Hin).
    destruct (decide (loc_id l ∈ usedIds)) as [Hx|Hx].
    + rewrite !bool_decide_eq_true_2 by set_solver. simpl. exact IH.
    + rewrite (bool_decide_eq_false_2 (loc_id l ∈ usedIds)) by exact Hx. simpl.
      destruct (bool_decide (loc_id l ∈ {[loc_id best]} ∪ usedIds)); simpl; lia.
Qed.

Lemma imap_stopOf_shift ord best picked :
  stopOf best ord :: imap (fun i l => stopOf l (S ord + i)) picked =
  imap (fun i l => stopOf l (ord + i)) (best :: picked).
Proof.
  simpl. rewrite Nat.add_0_r. f_equal. apply imap_ext. intros i l _. simpl.
  f_equal. lia.
Qed.

Lemma sumDemand_cons l ls : sumDemand (l :: ls) = js_orZ (loc_demand l) 0 + sumDemand ls.
Proof. reflexivity. Qed.

(** What the [while (true)] loop of one slot leaves behind. *)
Lemma fillRoute_spec pending fuel :
  forall usedIds remaining current rtStops ord rtStops' usedIds' ord',
  fillRoute fuel calc pending usedIds remaining current rtStops ord
    = (rtStops', usedIds', ord') ->
  exists picked,
    rtStops' = rtStops ++ imap (fun i l => stopOf l (ord + i)) picked /\
    ord' = (ord + length picked)%nat /\
    usedIds' = list_to_set (map loc_id picked) ∪ usedIds /\
    (forall l, In l picked -> In l pending /\ loc_id l ∉ usedIds) /\
    NoDup (map loc_id picked) /\
    (picked <> [] -> sumDemand picked <= remaining) /\
    ((length (unusedOf pending usedIds) <= fuel)%nat ->
     forall l, In l pending ->
       (loc_id l ∈ usedIds') \/ remaining - sumDemand picked < js_orZ (loc_demand l) 0).
Proof.
  induction fuel as [|fuel IH]; intros usedIds remaining current rtStops ord
    rtStops' usedIds' ord' H; simpl in H.
  - injection H as <- <- <-. exists []. simpl. rewrite app_nil_r, Nat.add_0_r.
    split; [reflexivity|]. split; [reflexivity|]. split; [set_solver|].
    split; [intros l []|]. split; [constructor|]. split; [congruence|].
    intros Hfuel l Hl. left.
    destruct (decide (loc_id l ∈ usedIds)) as [|Hn]; [assumption|].
    exfalso. assert (Hin : In l (unusedOf pending usedIds)).
    { apply filter_In. split; [exact Hl|]. rewrite bool_decide_eq_false_2 by exact Hn. reflexivity. }
    destruct (unusedOf pending usedIds); [destruct Hin|simpl in Hfuel; lia].
  - destruct (pickNearest calc pending usedIds remaining current) as [best|] eqn:Hpick.
    + apply pickNearest_Some in Hpick as (Hin & Hnew & Hfit).
      apply IH in H as (picked & -> & -> & -> & Hpicked & Hnd & Hsum & Hmax).
      exists (best :: picked).
      split. { rewrite <- app_assoc. simpl app. f_equal. apply imap_stopOf_shift. }
      split. { simpl. lia. }
      split. { simpl. set_solver. }
      split. { intros l [<-|Hl]; [auto|]. destruct (Hpicked l Hl) as (H1 & H2).
               split; [exact H1|set_solver]. }
      split. { simpl. constructor; [|exact Hnd]. rewrite list_elem_of_In.
               intros Hb. apply in_map_iff in Hb as (l & El & Hl).
               destruct (Hpicked l Hl) as (_ & H2). apply H2. rewrite El. set_solver. }
      split. { intros _. rewrite sumDemand_cons.
               destruct picked as [|p picked]; [unfold sumDemand; simpl; lia|].
               assert (sumDemand (p :: picked) <= remaining - js_orZ (loc_demand best) 0)
                 by (apply Hsum; discriminate). lia. }
      intros Hfuel l Hl.
      assert (Hlt := unusedOf_shrinks pending usedIds best Hin Hnew).
      destruct (Hmax ltac:(lia) l Hl) as [Hu|Hd].
      * left. simpl. set_solver.
      * right. rewrite sumDemand_cons. lia.
    + injection H as <- <- <-. exists []. simpl. rewrite app_nil_r, Nat.add_0_r.
      split; [reflexivity|]. split; [reflexivity|]. split; [set_solver|].
      split; [intros l []|]. split; [constructor|]. split; [congruence|].
      intros _ l Hl. unfold sumDemand. simpl. rewrite Z.sub_0_r.
      eapply pickNearest_None; eassumption.
Qed.


Variables (depot : Location) (locations : list Location) (slots : list VehicleSlot).

Let pending : list Location :=
  List.filter (fun l => negb (String.eqb (loc_id l) (loc_id depot))) locations.

Lemma pending_customer l : In l pending <-> In l locations /\ loc_id l <> loc_id depot.
Proof.
  unfold pending. rewrite filter_In. rewrite negb_true_iff, String.eqb_neq. reflexivity.
Qed.

Lemma servedIds_app d a b : servedIds d (a ++ b) = servedIds d a ++ servedIds d b.
Proof. unfold servedIds. rewrite flat_map_app. apply List.filter_app. Qed.

Lemma map_locationId_imap (f : nat -> nat) picked :
  map locationId (imap (fun i l => stopOf l (f i)) picked) = map loc_id picked.
Proof.
  revert f. induction picked as [|l picked IH]; intros f; simpl; [reflexivity|].
  f_equal. apply (IH (f ∘ S)).
Qed.

Lemma map_locationId_tour picked :
  map locationId (tourStops depot picked) = loc_id depot :: map loc_id picked ++ [loc_id depot].
Proof.
  unfold tourStops. simpl. f_equal. rewrite map_app. simpl. f_equal.
  apply (map_locationId_imap S).
Qed.

Lemma filter_customers d ids :
  (forall id, In id ids -> id <> d) ->
  List.filter (fun id => negb (String.eqb id d)) ids = ids.
Proof.
  induction ids as [|x ids IH]; intros H; simpl; [reflexivity|].
  assert (Hx : x <> d) by (apply H; now left).
  apply String.eqb_neq in Hx. rewrite Hx. simpl. f_equal. apply IH. intros id Hid. apply H. now right.
Qed.

Lemma servedIds_tour r picked :
  stops r = tourStops depot picked ->
  (forall l, In l picked -> loc_id l <> loc_id depot) ->
  servedIds (loc_id depot) [r] = map loc_id picked.
Proof.
  intros Hs Hp. unfold servedIds. simpl. rewrite app_nil_r, Hs, map_locationId_tour.
  simpl. rewrite String.eqb_refl. simpl. rewrite List.filter_app. simpl.
  rewrite String.eqb_refl. simpl. rewrite app_nil_r. apply filter_customers.
  intros id Hid. apply in_map_iff in Hid as (l & <- & Hl). auto.
Qed.

Lemma fold_left_add {A} (f : A -> Z) (l : list A) : forall a,
  fold_left (fun s x => s + f x) l a = a + fold_right Z.add 0 (map f l).
Proof. induction l as [|x l IH]; intros a; simpl; [lia|]. rewrite IH. lia. Qed.

Lemma map_demand_imap (f : nat -> nat) picked :
  map (fun st => js_orZ (demand st) 0) (imap (fun i l => stopOf l (f i)) picked)
  = map (fun l => js_orZ (loc_demand l) 0) picked.
Proof.
  revert f. induction picked as [|l picked IH]; intros f; simpl; [reflexivity|].
  rewrite js_orZ_zero. f_equal. apply (IH (f ∘ S)).
Qed.

Lemma tour_load picked :
  fold_left (fun s st => s + js_orZ (demand st) 0) (tourStops depot picked) 0
  - js_orZ (loc_demand depot) 0
  = sumDemand picked + js_orZ (loc_demand depot) 0.
Proof.
  rewrite fold_left_add. unfold tourStops. simpl. rewrite map_app, sum_app.
  rewrite (map_demand_imap S). simpl. rewrite !js_orZ_zero. unfold sumDemand. lia.
Qed.

(** A route as the algorithm builds it: a tour over pending locations on a
    slot whose capacity covers their demand. *)
Let goodRoute (r : Route) : Prop :=
  exists picked vs,
    picked <> [] /\ (forall l, In l picked -> In l pending) /\
    stops r = tourStops depot picked /\
    In vs slots /\ vehicle r = Some (slot_id vs) /\
    sumDemand picked <= slot_capacity vs /\
    (totalCapacity r = sumDemand picked + js_orZ (loc_demand depot) 0 \/
     totalCapacity r = sumDemand picked).

Let invariant (st : list Route * gset Id) : Prop :=
  (forall r, In r (fst st) -> goodRoute r) /\
  NoDup (servedIds (loc_id depot) (fst st)) /\
  (forall id, id ∈ snd st <-> In id (servedIds (loc_id depot) (fst st))).

Lemma invariant_push routes usedIds r picked vs :
  invariant (routes, usedIds) ->
  picked <> [] -> (forall l, In l picked -> In l pending /\ loc_id l ∉ usedIds) ->
  NoDup (map loc_id picked) ->
  stops r = tourStops depot picked ->
  In vs slots -> vehicle r = Some (slot_id vs) ->
  sumDemand picked <= slot_capacity vs ->
  (totalCapacity r = sumDemand picked + js_orZ (loc_demand depot) 0 \/
   totalCapacity r = sumDemand picked) ->
  invariant (routes ++ [r], list_to_set (map loc_id picked) ∪ usedIds).
Proof.
  intros (H1 & H2 & H3) Hne Hp Hnd Hs Hvs Hv Hcap Hload. simpl in *.
  assert (Hserved : servedIds (loc_id depot) [r] = map loc_id picked).
  { apply servedIds_tour; [exact Hs|]. intros l Hl. apply pending_customer, Hp, Hl. }
  split; [|split]; simpl.
  - intros r' Hr'. apply in_app_or in Hr' as [Hr'|[<-|[]]]; [auto|].
    exists picked, vs. repeat split; auto. intros l Hl. apply Hp, Hl.
  - rewrite servedIds_app, Hserved. apply NoDup_app. split; [exact H2|]. split; [|exact Hnd].
    intros id Hid Hid'. rewrite list_elem_of_In in Hid, Hid'.
    apply in_map_iff in Hid' as (l & <- & Hl). apply (proj2 (Hp l Hl)), H3, Hid.
  - intros id. rewrite servedIds_app, Hserved, in_app_iff, <- H3.
    rewrite elem_of_union, elem_of_list_to_set, list_elem_of_In. tauto.
Qed.

Lemma slotPass_invariant rest : forall routes usedIds,
  (forall vs, In vs rest -> In vs slots) ->
  invariant (routes, usedIds) ->
  invariant (slotPass calc SPEED_KMH depot pending rest routes usedIds).
Proof.
  induction rest as [|vs rest IH]; intros routes usedIds Hrest Hinv; simpl; [exact Hinv|].
  destruct (fillRoute (length pending) calc pending usedIds (slot_capacity vs) depot
              [stopOf depot 0] 1) as [[rtStops usedIds'] ord] eqn:Hfill.
  apply fillRoute_spec in Hfill as (picked & -> & -> & -> & Hp & Hnd & Hsum & _).
  assert (Hnext : invariant
            (if (1 <? length ([stopOf depot 0] ++ imap (fun i l => stopOf l (1 + i)) picked))%nat
             then routes ++ [closeRoute calc SPEED_KMH depot vs
                               ([stopOf depot 0] ++ imap (fun i l => stopOf l (1 + i)) picked)
                               (1 + length picked)]
             else routes,
             list_to_set (map loc_id picked) ∪ usedIds)).
  { destruct picked as [|p picked].
    - simpl. destruct Hinv as (H1 & H2 & H3). split; [exact H1|]. split; [exact H2|].
      intros id. simpl. rewrite <- H3. set_solver.
    - replace (1 <? _)%nat with true by (symmetry; apply Nat.ltb_lt; simpl; lia).
      apply (invariant_push routes usedIds _ (p :: picked) vs).
      + exact Hinv.
      + discriminate.
      + exact Hp.
      + exact Hnd.
      + reflexivity.
      + apply Hrest. now left.
      + reflexivity.
      + apply Hsum. discriminate.
      + left. unfold closeRoute. cbn [totalCapacity].
        change ([stopOf depot 0] ++ imap (fun i l => stopOf l (1 + i)) (p :: picked)
                ++ [stopOf depot (1 + length (p :: picked))])
          with (tourStops depot (p :: picked)).
        rewrite <- app_assoc. apply tour_load. }
  destruct (Nat.eqb _ _); [exact Hnext|].
  apply IH; [|exact Hnext]. intros v Hv. apply Hrest. now right.
Qed.


(** The body of the last loop. *)
Let leftStep (st : list Route * gset Id) (loc : Location) : list Route * gset Id :=
  if bool_decide (loc_id loc ∈ snd st) then st
  else
    match List.find (fun v => js_orZ (loc_demand loc) 0 <=? js_orZ (slot_capacity v) 0)
                    slots with
    | None => st
    | Some vs =>
        let d := (dist calc depot loc * 2)%Q in
        (fst st ++
           [{| vehicle := Some (slot_id vs); vehicleName := slot_name vs;
               stops := [stopOf depot 0; stopOf loc 1; stopOf depot 2];
               distance := d; duration := durationOf SPEED_KMH d;
               totalCapacity := js_orZ (loc_demand loc) 0;
               capacityExceeded := None |}],
         {[loc_id loc]} ∪ snd st)
    end.

Lemma leftoverPass_fold ls st :
  leftoverPass calc SPEED_KMH depot ls slots st = fold_left leftStep ls st.
Proof. reflexivity. Qed.

Lemma leftStep_invariant st loc :
  In loc pending -> invariant st ->
  invariant (leftStep st loc) /\
  (forall id, id ∈ snd st -> id ∈ snd (leftStep st loc)) /\
  ((exists vs, In vs slots /\ js_orZ (loc_demand loc) 0 <= slot_capacity vs) ->
   loc_id loc ∈ snd (leftStep st loc)).
Proof.
  intros Hloc Hinv. unfold leftStep.
  destruct (bool_decide (loc_id loc ∈ snd st)) eqn:Hu.
  - apply bool_decide_eq_true in Hu. auto.
  - apply bool_decide_eq_false in Hu.
    destruct (List.find _ slots) as [vs|] eqn:Hf.
    + apply find_some in Hf as (Hvs & Hfit). rewrite !js_orZ_zero in Hfit.
      apply Z.leb_le in Hfit.
      split; [|split; simpl; [set_solver|set_solver]].
      destruct st as [routes usedIds]. simpl in *.
      replace ({[loc_id loc]} ∪ usedIds) with (list_to_set (map loc_id [loc]) ∪ usedIds)
        by (simpl; set_solver).
      apply (invariant_push routes usedIds _ [loc] vs).
      * exact Hinv.
      * discriminate.
      * intros l [<-|[]]. auto.
      * simpl. constructor; [|constructor]. intros H. inversion H.
      * reflexivity.
      * exact Hvs.
      * reflexivity.
      * unfold sumDemand. simpl. rewrite js_orZ_zero. lia.
      * right. unfold sumDemand. simpl. lia.
    + split; [exact Hinv|]. split; [auto|].
      intros (vs & Hvs & Hfit). exfalso.
      apply (find_none _ _ Hf) in Hvs. apply Z.leb_gt in Hvs.
      rewrite (js_orZ_zero (slot_capacity vs)) in Hvs. lia.
Qed.

Lemma leftover_invariant ls : forall st,
  (forall l, In l ls -> In l pending) -> invariant st ->
  invariant (fold_left leftStep ls st) /\
  (forall id, id ∈ snd st -> id ∈ snd (fold_left leftStep ls st)) /\
  (forall l, In l ls ->
     (exists vs, In vs slots /\ js_orZ (loc_demand l) 0 <= slot_capacity vs) ->
     loc_id l ∈ snd (fold_left leftStep ls st)).
Proof.
  induction ls as [|loc ls IH]; intros st Hls Hinv; simpl.
  - split; [exact Hinv|]. split; [auto|intros l []].
  - destruct (leftStep_invariant st loc) as (H1 & H2 & H3); [apply Hls; now left|exact Hinv|].
    destruct (IH (leftStep st loc)) as (I1 & I2 & I3); [intros l Hl; apply Hls; now right|exact H1|].
    split; [exact I1|]. split; [auto|].
    intros l [<-|Hl] Hfit; [apply I2, H3, Hfit|apply I3; assumption].
Qed.

(** The state with which [nearestNeighborAlgorithm] ends. *)
Lemma nearestNeighbor_invariant :
  let final :=
    leftoverPass calc SPEED_KMH depot pending slots
      (slotPass calc SPEED_KMH depot pending slots [] ∅) in
  invariant final /\
  (forall l, In l pending ->
     (exists vs, In vs slots /\ js_orZ (loc_demand l) 0 <= slot_capacity vs) ->
     loc_id l ∈ snd final).
Proof.
  cbv zeta. rewrite leftoverPass_fold.
  destruct (leftover_invariant pending (slotPass calc SPEED_KMH depot pending slots [] ∅))
    as (H1 & _ & H3); [auto| |auto].
  apply slotPass_invariant; [auto|].
  split; [intros r []|]. split; [constructor|]. intros id. simpl. set_solver.
Qed.

End NearestNeighborFacts.

Section TourFacts.

Lemma map_order_imap picked : forall k,
  map order (imap (fun i l => stopOf l (k + i)) picked) = seq k (length picked).
Proof.
  induction picked as [|l picked IH]; intros k; simpl; [reflexivity|].
  rewrite Nat.add_0_r. f_equal. rewrite <- (IH (S k)).
  f_equal. apply imap_ext. intros i x _. simpl. f_equal. lia.
Qed.

Lemma ordersMatch_tour depot picked r :
  stops r = tourStops depot picked -> ordersMatch r.
Proof.
  intros Hs. unfold ordersMatch. rewrite Hs. unfold tourStops. simpl.
  rewrite map_app, length_app, length_imap. simpl.
  pose proof (map_order_imap picked 1) as E. simpl in E. rewrite E. f_equal.
  replace (length picked + 1)%nat with (S (length picked)) by lia.
  rewrite seq_S. reflexivity.
Qed.

Lemma interior_tour depot picked :
  ClarkeWright.interior (tourStops depot picked) = imap (fun i l => stopOf l (S i)) picked.
Proof.
  unfold ClarkeWright.interior, tourStops. simpl. rewrite drop_0. apply removelast_last.
Qed.

Lemma demandOf_tour depot picked :
  ClarkeWright.demandOf (tourStops depot picked) = sumDemand picked.
Proof.
  unfold ClarkeWright.demandOf. rewrite interior_tour. unfold sumDemand. f_equal.
  generalize S. induction picked as [|l picked IH]; intros f; simpl; [reflexivity|].
  f_equal. apply (IH (f ∘ S)).
Qed.

Lemma sumDemand_ge picked l :
  (forall x, In x picked -> 0 <= loc_demand x) -> In l picked ->
  loc_demand l <= sumDemand picked.
Proof.
  induction picked as [|p picked IH]; intros Hnn Hl; [destruct Hl|].
  rewrite sumDemand_cons, js_orZ_zero.
  assert (H0 : 0 <= sumDemand picked).
  { clear IH Hl. induction picked as [|q picked IHp]; [unfold sumDemand; simpl; lia|].
    rewrite sumDemand_cons, js_orZ_zero.
    assert (0 <= loc_demand q) by (apply Hnn; right; now left).
    assert (0 <= sumDemand picked) by (apply IHp; intros x Hx; apply Hnn; destruct Hx; [now left|right; now right]).
    lia. }
  destruct Hl as [->|Hl].
  - lia.
  - assert (0 <= loc_demand p) by (apply Hnn; now left).
    assert (loc_demand l <= sumDemand picked) by (apply IH; [intros x Hx; apply Hnn; now right|exact Hl]).
    lia.
Qed.

Lemma servedIds_route d routes id :
  In id (servedIds d routes) -> exists r, In r routes /\ In id (servedIds d [r]).
Proof.
  unfold servedIds. rewrite filter_In, in_flat_map. intros ((r & Hr & Hid) & Hne).
  exists r. split; [exact Hr|]. rewrite filter_In. simpl. rewrite app_nil_r. auto.
Qed.

(** A vehicle record with a non-negative count has a slot. *)
Lemma expandSlots_has vehicles v :
  In v vehicles -> 0 <= count v ->
  exists vs, In vs (expandSlots vehicles) /\ slot_id vs = veh_id v /\
             slot_capacity vs = capacity v.
Proof.
  intros Hv Hc. unfold expandSlots.
  assert (Hin : In (mkSlot 0 (veh_id v) (veh_name v) (js_orZ (capacity v) 0) false 0)
                   (flat_map slotsOf vehicles)).
  { apply in_flat_map. exists v. split; [exact Hv|]. unfold slotsOf.
    assert (Hpos : (0 < Z.to_nat (js_orZ (count v) 1))%nat).
    { unfold js_orZ. destruct (Z.eqb_spec (count v) 0); lia. }
    destruct (Z.to_nat (js_orZ (count v) 1)); [lia|]. simpl. now left. }
  rewrite <- list_elem_of_In in Hin. apply list_elem_of_lookup in Hin as (n & Hn).
  exists (setIx n (mkSlot 0 (veh_id v) (veh_name v) (js_orZ (capacity v) 0) false 0)).
  split; [|split; [reflexivity|simpl; apply js_orZ_zero]].
  rewrite <- list_elem_of_In. apply list_elem_of_lookup. exists n.
  rewrite list_lookup_imap, Hn. reflexivity.
Qed.

End TourFacts.

Section NearestNeighborTheorems.
Import NearestNeighbor.

Variables (calc : DistanceKernel) (vehicles : list Vehicle)
          (locations : list Location) (depot : Location).

(** X1. Nearest Neighbor serves no location twice: over all routes of its
    result, the ids of the non-depot stops are pairwise distinct. *)
Theorem nearestNeighbor_serves_once :
  servedAtMostOnce (loc_id depot) (nearestNeighborAlgorithm calc vehicles locations depot).
Proof.
  unfold servedAtMostOnce, nearestNeighborAlgorithm.
  exact (proj1 (proj2 (proj1 (nearestNeighbor_invariant calc depot locations
                                (expandSlots vehicles))))).
Qed.

(** X2. Every route of Nearest Neighbor is a tour depot, customers, depot
    over customers of the instance, with the [order] fields 0, 1, 2, ..., on
    a vehicle of the fleet whose capacity covers the demand of the customers
    of the route. *)
Theorem nearestNeighbor_routes (r : Route) :
  In r (nearestNeighborAlgorithm calc vehicles locations depot) ->
  exists picked v,
    picked <> [] /\
    (forall l, In l picked -> In l locations /\ loc_id l <> loc_id depot) /\
    stops r = tourStops depot picked /\ ordersMatch r /\
    In v vehicles /\ vehicle r = Some (veh_id v) /\ sumDemand picked <= capacity v.
Proof.
  intros Hr. unfold nearestNeighborAlgorithm in Hr.
  destruct (nearestNeighbor_invariant calc depot locations (expandSlots vehicles))
    as ((H1 & _ & _) & _).
  destruct (H1 r Hr) as (picked & vs & Hne & Hp & Hs & Hvs & Hv & Hcap & _).
  destruct (expandSlots_from vehicles vs Hvs) as (v & Hin & Hid & Hc).
  exists picked, v. split; [exact Hne|]. split.
  { intros l Hl. apply (pending_customer depot locations), Hp, Hl. }
  split; [exact Hs|]. split; [eapply ordersMatch_tour, Hs|].
  split; [exact Hin|]. split; [rewrite Hid; exact Hv|]. rewrite <- Hc. exact Hcap.
Qed.

(** X3. Nearest Neighbor serves every customer whose demand fits some
    vehicle of the fleet (a vehicle record with a non-negative count); and
    when no demand is negative it serves no other: a customer served has a
    demand within the capacity of some vehicle. *)
Theorem nearestNeighbor_coverage :
  (forall l v,
     In l locations -> loc_id l <> loc_id depot ->
     In v vehicles -> 0 <= count v -> loc_demand l <= capacity v ->
     In (loc_id l)
        (servedIds (loc_id depot) (nearestNeighborAlgorithm calc vehicles locations depot))) /\
  ((forall l, In l locations -> 0 <= loc_demand l) ->
   forall id,
     In id (servedIds (loc_id depot) (nearestNeighborAlgorithm calc vehicles locations depot)) ->
     exists l v, In l locations /\ loc_id l = id /\ id <> loc_id depot /\
                 In v vehicles /\ loc_demand l <= capacity v).
Proof.
  destruct (nearestNeighbor_invariant calc depot locations (expandSlots vehicles))
    as ((H1 & _ & H3) & Hcov).
  unfold nearestNeighborAlgorithm. split.
  - intros l v Hl Hne Hv Hc Hfit. apply H3, Hcov.
    + apply pending_customer. auto.
    + destruct (expandSlots_has vehicles v Hv Hc) as (vs & Hvs & _ & Hcap).
      exists vs. split; [exact Hvs|]. rewrite js_orZ_zero, Hcap. exact Hfit.
  - intros Hnn id Hid. apply servedIds_route in Hid as (r & Hr & Hid).
    destruct (H1 r Hr) as (picked & vs & _ & Hp & Hs & Hvs & _ & Hcap & _).
    rewrite (servedIds_tour depot r picked Hs) in Hid
      by (intros l Hl; apply (pending_customer depot locations), Hp, Hl).
    apply in_map_iff in Hid as (l & <- & Hl).
    destruct (proj1 (pending_customer depot locations l) (Hp l Hl)) as (Hin & Hne).
    destruct (expandSlots_from vehicles vs Hvs) as (v & Hv & _ & Hc).
    exists l, v. repeat split; auto. rewrite <- Hc.
    eapply Z.le_trans; [|exact Hcap]. apply sumDemand_ge; [|exact Hl].
    intros x Hx. apply Hnn. apply (pending_customer depot locations), Hp, Hx.
Qed.

(** X4. When the depot has no demand of its own, the [totalCapacity] of every
    route of Nearest Neighbor is the demand of its customers and lies
    within the capacity of the vehicle assigned to it. *)
Theorem nearestNeighbor_load (r : Route) :
  loc_demand depot = 0 ->
  In r (nearestNeighborAlgorithm calc vehicles locations depot) ->
  totalCapacity r = ClarkeWright.demandOf (stops r) /\
  exists v, In v vehicles /\ vehicle r = Some (veh_id v) /\ totalCapacity r <= capacity v.
Proof.
  intros Hd Hr. unfold nearestNeighborAlgorithm in Hr.
  destruct (nearestNeighbor_invariant calc depot locations (expandSlots vehicles))
    as ((H1 & _ & _) & _).
  destruct (H1 r Hr) as (picked & vs & _ & _ & Hs & Hvs & Hv & Hcap & Hload).
  rewrite Hd in Hload. change (js_orZ 0 0) with 0 in Hload. rewrite Z.add_0_r in Hload.
  assert (Ht : totalCapacity r = sumDemand picked) by (destruct Hload; assumption).
  split; [rewrite Hs, demandOf_tour; exact Ht|].
  destruct (expandSlots_from vehicles vs Hvs) as (v & Hin & Hid & Hc).
  exists v. split; [exact Hin|]. split; [rewrite Hid; exact Hv|]. rewrite Ht, <- Hc. exact Hcap.
Qed.

End NearestNeighborTheorems.

Lemma nearestNeighbor_routes_witness :
  exists picked v,
    picked <> [] /\
    (forall l, In l picked -> In l sampleLocations /\ loc_id l <> loc_id depotD) /\
    stops (hd noRoute (NearestNeighbor.nearestNeighborAlgorithm taxicab
                         NearestNeighbor.oneTruck sampleLocations depotD))
      = tourStops depotD picked /\
    ordersMatch (hd noRoute (NearestNeighbor.nearestNeighborAlgorithm taxicab
                               NearestNeighbor.oneTruck sampleLocations depotD)) /\
    In v NearestNeighbor.oneTruck /\
    vehicle (hd noRoute (NearestNeighbor.nearestNeighborAlgorithm taxicab
                           NearestNeighbor.oneTruck sampleLocations depotD))
      = Some (veh_id v) /\
    sumDemand picked <= capacity v.
Proof.
  apply (nearestNeighbor_routes taxicab NearestNeighbor.oneTruck sampleLocations depotD).
  vm_compute. left. reflexivity.
Defined.

Lemma nearestNeighbor_coverage_witness :
  In (loc_id customerA)
     (servedIds (loc_id depotD)
        (NearestNeighbor.nearestNeighborAlgorithm taxicab NearestNeighbor.oneTruck
           sampleLocations depotD)).
Proof.
  apply (proj1 (nearestNeighbor_coverage taxicab NearestNeighbor.oneTruck
                  sampleLocations depotD) customerA (mkVehicle "V1" "Truck" 10 1)).
  - simpl. auto.
  - discriminate.
  - simpl. auto.
  - simpl. lia.
  - simpl. lia.
Defined.

Lemma nearestNeighbor_load_witness :
  totalCapacity (hd noRoute (NearestNeighbor.nearestNeighborAlgorithm taxicab
                               NearestNeighbor.oneTruck sampleLocations depotD))
    = ClarkeWright.demandOf
        (stops (hd noRoute (NearestNeighbor.nearestNeighborAlgorithm taxicab
                              NearestNeighbor.oneTruck sampleLocations depotD))) /\
  exists v, In v NearestNeighbor.oneTruck /\
    vehicle (hd noRoute (NearestNeighbor.nearestNeighborAlgorithm taxicab
                           NearestNeighbor.oneTruck sampleLocations depotD))
      = Some (veh_id v) /\
    totalCapacity (hd noRoute (NearestNeighbor.nearestNeighborAlgorithm taxicab
                                 NearestNeighbor.oneTruck sampleLocations depotD))
      <= capacity v.
Proof.
  apply (nearestNeighbor_load taxicab NearestNeighbor.oneTruck sampleLocations depotD).
  - reflexivity.
  - vm_compute. left. reflexivity.
Defined.

Example nearestNeighbor_sample :
  map (fun r => (vehicle r, map locationId (stops r), totalCapacity r))
      (NearestNeighbor.nearestNeighborAlgorithm taxicab NearestNeighbor.oneTruck
         sampleLocations depotD)
  = [(Some "V1", ["D"; "A"; "B"; "D"], 10)].
Proof. vm_compute. reflexivity. Qed.

(** ** The savings phase keeps the customers partitioned *)

Section SavingsPartitionFacts.
Import ClarkeWright.

(** The stops of customers numbered from [k] on. *)
Let stopsAt (k : nat) (picked : list Location) : list Stop :=
  imap (fun i l => stopOf l (k + i)) picked.

Lemma tourStops_stopsAt depot picked :
  tourStops depot picked = stopOf depot 0 :: stopsAt 1 picked ++ [stopOf depot (S (length picked))].
Proof. reflexivity. Qed.

Lemma stopsAt_app k p1 p2 :
  stopsAt k (p1 ++ p2) = stopsAt k p1 ++ stopsAt (k + length p1) p2.
Proof.
  unfold stopsAt. rewrite imap_app. f_equal. apply imap_ext. intros i l _. simpl.
  f_equal. lia.
Qed.

Lemma renumber_stopsAt j picked : forall k,
  imap (fun i st => setOrder st (k + i)) (stopsAt j picked) = stopsAt k picked.
Proof.
  unfold stopsAt. revert j. induction picked as [|l picked IH]; intros j k; [reflexivity|].
  rewrite !imap_cons. f_equal.
  rewrite <- (imap_ext (fun i x => stopOf x (S j + i)) (fun i x => stopOf x (j + S i)))
    by (intros; simpl; f_equal; lia).
  rewrite <- (imap_ext (fun i x => stopOf x (S k + i)) ((fun i x => stopOf x (k + i)) ∘ S))
    by (intros; simpl; f_equal; lia).
  rewrite <- (IH (S j) (S k)).
  apply imap_ext. intros i x _. simpl. f_equal. lia.
Qed.

(** Joining two tours end to start and renumbering gives the tour of the
    customers of the first followed by those of the second. *)
Lemma renumber_join depot p1 p2 :
  renumber (removelast (tourStops depot p1) ++ drop 1 (tourStops depot p2))
  = tourStops depot (p1 ++ p2).
Proof.
  rewrite !tourStops_stopsAt.
  replace (removelast (stopOf depot 0 :: stopsAt 1 p1 ++ [stopOf depot (S (length p1))]))
    with (stopOf depot 0 :: stopsAt 1 p1)
    by (rewrite app_comm_cons; symmetry; apply removelast_last).
  simpl drop. rewrite drop_0.
  assert (L1 : length (stopsAt 1 p1) = length p1) by (unfold stopsAt; apply length_imap).
  assert (L2 : length (stopsAt 1 p2) = length p2) by (unfold stopsAt; apply length_imap).
  unfold renumber. rewrite <- app_comm_cons, imap_cons. f_equal.
  rewrite (imap_ext _ (fun i st => setOrder st (1 + i))) by reflexivity.
  rewrite imap_app, (renumber_stopsAt 1 p1 1), L1.
  rewrite imap_app, L2.
  rewrite (imap_ext _ (fun i st => setOrder st ((1 + length p1) + i)) (stopsAt 1 p2))
    by (intros; simpl; f_equal; lia).
  rewrite (renumber_stopsAt 1 p2 (1 + length p1)).
  rewrite stopsAt_app, <- app_assoc. f_equal. f_equal.
  simpl. rewrite length_app, Nat.add_0_r. reflexivity.
Qed.


Lemma servedIds_flat d routes :
  servedIds d routes = flat_map (fun r => servedIds d [r]) routes.
Proof.
  induction routes as [|r routes IH]; [reflexivity|].
  change (r :: routes) with ([r] ++ routes). rewrite servedIds_app, IH. reflexivity.
Qed.

Lemma servedIds_perm d routes routes' :
  Permutation routes routes' -> Permutation (servedIds d routes) (servedIds d routes').
Proof. intros H. rewrite !servedIds_flat. apply Permutation_flat_map, H. Qed.

(** Replacing two routes by one: what is left beside the two, and beside the
    merged one, is the same. *)
Lemma replaceTwo_perm routes a b r1 r2 merged :
  a <> b -> routes !! a = Some r1 -> routes !! b = Some r2 ->
  exists rest,
    Permutation routes (r1 :: r2 :: rest) /\
    Permutation (replaceTwo routes a b merged) (merged :: rest).
Proof.
  intros Hne E1 E2. unfold replaceTwo.
  assert (Hgen : forall lo hi x y,
            (lo < hi)%nat -> routes !! lo = Some x -> routes !! hi = Some y ->
            exists rest, Permutation routes (x :: y :: rest) /\
                         Permutation (<[lo := merged]> (delete hi routes)) (merged :: rest)).
  { intros lo hi x y Hlt Ex Ey.
    assert (Ex' : delete hi routes !! lo = Some x) by (rewrite list_lookup_delete_lt; auto).
    exists (delete lo (delete hi routes)). split.
    - etransitivity; [apply (delete_Permutation routes hi y Ey)|].
      etransitivity; [apply perm_skip, (delete_Permutation _ lo x Ex')|apply perm_swap].
    - set (l' := delete hi routes) in *.
      rewrite insert_take_drop by (eapply lookup_lt_Some, Ex').
      rewrite (delete_take_drop l' lo). symmetry. apply Permutation_middle. }
  destruct (Nat.lt_total a b) as [Hlt|[Heq|Hgt]]; [|contradiction|].
  - rewrite Nat.min_l, Nat.max_r by lia. eapply Hgen; eassumption.
  - rewrite Nat.min_r, Nat.max_l by lia.
    destruct (Hgen b a r2 r1 Hgt E2 E1) as (rest & H1 & H2).
    exists rest. split; [|exact H2]. rewrite H1. apply perm_swap.
Qed.

Variables (calc : DistanceKernel) (distances : DistanceMatrix) (speedKmh : Q)
          (maxCapacity : Z) (depot : Location) (customers : list Location).

Hypothesis customers_not_depot : forall l, In l customers -> loc_id l <> loc_id depot.

(** A route of the savings phase: a tour over customers, not yet assigned. *)
Let isTour (r : Route) : Prop :=
  exists picked,
    picked <> [] /\ (forall l, In l picked -> In l customers) /\
    stops r = tourStops depot picked /\ vehicle r = None /\ capacityExceeded r = None.

Lemma mergeStep_partition routes s :
  (forall r, In r routes -> isTour r) ->
  (forall r, In r (mergeStep calc distances speedKmh maxCapacity routes s) -> isTour r) /\
  Permutation (servedIds (loc_id depot) (mergeStep calc distances speedKmh maxCapacity routes s))
              (servedIds (loc_id depot) routes).
Proof.
  intros Hall. unfold mergeStep. destruct s as [idI idJ].
  destruct (findRouteIndexByLocation routes idI) as [[routeI stopI]|]; [|split; auto].
  destruct (findRouteIndexByLocation routes idJ) as [[routeJ stopJ]|]; [|split; auto].
  destruct (Nat.eqb_spec routeI routeJ) as [|Hne]; [split; auto|].
  destruct (routes !! routeI) as [r1|] eqn:E1; [|split; auto].
  destruct (routes !! routeJ) as [r2|] eqn:E2; [|split; auto].
  destruct (mergedStops r1 r2 stopI stopJ) as [newStops|] eqn:Em; [|split; auto].
  cbv zeta.
  destruct (js_orZ (totalCapacity r1) 0 + js_orZ (totalCapacity r2) 0 >? maxCapacity);
    [split; auto|].
  set (merged := mergedRoute calc distances speedKmh newStops _).
  assert (T1 : isTour r1).
  { apply Hall. rewrite <- list_elem_of_In. eapply list_elem_of_lookup_2, E1. }
  assert (T2 : isTour r2).
  { apply Hall. rewrite <- list_elem_of_In. eapply list_elem_of_lookup_2, E2. }
  destruct T1 as (p1 & N1 & C1 & S1 & V1 & _), T2 as (p2 & N2 & C2 & S2 & V2 & _).
  assert (Hm : exists p, (p = p1 ++ p2 \/ p = p2 ++ p1) /\ stops merged = tourStops depot p).
  { apply mergedStops_shape in Em as [->| ->]; unfold merged, mergedRoute; simpl;
      rewrite S1, S2, renumber_join; eauto. }
  destruct Hm as (p & Hp & Hs).
  assert (Tm : isTour merged).
  { exists p. split; [destruct Hp as [->| ->]; destruct p1, p2; simpl; congruence|].
    split; [|split; [exact Hs|split; reflexivity]].
    intros l Hl. destruct Hp as [->| ->]; apply in_app_or in Hl as [|]; auto. }
  split.
  - intros r Hr. apply In_replaceTwo in Hr as [->|Hr]; auto.
  - destruct (replaceTwo_perm routes routeI routeJ r1 r2 merged Hne E1 E2)
      as (rest & H1 & H2).
    rewrite (servedIds_perm _ _ _ H1), (servedIds_perm _ _ _ H2).
    change (merged :: rest) with ([merged] ++ rest).
    change (r1 :: r2 :: rest) with ([r1] ++ [r2] ++ rest).
    rewrite !servedIds_app. rewrite app_assoc. apply Permutation_app_tail.
    rewrite (servedIds_tour depot merged p Hs), (servedIds_tour depot r1 p1 S1),
      (servedIds_tour depot r2 p2 S2); auto.
    + destruct Hp as [->| ->]; rewrite map_app; [reflexivity|apply Permutation_app_comm].
    + intros l Hl. apply customers_not_depot.
      destruct Hp as [->| ->]; apply in_app_or in Hl as [|]; auto.
Qed.

Lemma savingsPhase_partition savings : forall routes,
  (forall r, In r routes -> isTour r) ->
  (forall r, In r (savingsPhase calc distances speedKmh maxCapacity savings routes) ->
             isTour r) /\
  Permutation (servedIds (loc_id depot)
                 (savingsPhase calc distances speedKmh maxCapacity savings routes))
              (servedIds (loc_id depot) routes).
Proof.
  unfold savingsPhase. induction savings as [|s savings IH]; intros routes Hall; simpl.
  - split; [exact Hall|reflexivity].
  - destruct (mergeStep_partition routes s Hall) as (H1 & H2).
    destruct (IH _ H1) as (I1 & I2). split; [exact I1|]. rewrite I2. exact H2.
Qed.

Lemma initialRoutes_partition :
  (forall r, In r (initialRoutes distances speedKmh depot customers) -> isTour r) /\
  servedIds (loc_id depot) (initialRoutes distances speedKmh depot customers)
  = map loc_id customers.
Proof.
  split.
  - intros r Hr. unfold initialRoutes in Hr. apply in_map_iff in Hr as (loc & <- & Hloc).
    exists [loc]. split; [discriminate|]. split; [intros l [<-|[]]; exact Hloc|].
    split; [reflexivity|split; reflexivity].
  - unfold initialRoutes. clear isTour.
    induction customers as [|loc locs IH]; [reflexivity|].
    simpl map. change (?r :: map ?f locs) with ([r] ++ map f locs).
    rewrite servedIds_app, IH by (intros l Hl; apply customers_not_depot; now right).
    rewrite (servedIds_tour depot _ [loc]); [reflexivity|reflexivity|].
    intros l [<-|[]]. apply customers_not_depot. now left.
Qed.

End SavingsPartitionFacts.

Lemma NoDup_map_filter {A B} (f : A -> B) (p : A -> bool) (l : list A) :
  NoDup (map f l) -> NoDup (map f (List.filter p l)).
Proof.
  induction l as [|x l IH]; simpl; intros H; [constructor|].
  apply NoDup_cons in H as [Hx Hl]. destruct (p x); simpl; [|auto].
  constructor; [|auto]. rewrite list_elem_of_In in *. intros Hin. apply Hx.
  apply in_map_iff in Hin as (y & Ey & Hy). apply filter_In in Hy as [Hy _].
  apply in_map_iff. eauto.
Qed.

Section SavingsPartitionTheorems.
Import ClarkeWright.

(** X6. The savings phase of both Clarke-Wright variants keeps the customers
    partitioned over the routes, whatever the order of the savings: the
    non-depot stops of its routes are, up to order, the non-depot locations
    of the instance (so with distinct ids none is served twice), and every
    route is a tour depot, customers, depot with the [order] fields
    0, 1, 2, ... and no vehicle yet. *)
Theorem savingsPhase_partitions_customers
    (calc : DistanceKernel) (distances : DistanceMatrix) (speedKmh : Q) (maxCapacity : Z)
    (locations : list Location) (depot : Location) (savings : list (Id * Id)) :
  let nonDepot := nonDepotOf locations depot in
  let routes :=
    savingsPhase calc distances speedKmh maxCapacity savings
      (initialRoutes distances speedKmh depot nonDepot) in
  Permutation (servedIds (loc_id depot) routes) (map loc_id nonDepot) /\
  (NoDup (map loc_id locations) -> servedAtMostOnce (loc_id depot) routes) /\
  (forall r, In r routes ->
     exists picked,
       picked <> [] /\ (forall l, In l picked -> In l nonDepot) /\
       stops r = tourStops depot picked /\ ordersMatch r /\ vehicle r = None).
Proof.
  intros nonDepot routes.
  assert (Hcust : forall l, In l nonDepot -> loc_id l <> loc_id depot).
  { intros l Hl. apply filter_In in Hl as [_ Hl].
    apply negb_true_iff, String.eqb_neq in Hl. exact Hl. }
  destruct (initialRoutes_partition distances speedKmh depot nonDepot Hcust) as (I1 & I2).
  destruct (savingsPhase_partition calc distances speedKmh maxCapacity depot nonDepot
              Hcust savings _ I1) as (S1 & S2).
  fold routes in S1, S2. rewrite I2 in S2.
  split; [exact S2|]. split.
  - intros Hnd. unfold servedAtMostOnce. rewrite S2. apply NoDup_map_filter, Hnd.
  - intros r Hr. destruct (S1 r Hr) as (picked & Hne & Hp & Hs & Hv & _).
    exists picked. repeat split; auto. eapply ordersMatch_tour, Hs.
Qed.

End SavingsPartitionTheorems.

Example savingsPhase_partition_S3 :
  servedIds "D" (ClarkeWright.routesAfterSavings taxicab ClarkeWright.fleet10
                   ClarkeWright.instanceS3 depotD) = ["A"; "B"].
Proof. vm_compute. reflexivity. Qed.

(** ** Vehicle assignment: what it keeps, and how it books the slots *)

Section SortFacts.
Context {A : Type} (gtb : A -> A -> bool).

Lemma insert_by_perm x l : Permutation (insert_by gtb x l) (x :: l).
Proof.
  induction l as [|y l IH]; simpl; [reflexivity|].
  destruct (gtb x y); [|reflexivity].
  etransitivity; [apply perm_skip, IH|apply perm_swap].
Qed.

Lemma sort_by_perm l : Permutation (sort_by gtb l) l.
Proof.
  unfold sort_by. induction l as [|x l IH]; simpl; [reflexivity|].
  etransitivity; [apply insert_by_perm|apply perm_skip, IH].
Qed.

End SortFacts.

Section AssignMoreFacts.
Import Assign.

Let assigned (r : Route) : bool := match vehicle r with Some _ => true | None => false end.

Let drives (vid : Id) (r : Route) : bool :=
  match vehicle r with Some id => String.eqb id vid | None => false end.

Let usedBy (vid : Id) (vs : VehicleSlot) : bool := used vs && String.eqb (slot_id vs) vid.

Lemma map_slot_id_occupy ix load slots :
  map slot_id (occupy ix load slots) = map slot_id slots.
Proof.
  unfold occupy. rewrite map_map. apply map_ext. intros vs.
  destruct (Nat.eqb (slot_ix vs) ix); reflexivity.
Qed.

Lemma map_slot_ix_occupy ix load slots :
  map slot_ix (occupy ix load slots) = map slot_ix slots.
Proof.
  unfold occupy. rewrite map_map. apply map_ext. intros vs.
  destruct (Nat.eqb (slot_ix vs) ix); reflexivity.
Qed.

Lemma map_slot_capacity_occupy ix load slots :
  map slot_capacity (occupy ix load slots) = map slot_capacity slots.
Proof.
  unfold occupy. rewrite map_map. apply map_ext. intros vs.
  destruct (Nat.eqb (slot_ix vs) ix); reflexivity.
Qed.

(** Marking the slot object [vs]: the other slots stay as they are. *)
Lemma occupy_split slots vs load :
  NoDup (map slot_ix slots) -> In vs slots ->
  exists l1 l2,
    slots = l1 ++ vs :: l2 /\
    occupy (slot_ix vs) load slots =
      l1 ++ mkSlot (slot_ix vs) (slot_id vs) (slot_name vs) (slot_capacity vs)
                   true (currentLoad vs + load) :: l2.
Proof.
  intros Hnd Hin. apply in_split in Hin as (l1 & l2 & ->).
  exists l1, l2. split; [reflexivity|].
  rewrite map_app in Hnd. simpl in Hnd.
  apply NoDup_app in Hnd as (_ & H12 & H2). apply NoDup_cons in H2 as [H2 _].
  assert (Hother : forall l, (forall x, In x l -> slot_ix x <> slot_ix vs) ->
                             occupy (slot_ix vs) load l = l).
  { intros l Hl. unfold occupy. rewrite <- (map_id l) at 2. apply map_ext_in.
    intros x Hx. apply Hl in Hx. apply Nat.eqb_neq in Hx. rewrite Hx. reflexivity. }
  unfold occupy in *. rewrite map_app. simpl. rewrite Nat.eqb_refl.
  f_equal; [|f_equal].
  - apply Hother. intros x Hx E. apply (H12 (slot_ix x)).
    + rewrite list_elem_of_In. apply in_map, Hx.
    + rewrite E. left.
  - apply Hother. intros x Hx E. apply H2. rewrite list_elem_of_In, <- E. apply in_map, Hx.
Qed.

Lemma bestSlot_None slots required vs :
  bestSlot slots required = None -> In vs slots -> used vs = false ->
  slot_capacity vs < required.
Proof.
  unfold bestSlot. intros H Hin Hu.
  destruct (Z_lt_le_dec (slot_capacity vs) required) as [|Hle]; [assumption|exfalso].
  assert (Hf : In vs (List.filter (fun vs => negb (used vs) && (required <=? slot_capacity vs))
                                  slots)).
  { apply filter_In. split; [exact Hin|]. rewrite Hu. simpl. apply Z.leb_le, Hle. }
  apply (In_sort_by (fun a b => slack required b <? slack required a)) in Hf.
  destruct (sort_by _ _); [destruct Hf|discriminate].
Qed.


Let countIf {X} (p : X -> bool) (l : list X) : nat := length (List.filter p l).

Lemma countIf_app {X} (p : X -> bool) l1 l2 :
  countIf p (l1 ++ l2) = (countIf p l1 + countIf p l2)%nat.
Proof. unfold countIf. rewrite List.filter_app, length_app. reflexivity. Qed.

Lemma countIf_cons {X} (p : X -> bool) x l :
  countIf p (x :: l) = ((if p x then 1 else 0) + countIf p l)%nat.
Proof. unfold countIf. simpl. destruct (p x); reflexivity. Qed.

Lemma countIf_nil {X} (p : X -> bool) : countIf p [] = 0%nat.
Proof. reflexivity. Qed.

Lemma countIf_le {X} (p : X -> bool) l : (countIf p l <= length l)%nat.
Proof. apply filter_length_le. Qed.

Lemma countIf_map {X Y} (f : X -> Y) (p : Y -> bool) l :
  countIf (fun x => p (f x)) l = countIf p (map f l).
Proof.
  unfold countIf. induction l as [|x l IH]; simpl; [reflexivity|].
  destruct (p (f x)); simpl; rewrite IH; reflexivity.
Qed.

Lemma countIf_impl {X} (p q : X -> bool) l :
  (forall x, p x = true -> q x = true) -> (countIf p l <= countIf q l)%nat.
Proof.
  intros H. unfold countIf. induction l as [|x l IH]; simpl; [lia|].
  destruct (p x) eqn:Ep; [rewrite (H x Ep); simpl; lia|].
  destruct (q x); simpl; lia.
Qed.

Lemma countIf_perm {X} (p : X -> bool) l l' :
  Permutation l l' -> countIf p l = countIf p l'.
Proof.
  unfold countIf. induction 1 as [|x l l' _ IH|x y l|l l' l'' _ IH1 _ IH2]; simpl.
  - reflexivity.
  - destruct (p x); simpl; rewrite IH; reflexivity.
  - destruct (p x), (p y); reflexivity.
  - congruence.
Qed.

(** Fewer marked elements than elements: one is not marked. *)
Lemma countIf_lt_exists {X} (p : X -> bool) l :
  (countIf p l < length l)%nat -> exists x, In x l /\ p x = false.
Proof.
  unfold countIf. induction l as [|x l IH]; simpl; [lia|].
  destruct (p x) eqn:E; simpl; intros H.
  - destruct IH as (y & Hy & Ey); [lia|]. exists y. auto.
  - exists x. auto.
Qed.

Variable slots0 : list VehicleSlot.

(** The state of the loop over the routes, after the routes [processed]. *)
Let assignInv (processed : list Route) (acc : list Route * list VehicleSlot) : Prop :=
  NoDup (map slot_ix (snd acc)) /\
  map slot_id (snd acc) = map slot_id slots0 /\
  map slot_capacity (snd acc) = map slot_capacity slots0 /\
  map tripOf (fst acc) = map tripOf processed /\
  (forall vid, countIf (drives vid) (fst acc) = countIf (usedBy vid) (snd acc)) /\
  countIf assigned (fst acc) = countIf used (snd acc).

Lemma assignStep_inv processed acc route :
  vehicle route = None -> assignInv processed acc ->
  assignInv (processed ++ [route]) (assignStep acc route).
Proof.
  intros Hv (I1 & I2 & I3 & I4 & I5 & I6). unfold assignStep.
  destruct (bestSlot (snd acc) (js_orZ (totalCapacity route) 0)) as [vs|] eqn:Hb;
    unfold assignInv; cbn [fst snd].
  - apply bestSlot_fits in Hb as (Hin & Hu & _).
    destruct (occupy_split (snd acc) vs (js_orZ (totalCapacity route) 0) I1 Hin)
      as (l1 & l2 & E & Eo).
    split; [rewrite map_slot_ix_occupy; exact I1|].
    split; [rewrite map_slot_id_occupy; exact I2|].
    split; [rewrite map_slot_capacity_occupy; exact I3|].
    split; [rewrite !map_app, I4; reflexivity|].
    split.
    + intros vid. specialize (I5 vid). rewrite E in I5. rewrite Eo.
      rewrite !countIf_app, !countIf_cons, ?countIf_nil in *.
      unfold usedBy, drives in *. cbn [vehicle setVehicle used slot_id] in *.
      rewrite Hu in I5. cbn [andb] in *.
      destruct (String.eqb (slot_id vs) vid); lia.
    + rewrite E in I6. rewrite Eo.
      rewrite !countIf_app, !countIf_cons, ?countIf_nil in *.
      unfold assigned in *. cbn [vehicle setVehicle used] in *.
      rewrite Hu in I6. lia.
  - split; [exact I1|]. split; [exact I2|]. split; [exact I3|].
    split; [rewrite !map_app, I4; reflexivity|].
    split.
    + intros vid. rewrite countIf_app, I5, countIf_cons, countIf_nil.
      unfold drives at 1. rewrite Hv. lia.
    + rewrite countIf_app, I6, countIf_cons, countIf_nil.
      unfold assigned at 1. rewrite Hv. lia.
Qed.

Lemma assign_fold_inv todo : forall processed acc,
  (forall r, In r todo -> vehicle r = None) ->
  assignInv processed acc ->
  assignInv (processed ++ todo) (fold_left assignStep todo acc).
Proof.
  induction todo as [|route todo IH]; intros processed acc Hv Hinv; simpl.
  - rewrite app_nil_r. exact Hinv.
  - replace (processed ++ route :: todo) with ((processed ++ [route]) ++ todo)
      by (rewrite <- app_assoc; reflexivity).
    apply IH; [intros r Hr; apply Hv; now right|].
    apply assignStep_inv; [apply Hv; now left|exact Hinv].
Qed.

(** When every slot can carry every route still to come and there are
    enough slots, every route gets one. *)
Lemma assign_fold_complete todo : forall processed acc,
  (forall r, In r todo -> vehicle r = None) ->
  (forall r vs, In r todo -> In vs slots0 -> totalCapacity r <= slot_capacity vs) ->
  (length processed + length todo <= length slots0)%nat ->
  assignInv processed acc ->
  (forall r, In r (fst acc) -> assigned r = true) ->
  forall r, In r (fst (fold_left assignStep todo acc)) -> assigned r = true.
Proof.
  induction todo as [|route todo IH]; intros processed acc Hv Hfit Hlen Hinv Hdone; simpl;
    [exact Hdone|].
  apply (IH (processed ++ [route])).
  - intros r Hr. apply Hv. now right.
  - intros r vs Hr. apply Hfit. now right.
  - rewrite length_app. simpl in *. lia.
  - apply assignStep_inv; [apply Hv; now left|exact Hinv].
  - destruct Hinv as (I1 & I2 & I3 & I4 & I5 & I6).
    assert (Hfree : exists vs, In vs (snd acc) /\ used vs = false).
    { apply countIf_lt_exists. rewrite <- I6.
      assert (length (fst acc) = length processed).
      { rewrite <- (length_map tripOf (fst acc)), I4. apply length_map. }
      assert (length (snd acc) = length slots0).
      { rewrite <- (length_map slot_id (snd acc)), I2. apply length_map. }
      pose proof (countIf_le assigned (fst acc)). simpl in Hlen. lia. }
    destruct Hfree as (vs & Hvs & Hu).
    unfold assignStep.
    destruct (bestSlot (snd acc) (js_orZ (totalCapacity route) 0)) as [b|] eqn:Hb;
      cbn [fst snd].
    + intros r Hr. apply in_app_or in Hr as [Hr|[<-|[]]]; [auto|reflexivity].
    + exfalso. pose proof (bestSlot_None _ _ vs Hb Hvs Hu) as Hsmall.
      rewrite js_orZ_zero in Hsmall.
      assert (Hc : In (slot_capacity vs) (map slot_capacity slots0)).
      { rewrite <- I3. apply in_map, Hvs. }
      apply in_map_iff in Hc as (vs0 & Ec & Hvs0).
      specialize (Hfit route vs0 (or_introl eq_refl) Hvs0). lia.
Qed.


Lemma countIf_none {X} (p : X -> bool) l :
  (forall x, In x l -> p x = false) -> countIf p l = 0%nat.
Proof.
  unfold countIf. induction l as [|x l IH]; intros H; simpl; [reflexivity|].
  rewrite (H x) by (now left). apply IH. intros y Hy. apply H. now right.
Qed.

Lemma map_slot_ix_expand vehicles :
  map slot_ix (expandSlots vehicles) = seq 0 (length (flat_map slotsOf vehicles)).
Proof.
  unfold expandSlots. change (map slot_ix) with (fmap (M := list) slot_ix).
  rewrite fmap_imap.
  change (imap (fun n => slot_ix ∘ setIx n) (flat_map slotsOf vehicles))
    with (imap (fun (n : nat) (_ : VehicleSlot) => n) (flat_map slotsOf vehicles)).
  rewrite (imap_seq_0 _ (fun n => n)). apply list_fmap_id.
Qed.

Lemma map_slot_id_expand vehicles :
  map slot_id (expandSlots vehicles) = map slot_id (flat_map slotsOf vehicles).
Proof.
  unfold expandSlots. change (map slot_id) with (fmap (M := list) slot_id).
  rewrite fmap_imap. apply imap_const.
Qed.

Lemma expandSlots_unused vehicles vs : In vs (expandSlots vehicles) -> used vs = false.
Proof.
  unfold expandSlots. rewrite <- list_elem_of_In. intros H.
  apply list_elem_of_lookup in H as (n & Hn). rewrite list_lookup_imap in Hn.
  destruct (flat_map slotsOf vehicles !! n) as [vs0|] eqn:E; [|discriminate].
  injection Hn as <-. simpl.
  apply list_elem_of_lookup_2, list_elem_of_In, in_flat_map in E as (v & _ & Hv).
  unfold slotsOf in Hv. rewrite <- list_elem_of_In in Hv.
  apply elem_of_replicate in Hv as [-> _]. reflexivity.
Qed.

End AssignMoreFacts.

Section AssignMoreTheorems.
Import Assign.

Lemma assign_fold_trips todo : forall acc,
  map tripOf (fst (fold_left assignStep todo acc)) = map tripOf (fst acc) ++ map tripOf todo.
Proof.
  induction todo as [|route todo IH]; intros acc; simpl; [rewrite app_nil_r; reflexivity|].
  rewrite IH. unfold assignStep.
  destruct (bestSlot (snd acc) (js_orZ (totalCapacity route) 0)); cbn [fst];
    rewrite map_app, <- app_assoc; reflexivity.
Qed.

(** X7. [assignVehiclesToRoutes] neither drops, repeats nor alters a route:
    it returns the routes in the order of its sort (descending
    [totalCapacity], stable) with their stops, distance, duration, load and
    flag unchanged; only [vehicle] and [vehicleName] may differ. *)
Theorem assignVehiclesToRoutes_keeps_trips (routes : list Route) (vehicles : list Vehicle) :
  map tripOf (assignVehiclesToRoutes routes vehicles) = map tripOf (sortRoutes routes) /\
  Permutation (map tripOf (assignVehiclesToRoutes routes vehicles)) (map tripOf routes).
Proof.
  assert (H : map tripOf (assignVehiclesToRoutes routes vehicles)
              = map tripOf (sortRoutes routes)).
  { unfold assignVehiclesToRoutes. rewrite assign_fold_trips. reflexivity. }
  split; [exact H|]. rewrite H. apply Permutation_map, sort_by_perm.
Qed.

Lemma assign_initial vehicles :
  NoDup (map slot_ix (sortSlots (expandSlots vehicles))) /\
  (forall vs, In vs (sortSlots (expandSlots vehicles)) -> used vs = false).
Proof.
  split.
  - unfold sortSlots. rewrite (Permutation_map slot_ix (sort_by_perm _ _)).
    rewrite map_slot_ix_expand. apply NoDup_seq.
  - intros vs Hvs. apply In_sort_by in Hvs. eapply expandSlots_unused, Hvs.
Qed.

(** X8. [assignVehiclesToRoutes] never books a vehicle slot twice: when no
    input route has a vehicle yet, the routes it gives to a vehicle id are
    at most the slots the fleet holds for that id; for a fleet with distinct
    ids that is the vehicle's [count || 1]. *)
Theorem assignVehiclesToRoutes_no_double_booking
    (routes : list Route) (vehicles : list Vehicle) :
  (forall r, In r routes -> vehicle r = None) ->
  (forall vid,
     (length (routesOf vid (assignVehiclesToRoutes routes vehicles))
      <= length (slotsOfId vid vehicles))%nat) /\
  (NoDup (map veh_id vehicles) ->
   forall v, In v vehicles ->
     (length (routesOf (veh_id v) (assignVehiclesToRoutes routes vehicles))
      <= Z.to_nat (js_orZ (count v) 1))%nat).
Proof.
  intros Hv.
  destruct (assign_initial vehicles) as (Hnd & Hunused).
  assert (Hinv := assign_fold_inv (sortSlots (expandSlots vehicles)) (sortRoutes routes) []
                    ([], sortSlots (expandSlots vehicles))).
  cbn [fst snd app] in Hinv.
  destruct Hinv as (_ & I2 & _ & _ & I5 & _).
  { intros r Hr. apply Hv. apply In_sort_by in Hr. exact Hr. }
  { split; [exact Hnd|]. split; [reflexivity|]. split; [reflexivity|]. split; [reflexivity|].
    split.
    - intros vid. simpl. symmetry. apply countIf_none. intros vs Hvs.
      rewrite (Hunused vs Hvs). reflexivity.
    - simpl. symmetry. apply countIf_none. exact Hunused. }
  assert (Hslots : forall vid,
    (length (routesOf vid (assignVehiclesToRoutes routes vehicles))
     <= length (slotsOfId vid vehicles))%nat).
  { intros vid. unfold routesOf, assignVehiclesToRoutes. rewrite (I5 vid).
    etransitivity;
      [apply (countIf_impl _ (fun vs => String.eqb (slot_id vs) vid)); intros vs H;
       apply andb_prop in H as [_ H]; exact H|].
    rewrite (countIf_map slot_id (fun id => String.eqb id vid)), I2.
    rewrite <- (countIf_map slot_id (fun id => String.eqb id vid)).
    unfold slotsOfId. apply Nat.eq_le_incl, countIf_perm, sort_by_perm. }
  split; [exact Hslots|].
  intros Hids v Hin. etransitivity; [apply Hslots|]. apply Nat.eq_le_incl.
  unfold slotsOfId.
  rewrite (countIf_map slot_id (fun id => String.eqb id (veh_id v))), map_slot_id_expand.
  clear -Hids Hin. induction vehicles as [|w ws IH]; [destruct Hin|].
  simpl in Hids. apply NoDup_cons in Hids as [Hw Hws].
  simpl flat_map. rewrite map_app, List.filter_app, length_app.
  assert (Hrep : forall u : Vehicle,
            map slot_id (slotsOf u) = replicate (Z.to_nat (js_orZ (count u) 1)) (veh_id u)).
  { intros u. unfold slotsOf. induction (Z.to_nat (js_orZ (count u) 1)) as [|n IHn];
      simpl; [reflexivity|]. f_equal. exact IHn. }
  assert (Hcount : forall (id : Id) n,
            length (List.filter (fun x => String.eqb x (veh_id v)) (replicate n id))
            = if String.eqb id (veh_id v) then n else 0%nat).
  { intros id n. induction n as [|n IHn]; simpl; [destruct (String.eqb _ _); reflexivity|].
    destruct (String.eqb id (veh_id v)); simpl; [rewrite IHn; reflexivity|exact IHn]. }
  rewrite Hrep, Hcount. destruct Hin as [->|Hin].
  - rewrite String.eqb_refl.
    assert (Hrest : length (List.filter (fun x : Id => String.eqb x (veh_id v))
                              (map slot_id (flat_map slotsOf ws))) = 0%nat).
    { apply countIf_none. intros id Hid. apply String.eqb_neq. intros ->.
      apply Hw. rewrite list_elem_of_In.
      apply in_map_iff in Hid as (vs & E & Hvs). apply in_flat_map in Hvs as (u & Hu & Hvs).
      unfold slotsOf in Hvs. rewrite <- list_elem_of_In in Hvs.
      apply elem_of_replicate in Hvs as [-> _]. simpl in E. rewrite <- E.
      apply in_map, Hu. }
    rewrite Hrest. lia.
  - assert (Hne : veh_id w <> veh_id v).
    { intros E. apply Hw. rewrite list_elem_of_In, E. apply in_map, Hin. }
    apply String.eqb_neq in Hne. rewrite Hne. simpl. apply IH; assumption.
Qed.

(** X9. When no input route has a vehicle yet, the fleet has at least as
    many slots as there are routes and every vehicle can carry every route,
    [assignVehiclesToRoutes] leaves no route without a vehicle. *)
Theorem assignVehiclesToRoutes_assigns_all
    (routes : list Route) (vehicles : list Vehicle) (r : Route) :
  (forall r, In r routes -> vehicle r = None) ->
  (length routes <= length (expandSlots vehicles))%nat ->
  (forall r v, In r routes -> In v vehicles -> totalCapacity r <= capacity v) ->
  In r (assignVehiclesToRoutes routes vehicles) ->
  vehicle r <> None.
Proof.
  intros Hv Hlen Hfit Hr.
  destruct (assign_initial vehicles) as (Hnd & Hunused).
  assert (Ha : match vehicle r with Some _ => true | None => false end = true).
  { apply (assign_fold_complete (sortSlots (expandSlots vehicles)) (sortRoutes routes) []
             ([], sortSlots (expandSlots vehicles))).
    - intros r0 Hr0. apply Hv. apply In_sort_by in Hr0. exact Hr0.
    - intros r0 vs Hr0 Hvs. apply In_sort_by in Hr0, Hvs.
      destruct (expandSlots_from vehicles vs Hvs) as (v & Hin & _ & ->). auto.
    - simpl. unfold sortRoutes, sortSlots.
      rewrite (Permutation_length (sort_by_perm _ routes)).
      rewrite (Permutation_length (sort_by_perm _ (expandSlots vehicles))). exact Hlen.
    - split; [exact Hnd|]. split; [reflexivity|]. split; [reflexivity|].
      split; [reflexivity|]. split.
      + intros vid. simpl. symmetry. apply countIf_none. intros vs Hvs.
        rewrite (Hunused vs Hvs). reflexivity.
      + simpl. symmetry. apply countIf_none. exact Hunused.
    - intros r0 [].
    - exact Hr. }
  destruct (vehicle r); [discriminate|discriminate].
Qed.

End AssignMoreTheorems.

Lemma assignVehiclesToRoutes_no_double_booking_witness :
  (forall vid,
     (length (routesOf vid
                (Assign.assignVehiclesToRoutes
                   [roundTrip depotD customerA; roundTrip depotD customerB] Genetic.twoVans))
      <= length (slotsOfId vid Genetic.twoVans))%nat) /\
  (NoDup (map veh_id Genetic.twoVans) ->
   forall v, In v Genetic.twoVans ->
     (length (routesOf (veh_id v)
                (Assign.assignVehiclesToRoutes
                   [roundTrip depotD customerA; roundTrip depotD customerB] Genetic.twoVans))
      <= Z.to_nat (js_orZ (count v) 1))%nat).
Proof.
  apply assignVehiclesToRoutes_no_double_booking.
  intros r [<-|[<-|[]]]; reflexivity.
Defined.

Lemma assignVehiclesToRoutes_assigns_all_witness :
  vehicle (hd noRoute
             (Assign.assignVehiclesToRoutes
                [roundTrip depotD customerA; roundTrip depotD customerB] Genetic.twoVans))
  <> None.
Proof.
  apply (assignVehiclesToRoutes_assigns_all
           [roundTrip depotD customerA; roundTrip depotD customerB] Genetic.twoVans).
  - intros r [<-|[<-|[]]]; reflexivity.
  - simpl. lia.
  - intros r v [<-|[<-|[]]] [<-|[<-|[]]]; vm_compute; discriminate.
  - vm_compute. left. reflexivity.
Defined.

Example assignVehiclesToRoutes_sample :
  map (fun r => (vehicle r, map locationId (stops r)))
      (Assign.assignVehiclesToRoutes
         [roundTrip depotD customerA; roundTrip depotD customerB] Genetic.twoVans)
  = [(Some "V1", ["D"; "A"; "D"]); (Some "V2", ["D"; "B"; "D"])].
Proof. vm_compute. reflexivity. Qed.

(** ** Local search: 2-opt, Or-opt and 3-opt *)

Section RearrangeFacts.

Lemma rearranges_refl sq : rearranges sq sq.
Proof. split; [reflexivity|split; reflexivity]. Qed.

Lemma rearranges_trans a b c : rearranges a b -> rearranges b c -> rearranges a c.
Proof.
  intros (P1 & H1 & L1) (P2 & H2 & L2). split; [|split; congruence].
  etransitivity; eassumption.
Qed.

Lemma rearranges_length a b : rearranges a b -> length b = length a.
Proof. intros (P & _). apply Permutation_length, P. Qed.

Lemma head_take_app {A} (l x : list A) i :
  (1 <= i)%nat -> l <> [] -> head (take i l ++ x) = head l.
Proof.
  intros Hi Hl. destruct l as [|a l]; [congruence|]. destruct i; [lia|]. reflexivity.
Qed.

Lemma last_app_drop {A} (l x : list A) m :
  (m < length l)%nat -> last (x ++ drop m l) = last l.
Proof.
  intros Hm. rewrite last_app.
  assert (H : last (drop m l) = last l).
  { rewrite !last_lookup, lookup_drop, length_drop. f_equal. lia. }
  rewrite H. destruct (last l) eqn:E; [reflexivity|].
  apply last_None in E. subst l. simpl in Hm. lia.
Qed.

(** Cutting a sequence at [i] and [k] and putting a permutation of the cut
    back between the ends. *)
Lemma middle_rearranges sq i m (mid : list Stop) :
  (1 <= i)%nat -> (i <= m)%nat -> (m < length sq)%nat ->
  Permutation mid (take (m - i) (drop i sq)) ->
  rearranges sq (take i sq ++ mid ++ drop m sq).
Proof.
  intros Hi Him Hm Hp. split; [|split].
  - rewrite Hp. replace (drop m sq) with (drop (m - i) (drop i sq))
      by (rewrite drop_drop; f_equal; lia).
    rewrite take_drop, take_drop. reflexivity.
  - apply head_take_app; [exact Hi|]. intros ->. simpl in Hm. lia.
  - rewrite app_assoc. apply last_app_drop, Hm.
Qed.

End RearrangeFacts.

Section LocalSearchFacts.
Import LocalSearch ThreeOpt.

Variable cost : list Stop -> Q.

Lemma reverseSegment_rearranges i k sq :
  (1 <= i)%nat -> (i <= k)%nat -> (k + 1 < length sq)%nat ->
  rearranges sq (reverseSegment i k sq).
Proof.
  intros Hi Hik Hk. unfold reverseSegment, slice.
  apply middle_rearranges; [lia|lia|lia|]. symmetry. apply Permutation_rev.
Qed.

Lemma sweepPairs_spec n i k :
  In (i, k) (sweepPairs n) <-> (1 <= i)%nat /\ (i < k)%nat /\ (k + 1 < n)%nat.
Proof.
  unfold sweepPairs. rewrite in_flat_map. split.
  - intros (i' & Hi & H). apply in_map_iff in H as (k' & E & Hk). injection E as -> ->.
    apply in_seq in Hi, Hk. lia.
  - intros (H1 & H2 & H3). exists i. split; [apply in_seq; lia|].
    apply in_map_iff. exists k. split; [reflexivity|apply in_seq; lia].
Qed.

(** The state of one sweep over the pairs [ps], started on [sq]. *)
Let sweepStep (st : list Stop * bool) (p : nat * nat) : list Stop * bool :=
  let newSeq := reverseSegment (fst p) (snd p) (fst st) in
  if improves (cost newSeq) (cost (fst st)) then (newSeq, true) else st.

Lemma sweep_fold sq ps : forall st,
  (forall i k, In (i, k) ps -> (1 <= i)%nat /\ (i < k)%nat /\ (k + 1 < length sq)%nat) ->
  rearranges sq (fst st) -> (cost (fst st) <= cost sq)%Q ->
  (snd st = true -> (cost (fst st) + tolerance < cost sq)%Q) ->
  (snd st = false -> fst st = sq) ->
  let res := fold_left sweepStep ps st in
  rearranges sq (fst res) /\ (cost (fst res) <= cost sq)%Q /\
  (snd res = true -> (cost (fst res) + tolerance < cost sq)%Q) /\
  (snd res = false ->
     fst res = sq /\ snd st = false /\
     forall p, In p ps ->
       improves (cost (reverseSegment (fst p) (snd p) sq)) (cost sq) = false).
Proof.
  induction ps as [|[i k] ps IH]; intros st Hps Hr Hc Ht Hf; simpl.
  - split; [exact Hr|]. split; [exact Hc|]. split; [exact Ht|].
    intros H. split; [auto|]. split; [exact H|intros p []].
  - destruct (Hps i k (or_introl eq_refl)) as (Hi & Hik & Hk).
    assert (Hlen : length (fst st) = length sq) by (apply rearranges_length, Hr).
    assert (Hnew : rearranges sq (reverseSegment i k (fst st))).
    { eapply rearranges_trans; [exact Hr|]. apply reverseSegment_rearranges; lia. }
    assert (Estep : sweepStep st (i, k) =
                    if improves (cost (reverseSegment i k (fst st))) (cost (fst st))
                    then (reverseSegment i k (fst st), true) else st) by reflexivity.
    rewrite Estep. clear Estep.
    destruct (improves (cost (reverseSegment i k (fst st))) (cost (fst st))) eqn:Himp.
    + apply improves_true in Himp.
      assert (Hlt : (cost (reverseSegment i k (fst st)) + tolerance < cost sq)%Q).
      { eapply Qlt_le_trans; [exact Himp|exact Hc]. }
      destruct (IH (reverseSegment i k (fst st), true)) as (R & C & T & F); cbn [fst snd].
      * intros i' k' H. apply Hps. now right.
      * exact Hnew.
      * eapply Qle_trans; [apply tolerance_nonneg|]. apply Qlt_le_weak, Hlt.
      * intros _. exact Hlt.
      * discriminate.
      * split; [exact R|]. split; [exact C|]. split; [exact T|].
        intros H. destruct (F H) as (_ & Habs & _). discriminate.
    + destruct (IH st) as (R & C & T & F); auto.
      * intros i' k' H. apply Hps. now right.
      * split; [exact R|]. split; [exact C|]. split; [exact T|].
        intros H. destruct (F H) as (E & Hs & Hall). split; [exact E|]. split; [exact Hs|].
        intros p [<-|Hp]; [|apply Hall, Hp]. cbn [fst snd].
        rewrite <- (Hf Hs). exact Himp.
Qed.

(** One sweep of 2-opt. *)
Lemma twoOptSweep_spec sq :
  let res := twoOptSweep cost sq in
  rearranges sq (fst res) /\ (cost (fst res) <= cost sq)%Q /\
  (snd res = true -> (cost (fst res) + tolerance < cost sq)%Q) /\
  (snd res = false ->
     fst res = sq /\
     forall i k, (1 <= i)%nat -> (i < k)%nat -> (k + 1 < length sq)%nat ->
       (cost sq <= cost (reverseSegment i k sq) + tolerance)%Q).
Proof.
  cbv zeta.
  destruct (sweep_fold sq (sweepPairs (length sq)) (sq, false)) as (R & C & T & F);
    cbn [fst snd].
  - intros i k H. apply sweepPairs_spec, H.
  - apply rearranges_refl.
  - apply Qle_refl.
  - discriminate.
  - reflexivity.
  - change (fold_left sweepStep (sweepPairs (length sq)) (sq, false))
      with (twoOptSweep cost sq) in *.
    split; [exact R|]. split; [exact C|]. split; [exact T|].
    intros H. destruct (F H) as (E & _ & Hall). split; [exact E|].
    intros i k Hi Hik Hk. apply improves_false.
    apply (Hall (i, k)). apply sweepPairs_spec. lia.
Qed.


(** The result of the 2-opt loop. *)
Lemma twoOpt_spec fuel : forall sq res,
  twoOpt fuel cost sq = Some res ->
  rearranges sq res /\ (cost res <= cost sq)%Q /\
  forall i k, (1 <= i)%nat -> (i < k)%nat -> (k + 1 < length res)%nat ->
    (cost res <= cost (reverseSegment i k res) + tolerance)%Q.
Proof.
  induction fuel as [|fuel IH]; intros sq res H; simpl in H; [discriminate|].
  pose proof (twoOptSweep_spec sq) as (R & C & T & F). cbv zeta in *.
  destruct (twoOptSweep cost sq) as [sq' improved]. cbn [fst snd] in *.
  destruct improved.
  - apply IH in H as (R' & C' & O'). split; [eapply rearranges_trans; eassumption|].
    split; [eapply Qle_trans; eassumption|exact O'].
  - injection H as <-. destruct (F eq_refl) as (-> & Hopt).
    split; [exact R|]. split; [exact C|exact Hopt].
Qed.

(** More fuel changes nothing. *)
Lemma twoOpt_fuel_mono fuel : forall sq res fuel',
  twoOpt fuel cost sq = Some res -> (fuel <= fuel')%nat -> twoOpt fuel' cost sq = Some res.
Proof.
  induction fuel as [|fuel IH]; intros sq res fuel' H Hle; simpl in H; [discriminate|].
  destruct fuel' as [|fuel']; [lia|]. simpl.
  destruct (twoOptSweep cost sq) as [sq' improved]. destruct improved; [|exact H].
  eapply IH; [exact H|lia].
Qed.

Hypothesis cost_nonneg : forall sq, (0 <= cost sq)%Q.

(** The loop ends: every sweep that goes on shortens the sequence by more
    than the tolerance. *)
Lemma twoOpt_terminates fuel : forall sq,
  (cost sq < inject_Z (Z.of_nat fuel) * tolerance)%Q ->
  exists res, twoOpt fuel cost sq = Some res.
Proof.
  induction fuel as [|fuel IH]; intros sq Hlt.
  - exfalso. simpl in Hlt. pose proof (cost_nonneg sq).
    rewrite Qmult_0_l in Hlt. apply (Qlt_irrefl 0). eapply Qle_lt_trans; eassumption.
  - simpl. pose proof (twoOptSweep_spec sq) as (_ & _ & T & _). cbv zeta in T.
    destruct (twoOptSweep cost sq) as [sq' improved]. cbn [fst snd] in T.
    destruct improved; [|eauto].
    apply IH. specialize (T eq_refl).
    rewrite Nat2Z.inj_succ, <- Z.add_1_r, inject_Z_plus in Hlt.
    change (inject_Z 1) with 1%Q in Hlt.
    assert (H : (cost sq' + tolerance < inject_Z (Z.of_nat fuel) * tolerance + tolerance)%Q).
    { eapply Qlt_trans; [exact T|]. eapply Qlt_le_trans; [exact Hlt|].
      rewrite Qmult_plus_distr_l, Qmult_1_l. apply Qle_refl. }
    apply Qplus_lt_l in H. exact H.
Qed.

Lemma sweepBound_suffices sq fuel :
  (sweepBound cost sq <= fuel)%nat -> exists res, twoOpt fuel cost sq = Some res.
Proof.
  intros Hle.
  destruct (twoOpt_terminates (sweepBound cost sq) sq) as (res & Hres).
  - unfold sweepBound.
    assert (Hc : (0 <= Qceiling (cost sq / tolerance))%Z).
    { rewrite <- (Qceiling_Z 0). apply Qceiling_resp_le.
      apply Qle_shift_div_l; [reflexivity|]. rewrite Qmult_0_l. apply cost_nonneg. }
    rewrite Nat2Z.inj_succ, Z2Nat.id by exact Hc.
    rewrite <- Z.add_1_r, inject_Z_plus.
    assert (E : (cost sq == (cost sq / tolerance) * tolerance)%Q)
      by (field; discriminate).
    rewrite E at 1. apply Qmult_lt_r; [reflexivity|].
    eapply Qle_lt_trans; [apply Qle_ceiling|].
    rewrite <- (Qplus_0_r (inject_Z (Qceiling (cost sq / tolerance)))) at 1.
    apply Qplus_lt_r. reflexivity.
  - exists res. eapply twoOpt_fuel_mono; eassumption.
Qed.


(** A sequence no longer than [sq] that rearranges it. *)
Let improvement (sq cur : list Stop) : Prop :=
  rearranges sq cur /\ (cost cur <= cost sq)%Q.

Lemma improvement_refl sq : improvement sq sq.
Proof. split; [apply rearranges_refl|apply Qle_refl]. Qed.

Lemma improvement_trans a b c : improvement a b -> improvement b c -> improvement a c.
Proof.
  intros (R1 & C1) (R2 & C2). split; [eapply rearranges_trans; eassumption|].
  eapply Qle_trans; eassumption.
Qed.

Lemma reinsert_rearranges sq len i j :
  (1 <= i)%nat -> (i + len < length sq)%nat -> (1 <= j)%nat ->
  (j < length (take i sq ++ drop (i + len) sq))%nat ->
  rearranges sq (take j (take i sq ++ drop (i + len) sq)
                 ++ slice i (i + len) sq
                 ++ drop j (take i sq ++ drop (i + len) sq)).
Proof.
  intros Hi Hlen Hj Hjr. set (rem := take i sq ++ drop (i + len) sq) in *.
  assert (Hsq : sq <> []) by (intros ->; simpl in Hlen; lia).
  assert (Hrem : rem <> []) by (intros E; rewrite E in Hjr; simpl in Hjr; lia).
  split; [|split].
  - transitivity (slice i (i + len) sq ++ rem).
    + rewrite <- (take_drop j rem) at 3.
      rewrite (app_assoc (slice i (i + len) sq)).
      rewrite (Permutation_app_comm (slice i (i + len) sq) (take j rem)).
      rewrite <- app_assoc. reflexivity.
    + unfold rem, slice. replace (i + len - i)%nat with len by lia.
      rewrite app_assoc, (Permutation_app_comm (take len (drop i sq)) (take i sq)).
      rewrite <- app_assoc.
      replace (drop (i + len) sq) with (drop len (drop i sq)) by (apply drop_drop).
      rewrite take_drop, take_drop. reflexivity.
  - rewrite head_take_app by assumption. unfold rem. apply head_take_app; assumption.
  - rewrite app_assoc, last_app_drop by exact Hjr. unfold rem. apply last_app_drop. lia.
Qed.

Lemma orOptAt_spec len i sq :
  (1 <= i)%nat -> (i + len < length sq)%nat ->
  improvement sq (orOptAt cost len i sq).
Proof.
  intros Hi Hlen. unfold orOptAt. cbv zeta.
  set (rem := take i sq ++ drop (i + len) sq).
  set (seg := slice i (i + len) sq).
  assert (Hgen : forall js cur,
            (forall j, In j js -> (1 <= j)%nat /\ (j < length rem)%nat) ->
            improvement sq cur ->
            improvement sq
              (fold_left
                 (fun cur j =>
                    let newSeq := take j rem ++ seg ++ drop j rem in
                    if improves (cost newSeq) (cost cur) then newSeq else cur)
                 js cur)).
  { induction js as [|j js IH]; intros cur Hjs Hcur; simpl; [exact Hcur|].
    apply IH; [intros j' Hj'; apply Hjs; now right|].
    destruct (Hjs j (or_introl eq_refl)) as (Hj1 & Hj2).
    destruct (improves (cost (take j rem ++ seg ++ drop j rem)) (cost cur)) eqn:Himp;
      [|exact Hcur].
    apply improves_true in Himp. split.
    - apply reinsert_rearranges; assumption.
    - eapply Qle_trans; [apply tolerance_nonneg|].
      eapply Qle_trans; [apply Qlt_le_weak, Himp|apply Hcur]. }
  apply Hgen; [|apply improvement_refl].
  intros j Hj. apply in_seq in Hj. lia.
Qed.

Lemma orOpt_spec sq : improvement sq (orOpt cost sq).
Proof.
  unfold orOpt.
  assert (Hinner : forall len is_ cur,
            (forall i, In i is_ -> (1 <= i)%nat /\ (i + len < length sq)%nat) ->
            improvement sq cur ->
            improvement sq (fold_left (fun cur' i => orOptAt cost len i cur') is_ cur)).
  { intros len is_. induction is_ as [|i is_ IH]; intros cur His Hcur; simpl; [exact Hcur|].
    apply IH; [intros i' Hi'; apply His; now right|].
    destruct (His i (or_introl eq_refl)) as (Hi1 & Hi2).
    eapply improvement_trans; [exact Hcur|]. apply orOptAt_spec; [exact Hi1|].
    rewrite (rearranges_length sq cur) by apply Hcur. exact Hi2. }
  assert (Houter : forall lens cur,
            improvement sq cur ->
            improvement sq
              (fold_left
                 (fun cur len =>
                    fold_left (fun cur' i => orOptAt cost len i cur')
                              (seq 1 (length sq - len - 1 - 1)) cur)
                 lens cur)).
  { induction lens as [|len lens IH]; intros cur Hcur; simpl; [exact Hcur|].
    apply IH, Hinner; [|exact Hcur]. intros i Hi. apply in_seq in Hi. lia. }
  apply Houter, improvement_refl.
Qed.


(** Every candidate of a triple rearranges the sequence. *)
Lemma candidates_rearrange sq i j k c :
  (1 <= i)%nat -> (i < j)%nat -> (j < k)%nat -> (k + 2 <= length sq)%nat ->
  In c (candidates (slice 0 i sq) (slice i j sq) (slice j k sq) (drop k sq)) ->
  rearranges sq c.
Proof.
  intros Hi Hij Hjk Hk Hc. rewrite candidates_evaluated in Hc.
  assert (HA : slice 0 i sq = take i sq) by (unfold slice; rewrite Nat.sub_0_r, drop_0; reflexivity).
  assert (HBC : slice i j sq ++ slice j k sq = take (k - i) (drop i sq)).
  { unfold slice. replace (drop j sq) with (drop (j - i) (drop i sq))
      by (rewrite drop_drop; f_equal; lia).
    rewrite take_take_drop. f_equal. lia. }
  assert (Hmid : forall mid, Permutation mid (slice i j sq ++ slice j k sq) ->
                             rearranges sq (slice 0 i sq ++ mid ++ drop k sq)).
  { intros mid Hp. rewrite HA. apply middle_rearranges; [lia|lia|lia|].
    rewrite Hp, HBC. reflexivity. }
  set (B := slice i j sq) in *. set (C := slice j k sq) in *.
  simpl in Hc.
  destruct Hc as [<-|[<-|[<-|[<-|[<-|[<-|[]]]]]]];
    rewrite ?(app_assoc _ _ (drop k sq)); rewrite <- ?app_assoc;
    repeat match goal with
    | |- rearranges sq (slice 0 i sq ++ ?x ++ ?y ++ drop k sq) =>
        rewrite (app_assoc x y (drop k sq)); apply Hmid
    end.
  - reflexivity.
  - apply Permutation_app_tail. symmetry. apply Permutation_rev.
  - apply Permutation_app; symmetry; apply Permutation_rev.
  - etransitivity; [apply Permutation_app_comm|].
    apply Permutation_app; symmetry; apply Permutation_rev.
  - etransitivity; [apply Permutation_app_comm|].
    apply Permutation_app_tail. symmetry. apply Permutation_rev.
  - apply Permutation_app_head. symmetry. apply Permutation_rev.
Qed.

Lemma threeOptOnce_spec sq res :
  threeOptOnce cost sq = Some res ->
  rearranges sq res /\ (cost res + tolerance < cost sq)%Q.
Proof.
  unfold threeOptOnce.
  assert (Hgen : forall ts acc,
            (forall t, In t ts -> In t (triples (length sq))) ->
            (forall r, acc = Some r -> rearranges sq r /\ (cost r + tolerance < cost sq)%Q) ->
            forall r,
              fold_left (fun acc t => match acc with
                                      | Some _ => acc
                                      | None => tryTriple cost sq t
                                      end) ts acc = Some r ->
              rearranges sq r /\ (cost r + tolerance < cost sq)%Q).
  { induction ts as [|t ts IH]; intros acc Hts Hacc r; simpl; [apply Hacc|].
    apply IH; [intros t' Ht'; apply Hts; now right|].
    destruct acc as [a|]; [exact Hacc|].
    intros r' Hr'. destruct t as [[i j] k].
    pose proof (Hts _ (or_introl eq_refl)) as Ht. apply triples_spec in Ht as (Hi & Hij & Hjk & Hk).
    unfold tryTriple in Hr'.
    pose proof (pickBest_spec cost sq
                  (candidates (slice 0 i sq) (slice i j sq) (slice j k sq) (drop k sq))) as Hp.
    rewrite Hr' in Hp. destruct Hp as (Hin & Hlt & _).
    split; [eapply candidates_rearrange; eassumption|exact Hlt]. }
  intros H. apply (Hgen (triples (length sq)) None); [auto|discriminate|exact H].
Qed.

End LocalSearchFacts.

Section RouteLengthFacts.
Import ThreeOpt.

Lemma fold_left_pointwise {A B} (f g : A -> B -> A) (l : list B) : forall a,
  (forall a b, In b l -> f a b = g a b) -> fold_left f l a = fold_left g l a.
Proof.
  induction l as [|b l IH]; intros a H; simpl; [reflexivity|].
  rewrite (H a b) by (now left). apply IH. intros a' b' Hb'. apply H. now right.
Qed.

(** The length of a sequence does not depend on the [order] fields. *)
Lemma sumLegs_renumber leg sts :
  (forall a b i j, leg (setOrder a i) (setOrder b j) = leg a b) ->
  sumLegs leg (renumber sts) = sumLegs leg sts.
Proof.
  intros Hleg. unfold sumLegs, renumber. rewrite length_imap.
  apply fold_left_pointwise. intros dist k _.
  rewrite !list_lookup_imap.
  destruct (sts !! k), (sts !! S k); simpl; try reflexivity.
  rewrite Hleg. reflexivity.
Qed.

Lemma calcDist_renumber calc distances sq :
  calcDist calc distances (renumber sq) = calcDist calc distances sq.
Proof. apply sumLegs_renumber. reflexivity. Qed.

Lemma sumLegs_nonneg leg sts :
  (forall a b, (0 <= leg a b)%Q) -> (0 <= sumLegs leg sts)%Q.
Proof.
  intros Hleg. unfold sumLegs. generalize (seq 0 (length sts - 1)).
  assert (H : forall ks acc, (0 <= acc)%Q ->
            (0 <= fold_left (fun dist k => match sts !! k, sts !! S k with
                                           | Some from, Some to => dist + leg from to
                                           | _, _ => dist
                                           end) ks acc)%Q).
  { induction ks as [|k ks IH]; intros acc Hacc; simpl; [exact Hacc|].
    apply IH. destruct (sts !! k), (sts !! S k); try exact Hacc.
    rewrite <- (Qplus_0_r 0). apply Qplus_le_compat; [exact Hacc|apply Hleg]. }
  intros ks. apply H. apply Qle_refl.
Qed.

(** What a lookup in a map filled by insertions can find. *)
Lemma fold_insert_lookup_inv {V} (f : Location -> V) (ls : list Location) :
  forall (m : gmap string V) k v,
    fold_left (fun m x => <[loc_id x := f x]> m) ls m !! k = Some v ->
    m !! k = Some v \/ exists x, In x ls /\ v = f x.
Proof.
  induction ls as [|x ls IH]; intros m k v H; simpl in H; [now left|].
  apply IH in H as [H|(y & Hy & ->)].
  - destruct (decide (loc_id x = k)) as [<-|Hne].
    + rewrite lookup_insert_eq in H. injection H as <-. right. exists x. split; [now left|reflexivity].
    + rewrite lookup_insert_ne in H by exact Hne. now left.
  - right. exists y. split; [now right|reflexivity].
Qed.

Lemma matrixEntry_kernel calc locations a b d :
  matrixEntry (buildDistances calc locations) a b = Some d ->
  exists l1 l2, In l1 locations /\ In l2 locations /\
    d = calc (loc_latitude l1) (loc_longitude l1) (loc_latitude l2) (loc_longitude l2).
Proof.
  unfold matrixEntry, buildDistances. intros H.
  destruct (fold_left _ locations ∅ !! a) as [row|] eqn:Hrow; [|discriminate].
  apply fold_insert_lookup_inv in Hrow as [Hrow|(l1 & H1 & ->)];
    [rewrite lookup_empty in Hrow; discriminate|].
  unfold buildRow in H.
  apply fold_insert_lookup_inv in H as [H|(l2 & H2 & ->)];
    [rewrite lookup_empty in H; discriminate|].
  eauto.
Qed.

Lemma calcDist_nonneg calc locations sq :
  (forall lat1 lon1 lat2 lon2, (0 <= calc lat1 lon1 lat2 lon2)%Q) ->
  (0 <= calcDist calc (buildDistances calc locations) sq)%Q.
Proof.
  intros Hk. apply sumLegs_nonneg. intros a b. unfold legNullish.
  destruct (matrixEntry _ _ _) as [d|] eqn:E; [|apply Hk].
  apply matrixEntry_kernel in E as (l1 & l2 & _ & _ & ->). apply Hk.
Qed.

Lemma sweepBound_mono cost a b :
  (cost a <= cost b)%Q -> (sweepBound cost a <= sweepBound cost b)%nat.
Proof.
  intros H. unfold sweepBound.
  assert (Hc : (Qceiling (cost a / tolerance) <= Qceiling (cost b / tolerance))%Z).
  { apply Qceiling_resp_le. unfold Qdiv.
    apply Qmult_le_compat_r; [exact H|discriminate]. }
  lia.
Qed.

Lemma taxicab_nonneg lat1 lon1 lat2 lon2 : (0 <= taxicab lat1 lon1 lat2 lon2)%Q.
Proof.
  unfold taxicab. destruct lat1, lon1, lat2, lon2; try apply Qle_refl.
  rewrite <- (Qplus_0_r 0). apply Qplus_le_compat; apply Qabs_nonneg.
Qed.

End RouteLengthFacts.

Section LocalSearchTheorems.
Import LocalSearch ThreeOpt.

(** X10. The 2-opt loop of both local searches ends when no sequence has a
    negative length, and leaves a local optimum: the result holds the same
    stops with the first and the last in place, is no longer than the
    sequence it started from, and no reversal of a segment between its ends
    shortens it by more than 1e-9. *)
Theorem twoOpt_reaches_local_optimum (cost : list Stop -> Q) (sq : list Stop) :
  (forall s, (0 <= cost s)%Q) ->
  exists fuel0 res,
    (forall fuel, (fuel0 <= fuel)%nat -> twoOpt fuel cost sq = Some res) /\
    rearranges sq res /\ (cost res <= cost sq)%Q /\
    forall i k, (1 <= i)%nat -> (i < k)%nat -> (k + 1 < length res)%nat ->
      (cost res <= cost (reverseSegment i k res) + tolerance)%Q.
Proof.
  intros Hnn.
  destruct (sweepBound_suffices cost Hnn sq (sweepBound cost sq) (Nat.le_refl _))
    as (res & Hres).
  exists (sweepBound cost sq), res. split.
  - intros fuel Hle. eapply twoOpt_fuel_mono; eassumption.
  - apply (twoOpt_spec cost _ _ _ Hres).
Qed.

Variables (calc : DistanceKernel) (locations : list Location) (speedKmh : Q).

Hypothesis kernel_nonneg : forall lat1 lon1 lat2 lon2, (0 <= calc lat1 lon1 lat2 lon2)%Q.

Let distances := buildDistances calc locations.
Let cost := calcDist calc distances.

Lemma cost_nonneg_here : forall s, (0 <= cost s)%Q.
Proof. intros s. apply calcDist_nonneg, kernel_nonneg. Qed.

(** What both local searches return for a sequence [sq'] they end on. *)
Lemma rebuilt_route route sq' :
  rearranges (stops route) sq' -> (cost sq' <= cost (stops route))%Q ->
  let route' :=
    recomputeRouteMetrics calc distances speedKmh (setStops route (renumber sq')) in
  vehicle route' = vehicle route /\ totalCapacity route' = totalCapacity route /\
  exists sq', rearranges (stops route) sq' /\ stops route' = renumber sq' /\
    ordersMatch route' /\ (distance route' == cost sq')%Q /\
    (distance route' <= cost (stops route))%Q.
Proof.
  intros Hr Hc route'. split; [reflexivity|]. split; [reflexivity|].
  exists sq'. split; [exact Hr|]. split; [reflexivity|].
  assert (Hd : distance route' = cost sq').
  { unfold route', recomputeRouteMetrics. simpl. apply calcDist_renumber. }
  split; [apply renumber_ordersMatch|]. rewrite Hd. split; [reflexivity|exact Hc].
Qed.

(** [enhancedLocalSearch] with enough fuel, for the whole-algorithm proofs. *)
Lemma enhancedLocalSearch_searched route :
  exists fuel0 route',
    (forall fuel, (fuel0 <= fuel)%nat ->
       enhancedLocalSearch fuel calc distances speedKmh route = Some route') /\
    searched route route'.
Proof.
  unfold enhancedLocalSearch.
  destruct (Nat.ltb_spec (length (stops route)) 4) as [Hlt|Hge].
  - exists 0%nat, route. split; [reflexivity|].
    split; [reflexivity|]. split; [reflexivity|]. split; [reflexivity|now left].
  - destruct (sweepBound_suffices cost cost_nonneg_here (stops route) _ (Nat.le_refl _))
      as (sq & Hsq).
    destruct (twoOpt_spec cost _ _ _ Hsq) as (R1 & _).
    destruct (orOpt_spec cost sq) as (R2 & _).
    eexists (sweepBound cost (stops route)), _. split.
    + intros fuel Hle. fold cost. rewrite (twoOpt_fuel_mono cost _ _ _ _ Hsq Hle). reflexivity.
    + split; [reflexivity|]. split; [reflexivity|]. split; [reflexivity|].
      right. exists (orOpt cost sq). split; [|reflexivity].
      eapply rearranges_trans; eassumption.
Qed.

(** X11. [enhancedLocalSearch] ends when the kernel yields no negative
    distance. It leaves a route of fewer than four stops as it is; otherwise
    it returns the route with the same stops, the first and the last in
    place, renumbered 0, 1, 2, ..., with the same vehicle and load, and with
    a [distance] that is the length of the new sequence and not above the
    length of the old one. *)
Theorem enhancedLocalSearch_result (route : Route) :
  exists fuel0 route',
    (forall fuel, (fuel0 <= fuel)%nat ->
       enhancedLocalSearch fuel calc distances speedKmh route = Some route') /\
    vehicle route' = vehicle route /\ totalCapacity route' = totalCapacity route /\
    ((length (stops route) < 4)%nat -> route' = route) /\
    ((4 <= length (stops route))%nat ->
     exists sq', rearranges (stops route) sq' /\ stops route' = renumber sq' /\
       ordersMatch route' /\ (distance route' == cost sq')%Q /\
       (distance route' <= cost (stops route))%Q).
Proof.
  unfold enhancedLocalSearch.
  destruct (Nat.ltb_spec (length (stops route)) 4) as [Hlt|Hge].
  - exists 0%nat, route. split; [reflexivity|]. split; [reflexivity|]. split; [reflexivity|].
    split; [reflexivity|lia].
  - destruct (sweepBound_suffices cost cost_nonneg_here (stops route) _ (Nat.le_refl _))
      as (sq & Hsq).
    destruct (twoOpt_spec cost _ _ _ Hsq) as (R1 & C1 & _).
    destruct (orOpt_spec cost sq) as (R2 & C2).
    assert (R : rearranges (stops route) (orOpt cost sq))
      by (eapply rearranges_trans; eassumption).
    assert (C : (cost (orOpt cost sq) <= cost (stops route))%Q)
      by (eapply Qle_trans; eassumption).
    destruct (rebuilt_route route _ R C) as (Hv & Ht & Hrest).
    eexists (sweepBound cost (stops route)), _. split.
    + intros fuel Hle. fold cost. rewrite (twoOpt_fuel_mono cost _ _ _ _ Hsq Hle). reflexivity.
    + split; [exact Hv|]. split; [exact Ht|]. split; [lia|]. intros _. exact Hrest.
Qed.

(** X12. [improveRouteWithLocalSearch] (2-opt, one 3-opt pass, 2-opt again)
    ends when the kernel yields no negative distance. It leaves a route of
    fewer than three stops as it is; otherwise it returns the route with the
    same stops, the first and the last in place, renumbered 0, 1, 2, ...,
    with the same vehicle and load, and with a [distance] that is the length
    of the new sequence and not above the length of the old one. *)
Theorem improveRouteWithLocalSearch_result (route : Route) :
  exists fuel0 route',
    (forall fuel, (fuel0 <= fuel)%nat ->
       improveRouteWithLocalSearch fuel calc distances speedKmh route = Some route') /\
    vehicle route' = vehicle route /\ totalCapacity route' = totalCapacity route /\
    ((length (stops route) < 3)%nat -> route' = route) /\
    ((3 <= length (stops route))%nat ->
     exists sq', rearranges (stops route) sq' /\ stops route' = renumber sq' /\
       ordersMatch route' /\ (distance route' == cost sq')%Q /\
       (distance route' <= cost (stops route))%Q).
Proof.
  unfold improveRouteWithLocalSearch.
  destruct (Nat.ltb_spec (length (stops route)) 3) as [Hlt|Hge].
  - exists 0%nat, route. split; [reflexivity|]. split; [reflexivity|]. split; [reflexivity|].
    split; [reflexivity|lia].
  - cbv zeta. fold cost.
    destruct (sweepBound_suffices cost cost_nonneg_here (stops route) _ (Nat.le_refl _))
      as (sq & Hsq).
    destruct (twoOpt_spec cost _ _ _ Hsq) as (R1 & C1 & _).
    destruct (threeOptOnce cost sq) as [sq3|] eqn:H3.
    + pose proof H3 as E3. apply threeOptOnce_spec in H3 as (R3 & C3).
      assert (C3' : (cost sq3 <= cost sq)%Q).
      { eapply Qle_trans; [apply tolerance_nonneg|apply Qlt_le_weak, C3]. }
      assert (Hb : (sweepBound cost sq3 <= sweepBound cost (stops route))%nat).
      { apply sweepBound_mono. eapply Qle_trans; eassumption. }
      destruct (sweepBound_suffices cost cost_nonneg_here sq3 _ Hb) as (sq' & Hsq').
      destruct (twoOpt_spec cost _ _ _ Hsq') as (R4 & C4 & _).
      assert (R : rearranges (stops route) sq').
      { eapply rearranges_trans; [exact R1|]. eapply rearranges_trans; eassumption. }
      assert (C : (cost sq' <= cost (stops route))%Q).
      { eapply Qle_trans; [exact C4|]. eapply Qle_trans; eassumption. }
      destruct (rebuilt_route route _ R C) as (Hv & Ht & Hrest).
      eexists (sweepBound cost (stops route)), _. split.
      * intros fuel Hle. rewrite (twoOpt_fuel_mono cost _ _ _ _ Hsq Hle), E3,
          (twoOpt_fuel_mono cost _ _ _ _ Hsq' Hle). reflexivity.
      * split; [exact Hv|]. split; [exact Ht|]. split; [lia|]. intros _. exact Hrest.
    + destruct (rebuilt_route route _ R1 C1) as (Hv & Ht & Hrest).
      eexists (sweepBound cost (stops route)), _. split.
      * intros fuel Hle. rewrite (twoOpt_fuel_mono cost _ _ _ _ Hsq Hle), H3. reflexivity.
      * split; [exact Hv|]. split; [exact Ht|]. split; [lia|]. intros _. exact Hrest.
Qed.

End LocalSearchTheorems.

Lemma twoOpt_reaches_local_optimum_witness :
  exists fuel0 res,
    (forall fuel, (fuel0 <= fuel)%nat ->
       LocalSearch.twoOpt fuel (calcDist taxicab gridDistances) gridTour = Some res) /\
    rearranges gridTour res /\
    (calcDist taxicab gridDistances res <= calcDist taxicab gridDistances gridTour)%Q /\
    forall i k, (1 <= i)%nat -> (i < k)%nat -> (k + 1 < length res)%nat ->
      (calcDist taxicab gridDistances res
       <= calcDist taxicab gridDistances (LocalSearch.reverseSegment i k res)
          + ThreeOpt.tolerance)%Q.
Proof.
  apply (twoOpt_reaches_local_optimum (calcDist taxicab gridDistances) gridTour).
  intros s. apply calcDist_nonneg, taxicab_nonneg.
Defined.

Lemma enhancedLocalSearch_result_witness :
  exists fuel0 route',
    (forall fuel, (fuel0 <= fuel)%nat ->
       LocalSearch.enhancedLocalSearch fuel taxicab (buildDistances taxicab gridLocations)
         SPEED_KMH gridRoute = Some route') /\
    vehicle route' = vehicle gridRoute /\ totalCapacity route' = totalCapacity gridRoute /\
    ((length (stops gridRoute) < 4)%nat -> route' = gridRoute) /\
    ((4 <= length (stops gridRoute))%nat ->
     exists sq', rearranges (stops gridRoute) sq' /\ stops route' = renumber sq' /\
       ordersMatch route' /\
       (distance route' == calcDist taxicab (buildDistances taxicab gridLocations) sq')%Q /\
       (distance route'
        <= calcDist taxicab (buildDistances taxicab gridLocations) (stops gridRoute))%Q).
Proof.
  apply (enhancedLocalSearch_result taxicab gridLocations SPEED_KMH taxicab_nonneg gridRoute).
Defined.

Lemma improveRouteWithLocalSearch_result_witness :
  exists fuel0 route',
    (forall fuel, (fuel0 <= fuel)%nat ->
       improveRouteWithLocalSearch fuel taxicab (buildDistances taxicab gridLocations)
         SPEED_KMH gridRoute = Some route') /\
    vehicle route' = vehicle gridRoute /\ totalCapacity route' = totalCapacity gridRoute /\
    ((length (stops gridRoute) < 3)%nat -> route' = gridRoute) /\
    ((3 <= length (stops gridRoute))%nat ->
     exists sq', rearranges (stops gridRoute) sq' /\ stops route' = renumber sq' /\
       ordersMatch route' /\
       (distance route' == calcDist taxicab (buildDistances taxicab gridLocations) sq')%Q /\
       (distance route'
        <= calcDist taxicab (buildDistances taxicab gridLocations) (stops gridRoute))%Q).
Proof.
  apply (improveRouteWithLocalSearch_result taxicab gridLocations SPEED_KMH taxicab_nonneg
           gridRoute).
Defined.

Example improveRouteWithLocalSearch_grid :
  option_map (fun r => (map locationId (stops r), map order (stops r), distance r))
    (improveRouteWithLocalSearch 5 taxicab gridDistances SPEED_KMH gridRoute)
  = Some (["D"; "P1"; "P2"; "P3"; "P4"; "D"], [0; 1; 2; 3; 4; 5]%nat, 10%Q).
Proof. vm_compute. reflexivity. Qed.

(** ** Enhanced Clarke-Wright as a whole *)

(** A route that is not flagged and respects the invariant is within the
    capacity of its vehicle. *)
Lemma unflagged_within vehicles r :
  capacityExceeded r = None -> Assign.capacityRespected vehicles r ->
  forall vid, vehicle r = Some vid ->
    exists v, In v vehicles /\ veh_id v = vid /\ totalCapacity r <= capacity v.
Proof.
  intros Hc Hcap vid Hvid. destruct (Hcap vid Hvid) as [Hex|Hfit]; [congruence|exact Hfit].
Qed.

Section SearchedFacts.
Import ClarkeWright.

Lemma map_locationId_renumber sts : map locationId (renumber sts) = map locationId sts.
Proof.
  unfold renumber. change (map locationId) with (fmap (M := list) locationId).
  rewrite fmap_imap. apply imap_const.
Qed.

Lemma filter_perm {A} (p : A -> bool) (l l' : list A) :
  Permutation l l' -> Permutation (List.filter p l) (List.filter p l').
Proof.
  induction 1 as [|x l l' _ IH|x y l|l l' l'' _ IH1 _ IH2]; simpl.
  - reflexivity.
  - destruct (p x); [apply perm_skip|]; exact IH.
  - destruct (p x), (p y); try reflexivity. apply perm_swap.
  - etransitivity; eassumption.
Qed.

Lemma searched_served d r r' :
  searched r r' -> Permutation (servedIds d [r']) (servedIds d [r]).
Proof.
  intros (_ & _ & _ & [->|(sq' & (Hp & _) & Hs)]); [reflexivity|].
  unfold servedIds. simpl. rewrite !app_nil_r, Hs, map_locationId_renumber.
  apply filter_perm, Permutation_map, Hp.
Qed.

(** What lies between the ends of a rearranged sequence is a permutation of
    what lay there. *)
Lemma rearranges_interior sq sq' :
  rearranges sq sq' -> Permutation (interior sq') (interior sq).
Proof.
  intros (Hp & Hh & Hl).
  destruct sq as [|a sq].
  { apply Permutation_sym, Permutation_nil in Hp. subst sq'. reflexivity. }
  destruct sq' as [|a' sq']; [apply Permutation_nil in Hp; discriminate|].
  simpl in Hh. injection Hh as ->.
  apply Permutation_cons_inv in Hp.
  unfold interior. simpl drop. rewrite !drop_0.
  destruct sq as [|b sq].
  { apply Permutation_sym, Permutation_nil in Hp. subst sq'. reflexivity. }
  destruct sq' as [|b' sq']; [apply Permutation_nil in Hp; discriminate|].
  destruct (exists_last (l := b :: sq)) as (m & l & E); [discriminate|].
  destruct (exists_last (l := b' :: sq')) as (m' & l' & E'); [discriminate|].
  rewrite E, E' in *. rewrite !removelast_last.
  assert (l' = l).
  { rewrite !app_comm_cons, !last_snoc in Hl. congruence. }
  subst l'. eapply Permutation_app_inv_r, Hp.
Qed.


Lemma sum_perm (l l' : list Z) :
  Permutation l l' -> fold_right Z.add 0 l = fold_right Z.add 0 l'.
Proof.
  induction 1 as [|x l l' _ IH|x y l|l l' l'' _ IH1 _ IH2]; simpl; lia.
Qed.

Lemma searched_demand r r' : searched r r' -> demandOf (stops r') = demandOf (stops r).
Proof.
  intros (_ & _ & _ & [->|(sq' & Hr & Hs)]); [reflexivity|].
  rewrite Hs, demandOf_renumber. unfold demandOf.
  apply sum_perm, Permutation_map, rearranges_interior, Hr.
Qed.

Lemma searched_orders r r' : searched r r' -> ordersMatch r -> ordersMatch r'.
Proof.
  intros (_ & _ & _ & [->|(sq' & _ & Hs)]) Ho; [exact Ho|].
  unfold ordersMatch. rewrite Hs. unfold renumber at 2. rewrite length_imap.
  apply map_order_renumber.
Qed.

Lemma Forall2_searched_served d l l' :
  Forall2 searched l l' -> Permutation (servedIds d l') (servedIds d l).
Proof.
  induction 1 as [|r r' l l' Hr _ IH]; [reflexivity|].
  change (r' :: l') with ([r'] ++ l'). change (r :: l) with ([r] ++ l).
  rewrite !servedIds_app. apply Permutation_app; [apply searched_served, Hr|exact IH].
Qed.

Lemma Forall2_In_r {A B} (R : A -> B -> Prop) l l' b :
  Forall2 R l l' -> In b l' -> exists a, In a l /\ R a b.
Proof.
  induction 1 as [|x y l l' Hxy _ IH]; intros Hb; [destruct Hb|].
  destruct Hb as [<-|Hb]; [exists x; split; [now left|exact Hxy]|].
  destruct (IH Hb) as (a & Ha & Hab). exists a. split; [now right|exact Hab].
Qed.

(** A search that succeeds on every route with enough fuel succeeds on all
    of them with enough fuel. *)
Lemma allSome_enough_fuel {A B} (f : nat -> A -> option B) (R : A -> B -> Prop) l :
  (forall a, In a l ->
     exists fuel0 b, (forall fuel, (fuel0 <= fuel)%nat -> f fuel a = Some b) /\ R a b) ->
  exists fuel0 l',
    (forall fuel, (fuel0 <= fuel)%nat -> Tabu.allSome (map (f fuel) l) = Some l') /\
    Forall2 R l l'.
Proof.
  induction l as [|a l IH]; intros H.
  - exists 0%nat, []. split; [reflexivity|constructor].
  - destruct (H a (or_introl eq_refl)) as (fa & b & Hb & Rab).
    destruct IH as (fl & l' & Hl & Rl); [intros x Hx; apply H; now right|].
    exists (Nat.max fa fl), (b :: l'). split; [|constructor; assumption].
    intros fuel Hle. simpl. rewrite Hb by lia. rewrite Hl by lia. reflexivity.
Qed.

End SearchedFacts.

Section EnhancedClarkeWrightTheorems.
Import ClarkeWright.

Variables (calc : DistanceKernel) (score : Location * Location -> Q)
          (vehicles : list Vehicle) (locations : list Location) (depot : Location).

Hypothesis kernel_nonneg : forall lat1 lon1 lat2 lon2, (0 <= calc lat1 lon1 lat2 lon2)%Q.

(** The routes of the enhanced algorithm before its local search: the
    savings phase followed by the best-fit assignment. *)
Let assignedRoutes : list Route :=
  Assign.assignVehiclesToRoutes
    (savingsPhase calc (buildDistances calc locations) SPEED_KMH (maxCapacityOf vehicles)
       (sortedSavings score (nonDepotOf locations depot))
       (initialRoutes (buildDistances calc locations) SPEED_KMH depot
          (nonDepotOf locations depot)))
    vehicles.

Lemma trips_stops (l l' : list Route) :
  map tripOf l = map tripOf l' -> map stops l = map stops l'.
Proof.
  revert l'. induction l as [|r l IH]; intros [|r' l'] H; simpl in *; try discriminate;
    [reflexivity|].
  injection H as E _ _ _ _ H. rewrite E, (IH l' H). reflexivity.
Qed.

Lemma servedIds_stops d (l l' : list Route) :
  map stops l = map stops l' -> servedIds d l = servedIds d l'.
Proof.
  intros H. unfold servedIds. f_equal.
  revert l' H. induction l as [|r l IH]; intros [|r' l'] H; simpl in *; try discriminate;
    [reflexivity|].
  injection H as E H. rewrite E, (IH l' H). reflexivity.
Qed.

Lemma assignedRoutes_facts :
  Permutation (servedIds (loc_id depot) assignedRoutes)
              (map loc_id (nonDepotOf locations depot)) /\
  forall r, In r assignedRoutes ->
    ordersMatch r /\ totalCapacity r = demandOf (stops r) /\
    capacityExceeded r = None /\
    ((3 < length (stops r))%nat -> totalCapacity r <= maxCapacityOf vehicles) /\
    Assign.capacityRespected vehicles r.
Proof.
  set (nonDepot := nonDepotOf locations depot).
  set (distances := buildDistances calc locations).
  set (routes0 := savingsPhase calc distances SPEED_KMH (maxCapacityOf vehicles)
                    (sortedSavings score nonDepot)
                    (initialRoutes distances SPEED_KMH depot nonDepot)).
  assert (Hcust : forall l, In l nonDepot -> loc_id l <> loc_id depot).
  { intros l Hl. apply filter_In in Hl as [_ Hl].
    apply negb_true_iff, String.eqb_neq in Hl. exact Hl. }
  destruct (initialRoutes_partition distances SPEED_KMH depot nonDepot Hcust) as (I1 & I2).
  destruct (savingsPhase_partition calc distances SPEED_KMH (maxCapacityOf vehicles) depot
              nonDepot Hcust (sortedSavings score nonDepot) _ I1) as (S1 & S2).
  fold routes0 in S1, S2. rewrite I2 in S2.
  assert (Htrips : map tripOf assignedRoutes = map tripOf (Assign.sortRoutes routes0)).
  { unfold assignedRoutes, Assign.assignVehiclesToRoutes. fold nonDepot distances routes0.
    rewrite assign_fold_trips. reflexivity. }
  split.
  - rewrite (servedIds_stops _ _ _ (trips_stops _ _ Htrips)), <- S2.
    apply servedIds_perm, sort_by_perm.
  - intros r Hr.
    assert (Hsrc : exists r0, In r0 routes0 /\ tripOf r = tripOf r0).
    { apply (in_map tripOf) in Hr. rewrite Htrips in Hr.
      apply in_map_iff in Hr as (r0 & E & Hr0). apply In_sort_by in Hr0. eauto. }
    destruct Hsrc as (r0 & Hr0 & E). unfold tripOf in E.
    injection E as Es Ed Eu Et Ec.
    destruct (S1 r0 Hr0) as (picked & _ & _ & Hs0 & Hv0 & Hc0).
    assert (G : gated (maxCapacityOf vehicles) r0).
    { eapply savingsPhase_gated; [|exact Hr0]. intros x. apply initialRoutes_gated. }
    destruct G as (_ & Hd & Hcap).
    split; [eapply ordersMatch_tour; rewrite Es; exact Hs0|].
    split; [rewrite Es, Et; exact Hd|]. split; [rewrite Ec; exact Hc0|].
    split; [rewrite Es, Et; intros H; destruct Hcap as [Hcap|Hcap]; [lia|exact Hcap]|].
    revert r Hr Es Ed Eu Et Ec. unfold assignedRoutes, Assign.assignVehiclesToRoutes.
    fold nonDepot distances routes0. intros r Hr _ _ _ _ _.
    eapply assign_fold_respected; [| | |exact Hr]; simpl.
    + intros x [].
    + intros vs Hvs. apply In_sort_by in Hvs. apply expandSlots_from, Hvs.
    + intros x Hx. apply In_sort_by in Hx. destruct (S1 x Hx) as (_ & _ & _ & _ & Hvx & _).
      intros vid Hvid. congruence.
Qed.

(** The local search returns for every route once it has fuel enough, and
    relates what it returns to what it was given. *)
Lemma enhancedClarkeWright_runs :
  exists fuel0 routes,
    (forall fuel, (fuel0 <= fuel)%nat ->
       Tabu.enhancedClarkeWrightAlgorithm fuel calc score vehicles locations depot
       = Some routes) /\
    Forall2 searched assignedRoutes routes.
Proof.
  apply (allSome_enough_fuel
           (fun fuel => LocalSearch.enhancedLocalSearch fuel calc
                          (buildDistances calc locations) SPEED_KMH)
           searched assignedRoutes).
  intros r _. apply enhancedLocalSearch_searched, kernel_nonneg.
Qed.

(** What routes so related to the assigned routes keep of them. *)
Lemma searched_routes_facts routes :
  Forall2 searched assignedRoutes routes ->
  Permutation (servedIds (loc_id depot) routes)
              (map loc_id (nonDepotOf locations depot)) /\
  forall r, In r routes ->
    ordersMatch r /\ totalCapacity r = demandOf (stops r) /\
    capacityExceeded r = None /\
    ((3 < length (stops r))%nat -> totalCapacity r <= maxCapacityOf vehicles) /\
    Assign.capacityRespected vehicles r.
Proof.
  intros Hrel. destruct assignedRoutes_facts as (Hserved & Hroutes). split.
  - rewrite <- Hserved. apply Forall2_searched_served, Hrel.
  - intros r' Hr'. destruct (Forall2_In_r _ _ _ _ Hrel Hr') as (r & Hr & Hs).
    destruct (Hroutes r Hr) as (Ho & Ht & Hc & Hmax & Hcap).
    pose proof (searched_demand _ _ Hs) as Hd.
    destruct Hs as (Ev & Et & Ec & Hst).
    split; [eapply searched_orders; [|exact Ho]; repeat split; eauto|].
    split; [rewrite Et, Hd; exact Ht|]. split; [congruence|]. split.
    + intros Hlen. rewrite Et. apply Hmax.
      destruct Hst as [->|(sq' & Hr2 & Hs2)]; [exact Hlen|].
      rewrite Hs2 in Hlen. unfold renumber in Hlen. rewrite length_imap in Hlen.
      rewrite (rearranges_length _ _ Hr2) in Hlen. exact Hlen.
    + intros vid Hvid. rewrite Ev in Hvid. destruct (Hcap vid Hvid) as [Hex|Hfit].
      * congruence.
      * right. rewrite Et. exact Hfit.
Qed.

(** X13. The Enhanced Clarke-Wright algorithm always returns when the depot
    is one of the locations and the kernel yields no negative distance,
    whatever the score that sorts the savings.
    Its routes serve every non-depot location of the instance and nothing
    else (exactly once each when the ids are distinct); on every route the
    [order] fields read 0, 1, 2, ..., [totalCapacity] is the demand of the
    route's customers, a route of more than one customer stays within the
    largest vehicle capacity, no route is flagged [capacityExceeded], and
    the [totalCapacity] of a route that got a vehicle is at most the
    capacity of a vehicle of the fleet with that id. A route for which no
    free vehicle was large enough is returned without a vehicle. *)
Theorem enhancedClarkeWright_serves_all :
  In depot locations ->
  exists fuel0 routes,
    (forall fuel, (fuel0 <= fuel)%nat ->
       Tabu.enhancedClarkeWrightAlgorithm fuel calc score vehicles locations depot
       = Some routes) /\
    Permutation (servedIds (loc_id depot) routes)
                (map loc_id (nonDepotOf locations depot)) /\
    (NoDup (map loc_id locations) -> servedAtMostOnce (loc_id depot) routes) /\
    forall r, In r routes ->
      ordersMatch r /\ totalCapacity r = demandOf (stops r) /\
      ((3 < length (stops r))%nat -> totalCapacity r <= maxCapacityOf vehicles) /\
      capacityExceeded r = None /\
      (forall vid, vehicle r = Some vid ->
         exists v, In v vehicles /\ veh_id v = vid /\ totalCapacity r <= capacity v).
Proof.
  intros _.
  destruct enhancedClarkeWright_runs as (fuel0 & routes & Hrun & Hrel).
  destruct (searched_routes_facts routes Hrel) as (Hperm & Hroutes).
  exists fuel0, routes. split; [exact Hrun|]. split; [exact Hperm|]. split.
  - intros Hnd. unfold servedAtMostOnce. rewrite Hperm. apply NoDup_map_filter, Hnd.
  - intros r Hr. destruct (Hroutes r Hr) as (Ho & Ht & Hc & Hmax & Hcap).
    split; [exact Ho|]. split; [exact Ht|]. split; [exact Hmax|]. split; [exact Hc|].
    apply (unflagged_within vehicles r Hc Hcap).
Qed.

End EnhancedClarkeWrightTheorems.

Lemma enhancedClarkeWright_serves_all_witness :
  exists fuel0 routes,
    (forall fuel, (fuel0 <= fuel)%nat ->
       Tabu.enhancedClarkeWrightAlgorithm fuel taxicab
         (ClarkeWright.basicSaving (buildDistances taxicab ClarkeWright.instanceS3) depotD)
         ClarkeWright.fleet10 ClarkeWright.instanceS3 depotD
       = Some routes) /\
    Permutation (servedIds (loc_id depotD) routes)
                (map loc_id (ClarkeWright.nonDepotOf ClarkeWright.instanceS3 depotD)) /\
    (NoDup (map loc_id ClarkeWright.instanceS3) ->
     servedAtMostOnce (loc_id depotD) routes) /\
    forall r, In r routes ->
      ordersMatch r /\ totalCapacity r = ClarkeWright.demandOf (stops r) /\
      ((3 < length (stops r))%nat ->
       totalCapacity r <= ClarkeWright.maxCapacityOf ClarkeWright.fleet10) /\
      capacityExceeded r = None /\
      (forall vid, vehicle r = Some vid ->
         exists v, In v ClarkeWright.fleet10 /\ veh_id v = vid /\
                   totalCapacity r <= capacity v).
Proof.
  apply (enhancedClarkeWright_serves_all taxicab
           (ClarkeWright.basicSaving (buildDistances taxicab ClarkeWright.instanceS3) depotD)
           ClarkeWright.fleet10 ClarkeWright.instanceS3 depotD taxicab_nonneg).
  simpl. auto.
Defined.

Example enhancedClarkeWright_S3 :
  option_map (map (fun r => (vehicle r, map locationId (stops r), totalCapacity r)))
    (Tabu.enhancedClarkeWrightAlgorithm 5 taxicab
       (ClarkeWright.basicSaving (buildDistances taxicab ClarkeWright.instanceS3) depotD)
       ClarkeWright.fleet10 ClarkeWright.instanceS3 depotD)
  = Some [(Some "V1", ["D"; "A"; "B"; "D"], 6)].
Proof. vm_compute. reflexivity. Qed.

(** ** Tabu Search and Simulated Annealing *)

Section SwapFacts.
Context {A : Type}.
Implicit Types l : list A.

Lemma insert_perm_one l : forall j (x y : A),
  l !! j = Some y -> Permutation (y :: <[j := x]> l) (x :: l).
Proof.
  induction l as [|a l IH]; intros [|j] x y H; simpl in *; try discriminate.
  - injection H as ->. apply perm_swap.
  - etransitivity; [apply perm_swap|]. etransitivity; [|apply perm_swap].
    apply perm_skip, IH, H.
Qed.

Lemma swapAt_perm i j l : Permutation (Genetic.swapAt i j l) l.
Proof.
  unfold Genetic.swapAt.
  destruct (l !! i) as [x|] eqn:Ei; [|reflexivity].
  destruct (l !! j) as [y|] eqn:Ej; [|reflexivity].
  revert i j Ei Ej. induction l as [|a l IH]; intros [|i] [|j] Ei Ej; simpl in *;
    try discriminate.
  - injection Ei as ->. injection Ej as ->. reflexivity.
  - injection Ei as ->. apply insert_perm_one, Ej.
  - injection Ej as ->. apply insert_perm_one, Ei.
  - apply perm_skip, IH; assumption.
Qed.

Lemma swapAt_length i j l : length (Genetic.swapAt i j l) = length l.
Proof.
  unfold Genetic.swapAt. destruct (l !! i); [|reflexivity].
  destruct (l !! j); [|reflexivity]. rewrite !length_insert. reflexivity.
Qed.

Lemma swapAt_lookup_other i j k l :
  k <> i -> k <> j -> Genetic.swapAt i j l !! k = l !! k.
Proof.
  intros Hi Hj. unfold Genetic.swapAt. destruct (l !! i); [|reflexivity].
  destruct (l !! j); [|reflexivity].
  rewrite !list_lookup_insert_ne by congruence. reflexivity.
Qed.

End SwapFacts.

Section MovedFacts.
Import ClarkeWright.

Lemma moved_refl r : moved r r.
Proof. repeat split; reflexivity. Qed.

Lemma moved_trans r1 r2 r3 : moved r1 r2 -> moved r2 r3 -> moved r1 r3.
Proof.
  intros (V1 & T1 & C1 & R1) (V2 & T2 & C2 & R2).
  repeat split; try congruence; eapply rearranges_trans; eassumption.
Qed.

Lemma Forall2_moved_refl l : Forall2 moved l l.
Proof. induction l; constructor; [apply moved_refl|assumption]. Qed.

Lemma Forall2_moved_trans l1 : forall l2 l3,
  Forall2 moved l1 l2 -> Forall2 moved l2 l3 -> Forall2 moved l1 l3.
Proof.
  induction l1 as [|a l1 IH]; intros l2 l3 H12 H23; inversion H12; subst;
    inversion H23; subst; constructor.
  - eapply moved_trans; eassumption.
  - eapply IH; eassumption.
Qed.

(** Recomputing the metrics touches neither the stops nor the vehicle. *)
Lemma Forall2_moved_recompute calc distances speedKmh l l' :
  Forall2 moved l l' ->
  Forall2 moved l (recomputeAllRouteMetrics calc distances speedKmh l').
Proof.
  induction 1 as [|r r' l l' Hr _ IH]; simpl; constructor; [|exact IH].
  destruct Hr as (V & T & C & R). repeat split; simpl; auto; apply R.
Qed.

Lemma Forall2_moved_insert l ri route newRoute :
  l !! ri = Some route -> moved route newRoute ->
  Forall2 moved l (<[ri := newRoute]> l).
Proof.
  intros Hl Hm. rewrite <- (list_insert_id l ri route Hl) at 1.
  apply Forall2_insert; [apply Forall2_moved_refl|exact Hm].
Qed.

Lemma interior_take sq : interior sq = take (length sq - 1 - 1) (drop 1 sq).
Proof.
  unfold interior. rewrite removelast_firstn_len, length_drop. f_equal. lia.
Qed.

(** The move of Tabu Search: two stops between the ends change places. *)
Lemma tabuMove_moved route i j :
  (4 <= length (stops route))%nat ->
  moved route
    (setStops route
       (take 1 (stops route) ++ Genetic.swapAt i j (interior (stops route))
        ++ drop (length (stops route) - 1) (stops route))).
Proof.
  intros Hlen. repeat split; try reflexivity; simpl;
    apply (middle_rearranges (stops route) 1 (length (stops route) - 1)); try lia;
    rewrite swapAt_perm, interior_take; reflexivity.
Qed.

(** The move of Simulated Annealing: two stops at indices from 1 to the
    length less 3 change places. *)
Lemma swap_rearranges (sq : list Stop) i j :
  (1 <= i)%nat -> (1 <= j)%nat -> (i < length sq - 1)%nat -> (j < length sq - 1)%nat ->
  rearranges sq (Genetic.swapAt i j sq).
Proof.
  intros Hi Hj Hi' Hj'. split; [apply swapAt_perm|]. split.
  - rewrite !head_lookup. apply swapAt_lookup_other; lia.
  - rewrite !last_lookup, swapAt_length. apply swapAt_lookup_other; lia.
Qed.

Lemma randomIndex_lt u n :
  (0 <= u < 1)%Q -> (0 < n)%nat -> (Genetic.randomIndex u n < n)%nat.
Proof.
  intros [H0 H1] Hn. unfold Genetic.randomIndex.
  assert (Hq : (u * inject_Z (Z.of_nat n) < inject_Z (Z.of_nat n))%Q).
  { rewrite <- (Qmult_1_l (inject_Z (Z.of_nat n))) at 2.
    apply Qmult_lt_compat_r; [|exact H1].
    change 0%Q with (inject_Z 0). rewrite <- Zlt_Qlt. lia. }
  assert (Hf : (Qfloor (u * inject_Z (Z.of_nat n)) < Z.of_nat n)%Z).
  { rewrite Zlt_Qlt. eapply Qle_lt_trans; [apply Qfloor_le|exact Hq]. }
  lia.
Qed.

Lemma annealingMove_moved calc distances speedKmh u0 u1 u2 solution :
  (0 <= u1 < 1)%Q -> (0 <= u2 < 1)%Q ->
  Forall2 moved solution (Tabu.generateNeighbor calc distances speedKmh u0 u1 u2 solution).
Proof.
  intros H1 H2. unfold Tabu.generateNeighbor. apply Forall2_moved_recompute.
  destruct (2 <=? length solution)%nat; [|apply Forall2_moved_refl].
  destruct (solution !! Genetic.randomIndex u0 (length solution)) as [route|] eqn:E;
    [|apply Forall2_moved_refl].
  destruct (4 <=? length (stops route))%nat eqn:E4; [|apply Forall2_moved_refl].
  apply Nat.leb_le in E4.
  destruct (Nat.eqb _ _); [apply Forall2_moved_refl|].
  eapply Forall2_moved_insert; [exact E|].
  pose proof (randomIndex_lt u1 (length (stops route) - 3) H1 ltac:(lia)).
  pose proof (randomIndex_lt u2 (length (stops route) - 3) H2 ltac:(lia)).
  repeat split; try reflexivity; simpl; apply swap_rearranges; lia.
Qed.

Lemma moved_served d r r' : moved r r' -> Permutation (servedIds d [r']) (servedIds d [r]).
Proof.
  intros (_ & _ & _ & (Hp & _)). unfold servedIds. simpl. rewrite !app_nil_r.
  apply filter_perm, Permutation_map, Hp.
Qed.

Lemma Forall2_moved_served d l l' :
  Forall2 moved l l' -> Permutation (servedIds d l') (servedIds d l).
Proof.
  induction 1 as [|r r' l l' Hr _ IH]; [reflexivity|].
  change (r' :: l') with ([r'] ++ l'). change (r :: l) with ([r] ++ l).
  rewrite !servedIds_app. apply Permutation_app; [apply moved_served, Hr|exact IH].
Qed.

Lemma moved_demand r r' : moved r r' -> demandOf (stops r') = demandOf (stops r).
Proof.
  intros (_ & _ & _ & Hr). unfold demandOf.
  apply sum_perm, Permutation_map, rearranges_interior, Hr.
Qed.

End MovedFacts.

Section CostFacts.

Variable distances : DistanceMatrix.

Let legs (sts : list Stop) : Q := sumLegs (legOrZero distances) sts.

Lemma cost_fold (l : list Route) : forall a : Q,
  (fold_left (fun total route => total + legs (stops route)) l a
   == a + fold_right Qplus 0 (map legs (map stops l)))%Q.
Proof.
  induction l as [|r l IH]; intros a; simpl.
  - ring.
  - rewrite IH. ring.
Qed.

Lemma calculateTotalCost_sum l :
  (calculateTotalCost distances l == fold_right Qplus 0 (map legs (map stops l)))%Q.
Proof.
  unfold calculateTotalCost. etransitivity; [apply cost_fold|]. apply Qplus_0_l.
Qed.

Lemma Qsum_perm (l l' : list Q) :
  Permutation l l' -> (fold_right Qplus 0 l == fold_right Qplus 0 l')%Q.
Proof.
  induction 1 as [|x l l' _ IH|x y l|l l' l'' _ IH1 _ IH2]; simpl.
  - reflexivity.
  - rewrite IH. reflexivity.
  - ring.
  - rewrite IH1. exact IH2.
Qed.

(** The total cost reads the stops only, and not the order of the routes. *)
Lemma calculateTotalCost_perm l l' :
  Permutation (map stops l) (map stops l') ->
  (calculateTotalCost distances l == calculateTotalCost distances l')%Q.
Proof.
  intros H. rewrite !calculateTotalCost_sum. apply Qsum_perm, Permutation_map, H.
Qed.

Lemma calculateTotalCost_assign l vehicles :
  (calculateTotalCost distances (Assign.assignVehiclesToRoutes l vehicles)
   == calculateTotalCost distances l)%Q.
Proof.
  apply calculateTotalCost_perm. unfold Assign.assignVehiclesToRoutes.
  rewrite (trips_stops _ (Assign.sortRoutes l)).
  - apply Permutation_map, sort_by_perm.
  - rewrite assign_fold_trips. reflexivity.
Qed.

End CostFacts.

Section TabuFacts.

Variables (calc : DistanceKernel) (distances : DistanceMatrix) (speedKmh : Q).

Lemma generateNeighbors_moved solution neighbor :
  In neighbor (Tabu.generateNeighbors calc distances speedKmh solution) ->
  Forall2 moved solution neighbor.
Proof.
  unfold Tabu.generateNeighbors. intros H.
  apply list_elem_of_In, elem_of_take in H as (k & H & _).
  apply list_elem_of_lookup_2, list_elem_of_In, in_concat in H as (ns & Hns & H).
  apply list_elem_of_In, elem_of_lookup_imap_1 in Hns as (ri & route & -> & Hri).
  unfold Tabu.neighborsOfRoute in H.
  destruct (length (stops route) <? 4)%nat eqn:E4; [destruct H|].
  apply Nat.ltb_ge in E4.
  apply in_flat_map in H as (i & _ & H). apply in_map_iff in H as (j & <- & _).
  apply Forall2_moved_recompute. eapply Forall2_moved_insert; [exact Hri|].
  apply tabuMove_moved, E4.
Qed.

Lemma bestNeighbor_spec tabu neighbors : forall acc n c,
    fold_left
      (fun (acc : option (list Route) * ext) neighbor =>
         let cost := calculateTotalCost distances neighbor in
         if negb (isTabu tabu neighbor) && ext_ltb (Fin cost) (snd acc)
         then (Some neighbor, Fin cost) else acc)
      neighbors acc = (Some n, Fin c) ->
    acc = (Some n, Fin c) \/ (In n neighbors /\ c = calculateTotalCost distances n).
Proof.
  induction neighbors as [|nb neighbors IH]; intros acc n c H; simpl in H; [now left|].
  apply IH in H.
  destruct H as [H|(Hin & Hc)]; [|right; split; [now right|exact Hc]].
  cbv zeta in H.
  match type of H with (if ?b then _ else _) = _ => destruct b end.
  - injection H as <- <-. right. split; [now left|reflexivity].
  - now left.
Qed.

Lemma iterate_inv seed tenure st iteration st' :
  tabuInv distances seed st ->
  Tabu.iterate calc distances speedKmh tenure st iteration = Some st' ->
  tabuInv distances seed st'.
Proof.
  intros (Hc & Hb & Hcost & Hle) H. unfold Tabu.iterate in H.
  destruct (Tabu.bestNeighbor _ _ _) as [[n|] [c|]] eqn:E; try discriminate.
  unfold Tabu.bestNeighbor in E.
  apply bestNeighbor_spec in E. destruct E as [E|(Hin & ->)]; [discriminate|].
  apply generateNeighbors_moved in Hin.
  assert (Hn : Forall2 moved seed n) by exact (Forall2_moved_trans _ _ _ Hc Hin).
  injection H as <-. unfold tabuInv. simpl.
  destruct (Qlt_le_dec (calculateTotalCost distances n) (Tabu.bestCost st)) as [Hlt|Hge].
  - repeat split; auto. apply Qlt_le_weak. eapply Qlt_le_trans; eassumption.
  - repeat split; auto.
Qed.

Lemma mainLoop_inv seed tenure iterations : forall st,
  tabuInv distances seed st ->
  tabuInv distances seed (Tabu.mainLoop calc distances speedKmh tenure iterations st).
Proof.
  induction iterations as [|it rest IH]; intros st Hst; simpl; [exact Hst|].
  destruct (Tabu.iterate _ _ _ _ _ _) as [st'|] eqn:E; [|exact Hst].
  apply IH. eapply iterate_inv; eassumption.
Qed.

End TabuFacts.

Section AnnealingFacts.

Variables (calc : DistanceKernel) (distances : DistanceMatrix) (speedKmh : Q).

Lemma step_inv seed st d :
  Annealing.unitDraw d -> annealInv distances seed st ->
  annealInv distances seed (Annealing.step calc distances speedKmh st d).
Proof.
  intros (_ & H1 & H2) (Hc & Hb & Hcost & Hle). unfold Annealing.step.
  pose proof (annealingMove_moved calc distances speedKmh (Annealing.u0 d) _ _
                (Annealing.currentSolution st) H1 H2) as Hm.
  set (neighbor := Tabu.generateNeighbor _ _ _ _ _ _ _) in *.
  assert (Hn : Forall2 moved seed neighbor) by exact (Forall2_moved_trans _ _ _ Hc Hm).
  destruct (_ || _); [|repeat split; assumption].
  unfold annealInv. simpl.
  destruct (Qlt_le_dec (calculateTotalCost distances neighbor) (Annealing.bestCost st))
    as [Hlt|Hge].
  - repeat split; auto. apply Qlt_le_weak. eapply Qlt_le_trans; eassumption.
  - repeat split; auto.
Qed.

Lemma anneal_inv seed maxIterations draws rounds : forall st,
  (forall k, Annealing.unitDraw (draws k)) -> annealInv distances seed st ->
  annealInv distances seed (Annealing.anneal calc distances speedKmh maxIterations draws rounds st).
Proof.
  intros st Hd. unfold Annealing.anneal. revert st.
  induction (seq 0 rounds) as [|round l IH]; intros st Hst; simpl; [exact Hst|].
  apply IH. clear IH. revert st Hst.
  induction (seq 0 maxIterations) as [|i l' IH']; intros st Hst; simpl; [exact Hst|].
  apply IH', step_inv; [apply Hd|exact Hst].
Qed.

Lemma coolingSchedule_mono fuel : forall temperature l fuel',
  Annealing.coolingSchedule fuel temperature = Some l -> (fuel <= fuel')%nat ->
  Annealing.coolingSchedule fuel' temperature = Some l.
Proof.
  induction fuel as [|fuel IH]; intros t l fuel' H Hle; [discriminate|].
  destruct fuel' as [|fuel']; [lia|]. simpl in *.
  destruct (Qlt_le_dec Annealing.minTemperature t); [|exact H].
  destruct (Annealing.coolingSchedule fuel _) as [l0|] eqn:E; [|discriminate].
  rewrite (IH _ l0 fuel' E) by lia. exact H.
Qed.

(** The temperature falls from 1000 to 1 or less in 135 rounds. *)
Lemma coolingSchedule_rounds :
  exists temperatures,
    length temperatures = 135%nat /\
    forall fuel, (136 <= fuel)%nat ->
      Annealing.coolingSchedule fuel Annealing.initialTemperature = Some temperatures.
Proof.
  assert (Hlen : option_map (@length Q)
                   (Annealing.coolingSchedule 136 Annealing.initialTemperature)
                 = Some 135%nat) by (vm_compute; reflexivity).
  destruct (Annealing.coolingSchedule 136 Annealing.initialTemperature) as [l|] eqn:E.
  - exists l. split.
    + simpl in Hlen. congruence.
    + intros fuel Hle. eapply coolingSchedule_mono; eassumption.
  - discriminate.
Qed.

End AnnealingFacts.

Section SwapSearchTheorems.
Import ClarkeWright.

Variables (calc : DistanceKernel) (score : Location * Location -> Q)
          (vehicles : list Vehicle) (locations : list Location) (depot : Location).

Hypothesis kernel_nonneg : forall lat1 lon1 lat2 lon2, (0 <= calc lat1 lon1 lat2 lon2)%Q.

Let distances : DistanceMatrix := buildDistances calc locations.

(** What a solution reached from the seed by swaps, and assigned again,
    keeps of the seed. *)
Lemma assigned_again seed best :
  Permutation (servedIds (loc_id depot) seed) (map loc_id (nonDepotOf locations depot)) ->
  (forall r, In r seed ->
     totalCapacity r = demandOf (stops r) /\
     ((3 < length (stops r))%nat -> totalCapacity r <= maxCapacityOf vehicles) /\
     capacityExceeded r = None /\
     Assign.capacityRespected vehicles r) ->
  Forall2 moved seed best ->
  (calculateTotalCost distances best <= calculateTotalCost distances seed)%Q ->
  let out := Assign.assignVehiclesToRoutes best vehicles in
  Permutation (servedIds (loc_id depot) out) (map loc_id (nonDepotOf locations depot)) /\
  (NoDup (map loc_id locations) -> servedAtMostOnce (loc_id depot) out) /\
  length out = length seed /\
  (calculateTotalCost distances out <= calculateTotalCost distances seed)%Q /\
  forall r, In r out ->
    totalCapacity r = demandOf (stops r) /\
    ((3 < length (stops r))%nat -> totalCapacity r <= maxCapacityOf vehicles) /\
    capacityExceeded r = None /\
    (forall vid, vehicle r = Some vid ->
       exists v, In v vehicles /\ veh_id v = vid /\ totalCapacity r <= capacity v).
Proof.
  intros Hserved Hseed Hmoved Hcost out.
  assert (Htrips : map tripOf out = map tripOf (Assign.sortRoutes best)).
  { unfold out, Assign.assignVehiclesToRoutes. rewrite assign_fold_trips. reflexivity. }
  assert (Hbest : forall r, In r best ->
            totalCapacity r = demandOf (stops r) /\
            ((3 < length (stops r))%nat -> totalCapacity r <= maxCapacityOf vehicles) /\
            capacityExceeded r = None /\
            Assign.capacityRespected vehicles r).
  { intros r Hr. destruct (Forall2_In_r _ _ _ _ Hmoved Hr) as (s & Hs & Hm).
    destruct (Hseed s Hs) as (Ht & Hmax & Hflag & Hcap).
    pose proof (moved_demand _ _ Hm) as Hd. destruct Hm as (Ev & Et & Ec & Hre).
    split; [congruence|]. split; [|split; [congruence|]].
    - intros Hlen. rewrite Et. apply Hmax. rewrite <- (rearranges_length _ _ Hre). exact Hlen.
    - intros vid Hvid. rewrite Ev in Hvid. destruct (Hcap vid Hvid) as [Hex|Hfit].
      + left. congruence.
      + right. rewrite Et. exact Hfit. }
  assert (Hperm : Permutation (servedIds (loc_id depot) out)
                              (map loc_id (nonDepotOf locations depot))).
  { rewrite (servedIds_stops _ _ _ (trips_stops _ _ Htrips)), <- Hserved.
    etransitivity; [apply servedIds_perm, sort_by_perm|].
    apply Forall2_moved_served, Hmoved. }
  split; [exact Hperm|]. split.
  { intros Hnd. unfold servedAtMostOnce. rewrite Hperm. apply NoDup_map_filter, Hnd. }
  split.
  { apply (f_equal (@length _)) in Htrips. rewrite !length_map in Htrips.
    rewrite Htrips. unfold Assign.sortRoutes.
    rewrite (Permutation_length (sort_by_perm _ best)).
    symmetry. eapply Forall2_length, Hmoved. }
  split.
  { eapply Qle_trans; [|exact Hcost]. apply Qle_lteq. right.
    apply calculateTotalCost_assign. }
  intros r Hr.
  assert (Hsrc : exists r0, In r0 best /\ tripOf r = tripOf r0).
  { apply (in_map tripOf) in Hr. rewrite Htrips in Hr.
    apply in_map_iff in Hr as (r0 & E & Hr0). apply In_sort_by in Hr0. eauto. }
  destruct Hsrc as (r0 & Hr0 & E). unfold tripOf in E. injection E as Es Ed Eu Et Ec.
  destruct (Hbest r0 Hr0) as (Ht & Hmax & Hflag & _).
  split; [congruence|]. split; [rewrite Es, Et; exact Hmax|].
  assert (Hnone : capacityExceeded r = None) by congruence.
  split; [exact Hnone|].
  apply (unflagged_within vehicles r Hnone).
  eapply assign_fold_respected; [| | |exact Hr]; simpl.
  - intros x [].
  - intros vs Hvs. apply In_sort_by in Hvs. apply expandSlots_from, Hvs.
  - intros x Hx. apply In_sort_by in Hx. apply Hbest, Hx.
Qed.

(** The seed both searches start from. *)
Lemma seed_facts :
  exists fuel0 seed,
    (forall fuel, (fuel0 <= fuel)%nat ->
       Tabu.enhancedClarkeWrightAlgorithm fuel calc score vehicles locations depot
       = Some seed) /\
    Permutation (servedIds (loc_id depot) seed) (map loc_id (nonDepotOf locations depot)) /\
    forall r, In r seed ->
      totalCapacity r = demandOf (stops r) /\
      ((3 < length (stops r))%nat -> totalCapacity r <= maxCapacityOf vehicles) /\
      capacityExceeded r = None /\
      Assign.capacityRespected vehicles r.
Proof.
  destruct (enhancedClarkeWright_runs calc score vehicles locations depot kernel_nonneg)
    as (fuel0 & seed & Hrun & Hrel).
  destruct (searched_routes_facts calc score vehicles locations depot seed Hrel)
    as (Hperm & Hroutes).
  exists fuel0, seed. split; [exact Hrun|]. split; [exact Hperm|].
  intros r Hr. destruct (Hroutes r Hr) as (_ & Ht & Hflag & Hmax & Hcap). auto.
Qed.

(** X14. Tabu Search always returns when the depot is one of the locations
    and the kernel yields no negative distance. What it returns serves every non-depot location of the
    instance and nothing else (once each when the ids are distinct), has as
    many routes as the Enhanced Clarke-Wright solution it started from, and
    costs no more than that solution by [calculateTotalCost]; every route
    carries the demand of its customers as [totalCapacity], stays within the
    largest vehicle capacity when it has more than one customer, is not
    flagged [capacityExceeded], and when it has a vehicle its
    [totalCapacity] is at most the capacity of a vehicle of the fleet with
    that id. *)
Theorem tabuSearch_never_worse_than_seed :
  In depot locations ->
  exists fuel0 seed out,
    (forall fuel, (fuel0 <= fuel)%nat ->
       Tabu.enhancedClarkeWrightAlgorithm fuel calc score vehicles locations depot
       = Some seed /\
       Tabu.tabuSearchVRP fuel calc score vehicles locations depot = Some out) /\
    Permutation (servedIds (loc_id depot) out) (map loc_id (nonDepotOf locations depot)) /\
    (NoDup (map loc_id locations) -> servedAtMostOnce (loc_id depot) out) /\
    length out = length seed /\
    (calculateTotalCost distances out <= calculateTotalCost distances seed)%Q /\
    forall r, In r out ->
      totalCapacity r = demandOf (stops r) /\
      ((3 < length (stops r))%nat -> totalCapacity r <= maxCapacityOf vehicles) /\
      capacityExceeded r = None /\
      (forall vid, vehicle r = Some vid ->
         exists v, In v vehicles /\ veh_id v = vid /\ totalCapacity r <= capacity v).
Proof.
  intros _.
  destruct seed_facts as (fuel0 & seed & Hrun & Hserved & Hseed).
  set (st0 := {| Tabu.currentSolution := seed; Tabu.bestSolution := seed;
                 Tabu.bestCost := calculateTotalCost distances seed;
                 Tabu.tabuList := ∅ |}).
  set (st := Tabu.mainLoop calc distances SPEED_KMH
               (Tabu.tabuTenureOf (length (nonDepotOf locations depot)))
               (seq 0 (Tabu.maxIterationsOf (length (nonDepotOf locations depot)))) st0).
  assert (Hinv : tabuInv distances seed st).
  { apply mainLoop_inv. unfold tabuInv, st0. simpl.
    repeat split; try apply Forall2_moved_refl. apply Qle_refl. }
  destruct Hinv as (_ & Hbest & Hcost & Hle). rewrite Hcost in Hle.
  exists fuel0, seed, (Assign.assignVehiclesToRoutes (Tabu.bestSolution st) vehicles).
  split.
  - intros fuel Hfuel. split; [apply Hrun, Hfuel|].
    unfold Tabu.tabuSearchVRP. rewrite (Hrun fuel Hfuel). reflexivity.
  - apply assigned_again; assumption.
Qed.

(** X15. Simulated Annealing always returns when the depot is one of the
    locations and the kernel yields no negative distance, whatever values in [0, 1) its iterations draw and
    whichever worse neighbours it accepts: the temperature reaches 1 after
    135 rounds. What it returns serves every non-depot location of the
    instance and nothing else (once each when the ids are distinct), has as
    many routes as the Enhanced Clarke-Wright solution it started from, and
    costs no more than that solution by [calculateTotalCost]; every route
    carries the demand of its customers as [totalCapacity], stays within the
    largest vehicle capacity when it has more than one customer, is not
    flagged [capacityExceeded], and when it has a vehicle its
    [totalCapacity] is at most the capacity of a vehicle of the fleet with
    that id. *)
Theorem simulatedAnnealing_never_worse_than_seed (draws : nat -> Annealing.Draw) :
  In depot locations ->
  (forall k, Annealing.unitDraw (draws k)) ->
  exists fuel0 seed out,
    (forall fuel, (fuel0 <= fuel)%nat ->
       Tabu.enhancedClarkeWrightAlgorithm fuel calc score vehicles locations depot
       = Some seed /\
       Annealing.simulatedAnnealingVRP fuel calc score vehicles locations depot draws
       = Some out) /\
    Permutation (servedIds (loc_id depot) out) (map loc_id (nonDepotOf locations depot)) /\
    (NoDup (map loc_id locations) -> servedAtMostOnce (loc_id depot) out) /\
    length out = length seed /\
    (calculateTotalCost distances out <= calculateTotalCost distances seed)%Q /\
    forall r, In r out ->
      totalCapacity r = demandOf (stops r) /\
      ((3 < length (stops r))%nat -> totalCapacity r <= maxCapacityOf vehicles) /\
      capacityExceeded r = None /\
      (forall vid, vehicle r = Some vid ->
         exists v, In v vehicles /\ veh_id v = vid /\ totalCapacity r <= capacity v).
Proof.
  intros _ Hdraws.
  destruct seed_facts as (fuel0 & seed & Hrun & Hserved & Hseed).
  destruct coolingSchedule_rounds as (temperatures & Hlen & Hcool).
  set (st0 := {| Annealing.currentSolution := seed;
                 Annealing.currentCost := calculateTotalCost distances seed;
                 Annealing.bestSolution := seed;
                 Annealing.bestCost := calculateTotalCost distances seed |}).
  set (st := Annealing.anneal calc distances SPEED_KMH
               (Annealing.maxIterationsOf (length (nonDepotOf locations depot))) draws
               (length temperatures) st0).
  assert (Hinv : annealInv distances seed st).
  { apply anneal_inv; [exact Hdraws|]. unfold annealInv, st0. simpl.
    repeat split; try apply Forall2_moved_refl. apply Qle_refl. }
  destruct Hinv as (_ & Hbest & Hcost & Hle). rewrite Hcost in Hle.
  exists (Nat.max fuel0 136), seed,
    (Assign.assignVehiclesToRoutes (Annealing.bestSolution st) vehicles).
  split.
  - intros fuel Hfuel. split; [apply Hrun; lia|].
    unfold Annealing.simulatedAnnealingVRP. rewrite (Hrun fuel) by lia.
    rewrite (Hcool fuel) by lia. reflexivity.
  - apply assigned_again; assumption.
Qed.

End SwapSearchTheorems.

Lemma tabuSearch_never_worse_than_seed_witness :
  exists fuel0 seed out,
    (forall fuel, (fuel0 <= fuel)%nat ->
       Tabu.enhancedClarkeWrightAlgorithm fuel taxicab
         (ClarkeWright.basicSaving (buildDistances taxicab ClarkeWright.instanceS3) depotD)
         ClarkeWright.fleet10 ClarkeWright.instanceS3 depotD
       = Some seed /\
       Tabu.tabuSearchVRP fuel taxicab
         (ClarkeWright.basicSaving (buildDistances taxicab ClarkeWright.instanceS3) depotD)
         ClarkeWright.fleet10 ClarkeWright.instanceS3 depotD
       = Some out) /\
    Permutation (servedIds (loc_id depotD) out)
                (map loc_id (ClarkeWright.nonDepotOf ClarkeWright.instanceS3 depotD)) /\
    (NoDup (map loc_id ClarkeWright.instanceS3) -> servedAtMostOnce (loc_id depotD) out) /\
    length out = length seed /\
    (calculateTotalCost (buildDistances taxicab ClarkeWright.instanceS3) out
     <= calculateTotalCost (buildDistances taxicab ClarkeWright.instanceS3) seed)%Q /\
    forall r, In r out ->
      totalCapacity r = ClarkeWright.demandOf (stops r) /\
      ((3 < length (stops r))%nat ->
       totalCapacity r <= ClarkeWright.maxCapacityOf ClarkeWright.fleet10) /\
      capacityExceeded r = None /\
      (forall vid, vehicle r = Some vid ->
         exists v, In v ClarkeWright.fleet10 /\ veh_id v = vid /\
                   totalCapacity r <= capacity v).
Proof.
  apply (tabuSearch_never_worse_than_seed taxicab
           (ClarkeWright.basicSaving (buildDistances taxicab ClarkeWright.instanceS3) depotD)
           ClarkeWright.fleet10 ClarkeWright.instanceS3 depotD taxicab_nonneg).
  simpl. auto.
Defined.

Lemma simulatedAnnealing_never_worse_than_seed_witness :
  exists fuel0 seed out,
    (forall fuel, (fuel0 <= fuel)%nat ->
       Tabu.enhancedClarkeWrightAlgorithm fuel taxicab
         (ClarkeWright.basicSaving (buildDistances taxicab ClarkeWright.instanceS3) depotD)
         ClarkeWright.fleet10 ClarkeWright.instanceS3 depotD
       = Some seed /\
       Annealing.simulatedAnnealingVRP fuel taxicab
         (ClarkeWright.basicSaving (buildDistances taxicab ClarkeWright.instanceS3) depotD)
         ClarkeWright.fleet10 ClarkeWright.instanceS3 depotD
         (fun _ => Annealing.mkDraw (1 # 2) 0 (1 # 2) true)
       = Some out) /\
    Permutation (servedIds (loc_id depotD) out)
                (map loc_id (ClarkeWright.nonDepotOf ClarkeWright.instanceS3 depotD)) /\
    (NoDup (map loc_id ClarkeWright.instanceS3) -> servedAtMostOnce (loc_id depotD) out) /\
    length out = length seed /\
    (calculateTotalCost (buildDistances taxicab ClarkeWright.instanceS3) out
     <= calculateTotalCost (buildDistances taxicab ClarkeWright.instanceS3) seed)%Q /\
    forall r, In r out ->
      totalCapacity r = ClarkeWright.demandOf (stops r) /\
      ((3 < length (stops r))%nat ->
       totalCapacity r <= ClarkeWright.maxCapacityOf ClarkeWright.fleet10) /\
      capacityExceeded r = None /\
      (forall vid, vehicle r = Some vid ->
         exists v, In v ClarkeWright.fleet10 /\ veh_id v = vid /\
                   totalCapacity r <= capacity v).
Proof.
  apply (simulatedAnnealing_never_worse_than_seed taxicab
           (ClarkeWright.basicSaving (buildDistances taxicab ClarkeWright.instanceS3) depotD)
           ClarkeWright.fleet10 ClarkeWright.instanceS3 depotD taxicab_nonneg
           (fun _ => Annealing.mkDraw (1 # 2) 0 (1 # 2) true)).
  - simpl. auto.
  - intros k. unfold Annealing.unitDraw. simpl.
    repeat split; vm_compute; congruence.
Defined.

(** The sample instance has one route after the seed: every neighbour of
    Simulated Annealing is the seed again, and the run returns it. *)
Example simulatedAnnealing_S3 :
  option_map (map (fun r => (vehicle r, map locationId (stops r), totalCapacity r)))
    (Annealing.simulatedAnnealingVRP 136 taxicab
       (ClarkeWright.basicSaving (buildDistances taxicab ClarkeWright.instanceS3) depotD)
       ClarkeWright.fleet10 ClarkeWright.instanceS3 depotD
       (fun _ => Annealing.mkDraw (1 # 2) 0 (1 # 2) true))
  = Some [(Some "V1", ["D"; "A"; "B"; "D"], 6)].
Proof. vm_compute. reflexivity. Qed.

Section SingleRouteFacts.

Variables (calc : DistanceKernel) (distances : DistanceMatrix) (speedKmh : Q).

Lemma calculateTotalCost_stops l : forall l',
  map stops l = map stops l' ->
  calculateTotalCost distances l = calculateTotalCost distances l'.
Proof.
  unfold calculateTotalCost. generalize 0%Q.
  induction l as [|r l IH]; intros a [|r' l'] H; simpl in *; try discriminate;
    [reflexivity|].
  injection H as E H. rewrite E. apply IH, H.
Qed.

Lemma stops_recomputeAll l :
  map stops (recomputeAllRouteMetrics calc distances speedKmh l) = map stops l.
Proof. unfold recomputeAllRouteMetrics. rewrite map_map. reflexivity. Qed.

Lemma generateNeighbor_few u0 u1 u2 solution :
  (length solution < 2)%nat ->
  Tabu.generateNeighbor calc distances speedKmh u0 u1 u2 solution
  = recomputeAllRouteMetrics calc distances speedKmh solution.
Proof.
  intros H. unfold Tabu.generateNeighbor.
  destruct (2 <=? length solution)%nat eqn:E; [apply Nat.leb_le in E; lia|reflexivity].
Qed.

Lemma step_idle seed st d :
  (length seed < 2)%nat -> idleInv distances seed st ->
  idleInv distances seed (Annealing.step calc distances speedKmh st d).
Proof.
  intros Hlen (Hc & Hb & Hcost). unfold Annealing.step.
  assert (Hl : (length (Annealing.currentSolution st) < 2)%nat).
  { apply (f_equal (@length _)) in Hc. rewrite !length_map in Hc. lia. }
  rewrite generateNeighbor_few by exact Hl.
  set (neighbor := recomputeAllRouteMetrics _ _ _ _).
  assert (Hn : map stops neighbor = map stops seed)
    by (unfold neighbor; rewrite stops_recomputeAll; exact Hc).
  destruct (_ || _); [|repeat split; assumption].
  unfold idleInv. simpl.
  rewrite (calculateTotalCost_stops neighbor seed Hn), Hcost.
  destruct (Qlt_le_dec _ _) as [Hlt|_]; [exfalso; exact (Qlt_irrefl _ Hlt)|].
  repeat split; assumption.
Qed.

Lemma anneal_idle seed maxIterations draws rounds : forall st,
  (length seed < 2)%nat -> idleInv distances seed st ->
  idleInv distances seed (Annealing.anneal calc distances speedKmh maxIterations draws rounds st).
Proof.
  intros st Hlen. unfold Annealing.anneal. revert st.
  induction (seq 0 rounds) as [|round l IH]; intros st Hst; simpl; [exact Hst|].
  apply IH. clear IH. revert st Hst.
  induction (seq 0 maxIterations) as [|i l' IH']; intros st Hst; simpl; [exact Hst|].
  apply IH', step_idle; assumption.
Qed.

End SingleRouteFacts.

Section SingleRouteTheorems.

Variables (calc : DistanceKernel) (score : Location * Location -> Q)
          (vehicles : list Vehicle) (locations : list Location) (depot : Location).

(** X16. Simulated Annealing moves stops only in a solution of two routes
    or more: when the Enhanced Clarke-Wright solution it starts from has a
    single route (or none), every neighbour it generates has the stops of
    that solution, none is ever strictly cheaper, and the run returns the
    starting solution with the vehicles assigned again, whatever is drawn. *)
Theorem simulatedAnnealing_single_route (fuel : nat) (draws : nat -> Annealing.Draw)
    (seed : list Route) :
  Tabu.enhancedClarkeWrightAlgorithm fuel calc score vehicles locations depot = Some seed ->
  (136 <= fuel)%nat ->
  (length seed < 2)%nat ->
  Annealing.simulatedAnnealingVRP fuel calc score vehicles locations depot draws
  = Some (Assign.assignVehiclesToRoutes seed vehicles).
Proof.
  intros Hseed Hfuel Hlen. unfold Annealing.simulatedAnnealingVRP. rewrite Hseed.
  destruct coolingSchedule_rounds as (temperatures & _ & Hcool).
  rewrite (Hcool fuel Hfuel).
  match goal with
  | |- Some (Assign.assignVehiclesToRoutes (Annealing.bestSolution ?s) _) = _ =>
      assert (Hinv : idleInv (buildDistances calc locations) seed s)
  end.
  { apply anneal_idle; [exact Hlen|]. repeat split; reflexivity. }
  destruct Hinv as (_ & -> & _). reflexivity.
Qed.

End SingleRouteTheorems.

Lemma simulatedAnnealing_single_route_witness :
  exists seed,
    Tabu.enhancedClarkeWrightAlgorithm 136 taxicab
      (ClarkeWright.basicSaving (buildDistances taxicab ClarkeWright.instanceS3) depotD)
      ClarkeWright.fleet10 ClarkeWright.instanceS3 depotD = Some seed /\
    Annealing.simulatedAnnealingVRP 136 taxicab
      (ClarkeWright.basicSaving (buildDistances taxicab ClarkeWright.instanceS3) depotD)
      ClarkeWright.fleet10 ClarkeWright.instanceS3 depotD
      (fun _ => Annealing.mkDraw (1 # 2) 0 (1 # 2) true)
    = Some (Assign.assignVehiclesToRoutes seed ClarkeWright.fleet10).
Proof.
  eexists. split; [vm_compute; reflexivity|].
  apply simulatedAnnealing_single_route; [vm_compute; reflexivity|lia|simpl; lia].
Defined.

(** ** Ant Colony Optimization *)

Section AntColonyFacts.
Import ClarkeWright.

Lemma shuffleFrom_perm {A} (draws : nat -> Q) i : forall k (l : list A),
  Permutation (AntColony.shuffleFrom i k draws l) l.
Proof.
  induction i as [|i IH]; intros k l; simpl; [reflexivity|].
  rewrite IH. apply swapAt_perm.
Qed.

Lemma shuffle_perm {A} (draws : nat -> Q) (l : list A) :
  Permutation (AntColony.shuffle draws l) l.
Proof. apply shuffleFrom_perm. Qed.

Lemma sumDemand_snoc picked l :
  sumDemand (picked ++ [l]) = sumDemand picked + js_orZ (loc_demand l) 0.
Proof.
  induction picked as [|x picked IH]; simpl.
  - rewrite !sumDemand_cons. unfold sumDemand. simpl. lia.
  - rewrite !sumDemand_cons, IH. lia.
Qed.

Lemma routeOfBin_stops distances speedKmh depot b :
  stops (Genetic.routeOfBin distances speedKmh depot b)
  = tourStops depot (Genetic.bin_locations b).
Proof.
  unfold Genetic.routeOfBin, tourStops. simpl. f_equal.
  rewrite Nat.add_1_r. f_equal. apply imap_ext. intros i x _. rewrite Nat.add_1_r.
  reflexivity.
Qed.

Lemma antStep_first b0 others assigned location :
  AntColony.antStep (b0 :: others, 0%nat, assigned) location =
  if bool_decide (loc_id location ∈ assigned) then (b0 :: others, 0%nat, assigned)
  else if AntColony.fits location b0
       then (AntColony.put location b0 :: others, 0%nat, {[loc_id location]} ∪ assigned)
       else (b0 :: others, 0%nat, assigned).
Proof.
  unfold AntColony.antStep. destruct (bool_decide _); [reflexivity|].
  replace (Nat.min (length (b0 :: others)) (0 + 1)) with 1%nat by (simpl; lia).
  simpl take. simpl existsb. rewrite orb_false_r. simpl drop.
  destruct (AntColony.fits location b0) eqn:E.
  - simpl. unfold AntColony.fits in E. rewrite E. reflexivity.
  - simpl. rewrite E. reflexivity.
Qed.

Lemma antStep_no_slot st location :
  fst (fst st) = [] -> AntColony.antStep st location = st.
Proof.
  destruct st as [[slots cvi] assigned]. simpl. intros ->.
  unfold AntColony.antStep. destruct (bool_decide _); reflexivity.
Qed.

Variables (v0 : Vehicle) (rest : list Vehicle).

Let cap0 : Z := js_orZ (capacity v0) 0.

Lemma antStep_inv seen st location :
  antInv v0 rest seen st -> antInv v0 rest (seen ++ [location]) (AntColony.antStep st location).
Proof.
  unfold antInv. fold cap0.
  intros (picked & -> & Hnd & Hin & Hcap & Hfit & Hnone).
  assert (Hin' : forall l, In l picked -> In l (seen ++ [location])).
  { intros l Hl. apply in_or_app. left. apply Hin, Hl. }
  assert (Hfit' : picked <> [] ->
            exists l, In l (seen ++ [location]) /\ js_orZ (loc_demand l) 0 <= cap0).
  { intros Hp. destruct (Hfit Hp) as (l & Hl & Hle). exists l. split; [|exact Hle].
    apply in_or_app. now left. }
  rewrite antStep_first.
  destruct (bool_decide (loc_id location ∈ list_to_set (map loc_id picked)))
    eqn:Hmem.
  { apply bool_decide_eq_true in Hmem.
    exists picked. split; [reflexivity|]. split; [exact Hnd|]. split; [exact Hin'|].
    split; [exact Hcap|]. split; [exact Hfit'|].
    intros ->. simpl in Hmem. set_solver. }
  apply bool_decide_eq_false in Hmem.
  assert (Hfresh : ~ In (loc_id location) (map loc_id picked)).
  { intros H. apply Hmem. apply elem_of_list_to_set, list_elem_of_In, H. }
  unfold AntColony.fits, AntColony.put. cbn [Genetic.usedCapacity Genetic.bin_capacity
    Genetic.bin_vehicle Genetic.bin_locations].
  destruct (sumDemand picked + js_orZ (loc_demand location) 0 <=? cap0) eqn:Hle.
  - apply Z.leb_le in Hle. exists (picked ++ [location]).
    rewrite sumDemand_snoc, map_app. simpl map.
    split; [f_equal; rewrite list_to_set_app_L; simpl; set_solver|].
    split; [apply NoDup_app; split; [exact Hnd|]; split;
            [intros x Hx [<-|[]]%list_elem_of_In; apply Hfresh, list_elem_of_In, Hx
            |apply NoDup_singleton]|].
    split; [intros l [Hl|[<-|[]]]%in_app_or; apply in_or_app;
            [left; apply Hin, Hl|right; now left]|].
    split; [intros _; exact Hle|]. split.
    + intros _. destruct picked as [|p picked'].
      * exists location. split; [apply in_or_app; right; now left|].
        unfold sumDemand in Hle. simpl in Hle. lia.
      * apply Hfit'. discriminate.
    + intros E. destruct picked; discriminate E.
  - apply Z.leb_gt in Hle. exists picked. split; [reflexivity|].
    split; [exact Hnd|]. split; [exact Hin'|]. split; [exact Hcap|].
    split; [exact Hfit'|].
    intros -> l [Hl|[<-|[]]]%in_app_or; [apply Hnone; [reflexivity|exact Hl]|].
    unfold sumDemand in Hle. simpl in Hle. lia.
Qed.

Lemma antFold_inv locs : forall seen st,
  antInv v0 rest seen st -> antInv v0 rest (seen ++ locs) (fold_left AntColony.antStep locs st).
Proof.
  induction locs as [|l locs IH]; intros seen st H; simpl.
  - rewrite app_nil_r. exact H.
  - replace (seen ++ l :: locs) with ((seen ++ [l]) ++ locs)
      by (rewrite <- app_assoc; reflexivity).
    apply IH, antStep_inv, H.
Qed.


Lemma filter_emptySlots (vs : list Vehicle) :
  List.filter (fun b => (0 <? length (Genetic.bin_locations b))%nat)
              (map AntColony.emptySlot vs) = [].
Proof. induction vs as [|v vs IH]; simpl; [reflexivity|exact IH]. Qed.

End AntColonyFacts.

Section AntSolutionFacts.
Import ClarkeWright.

Variables (distances : DistanceMatrix) (vehicles : list Vehicle)
          (locations : list Location) (depot : Location).

(** One ant: a tour on the first vehicle, or nothing when no customer fits
    the first vehicle empty. *)
Lemma constructAntSolution_spec draws :
  match AntColony.constructAntSolution distances vehicles locations depot draws with
  | Some r =>
      firstVehicleTour vehicles locations depot r /\
      exists v0 rest l, vehicles = v0 :: rest /\ In l (nonDepotOf locations depot) /\
                        js_orZ (loc_demand l) 0 <= js_orZ (capacity v0) 0
  | None =>
      match vehicles with
      | [] => True
      | v0 :: _ =>
          forall l, In l (nonDepotOf locations depot) ->
                    js_orZ (capacity v0) 0 < js_orZ (loc_demand l) 0
      end
  end.
Proof.
  unfold AntColony.constructAntSolution.
  set (shuffled := AntColony.shuffle draws (nonDepotOf locations depot)).
  assert (Hsh : forall l, In l shuffled <-> In l (nonDepotOf locations depot)).
  { intros l. unfold shuffled. split; apply Permutation_in;
      [|symmetry]; apply shuffle_perm. }
  destruct vehicles as [|v0 rest] eqn:Ev.
  - simpl map.
    assert (E : forall locs st, fst (fst st) = [] ->
                  fst (fst (fold_left AntColony.antStep locs st)) = []).
    { induction locs as [|l locs IH]; intros st H; simpl; [exact H|].
      apply IH. rewrite antStep_no_slot; assumption. }
    rewrite E by reflexivity. exact I.
  - assert (H0 : antInv v0 rest [] (map AntColony.emptySlot (v0 :: rest), 0%nat, ∅)).
    { exists []. simpl. repeat split; try (intros; contradiction); try constructor. }
    apply (antFold_inv v0 rest shuffled) in H0.
    destruct H0 as (picked & -> & Hnd & Hin & Hcap & Hfit & Hnone). simpl app in *.
    cbn [fst List.filter Genetic.bin_locations]. rewrite filter_emptySlots.
    destruct picked as [|p picked'].
    + simpl. intros l Hl. apply Hnone; [reflexivity|]. apply Hsh, Hl.
    + set (picked := p :: picked') in *.
      assert (Hne : picked <> []) by discriminate.
      cbn [map head]. split.
      * exists v0, rest, picked. split; [reflexivity|].
        split; [reflexivity|]. split; [reflexivity|].
        split; [apply routeOfBin_stops|].
        split; [exact Hne|]. split; [intros l Hl; apply Hsh, Hin, Hl|].
        split; [exact Hnd|]. split; [reflexivity|apply Hcap, Hne].
      * destruct (Hfit Hne) as (l & Hl & Hle). exists v0, rest, l.
        split; [reflexivity|]. split; [apply Hsh, Hl|exact Hle].
Qed.

End AntSolutionFacts.

Section AntColonyTheorems.
Import ClarkeWright.

Variables (calc : DistanceKernel) (vehicles : list Vehicle)
          (locations : list Location) (depot : Location).

Let distances : DistanceMatrix := buildDistances calc locations.

Lemma antBest_inv n acc draws :
  antBestInv vehicles locations depot n acc ->
  antBestInv vehicles locations depot (S n)
    (AntColony.antBest distances acc
       (AntColony.constructAntSolution distances vehicles locations depot draws)).
Proof.
  intros H.
  pose proof (constructAntSolution_spec distances vehicles locations depot draws) as Hs.
  destruct (AntColony.constructAntSolution _ _ _ _ _) as [r|]; simpl.
  - destruct Hs as (Hr & v0 & rest & l & Ev & Hl & Hle).
    assert (Hfit : ~ nothingFits vehicles locations depot).
    { unfold nothingFits. rewrite Ev. intros Hn. specialize (Hn l Hl). lia. }
    destruct H as [(-> & _)|(r' & c' & -> & Hr' & Hf')]; simpl.
    + right. eauto.
    + right. destruct (Qlt_le_dec _ _); eauto.
  - destruct H as [(-> & _)|H]; [|right; exact H].
    left. split; [reflexivity|]. intros _. unfold nothingFits.
    destruct vehicles; [exact I|exact Hs].
Qed.

Lemma ants_inv (draws : nat -> nat -> Q) (f : nat -> nat) ants : forall n acc,
  antBestInv vehicles locations depot n acc ->
  antBestInv vehicles locations depot (n + length ants)
    (fold_left
       (fun acc ant =>
          AntColony.antBest distances acc
            (AntColony.constructAntSolution distances vehicles locations depot
               (draws (f ant))))
       ants acc).
Proof.
  induction ants as [|a ants IH]; intros n acc H; simpl.
  - rewrite Nat.add_0_r. exact H.
  - replace (n + S (length ants))%nat with (S n + length ants)%nat by lia.
    apply IH, antBest_inv, H.
Qed.

Lemma iterations_inv (draws : nat -> nat -> Q) numAnts iterations : forall n acc,
  antBestInv vehicles locations depot n acc ->
  antBestInv vehicles locations depot (n + length iterations * numAnts)
    (fold_left
       (fun acc iteration =>
          fold_left
            (fun acc ant =>
               AntColony.antBest distances acc
                 (AntColony.constructAntSolution distances vehicles locations depot
                    (draws (iteration * numAnts + ant)%nat)))
            (seq 0 numAnts) acc)
       iterations acc).
Proof.
  induction iterations as [|it iterations IH]; intros n acc H; simpl.
  - rewrite Nat.add_0_r. exact H.
  - replace (n + (numAnts + length iterations * numAnts))%nat
      with ((n + length (seq 0 numAnts)) + length iterations * numAnts)%nat
      by (rewrite length_seq; lia).
    apply IH. apply (ants_inv draws (fun ant => (it * numAnts + ant)%nat)), H.
Qed.

(** X17. Ant Colony never uses a second vehicle. Whatever the ants draw,
    the function returns at most one route; that route is a tour from the
    depot over customers of the instance, each at most once, with orders
    0, 1, 2, ..., driven by the first vehicle of the fleet, and its load is
    the sum of its customers' demands and within that vehicle's capacity.
    It returns no route exactly when there is no vehicle or no customer
    fits the first vehicle. The customers that do not fit the first vehicle
    together are served by no route. *)
Theorem antColony_first_vehicle_only (draws : nat -> nat -> Q) :
  let out := AntColony.antColonyOptimizationVRP calc vehicles locations depot draws in
  (length out <= 1)%nat /\
  (forall r, In r out ->
     firstVehicleTour vehicles locations depot r /\ ordersMatch r) /\
  (out = [] <-> nothingFits vehicles locations depot).
Proof.
  intros out. unfold AntColony.antColonyOptimizationVRP in out. fold distances in out.
  set (n := length (nonDepotOf locations depot)) in *.
  pose proof (iterations_inv draws (AntColony.numAntsOf n)
                (seq 0 (AntColony.numIterationsOf n)) 0 (None, Infinity)) as H.
  rewrite length_seq in H.
  assert (Hpos : (0 < 0 + AntColony.numIterationsOf n * AntColony.numAntsOf n)%nat).
  { unfold AntColony.numIterationsOf, AntColony.numAntsOf. nia. }
  destruct H as [(E & Hn)|(r & c & E & Hr & Hf)].
  { left. split; [reflexivity|]. intros H0. inversion H0. }
  - subst out. rewrite E. simpl. split; [lia|]. split; [intros r []|].
    split; [intros _; apply Hn, Hpos|reflexivity].
  - subst out. rewrite E. simpl. split; [lia|]. split.
    + intros r' [<-|[]]. split; [exact Hr|].
      destruct Hr as (v0 & rest & picked & _ & _ & _ & Hs & _).
      eapply ordersMatch_tour, Hs.
    + split; [discriminate|]. intros Hn. contradiction.
Qed.

End AntColonyTheorems.

(** Two vans of capacity 5 and two customers of demand 5: one customer is
    served, and the second van is not used. *)
Example antColony_sample :
  map (fun r => (vehicle r, map locationId (stops r), totalCapacity r))
    (AntColony.antColonyOptimizationVRP taxicab Genetic.twoVans sampleLocations depotD
       (fun _ _ => 0%Q))
  = [(Some "V1", ["D"; "B"; "D"], 5)].
Proof. vm_compute. reflexivity. Qed.

(** ** The genetic algorithm *)

Section RandomSolutionFacts.
Import ClarkeWright.

Lemma submseteq_NoDup {A} (l k : list A) : l ⊆+ k -> NoDup k -> NoDup l.
Proof.
  intros Hs Hk. apply submseteq_Permutation in Hs as (k' & Hp).
  rewrite Hp in Hk. apply NoDup_app in Hk as (H & _). exact H.
Qed.

Lemma place_vehicles location bins :
  map Genetic.bin_vehicle (Genetic.place location bins) = map Genetic.bin_vehicle bins.
Proof.
  induction bins as [|b bins IH]; simpl; [reflexivity|].
  destruct (_ <=? _); simpl; [reflexivity|]. rewrite IH. reflexivity.
Qed.

Lemma place_length location bins :
  length (Genetic.place location bins) = length bins.
Proof.
  rewrite <- (length_map Genetic.bin_vehicle), place_vehicles, length_map. reflexivity.
Qed.

Lemma place_locations location bins :
  concat (map Genetic.bin_locations (Genetic.place location bins))
  ⊆+ concat (map Genetic.bin_locations bins) ++ [location].
Proof.
  induction bins as [|b bins IH]; simpl; [apply submseteq_nil_l|].
  destruct (_ <=? _); simpl.
  - rewrite <- !app_assoc. apply submseteq_skips_l.
    apply Permutation_submseteq, Permutation_app_comm.
  - rewrite <- app_assoc. apply submseteq_skips_l, IH.
Qed.

Lemma place_inv vehicles seen location bins :
  binsInv vehicles seen bins ->
  binsInv vehicles (seen ++ [location]) (Genetic.place location bins).
Proof.
  intros (Hv & Hall & Hsub). split; [rewrite place_vehicles; exact Hv|]. split.
  - clear Hv Hsub. induction Hall as [|b bins Hb Hrest IH]; simpl; [constructor|].
    destruct (_ <=? _) eqn:E.
    + constructor; [|assumption]. destruct Hb as (Hc & Hu & Hle). simpl.
      apply Z.leb_le in E.
      split; [exact Hc|]. split; [rewrite sumDemand_snoc, Hu; reflexivity|].
      intros _. exact E.
    + constructor; assumption.
  - etransitivity; [apply place_locations|]. apply submseteq_skips_r, Hsub.
Qed.

Lemma fill_inv vehicles locs : forall seen bins,
  binsInv vehicles seen bins ->
  binsInv vehicles (seen ++ locs)
    (fold_left (fun bins location => Genetic.place location bins) locs bins).
Proof.
  induction locs as [|l locs IH]; intros seen bins H; simpl.
  - rewrite app_nil_r. exact H.
  - replace (seen ++ l :: locs) with ((seen ++ [l]) ++ locs)
      by (rewrite <- app_assoc; reflexivity).
    apply IH, place_inv, H.
Qed.

Lemma emptyBins_inv vehicles :
  binsInv vehicles []
    (map (fun v => Genetic.mkBin v [] (js_orZ (capacity v) 0) 0) vehicles).
Proof.
  split; [rewrite map_map; apply map_id|]. split.
  - apply Forall_forall. intros b Hb%list_elem_of_In. apply in_map_iff in Hb as (v & <- & _).
    simpl. repeat split. intros H. contradiction.
  - induction vehicles; simpl; [constructor|assumption].
Qed.

Lemma filter_length_le {A} (p : A -> bool) (l : list A) :
  (length (List.filter p l) <= length l)%nat.
Proof. induction l as [|x l IH]; simpl; [lia|]. destruct (p x); simpl; lia. Qed.

Lemma servedIds_bins distances speedKmh depot bins :
  (forall l, In l (concat (map Genetic.bin_locations bins)) -> loc_id l <> loc_id depot) ->
  servedIds (loc_id depot)
    (map (Genetic.routeOfBin distances speedKmh depot)
         (List.filter (fun b => (0 <? length (Genetic.bin_locations b))%nat) bins))
  = map loc_id (concat (map Genetic.bin_locations bins)).
Proof.
  induction bins as [|b bins IH]; intros H; [reflexivity|].
  simpl in H. simpl List.filter. simpl map at 3. simpl concat. rewrite map_app.
  assert (Hb : forall l, In l (Genetic.bin_locations b) -> loc_id l <> loc_id depot).
  { intros l Hl. apply H, in_or_app. now left. }
  assert (Hr : forall l, In l (concat (map Genetic.bin_locations bins)) ->
                         loc_id l <> loc_id depot).
  { intros l Hl. apply H, in_or_app. now right. }
  destruct (0 <? length (Genetic.bin_locations b))%nat eqn:E.
  - simpl map.
    change (?r :: ?l) with ([r] ++ l) at 1. rewrite servedIds_app, IH by exact Hr.
    f_equal. apply servedIds_tour; [apply routeOfBin_stops|exact Hb].
  - apply Nat.ltb_ge in E. destruct (Genetic.bin_locations b); [|simpl in E; lia].
    simpl. apply IH, Hr.
Qed.

End RandomSolutionFacts.

Section RandomSolutionTours.
Import ClarkeWright.

Variables (distances : DistanceMatrix) (speedKmh : Q) (vehicles : list Vehicle)
          (locations : list Location) (depot : Location).

Lemma nonDepot_customer l :
  In l (nonDepotOf locations depot) -> loc_id l <> loc_id depot.
Proof.
  intros Hl. apply filter_In in Hl as [_ Hl].
  apply negb_true_iff, String.eqb_neq in Hl. exact Hl.
Qed.

Lemma bin_locations_sub (b : Genetic.Bin) bins :
  In b bins -> Genetic.bin_locations b ⊆+ concat (map Genetic.bin_locations bins).
Proof.
  induction bins as [|b' bins IH]; [intros []|]. intros [->|H]; simpl.
  - apply submseteq_inserts_r. reflexivity.
  - apply submseteq_inserts_l, IH, H.
Qed.

Lemma createRandomSolution_tours shuffled :
  Permutation shuffled (nonDepotOf locations depot) ->
  let routes := Genetic.createRandomSolution distances speedKmh vehicles depot shuffled in
  (length routes <= length vehicles)%nat /\
  (forall r, In r routes ->
     vehicleTour vehicles locations depot r /\
     distance r = sumLegs (legOrZero distances) (stops r)) /\
  (NoDup (map loc_id locations) -> servedAtMostOnce (loc_id depot) routes).
Proof.
  intros Hperm routes. unfold Genetic.createRandomSolution in routes.
  set (filled := fold_left _ shuffled _) in routes.
  assert (Hinv : binsInv vehicles shuffled filled).
  { apply (fill_inv vehicles shuffled []), emptyBins_inv. }
  destruct Hinv as (Hv & Hall & Hsub).
  assert (Hin : forall l, In l (concat (map Genetic.bin_locations filled)) ->
                          In l (nonDepotOf locations depot)).
  { intros l Hl%list_elem_of_In. apply (Permutation_in _ Hperm), list_elem_of_In.
    eapply elem_of_submseteq; eassumption. }
  assert (Hnd : NoDup (map loc_id locations) ->
                NoDup (map loc_id (concat (map Genetic.bin_locations filled)))).
  { intros H. eapply submseteq_NoDup; [apply (fmap_submseteq loc_id), Hsub|].
    change (NoDup (map loc_id shuffled)). rewrite Hperm. apply NoDup_map_filter, H. }
  split; [|split].
  - unfold routes. rewrite length_map. etransitivity; [apply filter_length_le|].
    rewrite <- Hv, length_map. reflexivity.
  - intros r Hr. unfold routes in Hr. apply in_map_iff in Hr as (b & <- & Hb).
    apply filter_In in Hb as (Hb & Hne). apply Nat.ltb_lt in Hne.
    rewrite Forall_forall in Hall. destruct (Hall b) as (Hc & Hu & Hle);
      [apply list_elem_of_In, Hb|].
    assert (Hp : Genetic.bin_locations b <> []) by (intros E; rewrite E in Hne; simpl in Hne; lia).
    split; [|simpl; reflexivity].
    exists (Genetic.bin_vehicle b), (Genetic.bin_locations b).
    split; [rewrite <- Hv; apply in_map, Hb|]. split; [reflexivity|].
    split; [apply routeOfBin_stops|]. split; [exact Hp|].
    split; [intros l Hl%list_elem_of_In; apply Hin, list_elem_of_In;
            eapply elem_of_submseteq; [exact Hl|apply bin_locations_sub, Hb]|].
    split; [intros H; eapply submseteq_NoDup;
            [apply (fmap_submseteq loc_id), bin_locations_sub, Hb|apply Hnd, H]|].
    split; [exact Hu|]. split; [rewrite <- Hu, <- Hc; apply Hle, Hp|reflexivity].
  - intros H. unfold servedAtMostOnce, routes. rewrite servedIds_bins; [apply Hnd, H|].
    intros l Hl. apply nonDepot_customer, Hin, Hl.
Qed.

End RandomSolutionTours.

Section SwapTourFacts.

Lemma swapAt_lookup {A} i j k (l : list A) :
  (i < length l)%nat -> (j < length l)%nat ->
  Genetic.swapAt i j l !! k
  = l !! (if decide (k = j) then i else if decide (k = i) then j else k).
Proof.
  intros Hi Hj. unfold Genetic.swapAt.
  destruct (l !! i) as [x|] eqn:Ei; [|apply lookup_ge_None in Ei; lia].
  destruct (l !! j) as [y|] eqn:Ej; [|apply lookup_ge_None in Ej; lia].
  destruct (decide (k = j)) as [->|Hkj].
  - rewrite list_lookup_insert_eq by (rewrite length_insert; exact Hj). congruence.
  - rewrite list_lookup_insert_ne by congruence.
    destruct (decide (k = i)) as [->|Hki].
    + rewrite list_lookup_insert_eq by exact Hi. congruence.
    + rewrite list_lookup_insert_ne by congruence. reflexivity.
Qed.

Lemma swapAt_cons {A} (x : A) l i j :
  Genetic.swapAt (S i) (S j) (x :: l) = x :: Genetic.swapAt i j l.
Proof.
  unfold Genetic.swapAt. simpl. destruct (l !! i); [|reflexivity].
  destruct (l !! j); reflexivity.
Qed.

Lemma swapAt_app_l {A} (l t : list A) i j :
  (i < length l)%nat -> (j < length l)%nat ->
  Genetic.swapAt i j (l ++ t) = Genetic.swapAt i j l ++ t.
Proof.
  intros Hi Hj. unfold Genetic.swapAt. rewrite !lookup_app_l by assumption.
  destruct (l !! i); [|reflexivity]. destruct (l !! j); [|reflexivity].
  rewrite insert_app_l by exact Hi.
  rewrite insert_app_l by (rewrite length_insert; exact Hj). reflexivity.
Qed.

(** Swapping two customers of a tour and renumbering gives the tour of the
    customers swapped. *)
Lemma renumber_swap_tour depot picked i j :
  (i < length picked)%nat -> (j < length picked)%nat ->
  renumber (Genetic.swapAt (i + 1) (j + 1) (tourStops depot picked))
  = tourStops depot (Genetic.swapAt i j picked).
Proof.
  intros Hi Hj. unfold tourStops. rewrite !Nat.add_1_r, swapAt_cons.
  rewrite swapAt_app_l by (rewrite length_imap; assumption).
  unfold renumber. rewrite imap_cons, imap_app. simpl. f_equal.
  rewrite swapAt_length, !length_imap, swapAt_length. f_equal.
  - apply list_eq. intros k. rewrite !list_lookup_imap.
    rewrite !swapAt_lookup by (rewrite ?length_imap; assumption).
    rewrite list_lookup_imap.
    destruct (picked !! _); reflexivity.
  - rewrite Nat.add_0_r. reflexivity.
Qed.

End SwapTourFacts.

Section GeneticFacts.
Import ClarkeWright.

Variables (calc : DistanceKernel) (distances : DistanceMatrix) (speedKmh : Q)
          (vehicles : list Vehicle) (locations : list Location) (depot : Location).

Let good := goodSolution vehicles locations depot.

Lemma vehicleTour_setMetrics r dist dur :
  vehicleTour vehicles locations depot r ->
  vehicleTour vehicles locations depot (setMetrics r dist dur).
Proof. intros (v & picked & H). exists v, picked. exact H. Qed.

Lemma recomputeAll_good solution :
  good solution -> good (recomputeAllRouteMetrics calc distances speedKmh solution).
Proof.
  intros (Hlen & Hall). split.
  - unfold recomputeAllRouteMetrics. rewrite length_map. exact Hlen.
  - intros r Hr. apply in_map_iff in Hr as (r0 & <- & Hr0).
    apply vehicleTour_setMetrics, Hall, Hr0.
Qed.

Lemma crossoverFrom_good coins : forall parent1 parent2 n,
  (length parent1 <= n)%nat -> (length parent2 <= n)%nat ->
  (forall r, In r parent1 -> vehicleTour vehicles locations depot r) ->
  (forall r, In r parent2 -> vehicleTour vehicles locations depot r) ->
  (length (Genetic.crossoverFrom coins parent1 parent2) <= n)%nat /\
  forall r, In r (Genetic.crossoverFrom coins parent1 parent2) ->
            vehicleTour vehicles locations depot r.
Proof.
  induction coins as [|c coins IH]; intros [|r1 p1] [|r2 p2] n L1 L2 H1 H2;
    simpl in *; try (split; [lia|assumption]); try (split; [exact L2|assumption]).
  - revert n L1 L2. revert r1 r2 p2 H1 H2.
    induction p1 as [|a p1 IHp]; intros r1 r2 p2 H1 H2 n L1 L2.
    + simpl. split; [exact L2|]. intros r [<-|Hr]; apply H2; [now left|now right].
    + destruct p2 as [|b p2].
      * simpl. split; [simpl in L1; lia|].
        intros r [<-|Hr]; [apply H2; now left|apply H1; now right].
      * destruct n as [|n]; [simpl in L1; lia|].
        destruct (IHp a b p2) with (n := n) as (Hl & Ha);
          [intros r Hr; apply H1; now right|intros r Hr; apply H2; now right
          |simpl in *; lia|simpl in *; lia|].
        simpl in *. split; [lia|].
        intros r [<-|Hr]; [apply H2; now left|apply Ha, Hr].
  - destruct n as [|n]; [lia|].
    destruct (IH p1 p2 n) as (Hl & Ha);
      [lia|lia|intros r Hr; apply H1; now right|intros r Hr; apply H2; now right|].
    split; [lia|].
    intros r [<-|Hr]; [destruct c; [apply H1|apply H2]; now left|apply Ha, Hr].
Qed.

Lemma crossover_good coins parent1 parent2 :
  good parent1 -> good parent2 ->
  good (Genetic.crossover calc distances speedKmh coins parent1 parent2).
Proof.
  intros (L1 & H1) (L2 & H2). apply recomputeAll_good.
  apply crossoverFrom_good; assumption.
Qed.

Lemma mutate_good u0 u1 u2 solution :
  GeneticSearch.unit u1 -> GeneticSearch.unit u2 ->
  good solution -> good (Genetic.mutate calc distances speedKmh u0 u1 u2 solution).
Proof.
  intros U1 U2 (Hlen & Hall). unfold Genetic.mutate.
  destruct solution as [|r0 rest]; [split; assumption|].
  set (solution := r0 :: rest) in *.
  destruct (solution !! Genetic.randomIndex u0 (length solution)) as [route|] eqn:E;
    [|split; assumption].
  destruct (3 <? length (stops route))%nat eqn:E3; [|split; assumption].
  destruct (Nat.eqb _ _); [split; assumption|].
  apply Nat.ltb_lt in E3.
  split; [rewrite length_insert; exact Hlen|].
  intros r Hr%list_elem_of_In. apply list_elem_of_lookup in Hr as (n & Hn).
  destruct (decide (n = Genetic.randomIndex u0 (length solution))) as [->|Hne].
  - rewrite list_lookup_insert_eq in Hn by (eapply lookup_lt_Some, E).
    injection Hn as <-. unfold recomputeRouteMetricsInline. apply vehicleTour_setMetrics.
    destruct (Hall route) as (v & picked & Hv & Hveh & Hs & Hp & Hin & Hnd & Ht & Hcap & Hex);
      [apply list_elem_of_In; eapply list_elem_of_lookup_2, E|].
    assert (Hl : length (stops route) = (length picked + 2)%nat).
    { rewrite Hs. unfold tourStops. simpl. rewrite length_app, length_imap. simpl. lia. }
    rewrite Hl in *. replace (length picked + 2 - 2)%nat with (length picked) by lia.
    pose proof (randomIndex_lt u1 (length picked) U1 ltac:(lia)) as B1.
    pose proof (randomIndex_lt u2 (length picked) U2 ltac:(lia)) as B2.
    set (i := Genetic.randomIndex u1 (length picked)) in *.
    set (j := Genetic.randomIndex u2 (length picked)) in *.
    pose proof (swapAt_perm i j picked) as Hperm.
    exists v, (Genetic.swapAt i j picked). simpl.
    split; [exact Hv|]. split; [exact Hveh|].
    split; [rewrite Hs; apply renumber_swap_tour; assumption|].
    split; [intros E0; apply (f_equal (@length _)) in E0;
            rewrite swapAt_length in E0; simpl in E0; lia|].
    split; [intros l Hl'; apply Hin; eapply Permutation_in; eassumption|].
    split; [intros H; change (NoDup (map loc_id (Genetic.swapAt i j picked)));
            rewrite Hperm; apply Hnd, H|].
    assert (Hsum : sumDemand (Genetic.swapAt i j picked) = sumDemand picked).
    { unfold sumDemand. apply sum_perm, Permutation_map, Hperm. }
    rewrite Hsum. auto.
  - rewrite list_lookup_insert_ne in Hn by congruence.
    apply Hall, list_elem_of_In. eapply list_elem_of_lookup_2, Hn.
Qed.

End GeneticFacts.

Section SelectionFacts.

Variables (calc : DistanceKernel) (distances : DistanceMatrix) (speedKmh : Q)
          (vehicles : list Vehicle) (locations : list Location) (depot : Location).

Let good := goodSolution vehicles locations depot.
Let cost := calculateTotalCost distances.

Lemma cheaper_pick a b :
  let c := if GeneticSearch.cheaper distances a b then a else b in
  (c = a \/ c = b) /\ (cost c <= cost a)%Q /\ (cost c <= cost b)%Q.
Proof.
  unfold GeneticSearch.cheaper. fold cost.
  destruct (Qlt_le_dec (cost a) (cost b)) as [H|H]; simpl.
  - split; [now left|]. split; [apply Qle_refl|apply Qlt_le_weak, H].
  - split; [now right|]. split; [exact H|apply Qle_refl].
Qed.

Lemma fittest_fold others : forall first,
  let best := fold_left
                (fun best current =>
                   if GeneticSearch.cheaper distances current best then current else best)
                others first in
  In best (first :: others) /\
  forall x, In x (first :: others) -> (cost best <= cost x)%Q.
Proof.
  induction others as [|o others IH]; intros first; simpl.
  - split; [now left|]. intros x [<-|[]]. apply Qle_refl.
  - destruct (cheaper_pick o first) as (Hc & Ho & Hf).
    set (c := if GeneticSearch.cheaper distances o first then o else first) in *.
    destruct (IH c) as (Hin & Hmin). simpl in Hin, Hmin. split.
    + destruct Hin as [Hin|Hin]; [|right; right; exact Hin].
      rewrite <- Hin. destruct Hc as [->| ->]; [right; now left|now left].
    + intros x [<-|[<-|Hx]].
      * eapply Qle_trans; [apply Hmin; now left|exact Hf].
      * eapply Qle_trans; [apply Hmin; now left|exact Ho].
      * apply Hmin. right. exact Hx.
Qed.

Lemma fittest_spec population :
  population <> [] ->
  exists best, GeneticSearch.fittest distances population = Some best /\
               In best population /\
               forall x, In x population -> (cost best <= cost x)%Q.
Proof.
  destruct population as [|first others]; [congruence|]. intros _.
  eexists. split; [reflexivity|]. apply fittest_fold.
Qed.

Lemma randomIndex_lookup {A} (l : list A) u :
  GeneticSearch.unit u -> l <> [] ->
  exists x, l !! Genetic.randomIndex u (length l) = Some x /\ In x l.
Proof.
  intros U Hne.
  assert (Hlt : (Genetic.randomIndex u (length l) < length l)%nat).
  { apply randomIndex_lt; [exact U|]. destruct l; [congruence|simpl; lia]. }
  apply lookup_lt_is_Some in Hlt as (x & Hx). exists x. split; [exact Hx|].
  apply list_elem_of_In. eapply list_elem_of_lookup_2, Hx.
Qed.

Lemma tournamentSelection_spec population us :
  GeneticSearch.unit3 us -> population <> [] ->
  exists s, GeneticSearch.tournamentSelection distances population us = Some s /\
            In s population.
Proof.
  destruct us as [[ua ub] uc]. intros (Ua & Ub & Uc) Hne. simpl in Ua, Ub, Uc.
  unfold GeneticSearch.tournamentSelection.
  destruct (randomIndex_lookup population ua Ua Hne) as (a & -> & Ha).
  destruct (randomIndex_lookup population ub Ub Hne) as (b & Eb & Hb).
  destruct (randomIndex_lookup population uc Uc Hne) as (c & Ec & Hc).
  simpl. rewrite Eb, Ec. eexists. split; [reflexivity|].
  destruct (GeneticSearch.cheaper distances b a);
    destruct (GeneticSearch.cheaper distances c _); assumption.
Qed.

Lemma offspring_good population b :
  GeneticSearch.unitBrood b -> population <> [] ->
  (forall s, In s population -> good s) ->
  exists child,
    GeneticSearch.offspring calc distances speedKmh population b = Some child /\
    good child.
Proof.
  intros (U1 & U2 & U3) Hne Hall. unfold GeneticSearch.offspring.
  destruct (tournamentSelection_spec population _ U1 Hne) as (p1 & -> & H1).
  destruct (tournamentSelection_spec population _ U2 Hne) as (p2 & -> & H2).
  eexists. split; [reflexivity|].
  assert (Hchild : good (if Qlt_le_dec (GeneticSearch.crossoverDraw b)
                                       GeneticSearch.crossoverRate
                         then Genetic.crossover calc distances speedKmh
                                (GeneticSearch.coins b) p1 p2
                         else p1)).
  { destruct (Qlt_le_dec _ _); [apply crossover_good|]; apply Hall; assumption. }
  destruct (Qlt_le_dec (GeneticSearch.mutationDraw b) _); [|exact Hchild].
  destruct (GeneticSearch.swapDraws b) as [[u0 u1] u2] eqn:Es.
  destruct U3 as (_ & U31 & U32). simpl in U31, U32.
  apply mutate_good; assumption.
Qed.

Lemma allSome_Forall {A B} (f : A -> option B) (P : B -> Prop) l :
  (forall a, In a l -> exists b, f a = Some b /\ P b) ->
  exists bs, Tabu.allSome (map f l) = Some bs /\ forall b, In b bs -> P b.
Proof.
  induction l as [|a l IH]; intros H; simpl.
  - exists []. split; [reflexivity|]. intros b [].
  - destruct (H a (or_introl eq_refl)) as (b & -> & Hb).
    destruct IH as (bs & -> & Hbs); [intros x Hx; apply H; now right|].
    exists (b :: bs). split; [reflexivity|]. intros x [<-|Hx]; [exact Hb|apply Hbs, Hx].
Qed.

Lemma generation_inv populationSize draws bound st :
  (forall k, GeneticSearch.unitBrood (draws k)) ->
  evolveInv distances vehicles locations depot bound st ->
  exists st',
    GeneticSearch.generation calc distances speedKmh populationSize draws st = Some st' /\
    evolveInv distances vehicles locations depot bound st'.
Proof.
  intros Hd (Hne & Hpop & Hbest & Hcost). destruct st as [population best].
  simpl in *. unfold GeneticSearch.generation.
  destruct (allSome_Forall
              (fun k => GeneticSearch.offspring calc distances speedKmh population (draws k))
              good (seq 0 (populationSize - 1))) as (children & -> & Hch).
  { intros k _. apply offspring_good; [apply Hd|exact Hne|exact Hpop]. }
  cbv zeta. simpl GeneticSearch.fittest. cbv iota.
  destruct (fittest_fold children best) as (Hin & Hmin).
  set (cb := fold_left _ children best) in *.
  eexists. split; [reflexivity|].
  assert (Hnew : forall s, In s (best :: children) -> good s).
  { intros s [<-|Hs]; [exact Hbest|apply Hch, Hs]. }
  split; [discriminate|]. split; [exact Hnew|]. simpl.
  destruct (cheaper_pick cb best) as (Hc & _ & Hle).
  split.
  - destruct Hc as [-> | ->]; [apply Hnew, Hin|exact Hbest].
  - eapply Qle_trans; [exact Hle|exact Hcost].
Qed.

End SelectionFacts.

Section EvolveFacts.

Variables (calc : DistanceKernel) (distances : DistanceMatrix)
          (vehicles : list Vehicle) (locations : list Location) (depot : Location).

Lemma evolve_inv populationSize (draws : nat -> nat -> GeneticSearch.Brood) bound
    generations : forall st,
  (forall g k, GeneticSearch.unitBrood (draws g k)) ->
  evolveInv distances vehicles locations depot bound st ->
  exists st',
    GeneticSearch.evolve calc distances populationSize draws generations (Some st)
    = Some st' /\
    evolveInv distances vehicles locations depot bound st'.
Proof.
  unfold GeneticSearch.evolve.
  induction generations as [|g generations IH]; intros st Hd Hst; simpl.
  - exists st. split; [reflexivity|exact Hst].
  - destruct (generation_inv calc distances SPEED_KMH vehicles locations depot
                populationSize (draws g) bound st (Hd g) Hst) as (st1 & -> & H1).
    apply IH; assumption.
Qed.

End EvolveFacts.

Section GeneticTheorems.
Import ClarkeWright.

Variables (calc : DistanceKernel) (vehicles : list Vehicle)
          (locations : list Location) (depot : Location).

Let distances : DistanceMatrix := buildDistances calc locations.
Let nonDepot : list Location := nonDepotOf locations depot.

(** X18. A random solution of the genetic algorithm, for any order in which
    the random sort leaves the customers: it has at most one route for each
    vehicle record (a record's count is not used); each route is a tour from
    the depot over customers of the instance on one of the vehicle records,
    its load is the sum of its customers' demands and within that vehicle's
    capacity, its distance is the sum of the matrix entries along the tour,
    and the orders read 0, 1, 2, ...; no customer is on two routes when the
    ids are distinct. *)
Theorem createRandomSolution_routes (speedKmh : Q) (shuffled : list Location) :
  Permutation shuffled nonDepot ->
  let routes := Genetic.createRandomSolution distances speedKmh vehicles depot shuffled in
  (length routes <= length vehicles)%nat /\
  (forall r, In r routes ->
     vehicleTour vehicles locations depot r /\ ordersMatch r /\
     distance r = sumLegs (legOrZero distances) (stops r)) /\
  (NoDup (map loc_id locations) -> servedAtMostOnce (loc_id depot) routes).
Proof.
  intros Hperm routes.
  destruct (createRandomSolution_tours distances speedKmh vehicles locations depot
              shuffled Hperm) as (Hlen & Hall & Hnd).
  split; [exact Hlen|]. split; [|exact Hnd].
  intros r Hr. destruct (Hall r Hr) as (Ht & Hd). split; [exact Ht|]. split; [|exact Hd].
  destruct Ht as (v & picked & _ & _ & Hs & _). eapply ordersMatch_tour, Hs.
Qed.


End GeneticTheorems.

Lemma zeroBrood_unit : GeneticSearch.unitBrood zeroBrood.
Proof. repeat split; vm_compute; congruence. Qed.

Lemma createRandomSolution_routes_witness :
  let routes :=
    Genetic.createRandomSolution (buildDistances taxicab sampleLocations) SPEED_KMH
      Genetic.twoVans depotD [customerB; customerA] in
  (length routes <= length Genetic.twoVans)%nat /\
  (forall r, In r routes ->
     vehicleTour Genetic.twoVans sampleLocations depotD r /\ ordersMatch r /\
     distance r = sumLegs (legOrZero (buildDistances taxicab sampleLocations)) (stops r)) /\
  (NoDup (map loc_id sampleLocations) -> servedAtMostOnce (loc_id depotD) routes).
Proof.
  apply (createRandomSolution_routes taxicab Genetic.twoVans sampleLocations depotD
           SPEED_KMH [customerB; customerA]).
  apply perm_swap.
Defined.


(** The sample instance with every draw 0: the two customers on a van each. *)
Example geneticAlgorithm_sample :
  option_map (map (fun r => (vehicle r, map locationId (stops r), totalCapacity r)))
    (GeneticSearch.geneticAlgorithmVRP taxicab Genetic.twoVans sampleLocations depotD
       (fun _ => [customerA; customerB]) (fun _ _ => zeroBrood))
  = Some [(Some "V1", ["D"; "A"; "D"], 5); (Some "V2", ["D"; "B"; "D"], 5)].
Proof. vm_compute. reflexivity. Qed.

(** ** The distance kernel: symmetry *)

Section GeoRange.
Import Geo.
Local Open Scope R_scope.

(** The haversine term lies between 0 and 1 for all real arguments: it is a
    mean of [sin² u] and [cos² w], for the half difference [u] and the half
    sum [w] of the latitudes, weighted by [sin²] of half the difference of
    the longitudes. *)
Lemma haversine_unit lat1 lon1 lat2 lon2 : 0 <= haversine lat1 lon1 lat2 lon2 <= 1.
Proof.
  unfold haversine.
  set (p1 := radians lat1). set (p2 := radians lat2).
  set (t := Rtrigo_def.sin ((radians lon2 - radians lon1) / 2)).
  set (u := (p2 - p1) / 2). set (w := (p2 + p1) / 2).
  assert (E1 : p1 = w - u) by (unfold w, u; field).
  assert (E2 : p2 = w + u) by (unfold w, u; field).
  pose proof (sin2_cos2 u) as Su. pose proof (sin2_cos2 w) as Sw.
  pose proof (sin2_cos2 ((radians lon2 - radians lon1) / 2)) as St. fold t in St.
  unfold Rsqr in *.
  assert (Hcc : Rtrigo_def.cos p1 * Rtrigo_def.cos p2
                = Rtrigo_def.cos w * Rtrigo_def.cos w - Rtrigo_def.sin u * Rtrigo_def.sin u).
  { rewrite E1, E2, cos_minus, cos_plus. nra. }
  rewrite Hcc.
  set (a := Rtrigo_def.sin u * Rtrigo_def.sin u) in *.
  set (b := Rtrigo_def.cos w * Rtrigo_def.cos w) in *.
  set (s := t * t) in *.
  assert (Ht0 : 0 <= s) by (unfold s; nra). assert (Ht1 : s <= 1) by nra.
  assert (Hs0 : 0 <= a) by (unfold a; nra). assert (Hs1 : a <= 1) by nra.
  assert (Hc0 : 0 <= b) by (unfold b; nra). assert (Hc1 : b <= 1) by nra.
  replace (a + (b - a) * s) with (a * (1 - s) + b * s) by ring.
  assert (P1 : 0 <= a * (1 - s)) by (apply Rmult_le_pos; lra).
  assert (P2 : 0 <= b * s) by (apply Rmult_le_pos; lra).
  assert (P3 : 0 <= (1 - a) * (1 - s)) by (apply Rmult_le_pos; lra).
  assert (P4 : 0 <= (1 - b) * s) by (apply Rmult_le_pos; lra).
  split; lra.
Qed.

Lemma haversine_sym lat1 lon1 lat2 lon2 :
  haversine lat1 lon1 lat2 lon2 = haversine lat2 lon2 lat1 lon1.
Proof.
  unfold haversine.
  replace ((radians lat1 - radians lat2) / 2) with (- ((radians lat2 - radians lat1) / 2))
    by field.
  replace ((radians lon1 - radians lon2) / 2) with (- ((radians lon2 - radians lon1) / 2))
    by field.
  rewrite !sin_neg, <- !Rsqr_neg. ring.
Qed.

(** The closed form of the result for all finite coordinates. *)
Lemma calculateDistance_real (lat1 lon1 lat2 lon2 : Q) :
  calculateDistance (Num lat1) (Num lon1) (Num lat2) (Num lon2) =
  Real (roundToMetres (greatCircleKm (Q2R lat1) (Q2R lon1) (Q2R lat2) (Q2R lon2))).
Proof.
  pose proof (haversine_unit (Q2R lat1) (Q2R lon1) (Q2R lat2) (Q2R lon2)) as [Hh0 Hh1].
  unfold calculateDistance. cbv zeta. simpl ofCoordinate. simpl isNaN. simpl orb. cbv iota.
  set (x1 := Q2R lat1) in *. set (y1 := Q2R lon1) in *.
  set (x2 := Q2R lat2) in *. set (y2 := Q2R lon2) in *.
  assert (Ha :
    add (square (sin (divBy (toRad (sub (Real x2) (Real x1))) 2)))
        (mul (mul (cos (toRad (Real x1))) (cos (toRad (Real x2))))
             (square (sin (divBy (toRad (sub (Real y2) (Real y1))) 2))))
    = Real (haversine x1 y1 x2 y2)).
  { simpl. f_equal. unfold haversine, radians, Rsqr.
    replace ((x2 + - x1) * PI * / 180 * / 2) with ((x2 * PI / 180 - x1 * PI / 180) / 2) by field.
    replace ((y2 + - y1) * PI * / 180 * / 2) with ((y2 * PI / 180 - y1 * PI / 180) / 2) by field.
    replace (x1 * PI * / 180) with (x1 * PI / 180) by field.
    replace (x2 * PI * / 180) with (x2 * PI / 180) by field.
    reflexivity. }
  rewrite Ha. set (h := haversine x1 y1 x2 y2) in *.
  rewrite sqrt_real by exact Hh0.
  change (sub (Real 1) (Real h)) with (Real (1 + - h)).
  rewrite sqrt_real by lra.
  simpl. f_equal. unfold roundToMetres, greatCircleKm. fold h.
  replace (1 + - h) with (1 - h) by ring.
  rewrite atan2_asin by (split; assumption).
  unfold Rdiv. reflexivity.
Qed.

Lemma coordinate_cases (c : Coordinate) :
  (exists q, c = Num q) \/ isNaNCoordinate c = true \/
  (isNaNCoordinate c = false /\ isInfinite c = true).
Proof. destruct c; eauto. Qed.

(** Every result is 0 (a NaN coordinate), NaN (an infinite coordinate and
    no NaN) or the closed form. *)
Lemma calculateDistance_cases lat1 lon1 lat2 lon2 :
  (calculateDistance lat1 lon1 lat2 lon2 = Real 0 /\
   calculateDistance lat2 lon2 lat1 lon1 = Real 0) \/
  (calculateDistance lat1 lon1 lat2 lon2 = NotANumber /\
   calculateDistance lat2 lon2 lat1 lon1 = NotANumber) \/
  (exists a1 o1 a2 o2, lat1 = Num a1 /\ lon1 = Num o1 /\ lat2 = Num a2 /\ lon2 = Num o2).
Proof.
  destruct (isNaNCoordinate lat1 || isNaNCoordinate lon1
            || isNaNCoordinate lat2 || isNaNCoordinate lon2)%bool eqn:En.
  { left. split; apply calculateDistance_nan; [exact En|].
    destruct (isNaNCoordinate lat1), (isNaNCoordinate lon1),
      (isNaNCoordinate lat2), (isNaNCoordinate lon2); simpl in *; congruence. }
  apply orb_false_elim in En as [En N4]. apply orb_false_elim in En as [En N3].
  apply orb_false_elim in En as [N1 N2].
  destruct (isInfinite lat1 || isInfinite lon1 || isInfinite lat2 || isInfinite lon2)%bool
    eqn:Ei.
  { right. left. split; apply calculateDistance_infinite; try assumption.
    destruct (isInfinite lat1), (isInfinite lon1), (isInfinite lat2), (isInfinite lon2);
      simpl in *; congruence. }
  right. right.
  apply orb_false_elim in Ei as [Ei I4]. apply orb_false_elim in Ei as [Ei I3].
  apply orb_false_elim in Ei as [I1 I2].
  destruct lat1, lon1, lat2, lon2; try discriminate. eauto 10.
Qed.

End GeoRange.

Section GeoTheorems.
Import Geo.
Local Open Scope R_scope.

(** X20. The distance does not depend on the direction: for all
    coordinates, numbers or not, the distance from the first point to the
    second is the distance from the second to the first. *)
Theorem calculateDistance_symmetric (lat1 lon1 lat2 lon2 : Coordinate) :
  calculateDistance lat1 lon1 lat2 lon2 = calculateDistance lat2 lon2 lat1 lon1.
Proof.
  destruct (calculateDistance_cases lat1 lon1 lat2 lon2)
    as [(E1 & E2)|[(E1 & E2)|(a1 & o1 & a2 & o2 & -> & -> & -> & ->)]];
    [congruence|congruence|].
  rewrite !calculateDistance_real. unfold greatCircleKm.
  rewrite haversine_sym. reflexivity.
Qed.

End GeoTheorems.

Section GeoGuard.
Import Geo.

(** X31. What the guard of [calculateDistance] catches: with a NaN among the
    four coordinates the result is 0; with no NaN but an infinity among
    them the guard does not fire and the result is NaN, whatever the other
    coordinates are. *)
Theorem calculateDistance_not_finite (lat1 lon1 lat2 lon2 : Coordinate) :
  (isNaNCoordinate lat1 || isNaNCoordinate lon1
   || isNaNCoordinate lat2 || isNaNCoordinate lon2 = true ->
   calculateDistance lat1 lon1 lat2 lon2 = Real 0) /\
  (isNaNCoordinate lat1 || isNaNCoordinate lon1
   || isNaNCoordinate lat2 || isNaNCoordinate lon2 = false ->
   isInfinite lat1 || isInfinite lon1 || isInfinite lat2 || isInfinite lon2 = true ->
   calculateDistance lat1 lon1 lat2 lon2 = NotANumber).
Proof.
  split; [apply calculateDistance_nan|].
  intros Hn Hi.
  apply orb_false_elim in Hn as [Hn N4]. apply orb_false_elim in Hn as [Hn N3].
  apply orb_false_elim in Hn as [N1 N2].
  apply calculateDistance_infinite; assumption.
Qed.

End GeoGuard.

Lemma calculateDistance_not_finite_witness :
  Geo.calculateDistance (Num 1) NaN (Num 0) PosInfinity = Geo.Real 0 /\
  Geo.calculateDistance (Num 1) NegInfinity (Num 0) PosInfinity = Geo.NotANumber.
Proof.
  split.
  - apply (proj1 (calculateDistance_not_finite (Num 1) NaN (Num 0) PosInfinity)).
    reflexivity.
  - apply (proj2 (calculateDistance_not_finite (Num 1) NegInfinity (Num 0) PosInfinity));
      reflexivity.
Defined.

(** ** The savings phase leaves nothing to merge *)

Section TourShape.

Variable depot : Location.

Lemma tourStops_length picked : length (tourStops depot picked) = (length picked + 2)%nat.
Proof. unfold tourStops. simpl. rewrite length_app, length_imap. simpl. lia. Qed.

Lemma tourStops_lookup picked k l :
  picked !! k = Some l -> tourStops depot picked !! S k = Some (stopOf l (S k)).
Proof.
  intros H. unfold tourStops. simpl.
  rewrite lookup_app_l by (rewrite length_imap; eapply lookup_lt_Some, H).
  rewrite list_lookup_imap, H. reflexivity.
Qed.

Lemma firstCustomer_tour r picked l :
  stops r = tourStops depot picked -> head picked = Some l ->
  firstCustomer r = Some (loc_id l).
Proof.
  intros Hs Hh. unfold firstCustomer. rewrite Hs.
  rewrite (tourStops_lookup picked 0 l); [reflexivity|].
  rewrite <- head_lookup. exact Hh.
Qed.

Lemma lastCustomer_tour r picked l :
  stops r = tourStops depot picked -> last picked = Some l ->
  lastCustomer r = Some (loc_id l).
Proof.
  intros Hs Hl. unfold lastCustomer. rewrite Hs, tourStops_length.
  rewrite last_lookup in Hl.
  assert (Hne : (0 < length picked)%nat).
  { destruct picked; [discriminate|simpl; lia]. }
  replace (length picked + 2 - 2)%nat with (S (Nat.pred (length picked))) by lia.
  rewrite (tourStops_lookup picked _ l Hl). reflexivity.
Qed.

Lemma head_is_Some {A} (l : list A) : l <> [] -> exists x, head l = Some x.
Proof. destruct l; [congruence|eauto]. Qed.

Lemma last_is_Some {A} (l : list A) : l <> [] -> exists x, last l = Some x.
Proof.
  intros H. destruct (exists_last H) as (l' & x & ->). exists x. apply last_snoc.
Qed.

Lemma head_app_ne {A} (l t : list A) : l <> [] -> head (l ++ t) = head l.
Proof. destruct l; [congruence|reflexivity]. Qed.

Lemma last_app_ne {A} (l t : list A) : t <> [] -> last (l ++ t) = last t.
Proof.
  intros H. destruct (exists_last H) as (t' & x & ->).
  rewrite app_assoc, !last_snoc. reflexivity.
Qed.

Lemma head_In {A} (l : list A) x : head l = Some x -> In x l.
Proof. destruct l; [discriminate|]. intros [= ->]. now left. Qed.

Lemma last_In {A} (l : list A) x : last l = Some x -> In x l.
Proof.
  intros H. rewrite last_lookup in H. apply list_elem_of_In.
  eapply list_elem_of_lookup_2, H.
Qed.

End TourShape.

Section FindFacts.
Import ClarkeWright.

Lemma findIndex_first {A} (p : A -> bool) (l : list A) : forall k a,
  l !! k = Some a -> p a = true ->
  (forall j b, (j < k)%nat -> l !! j = Some b -> p b = false) ->
  findIndex p l = Some k.
Proof.
  induction l as [|x l IH]; intros k a Hk Ha Hbefore; [destruct k; discriminate|].
  simpl. destruct k as [|k].
  - simpl in Hk. injection Hk as ->. rewrite Ha. reflexivity.
  - rewrite (Hbefore 0%nat x) by (simpl; first [lia|reflexivity]).
    rewrite (IH k a Hk Ha); [reflexivity|].
    intros j b Hj Hb. apply (Hbefore (S j) b); [lia|exact Hb].
Qed.

Lemma findIndex_none {A} (p : A -> bool) (l : list A) :
  (forall b, In b l -> p b = false) -> findIndex p l = None.
Proof.
  induction l as [|x l IH]; intros H; [reflexivity|]. simpl.
  rewrite (H x) by now left. rewrite IH; [reflexivity|].
  intros b Hb. apply H. now right.
Qed.

Lemma findIndex_sound {A} (p : A -> bool) (l : list A) : forall k,
  findIndex p l = Some k -> exists a, l !! k = Some a /\ p a = true.
Proof.
  induction l as [|x l IH]; intros k H; [discriminate|]. simpl in H.
  destruct (p x) eqn:E.
  - injection H as <-. exists x. split; [reflexivity|exact E].
  - destruct (findIndex p l) as [k'|]; [|discriminate]. injection H as <-.
    destruct (IH k' eq_refl) as (a & Ha & Hp). exists a. split; assumption.
Qed.

Lemma find_sound routes x : forall ri si,
  findRouteIndexByLocation routes x = Some (ri, si) ->
  exists r st, routes !! ri = Some r /\ stops r !! si = Some st /\ locationId st = x.
Proof.
  induction routes as [|rt rest IH]; intros ri si H; [discriminate|]. simpl in H.
  destruct (findIndex _ (stops rt)) as [k|] eqn:E.
  - injection H as <- <-. apply findIndex_sound in E as (st & Hst & Hp).
    apply String.eqb_eq in Hp. exists rt, st. auto.
  - destruct (findRouteIndexByLocation rest x) as [[ri' si']|]; [|discriminate].
    injection H as <- <-. destruct (IH ri' si' eq_refl) as (r & st & Hr & Hst & Hid).
    exists r, st. auto.
Qed.

Variable depot : Location.

(** The index of a customer among the stops of a tour. *)
Lemma findIndex_tour picked k l :
  NoDup (map loc_id picked) -> picked !! k = Some l -> loc_id l <> loc_id depot ->
  findIndex (fun s => String.eqb (locationId s) (loc_id l)) (tourStops depot picked)
  = Some (S k).
Proof.
  intros Hnd Hk Hd.
  apply (findIndex_first _ _ (S k) (stopOf l (S k))).
  - apply tourStops_lookup, Hk.
  - simpl. apply String.eqb_refl.
  - intros j b Hj Hb. destruct j as [|j].
    + unfold tourStops in Hb. simpl in Hb. injection Hb as <-. simpl.
      apply String.eqb_neq. congruence.
    + assert (Hjk : (j < length picked)%nat) by (apply lookup_lt_Some in Hk; lia).
      apply lookup_lt_is_Some in Hjk as (l' & Hl').
      rewrite (tourStops_lookup depot picked j l' Hl') in Hb. injection Hb as <-. simpl.
      apply String.eqb_neq. intros E.
      assert (Hjk' : j = k).
      { eapply (NoDup_lookup (map loc_id picked)); [exact Hnd| |].
        - rewrite list_lookup_fmap, Hl'. reflexivity.
        - change (map loc_id picked !! k) with ((loc_id <$> picked) !! k).
          rewrite list_lookup_fmap, Hk. simpl. congruence. }
      lia.
Qed.

Lemma findIndex_tour_none picked x :
  x <> loc_id depot -> ~ In x (map loc_id picked) ->
  findIndex (fun s => String.eqb (locationId s) x) (tourStops depot picked) = None.
Proof.
  intros Hd Hx. apply findIndex_none. intros b Hb. apply String.eqb_neq. intros E.
  unfold tourStops in Hb. destruct Hb as [<-|Hb]; [simpl in E; congruence|].
  apply in_app_or in Hb as [Hb|[<-|[]]]; [|simpl in E; congruence].
  apply list_elem_of_In, elem_of_lookup_imap_1 in Hb as (i & l & -> & Hl).
  apply Hx. simpl in E. rewrite <- E. apply in_map, list_elem_of_In.
  eapply list_elem_of_lookup_2, Hl.
Qed.

End FindFacts.

Section SavingsMaximalFacts.
Import ClarkeWright.

Variables (calc : DistanceKernel) (distances : DistanceMatrix) (speedKmh : Q)
          (maxCapacity : Z) (depot : Location) (customers : list Location).

Hypothesis customers_not_depot : forall l, In l customers -> loc_id l <> loc_id depot.
Hypothesis demands_nonneg : forall l, In l customers -> 0 <= js_orZ (loc_demand l) 0.

Let isTour (r : Route) : Prop :=
  exists picked,
    picked <> [] /\ (forall l, In l picked -> In l customers) /\
    stops r = tourStops depot picked /\ vehicle r = None /\ capacityExceeded r = None.

Let Inv (routes : list Route) : Prop :=
  (forall r, In r routes -> isTour r) /\
  (forall r, In r routes -> gated maxCapacity r) /\
  NoDup (servedIds (loc_id depot) routes).

Lemma mergeStep_Inv routes s :
  Inv routes -> Inv (mergeStep calc distances speedKmh maxCapacity routes s).
Proof.
  intros (Ht & Hg & Hnd).
  destruct (mergeStep_partition calc distances speedKmh maxCapacity depot customers
              customers_not_depot routes s Ht) as (Ht' & Hp).
  split; [exact Ht'|]. split; [apply mergeStep_gated, Hg|]. rewrite Hp. exact Hnd.
Qed.

Lemma gated_tour_load r picked :
  gated maxCapacity r -> stops r = tourStops depot picked ->
  totalCapacity r = sumDemand picked.
Proof. intros (_ & Hd & _) Hs. rewrite Hd, Hs. apply demandOf_tour. Qed.

Lemma sumDemand_nonneg picked :
  (forall l, In l picked -> In l customers) -> 0 <= sumDemand picked.
Proof.
  induction picked as [|l picked IH]; intros H; [unfold sumDemand; simpl; lia|].
  rewrite sumDemand_cons.
  pose proof (demands_nonneg l (H l (or_introl eq_refl))).
  assert (0 <= sumDemand picked) by (apply IH; intros x Hx; apply H; now right). lia.
Qed.

Lemma served_of_tour r picked :
  stops r = tourStops depot picked -> (forall l, In l picked -> In l customers) ->
  servedIds (loc_id depot) [r] = map loc_id picked.
Proof.
  intros Hs Hc. apply servedIds_tour; [exact Hs|].
  intros l Hl. apply customers_not_depot, Hc, Hl.
Qed.

Lemma served_member routes q x :
  In q routes -> In x (servedIds (loc_id depot) [q]) ->
  In x (servedIds (loc_id depot) routes).
Proof.
  intros Hq Hx. rewrite servedIds_flat. apply in_flat_map. exists q. split; assumption.
Qed.

Lemma nodup_distinct routes p q x :
  NoDup (servedIds (loc_id depot) routes) -> In p routes -> In q routes ->
  In x (servedIds (loc_id depot) [p]) -> In x (servedIds (loc_id depot) [q]) -> p = q.
Proof.
  induction routes as [|a rest IH]; intros Hnd Hp Hq Hxp Hxq; [destruct Hp|].
  change (a :: rest) with ([a] ++ rest) in Hnd. rewrite servedIds_app in Hnd.
  apply NoDup_app in Hnd as (_ & Hdis & Hrest).
  destruct Hp as [<-|Hp], Hq as [<-|Hq]; [reflexivity| | |apply IH; assumption]; exfalso.
  - apply (Hdis x); apply list_elem_of_In; [exact Hxp|]. eapply served_member; eassumption.
  - apply (Hdis x); apply list_elem_of_In; [exact Hxq|]. eapply served_member; eassumption.
Qed.

Lemma tour_NoDup routes r picked :
  NoDup (servedIds (loc_id depot) routes) -> In r routes ->
  stops r = tourStops depot picked -> (forall l, In l picked -> In l customers) ->
  NoDup (map loc_id picked).
Proof.
  intros Hnd Hr Hs Hc. rewrite <- (served_of_tour r picked Hs Hc).
  apply in_split in Hr as (l1 & l2 & ->).
  change (l1 ++ r :: l2) with (l1 ++ [r] ++ l2) in Hnd.
  rewrite !servedIds_app in Hnd.
  apply NoDup_app in Hnd as (_ & _ & Hnd). apply NoDup_app in Hnd as (Hnd & _). exact Hnd.
Qed.

(** Where the search for a customer of a route ends. *)
Lemma find_customer routes :
  (forall r, In r routes -> isTour r) -> NoDup (servedIds (loc_id depot) routes) ->
  forall r picked k l,
    In r routes -> stops r = tourStops depot picked ->
    (forall l, In l picked -> In l customers) -> picked !! k = Some l ->
    exists ri, findRouteIndexByLocation routes (loc_id l) = Some (ri, S k) /\
               routes !! ri = Some r.
Proof.
  induction routes as [|rt rest IH]; intros Ht Hnd r picked k l Hr Hs Hc Hk; [destruct Hr|].
  assert (Hl : In l picked) by (apply list_elem_of_In; eapply list_elem_of_lookup_2, Hk).
  assert (Hx : In (loc_id l) (servedIds (loc_id depot) [r])).
  { rewrite (served_of_tour r picked Hs Hc). apply in_map, Hl. }
  simpl.
  destruct (Ht rt (or_introl eq_refl)) as (pt & _ & Hct & Hst & _).
  destruct (in_dec string_dec (loc_id l) (map loc_id pt)) as [Hin|Hnin].
  - assert (E : rt = r).
    { apply (nodup_distinct (rt :: rest) rt r (loc_id l)); auto; [now left|].
      rewrite (served_of_tour rt pt Hst Hct). exact Hin. }
    subst rt. rewrite Hs.
    rewrite (findIndex_tour depot picked k l); [exists 0%nat; split; reflexivity| |exact Hk|].
    + eapply tour_NoDup; [exact Hnd|now left|exact Hs|exact Hc].
    + apply customers_not_depot, Hc, Hl.
  - rewrite Hst, findIndex_tour_none; [|apply customers_not_depot, Hc, Hl|exact Hnin].
    destruct Hr as [->|Hr].
    { exfalso. apply Hnin. rewrite Hs in Hst. 
      assert (E : map loc_id pt = map loc_id picked).
      { rewrite <- (served_of_tour r pt), <- (served_of_tour r picked); auto.
        rewrite <- Hst. exact Hs. }
      rewrite E. apply in_map, Hl. }
    change (rt :: rest) with ([rt] ++ rest) in Hnd. rewrite servedIds_app in Hnd.
    apply NoDup_app in Hnd as (_ & _ & Hnd').
    destruct (IH (fun x Hx' => Ht x (or_intror Hx')) Hnd' r picked k l Hr Hs Hc Hk)
      as (ri & -> & Hri).
    exists (S ri). split; [reflexivity|exact Hri].
Qed.


Lemma mergeStep_cases routes x y :
  mergeStep calc distances speedKmh maxCapacity routes (x, y) = routes \/
  exists ri si rj sj r1 r2 ns,
    findRouteIndexByLocation routes x = Some (ri, si) /\
    findRouteIndexByLocation routes y = Some (rj, sj) /\
    ri <> rj /\ routes !! ri = Some r1 /\ routes !! rj = Some r2 /\
    mergedStops r1 r2 si sj = Some ns /\
    totalCapacity r1 + totalCapacity r2 <= maxCapacity /\
    mergeStep calc distances speedKmh maxCapacity routes (x, y)
    = replaceTwo routes ri rj
        (mergedRoute calc distances speedKmh ns (totalCapacity r1 + totalCapacity r2)).
Proof.
  unfold mergeStep.
  destruct (findRouteIndexByLocation routes x) as [[ri si]|]; [|now left].
  destruct (findRouteIndexByLocation routes y) as [[rj sj]|]; [|now left].
  destruct (Nat.eqb_spec ri rj) as [|Hne]; [now left|].
  destruct (routes !! ri) as [r1|] eqn:E1; [|now left].
  destruct (routes !! rj) as [r2|] eqn:E2; [|now left].
  destruct (mergedStops r1 r2 si sj) as [ns|] eqn:Em; [|now left].
  cbv zeta. rewrite !js_orZ_zero.
  destruct (totalCapacity r1 + totalCapacity r2 >? maxCapacity) eqn:Ec; [now left|].
  right. exists ri, si, rj, sj, r1, r2, ns. repeat split; auto.
  rewrite Z.gtb_ltb in Ec. apply Z.ltb_ge in Ec. exact Ec.
Qed.

Lemma replaceTwo_length routes ri rj r1 r2 merged :
  ri <> rj -> routes !! ri = Some r1 -> routes !! rj = Some r2 ->
  S (length (replaceTwo routes ri rj merged)) = length routes.
Proof.
  intros Hne E1 E2.
  destruct (replaceTwo_perm routes ri rj r1 r2 merged Hne E1 E2) as (rest & H1 & H2).
  rewrite (Permutation_length H1), (Permutation_length H2). reflexivity.
Qed.

(** The route that a merge builds: the customers of one route followed by
    those of the other. *)
Lemma merged_shape r1 r2 si sj ns load :
  isTour r1 -> isTour r2 -> mergedStops r1 r2 si sj = Some ns ->
  exists a b pa pb,
    ((a = r1 /\ b = r2) \/ (a = r2 /\ b = r1)) /\
    pa <> [] /\ pb <> [] /\
    (forall l, In l pa -> In l customers) /\ (forall l, In l pb -> In l customers) /\
    stops a = tourStops depot pa /\ stops b = tourStops depot pb /\
    stops (mergedRoute calc distances speedKmh ns load) = tourStops depot (pa ++ pb).
Proof.
  intros (p1 & N1 & C1 & S1 & _) (p2 & N2 & C2 & S2 & _) Em.
  apply mergedStops_shape in Em as [->| ->].
  - exists r1, r2, p1, p2. repeat split; auto. simpl. rewrite S1, S2. apply renumber_join.
  - exists r2, r1, p2, p1. repeat split; auto. simpl. rewrite S1, S2. apply renumber_join.
Qed.

Lemma joinable_served x y p q :
  isTour p -> isTour q -> joinable x y p q ->
  (In x (servedIds (loc_id depot) [p]) /\ In y (servedIds (loc_id depot) [q])) \/
  (In y (servedIds (loc_id depot) [p]) /\ In x (servedIds (loc_id depot) [q])).
Proof.
  intros (pp & Np & Cp & Sp & _) (pq & Nq & Cq & Sq & _) Hj.
  destruct (last_is_Some pp Np) as (lp & Hlp). destruct (head_is_Some pq Nq) as (lq & Hlq).
  rewrite (served_of_tour p pp Sp Cp), (served_of_tour q pq Sq Cq).
  pose proof (lastCustomer_tour depot p pp lp Sp Hlp) as El.
  pose proof (firstCustomer_tour depot q pq lq Sq Hlq) as Ef.
  assert (Hp : In (loc_id lp) (map loc_id pp)) by (apply in_map, last_In, Hlp).
  assert (Hq : In (loc_id lq) (map loc_id pq)) by (apply in_map, head_In, Hlq).
  destruct Hj as [(H1 & H2)|(H1 & H2)]; rewrite El in H1; rewrite Ef in H2;
    injection H1 as <-; injection H2 as <-; [left|right]; split; assumption.
Qed.

Lemma served_stop r si st :
  stops r !! si = Some st -> locationId st <> loc_id depot ->
  In (locationId st) (servedIds (loc_id depot) [r]).
Proof.
  intros Hs Hd. unfold servedIds. simpl. rewrite app_nil_r. apply filter_In. split.
  - apply in_map, list_elem_of_In. eapply list_elem_of_lookup_2, Hs.
  - apply negb_true_iff, String.eqb_neq, Hd.
Qed.

Lemma served_not_depot routes x :
  In x (servedIds (loc_id depot) routes) -> x <> loc_id depot.
Proof.
  unfold servedIds. intros H. apply filter_In in H as [_ H].
  apply negb_true_iff, String.eqb_neq in H. exact H.
Qed.


(** Two routes that a saving could join: the path of [mergeStep] reaches
    the test of the combined demand. *)
Lemma joinable_path routes x y p q :
  Inv routes -> In p routes -> In q routes -> p <> q -> joinable x y p q ->
  exists ri si rj sj r1 r2 ns,
    findRouteIndexByLocation routes x = Some (ri, si) /\
    findRouteIndexByLocation routes y = Some (rj, sj) /\
    ri <> rj /\ routes !! ri = Some r1 /\ routes !! rj = Some r2 /\
    mergedStops r1 r2 si sj = Some ns /\
    totalCapacity r1 + totalCapacity r2 = totalCapacity p + totalCapacity q.
Proof.
  intros (Ht & Hg & Hnd) Hp Hq Hne Hj.
  destruct (Ht p Hp) as (pp & Np & Cp & Sp & _).
  destruct (Ht q Hq) as (pq & Nq & Cq & Sq & _).
  destruct (last_is_Some pp Np) as (lp & Hlp). destruct (head_is_Some pq Nq) as (lq & Hlq).
  pose proof (lastCustomer_tour depot p pp lp Sp Hlp) as El.
  pose proof (firstCustomer_tour depot q pq lq Sq Hlq) as Ef.
  rewrite last_lookup in Hlp. rewrite head_lookup in Hlq.
  assert (Hlen : (0 < length pp)%nat) by (destruct pp; [congruence|simpl; lia]).
  destruct (find_customer routes Ht Hnd p pp _ lp Hp Sp Cp Hlp) as (ip & Fp & Ip).
  destruct (find_customer routes Ht Hnd q pq _ lq Hq Sq Cq Hlq) as (iq & Fq & Iq).
  assert (Hi : ip <> iq) by (intros E; rewrite E in Ip; congruence).
  assert (Eend : isEndEndpoint p (S (Nat.pred (length pp))) = true).
  { unfold isEndEndpoint. rewrite Sp, tourStops_length. apply Z.eqb_eq. lia. }
  destruct Hj as [(H1 & H2)|(H1 & H2)]; rewrite El in H1; rewrite Ef in H2;
    injection H1 as <-; injection H2 as <-.
  - exists ip, (S (Nat.pred (length pp))), iq, 1%nat, p, q.
    unfold mergedStops. rewrite Eend. simpl. eexists. repeat split; eauto.
  - exists iq, 1%nat, ip, (S (Nat.pred (length pp))), q, p.
    unfold mergedStops. rewrite Eend. simpl andb at 2. cbv zeta.
    destruct (isEndEndpoint q 1 && isStartEndpoint p (S (Nat.pred (length pp))));
      eexists; repeat split; eauto; lia.
Qed.

(** After its iteration a saving is blocked. *)
Lemma current_blocked routes x y :
  Inv routes ->
  blocked maxCapacity (mergeStep calc distances speedKmh maxCapacity routes (x, y)) (x, y).
Proof.
  intros HI. pose proof (mergeStep_Inv routes (x, y) HI) as (Ht' & _ & Hnd').
  destruct (mergeStep_cases routes x y)
    as [Heq|(ri & si & rj & sj & r1 & r2 & ns & Fx & Fy & Hne & E1 & E2 & Em & Hc & Heq)].
  - rewrite Heq. intros p q Hp Hq Hpq Hj. simpl in Hj.
    destruct (joinable_path routes x y p q HI Hp Hq Hpq Hj)
      as (ri & si & rj & sj & r1 & r2 & ns & Fx & Fy & Hne & E1 & E2 & Em & Hsum).
    unfold mergeStep in Heq. rewrite Fx, Fy, E1, E2, Em in Heq.
    destruct (Nat.eqb_spec ri rj) as [|_]; [contradiction|].
    cbv zeta in Heq. rewrite !js_orZ_zero in Heq.
    destruct (totalCapacity r1 + totalCapacity r2 >? maxCapacity) eqn:Ec.
    + rewrite Z.gtb_ltb in Ec. apply Z.ltb_lt in Ec. lia.
    + exfalso. apply (f_equal (@length _)) in Heq.
      pose proof (replaceTwo_length routes ri rj r1 r2
                    (mergedRoute calc distances speedKmh ns
                       (totalCapacity r1 + totalCapacity r2)) Hne E1 E2). lia.
  - rewrite Heq in *. intros p q Hp Hq Hpq Hj. simpl in Hj. exfalso. apply Hpq.
    set (merged := mergedRoute calc distances speedKmh ns _) in *.
    destruct HI as (Ht & _ & _).
    assert (T1 : isTour r1)
      by (apply Ht, list_elem_of_In; eapply list_elem_of_lookup_2, E1).
    assert (T2 : isTour r2)
      by (apply Ht, list_elem_of_In; eapply list_elem_of_lookup_2, E2).
    destruct (merged_shape r1 r2 si sj ns (totalCapacity r1 + totalCapacity r2) T1 T2 Em)
      as (a & b & pa & pb & Hab & Na & Nb & Ca & Cb & Sa & Sb & Sm). fold merged in Sm.
    assert (Cm : forall l, In l (pa ++ pb) -> In l customers).
    { intros l Hl. apply in_app_or in Hl as [|]; auto. }
    assert (Hm : In merged (replaceTwo routes ri rj merged)).
    { destruct (replaceTwo_perm routes ri rj r1 r2 merged Hne E1 E2) as (rest & _ & H2).
      eapply Permutation_in; [symmetry; exact H2|now left]. }
    assert (Hserved : forall r, (r = r1 \/ r = r2) -> forall z,
              In z (servedIds (loc_id depot) [r]) ->
              In z (servedIds (loc_id depot) [merged])).
    { intros r Hr z Hz. rewrite (served_of_tour merged _ Sm Cm), map_app.
      apply in_or_app.
      destruct Hab as [(-> & ->)|(-> & ->)], Hr as [-> | ->].
      - left. rewrite <- (served_of_tour _ _ Sa Ca). exact Hz.
      - right. rewrite <- (served_of_tour _ _ Sb Cb). exact Hz.
      - right. rewrite <- (served_of_tour _ _ Sb Cb). exact Hz.
      - left. rewrite <- (served_of_tour _ _ Sa Ca). exact Hz. }
    destruct (joinable_served x y p q (Ht' p Hp) (Ht' q Hq) Hj) as [(Hxp & Hyq)|(Hyp & Hxq)].
    + destruct (find_sound routes x ri si Fx) as (r1' & st & E1' & Hst & Hid).
      destruct (find_sound routes y rj sj Fy) as (r2' & st' & E2' & Hst' & Hid').
      rewrite E1 in E1'. injection E1' as <-. rewrite E2 in E2'. injection E2' as <-.
      assert (Hx1 : In x (servedIds (loc_id depot) [r1])).
      { rewrite <- Hid. apply (served_stop r1 si st Hst). rewrite Hid.
        eapply served_not_depot, Hxp. }
      assert (Hy2 : In y (servedIds (loc_id depot) [r2])).
      { rewrite <- Hid'. apply (served_stop r2 sj st' Hst'). rewrite Hid'.
        eapply served_not_depot, Hyq. }
      transitivity merged.
      * eapply nodup_distinct; [exact Hnd'|exact Hp|exact Hm|exact Hxp|].
        apply (Hserved r1); auto.
      * symmetry. eapply nodup_distinct; [exact Hnd'|exact Hq|exact Hm|exact Hyq|].
        apply (Hserved r2); auto.
    + destruct (find_sound routes x ri si Fx) as (r1' & st & E1' & Hst & Hid).
      destruct (find_sound routes y rj sj Fy) as (r2' & st' & E2' & Hst' & Hid').
      rewrite E1 in E1'. injection E1' as <-. rewrite E2 in E2'. injection E2' as <-.
      assert (Hx1 : In x (servedIds (loc_id depot) [r1])).
      { rewrite <- Hid. apply (served_stop r1 si st Hst). rewrite Hid.
        eapply served_not_depot, Hxq. }
      assert (Hy2 : In y (servedIds (loc_id depot) [r2])).
      { rewrite <- Hid'. apply (served_stop r2 sj st' Hst'). rewrite Hid'.
        eapply served_not_depot, Hyp. }
      transitivity merged.
      * eapply nodup_distinct; [exact Hnd'|exact Hp|exact Hm|exact Hyp|].
        apply (Hserved r2); auto.
      * symmetry. eapply nodup_distinct; [exact Hnd'|exact Hq|exact Hm|exact Hxq|].
        apply (Hserved r1); auto.
Qed.


Lemma firstCustomer_merged (m a : Route) pa pb :
  pa <> [] -> stops a = tourStops depot pa -> stops m = tourStops depot (pa ++ pb) ->
  firstCustomer m = firstCustomer a.
Proof.
  intros Na Sa Sm. destruct (head_is_Some pa Na) as (l & Hl).
  rewrite (firstCustomer_tour depot a pa l Sa Hl).
  apply (firstCustomer_tour depot m (pa ++ pb) l Sm). rewrite head_app_ne; assumption.
Qed.

Lemma lastCustomer_merged (m b : Route) pa pb :
  pb <> [] -> stops b = tourStops depot pb -> stops m = tourStops depot (pa ++ pb) ->
  lastCustomer m = lastCustomer b.
Proof.
  intros Nb Sb Sm. destruct (last_is_Some pb Nb) as (l & Hl).
  rewrite (lastCustomer_tour depot b pb l Sb Hl).
  apply (lastCustomer_tour depot m (pa ++ pb) l Sm). rewrite last_app_ne; assumption.
Qed.

(** A saving that is blocked stays blocked when two routes are merged. *)
Lemma blocked_step routes s s' :
  Inv routes -> blocked maxCapacity routes s' ->
  blocked maxCapacity (mergeStep calc distances speedKmh maxCapacity routes s) s'.
Proof.
  intros HI Hb. destruct s as [x y].
  pose proof (mergeStep_Inv routes (x, y) HI) as (Ht' & Hg' & Hnd').
  destruct (mergeStep_cases routes x y)
    as [Heq|(ri & si & rj & sj & r1 & r2 & ns & Fx & Fy & Hne & E1 & E2 & Em & Hc & Heq)];
    [rewrite Heq; exact Hb|].
  rewrite Heq in *. set (merged := mergedRoute calc distances speedKmh ns _) in *.
  destruct HI as (Ht & Hg & Hnd).
  assert (I1 : In r1 routes) by (apply list_elem_of_In; eapply list_elem_of_lookup_2, E1).
  assert (I2 : In r2 routes) by (apply list_elem_of_In; eapply list_elem_of_lookup_2, E2).
  destruct (merged_shape r1 r2 si sj ns (totalCapacity r1 + totalCapacity r2)
              (Ht r1 I1) (Ht r2 I2) Em)
    as (a & b & pa & pb & Hab & Na & Nb & Ca & Cb & Sa & Sb & Sm). fold merged in Sm.
  assert (Ia : In a routes) by (destruct Hab as [(-> & _)|(-> & _)]; assumption).
  assert (Ib : In b routes) by (destruct Hab as [(_ & ->)|(_ & ->)]; assumption).
  assert (Hload : totalCapacity merged = totalCapacity a + totalCapacity b).
  { unfold merged. simpl. destruct Hab as [(-> & ->)|(-> & ->)]; lia. }
  assert (La : 0 <= totalCapacity a).
  { rewrite (gated_tour_load a pa (Hg a Ia) Sa). apply sumDemand_nonneg, Ca. }
  assert (Lb : 0 <= totalCapacity b).
  { rewrite (gated_tour_load b pb (Hg b Ib) Sb). apply sumDemand_nonneg, Cb. }
  assert (Cm : forall l, In l (pa ++ pb) -> In l customers).
  { intros l Hl. apply in_app_or in Hl as [|]; auto. }
  assert (Hm : In merged (replaceTwo routes ri rj merged)).
  { destruct (replaceTwo_perm routes ri rj r1 r2 merged Hne E1 E2) as (rest & _ & H2).
    eapply Permutation_in; [symmetry; exact H2|now left]. }
  (* a route that stays beside the merged one is neither of its parts *)
  assert (Hpart : forall r pr, In r (replaceTwo routes ri rj merged) -> r <> merged ->
            stops r = tourStops depot pr -> pr <> [] ->
            (forall l, In l pr -> In l customers) ->
            forall l, In l pr -> ~ In (loc_id l) (map loc_id (pa ++ pb))).
  { intros r pr Hr Hrm Sr Nr Cr l Hl Hin. apply Hrm.
    apply (nodup_distinct _ r merged (loc_id l) Hnd' Hr Hm).
    - rewrite (served_of_tour r pr Sr Cr). apply in_map, Hl.
    - rewrite (served_of_tour merged _ Sm Cm). exact Hin. }
  assert (Hother : forall r, In r (replaceTwo routes ri rj merged) -> r <> merged ->
            In r routes /\ r <> a /\ r <> b).
  { intros r Hr Hrm. destruct (In_replaceTwo _ _ _ _ _ Hr) as [->|Hin]; [congruence|].
    split; [exact Hin|].
    destruct (Ht r Hin) as (pr & Nr & Cr & Sr & _).
    destruct (head_is_Some pr Nr) as (l & Hl%head_In).
    pose proof (Hpart r pr Hr Hrm Sr Nr Cr l Hl) as Hnot.
    rewrite map_app in Hnot. split; intros ->.
    - apply Hnot, in_or_app. left.
      assert (E : map loc_id pr = map loc_id pa).
      { rewrite <- (served_of_tour a pr Sr Cr), <- (served_of_tour a pa Sa Ca).
        reflexivity. }
      rewrite <- E. apply in_map, Hl.
    - apply Hnot, in_or_app. right.
      assert (E : map loc_id pr = map loc_id pb).
      { rewrite <- (served_of_tour b pr Sr Cr), <- (served_of_tour b pb Sb Cb).
        reflexivity. }
      rewrite <- E. apply in_map, Hl. }
  assert (Hdec : forall r, In r (replaceTwo routes ri rj merged) ->
            r = merged \/ r <> merged).
  { intros r Hr. destruct (Ht' r Hr) as (pr & Nr & Cr & Sr & _).
    destruct (head_is_Some pr Nr) as (l & Hl%head_In).
    destruct (in_dec string_dec (loc_id l) (map loc_id (pa ++ pb))) as [Hin|Hnin].
    - left. apply (nodup_distinct _ r merged (loc_id l) Hnd' Hr Hm).
      + rewrite (served_of_tour r pr Sr Cr). apply in_map, Hl.
      + rewrite (served_of_tour merged _ Sm Cm). exact Hin.
    - right. intros ->. apply Hnin.
      assert (E : map loc_id pr = map loc_id (pa ++ pb)).
      { rewrite <- (served_of_tour merged pr Sr Cr), <- (served_of_tour merged _ Sm Cm).
        reflexivity. }
      rewrite <- E. apply in_map, Hl. }
  intros p q Hp Hq Hpq Hj.
  destruct (Hdec p Hp) as [->|Hpm]; destruct (Hdec q Hq) as [->|Hqm].
  - congruence.
  - destruct (Hother q Hq Hqm) as (Iq & Hqa & Hqb).
    assert (Hj' : joinable (fst s') (snd s') b q).
    { unfold joinable in *.
      rewrite (lastCustomer_merged merged b pa pb Nb Sb Sm) in Hj. exact Hj. }
    specialize (Hb b q Ib Iq (not_eq_sym Hqb) Hj'). lia.
  - destruct (Hother p Hp Hpm) as (Ip & Hpa & Hpb).
    assert (Hj' : joinable (fst s') (snd s') p a).
    { unfold joinable in *.
      rewrite (firstCustomer_merged merged a pa pb Na Sa Sm) in Hj. exact Hj. }
    specialize (Hb p a Ip Ia Hpa Hj'). lia.
  - destruct (Hother p Hp Hpm) as (Ip & _). destruct (Hother q Hq Hqm) as (Iq & _).
    apply Hb; assumption.
Qed.

Lemma savingsPhase_blocked savings : forall routes done,
  Inv routes -> (forall s, In s done -> blocked maxCapacity routes s) ->
  Inv (savingsPhase calc distances speedKmh maxCapacity savings routes) /\
  forall s, In s (done ++ savings) ->
    blocked maxCapacity (savingsPhase calc distances speedKmh maxCapacity savings routes) s.
Proof.
  unfold savingsPhase.
  induction savings as [|s savings IH]; intros routes done HI Hdone; simpl.
  - rewrite app_nil_r. split; assumption.
  - destruct (IH (mergeStep calc distances speedKmh maxCapacity routes s) (done ++ [s]))
      as (HI' & Hb').
    + apply mergeStep_Inv, HI.
    + intros s' Hs'. apply in_app_or in Hs' as [Hs'|[<-|[]]].
      * apply blocked_step; [exact HI|apply Hdone, Hs'].
      * destruct s as [x y]. apply current_blocked, HI.
    + split; [exact HI'|]. intros s' Hs'. apply Hb'.
      rewrite <- app_assoc. exact Hs'.
Qed.

End SavingsMaximalFacts.

Section SavingsMaximalTheorems.
Import ClarkeWright.

Lemma pairsOf_complete {A} (l : list A) a b :
  In a l -> In b l -> a <> b -> In (a, b) (pairsOf l) \/ In (b, a) (pairsOf l).
Proof.
  induction l as [|x l IH]; intros Ha Hb Hne; [destruct Ha|]. simpl.
  destruct Ha as [->|Ha], Hb as [->|Hb].
  - congruence.
  - left. apply in_or_app. left. apply in_map_iff. eauto.
  - right. apply in_or_app. left. apply in_map_iff. eauto.
  - destruct (IH Ha Hb Hne) as [H|H]; [left|right]; apply in_or_app; right; exact H.
Qed.

Lemma sortedSavings_has score nonDepot a b :
  In (a, b) (pairsOf nonDepot) -> In (loc_id a, loc_id b) (sortedSavings score nonDepot).
Proof.
  intros H. unfold sortedSavings. apply in_map_iff. exists (a, b). split; [reflexivity|].
  apply In_sort_by, H.
Qed.

(** What the savings phase leaves, for distinct ids and demands that are
    not negative. *)
Lemma savings_outcome
    (calc : DistanceKernel) (distances : DistanceMatrix) (speedKmh : Q) (maxCapacity : Z)
    (locations : list Location) (depot : Location) (score : Location * Location -> Q) :
  NoDup (map loc_id locations) ->
  (forall l, In l locations -> 0 <= loc_demand l) ->
  let nonDepot := nonDepotOf locations depot in
  let routes :=
    savingsPhase calc distances speedKmh maxCapacity (sortedSavings score nonDepot)
      (initialRoutes distances speedKmh depot nonDepot) in
  (forall r, In r routes ->
     exists picked,
       picked <> [] /\ (forall l, In l picked -> In l nonDepot) /\
       stops r = tourStops depot picked /\ vehicle r = None /\ capacityExceeded r = None) /\
  (forall r, In r routes -> gated maxCapacity r) /\
  NoDup (servedIds (loc_id depot) routes) /\
  Permutation (servedIds (loc_id depot) routes) (map loc_id nonDepot) /\
  forall r1 r2, In r1 routes -> In r2 routes -> r1 <> r2 ->
    maxCapacity < totalCapacity r1 + totalCapacity r2.
Proof.
  intros Hnd Hdem nonDepot routes.
  assert (Hcust : forall l, In l nonDepot -> loc_id l <> loc_id depot).
  { intros l Hl. apply filter_In in Hl as [_ Hl].
    apply negb_true_iff, String.eqb_neq in Hl. exact Hl. }
  assert (Hnn : forall l, In l nonDepot -> 0 <= js_orZ (loc_demand l) 0).
  { intros l Hl. apply filter_In in Hl as [Hl _]. rewrite js_orZ_zero. apply Hdem, Hl. }
  destruct (initialRoutes_partition distances speedKmh depot nonDepot Hcust) as (I1 & I2).
  destruct (savingsPhase_partition calc distances speedKmh maxCapacity depot nonDepot
              Hcust (sortedSavings score nonDepot) _ I1) as (_ & P2).
  fold routes in P2. rewrite I2 in P2.
  destruct (savingsPhase_blocked calc distances speedKmh maxCapacity depot nonDepot
              Hcust Hnn (sortedSavings score nonDepot)
              (initialRoutes distances speedKmh depot nonDepot) [])
    as ((Ht & Hg & Hnd') & Hb).
  { split; [exact I1|]. split; [intros r; apply initialRoutes_gated|].
    rewrite I2. apply NoDup_map_filter, Hnd. }
  { intros s []. }
  fold routes in Ht, Hg, Hnd', Hb. simpl in Hb.
  split; [exact Ht|]. split; [exact Hg|]. split; [exact Hnd'|]. split; [exact P2|].
  intros r1 r2 H1 H2 Hne.
  destruct (Ht r1 H1) as (p1 & N1 & C1 & S1 & _).
  destruct (Ht r2 H2) as (p2 & N2 & C2 & S2 & _).
  destruct (last_is_Some p1 N1) as (lx & Hlx). destruct (head_is_Some p2 N2) as (ly & Hly).
  pose proof (lastCustomer_tour depot r1 p1 lx S1 Hlx) as El.
  pose proof (firstCustomer_tour depot r2 p2 ly S2 Hly) as Ef.
  assert (Hxy : lx <> ly).
  { intros ->. apply Hne.
    apply (nodup_distinct depot routes r1 r2 (loc_id ly) Hnd' H1 H2).
    - rewrite (served_of_tour depot nonDepot Hcust r1 p1 S1 C1). apply in_map, last_In, Hlx.
    - rewrite (served_of_tour depot nonDepot Hcust r2 p2 S2 C2). apply in_map, head_In, Hly. }
  destruct (pairsOf_complete nonDepot lx ly (C1 lx (last_In _ _ Hlx))
              (C2 ly (head_In _ _ Hly)) Hxy) as [Hp|Hp];
    apply (sortedSavings_has score) in Hp; apply Hb in Hp; apply (Hp r1 r2 H1 H2 Hne).
  - left. split; assumption.
  - right. split; assumption.
Qed.

(** X22. The savings phase leaves nothing to merge: when the location ids
    are distinct and no demand is negative, any two of the routes it leaves
    carry together more than the capacity that gates the merges, whatever
    the distances and the order in which the savings are sorted. *)
Theorem savingsPhase_maximal
    (calc : DistanceKernel) (distances : DistanceMatrix) (speedKmh : Q) (maxCapacity : Z)
    (locations : list Location) (depot : Location) (score : Location * Location -> Q) :
  NoDup (map loc_id locations) ->
  (forall l, In l locations -> 0 <= loc_demand l) ->
  let nonDepot := nonDepotOf locations depot in
  let routes :=
    savingsPhase calc distances speedKmh maxCapacity (sortedSavings score nonDepot)
      (initialRoutes distances speedKmh depot nonDepot) in
  forall r1 r2, In r1 routes -> In r2 routes -> r1 <> r2 ->
    maxCapacity < totalCapacity r1 + totalCapacity r2.
Proof.
  intros Hnd Hdem nonDepot routes.
  destruct (savings_outcome calc distances speedKmh maxCapacity locations depot score
              Hnd Hdem) as (_ & _ & _ & _ & H).
  exact H.
Qed.

End SavingsMaximalTheorems.

Lemma savingsPhase_maximal_witness :
  NoDup (map loc_id ClarkeWright.instanceS4) /\
  forall r1 r2,
    In r1 (ClarkeWright.savingsPhase taxicab (buildDistances taxicab ClarkeWright.instanceS4)
             SPEED_KMH 10
             (ClarkeWright.sortedSavings
                (ClarkeWright.basicSaving (buildDistances taxicab ClarkeWright.instanceS4)
                   depotD)
                (ClarkeWright.nonDepotOf ClarkeWright.instanceS4 depotD))
             (ClarkeWright.initialRoutes (buildDistances taxicab ClarkeWright.instanceS4)
                SPEED_KMH depotD (ClarkeWright.nonDepotOf ClarkeWright.instanceS4 depotD))) ->
    In r2 (ClarkeWright.savingsPhase taxicab (buildDistances taxicab ClarkeWright.instanceS4)
             SPEED_KMH 10
             (ClarkeWright.sortedSavings
                (ClarkeWright.basicSaving (buildDistances taxicab ClarkeWright.instanceS4)
                   depotD)
                (ClarkeWright.nonDepotOf ClarkeWright.instanceS4 depotD))
             (ClarkeWright.initialRoutes (buildDistances taxicab ClarkeWright.instanceS4)
                SPEED_KMH depotD (ClarkeWright.nonDepotOf ClarkeWright.instanceS4 depotD))) ->
    r1 <> r2 -> 10 < totalCapacity r1 + totalCapacity r2.
Proof.
  assert (Hnd : NoDup (map loc_id ClarkeWright.instanceS4))
    by (apply (bool_decide_unpack _); vm_compute; exact I).
  split; [exact Hnd|].
  apply (savingsPhase_maximal taxicab (buildDistances taxicab ClarkeWright.instanceS4)
           SPEED_KMH 10 ClarkeWright.instanceS4 depotD _ Hnd).
  intros l [<-|[<-|[<-|[]]]]; simpl; lia.
Defined.

(** ** Clarke-Wright after the savings: slot pressure and the three passes *)

Section PressureFacts.
Import ClarkeWright Passes.

Variables (calc : DistanceKernel) (distances : DistanceMatrix) (speedKmh : Q)
          (maxCapacity : Z).

Lemma maximalLoads_perm l l' :
  Permutation l l' -> maximalLoads maxCapacity l -> maximalLoads maxCapacity l'.
Proof. intros Hp H x y rest Hl. apply (H x y rest). rewrite Hp. exact Hl. Qed.

Lemma lookup_two_perm {A} (l : list A) a b x y :
  a <> b -> l !! a = Some x -> l !! b = Some y ->
  exists rest, Permutation l (x :: y :: rest).
Proof.
  intros Hne Ha Hb.
  assert (Hgen : forall lo hi u v, (lo < hi)%nat -> l !! lo = Some u -> l !! hi = Some v ->
            exists rest, Permutation l (u :: v :: rest)).
  { intros lo hi u v Hlt Hu Hv.
    assert (Hu' : delete hi l !! lo = Some u) by (rewrite list_lookup_delete_lt; auto).
    exists (delete lo (delete hi l)).
    etransitivity; [apply (delete_Permutation l hi v Hv)|].
    etransitivity; [apply perm_skip, (delete_Permutation _ lo u Hu')|apply perm_swap]. }
  destruct (Nat.lt_total a b) as [Hlt|[Heq|Hgt]]; [|contradiction|].
  - eapply Hgen; eassumption.
  - destruct (Hgen b a y x Hgt Hb Ha) as (rest & H). exists rest. rewrite H. apply perm_swap.
Qed.

Lemma maximalLoads_lookup routes a b ra rb :
  maximalLoads maxCapacity (map totalCapacity routes) ->
  a <> b -> routes !! a = Some ra -> routes !! b = Some rb ->
  maxCapacity < totalCapacity ra + totalCapacity rb.
Proof.
  intros Hmax Hne Ha Hb.
  destruct (lookup_two_perm (map totalCapacity routes) a b (totalCapacity ra)
              (totalCapacity rb) Hne) as (rest & Hp).
  - change (map totalCapacity routes) with (totalCapacity <$> routes).
    rewrite list_lookup_fmap, Ha. reflexivity.
  - change (map totalCapacity routes) with (totalCapacity <$> routes).
    rewrite list_lookup_fmap, Hb. reflexivity.
  - apply (Hmax _ _ rest Hp).
Qed.

Lemma tryPair_maximal routes a b :
  maximalLoads maxCapacity (map totalCapacity routes) -> a <> b ->
  tryPair calc distances speedKmh maxCapacity routes a b = NotMerged.
Proof.
  intros Hmax Hne. unfold tryPair.
  destruct (routes !! a) as [ra|] eqn:Ea; [|reflexivity].
  destruct (routes !! b) as [rb|] eqn:Eb; [|reflexivity].
  pose proof (maximalLoads_lookup routes a b ra rb Hmax Hne Ea Eb) as H.
  cbv zeta. rewrite !js_orZ_zero.
  destruct (totalCapacity ra + totalCapacity rb >? maxCapacity) eqn:E; [reflexivity|].
  rewrite Z.gtb_ltb in E. apply Z.ltb_ge in E. lia.
Qed.

Lemma pairIndices_lt n a b : In (a, b) (pairIndices n) -> (a < b)%nat.
Proof.
  unfold pairIndices. intros H. apply in_flat_map in H as (a' & _ & H).
  apply in_map_iff in H as (b' & E & Hb). injection E as <- <-.
  apply in_seq in Hb. lia.
Qed.

Lemma firstMerge_maximal routes pairs :
  maximalLoads maxCapacity (map totalCapacity routes) ->
  (forall a b, In (a, b) pairs -> a <> b) ->
  firstMerge calc distances speedKmh maxCapacity routes pairs = NotMerged.
Proof.
  intros Hmax. induction pairs as [|[a b] pairs IH]; intros Hne; [reflexivity|].
  simpl. rewrite tryPair_maximal; [|exact Hmax|apply Hne; now left].
  apply IH. intros a' b' H. apply Hne. now right.
Qed.

Lemma sortAscending_perm routes : Permutation (sortAscending routes) routes.
Proof. apply sort_by_perm. Qed.

Lemma pressureLoop_maximal total guardLeft routes :
  maximalLoads maxCapacity (map totalCapacity routes) ->
  pressureLoop calc distances speedKmh maxCapacity total guardLeft routes = Some routes \/
  pressureLoop calc distances speedKmh maxCapacity total guardLeft routes
  = Some (sortAscending routes).
Proof.
  intros Hmax. destruct guardLeft as [|g]; [now left|]. simpl.
  destruct (Z.of_nat (length routes) >? total); [|now left].
  rewrite firstMerge_maximal; [now right| |].
  - eapply maximalLoads_perm; [|exact Hmax].
    apply Permutation_map. symmetry. apply sortAscending_perm.
  - intros a b H%pairIndices_lt. lia.
Qed.

End PressureFacts.

Section SavingsLoads.
Import ClarkeWright Passes.

Lemma perm_two_lookup {A} (l : list A) x y rest :
  Permutation l (x :: y :: rest) ->
  exists a b, a <> b /\ l !! a = Some x /\ l !! b = Some y.
Proof.
  intros Hp.
  assert (Hx : x ∈ l) by (rewrite Hp; left).
  apply list_elem_of_lookup_1 in Hx as (a & Ha).
  pose proof (delete_Permutation l a x Ha) as Hd.
  assert (Hd' : Permutation (x :: y :: rest) (x :: delete a l))
    by (etransitivity; [symmetry; exact Hp|exact Hd]).
  apply Permutation_cons_inv in Hd'.
  assert (Hy : y ∈ delete a l) by (rewrite <- Hd'; left).
  apply list_elem_of_lookup_1 in Hy as (b & Hb).
  destruct (Nat.lt_ge_cases b a) as [Hlt|Hge].
  - exists a, b. rewrite list_lookup_delete_lt in Hb by exact Hlt.
    split; [lia|]. split; assumption.
  - exists a, (S b). rewrite list_lookup_delete_ge in Hb by exact Hge.
    split; [lia|]. split; assumption.
Qed.

(** Routes that serve someone and share no customer stand at different
    places only when they differ. *)
Lemma served_positions d (routes : list Route) a b ra rb :
  NoDup (servedIds d routes) ->
  (forall r, In r routes -> servedIds d [r] <> []) ->
  a <> b -> routes !! a = Some ra -> routes !! b = Some rb -> ra <> rb.
Proof.
  intros Hnd Hne Hab Ha Hb ->.
  assert (Hgen : forall lo hi, (lo < hi)%nat -> routes !! lo = Some rb ->
                   routes !! hi = Some rb -> False).
  { intros lo hi Hlt Hlo Hhi.
    pose proof (take_drop_middle routes hi rb Hhi) as E.
    assert (Hin : In rb (take hi routes)).
    { apply list_elem_of_In. apply (list_elem_of_lookup_2 _ lo).
      rewrite lookup_take_lt by exact Hlt. exact Hlo. }
    rewrite <- E in Hnd. change (rb :: drop (S hi) routes) with ([rb] ++ drop (S hi) routes) in Hnd.
    rewrite !servedIds_app in Hnd. apply NoDup_app in Hnd as (_ & Hdis & _).
    assert (Hx : exists x, In x (servedIds d [rb])).
    { assert (Hr : In rb routes)
        by (apply list_elem_of_In; eapply list_elem_of_lookup_2, Hhi).
      specialize (Hne rb Hr). destruct (servedIds d [rb]) as [|x xs]; [congruence|].
      exists x. now left. }
    destruct Hx as (x & Hx). apply (Hdis x).
    - apply list_elem_of_In. rewrite servedIds_flat. apply in_flat_map. exists rb.
      split; assumption.
    - apply elem_of_app. left. apply list_elem_of_In, Hx. }
  destruct (Nat.lt_total a b) as [Hlt|[Heq|Hgt]]; [|contradiction|]; eauto.
Qed.

Lemma routesAfterSavings_maximal calc vehicles locations depot :
  NoDup (map loc_id locations) ->
  (forall l, In l locations -> 0 <= loc_demand l) ->
  maximalLoads (maxCapacityOf vehicles)
    (map totalCapacity (routesAfterSavings calc vehicles locations depot)).
Proof.
  intros Hnd Hdem.
  destruct (savings_outcome calc (buildDistances calc locations) SPEED_KMH
              (maxCapacityOf vehicles) locations depot
              (basicSaving (buildDistances calc locations) depot) Hnd Hdem)
    as (Ht & _ & Hnd' & _ & Hmax).
  fold (routesAfterSavings calc vehicles locations depot) in Ht, Hnd', Hmax.
  intros x y rest Hp.
  destruct (perm_two_lookup _ _ _ _ Hp) as (a & b & Hab & Ha & Hb).
  change (map totalCapacity ?l) with (totalCapacity <$> l) in Ha, Hb.
  rewrite list_lookup_fmap in Ha, Hb.
  destruct (routesAfterSavings calc vehicles locations depot !! a) as [ra|] eqn:Ea;
    [|discriminate].
  destruct (routesAfterSavings calc vehicles locations depot !! b) as [rb|] eqn:Eb;
    [|discriminate].
  injection Ha as <-. injection Hb as <-.
  assert (Hcust : forall l, In l (nonDepotOf locations depot) -> loc_id l <> loc_id depot).
  { intros l Hl. apply filter_In in Hl as [_ Hl].
    apply negb_true_iff, String.eqb_neq in Hl. exact Hl. }
  apply Hmax.
  - apply list_elem_of_In. eapply list_elem_of_lookup_2, Ea.
  - apply list_elem_of_In. eapply list_elem_of_lookup_2, Eb.
  - eapply (served_positions (loc_id depot)); [exact Hnd'| |exact Hab|exact Ea|exact Eb].
    intros r Hr. destruct (Ht r Hr) as (picked & Hne & Hc & Hs & _).
    rewrite (served_of_tour depot _ Hcust r picked Hs Hc).
    destruct picked; [congruence|discriminate].
Qed.

End SavingsLoads.

Section PressureTheorems.
Import ClarkeWright Passes.

(** X23. The loop that merges routes while there are more routes than
    vehicles never merges and never throws in [clarkeWrightAlgorithm]: when
    the depot is one of the locations, the location ids are distinct and no
    demand is negative, it leaves the routes of the savings phase as they
    are or sorted by ascending load, whatever the fleet and the distances. *)
Theorem slotPressure_never_merges
    (calc : DistanceKernel) (vehicles : list Vehicle) (locations : list Location)
    (depot : Location) :
  In depot locations ->
  NoDup (map loc_id locations) ->
  (forall l, In l locations -> 0 <= loc_demand l) ->
  let routes := routesAfterSavings calc vehicles locations depot in
  let result := slotPressure calc (buildDistances calc locations) SPEED_KMH vehicles routes in
  result = Some routes \/ result = Some (sortAscending routes).
Proof.
  intros _ Hnd Hdem routes result. unfold result, slotPressure.
  destruct (0 <? totalVehicleSlotsOf vehicles); [|now left].
  apply pressureLoop_maximal, routesAfterSavings_maximal; assumption.
Qed.

End PressureTheorems.

Section SlotFacts.
Import ClarkeWright Passes.

(** Marking the slot object [vs] by [g]: the other slots stay as they are. *)
Lemma mark_split (g : VehicleSlot -> VehicleSlot) slots vs :
  NoDup (map slot_ix slots) -> In vs slots ->
  exists l1 l2,
    slots = l1 ++ vs :: l2 /\
    map (fun x => if Nat.eqb (slot_ix x) (slot_ix vs) then g x else x) slots
    = l1 ++ g vs :: l2.
Proof.
  intros Hnd Hin. apply in_split in Hin as (l1 & l2 & ->).
  exists l1, l2. split; [reflexivity|].
  rewrite map_app in Hnd. simpl in Hnd.
  apply NoDup_app in Hnd as (_ & H12 & H2). apply NoDup_cons in H2 as [H2 _].
  assert (Hother : forall l, (forall x, In x l -> slot_ix x <> slot_ix vs) ->
            map (fun x => if Nat.eqb (slot_ix x) (slot_ix vs) then g x else x) l = l).
  { intros l Hl. rewrite <- (map_id l) at 2. apply map_ext_in.
    intros x Hx. apply Hl in Hx. apply Nat.eqb_neq in Hx. rewrite Hx. reflexivity. }
  rewrite map_app. simpl. rewrite Nat.eqb_refl.
  f_equal; [|f_equal].
  - apply Hother. intros x Hx E. apply (H12 (slot_ix x)).
    + rewrite list_elem_of_In. apply in_map, Hx.
    + rewrite E. left.
  - apply Hother. intros x Hx E. apply H2. rewrite list_elem_of_In, <- E. apply in_map, Hx.
Qed.

Lemma freeSlot_Some slots required vs :
  freeSlot slots required = Some vs ->
  In vs slots /\ used vs = false /\ required <= slot_capacity vs.
Proof.
  unfold freeSlot. intros H. apply find_some in H as (Hin & H).
  apply andb_true_iff in H as (Hu & Hc). apply negb_true_iff in Hu. apply Z.leb_le in Hc.
  auto.
Qed.

Lemma freeSlot_None slots required :
  freeSlot slots required = None -> noFree slots required.
Proof.
  unfold freeSlot. intros H vs Hin Hu.
  pose proof (find_none _ _ H vs Hin) as Hn. cbv beta in Hn. rewrite Hu in Hn. simpl in Hn.
  apply Z.leb_gt in Hn. exact Hn.
Qed.

Lemma maxCapacityOf_ge vehicles v :
  In v vehicles -> js_orZ (capacity v) 0 <= maxCapacityOf vehicles.
Proof.
  intros Hin. apply (in_map (fun v => js_orZ (capacity v) 0)) in Hin.
  unfold maxCapacityOf. destruct (map _ vehicles) as [|c cs]; [destruct Hin|].
  unfold Math_maxZ.
  assert (Hge : forall l a, a <= fold_left Z.max l a).
  { induction l as [|x l IH]; intros a; simpl; [lia|].
    etransitivity; [|apply IH]. lia. }
  assert (Hall : forall l a x, In x l -> x <= fold_left Z.max l a).
  { induction l as [|y l IH]; intros a x Hx; [destruct Hx|]. simpl.
    destruct Hx as [->|Hx]; [|apply IH, Hx].
    etransitivity; [|apply Hge]. lia. }
  destruct Hin as [->|Hin]; [apply Hge|apply Hall, Hin].
Qed.

End SlotFacts.

Section BookedFacts.
Import ClarkeWright Passes.

Variable slots0 : list VehicleSlot.
Hypothesis slots0_nodup : NoDup (map slot_ix slots0).

(** What marking a slot as used may change of it. *)
Let marks (g : VehicleSlot -> VehicleSlot) : Prop :=
  forall x, slot_ix (g x) = slot_ix x /\ slot_id (g x) = slot_id x /\
            slot_capacity (g x) = slot_capacity x /\ used (g x) = true.

Let markBy (g : VehicleSlot -> VehicleSlot) (ix : nat) (slots : list VehicleSlot) :=
  map (fun x => if Nat.eqb (slot_ix x) ix then g x else x) slots.

Lemma routesOf_app vid a b : routesOf vid (a ++ b) = routesOf vid a ++ routesOf vid b.
Proof. unfold routesOf. apply List.filter_app. Qed.

Lemma booked_perm routes routes' slots :
  Permutation routes routes' -> booked slots0 routes slots -> booked slots0 routes' slots.
Proof.
  intros Hp (B1 & B2 & B3 & B4 & B5). repeat split; try assumption.
  - intros vid. rewrite <- B4. unfold routesOf. apply Permutation_length.
    symmetry. apply filter_perm, Hp.
  - intros r vid Hr. apply B5. apply list_elem_of_In. rewrite Hp.
    apply list_elem_of_In, Hr.
Qed.

Lemma booked_idle routes slots r :
  vehicle r = None -> booked slots0 routes slots -> booked slots0 (routes ++ [r]) slots.
Proof.
  intros Hv (B1 & B2 & B3 & B4 & B5). repeat split; try assumption.
  - intros vid. rewrite routesOf_app, length_app, B4. unfold routesOf. simpl.
    rewrite Hv. simpl. lia.
  - intros x vid Hx Hvid. apply in_app_or in Hx as [Hx|[<-|[]]]; [eauto|congruence].
Qed.

(** A slot of the current list stands for one of [slots0]. *)
Lemma slot_origin routes slots vs :
  booked slots0 routes slots -> In vs slots -> fromSlots slots0 vs.
Proof.
  unfold fromSlots.
  intros (_ & B2 & B3 & _) Hin.
  apply list_elem_of_In, list_elem_of_lookup_1 in Hin as (i & Hi).
  assert (Hid : map slot_id slots0 !! i = Some (slot_id vs)).
  { rewrite <- B2. change (map slot_id slots) with (slot_id <$> slots).
    rewrite list_lookup_fmap, Hi. reflexivity. }
  assert (Hc : map slot_capacity slots0 !! i = Some (slot_capacity vs)).
  { rewrite <- B3. change (map slot_capacity slots) with (slot_capacity <$> slots).
    rewrite list_lookup_fmap, Hi. reflexivity. }
  change (map slot_id slots0) with (slot_id <$> slots0) in Hid.
  change (map slot_capacity slots0) with (slot_capacity <$> slots0) in Hc.
  rewrite list_lookup_fmap in Hid. rewrite list_lookup_fmap in Hc.
  destruct (slots0 !! i) as [vs0|] eqn:E0; [|discriminate].
  injection Hid as Hid. injection Hc as Hc. exists vs0.
  split; [apply list_elem_of_In; eapply list_elem_of_lookup_2, E0|]. auto.
Qed.

Lemma booked_nodup routes slots : booked slots0 routes slots -> NoDup (map slot_ix slots).
Proof. intros (B1 & _). rewrite B1. exact slots0_nodup. Qed.

Lemma markBy_maps g ix slots :
  marks g ->
  map slot_ix (markBy g ix slots) = map slot_ix slots /\
  map slot_id (markBy g ix slots) = map slot_id slots /\
  map slot_capacity (markBy g ix slots) = map slot_capacity slots.
Proof.
  intros Hg. unfold markBy. rewrite !map_map.
  repeat split; apply map_ext; intros x; destruct (Nat.eqb (slot_ix x) ix);
    try reflexivity; apply Hg.
Qed.

(** A route takes the unused slot [vs]. *)
Lemma booked_mark g routes slots vs r :
  marks g -> booked slots0 routes slots -> In vs slots -> used vs = false ->
  vehicle r = Some (slot_id vs) -> totalCapacity r <= slot_capacity vs ->
  booked slots0 (routes ++ [r]) (markBy g (slot_ix vs) slots).
Proof.
  intros Hg Hb Hin Hu Hv Hfit.
  destruct (slot_origin _ _ _ Hb Hin) as (vs0 & Hvs0 & Hid0 & Hc0).
  pose proof (booked_nodup _ _ Hb) as Hnd.
  destruct Hb as (B1 & B2 & B3 & B4 & B5).
  destruct (markBy_maps g (slot_ix vs) slots Hg) as (M1 & M2 & M3).
  split; [congruence|]. split; [congruence|]. split; [congruence|]. split.
  - intros vid. destruct (mark_split g slots vs Hnd Hin) as (l1 & l2 & E & Em).
    unfold markBy. rewrite Em. specialize (B4 vid). rewrite E in B4.
    rewrite routesOf_app, length_app, B4. unfold usedSlots, routesOf.
    rewrite !List.filter_app, !length_app. simpl. rewrite Hv, Hu.
    destruct (Hg vs) as (_ & G2 & _ & G4). rewrite G2, G4. simpl.
    destruct (String.eqb (slot_id vs) vid); simpl; lia.
  - intros x vid Hx Hvid. apply in_app_or in Hx as [Hx|[<-|[]]]; [eauto|].
    exists vs0. rewrite Hv in Hvid. injection Hvid as <-.
    split; [exact Hvs0|]. split; [exact Hid0|]. lia.
Qed.

(** The last route is replaced by one of the same vehicle. *)
Lemma booked_replace routes slots p p' vs :
  booked slots0 (routes ++ [p]) slots -> fromSlots slots0 vs ->
  vehicle p = Some (slot_id vs) -> vehicle p' = Some (slot_id vs) ->
  totalCapacity p' <= slot_capacity vs ->
  booked slots0 (routes ++ [p']) slots.
Proof.
  intros Hb (vs0 & Hvs0 & Hid0 & Hc0) Hv Hv' Hfit.
  destruct Hb as (B1 & B2 & B3 & B4 & B5).
  repeat split; try assumption.
  - intros vid. rewrite <- B4, !routesOf_app, !length_app. unfold routesOf. simpl.
    rewrite Hv, Hv'. destruct (String.eqb (slot_id vs) vid); reflexivity.
  - intros x vid Hx Hvid. apply in_app_or in Hx as [Hx|[<-|[]]].
    + apply (B5 x vid); [apply in_or_app; now left|exact Hvid].
    + exists vs0. rewrite Hv' in Hvid. injection Hvid as <-.
      split; [exact Hvs0|]. split; [exact Hid0|]. lia.
Qed.

Lemma noFree_mark g ix slots need :
  marks g -> noFree slots need -> noFree (markBy g ix slots) need.
Proof.
  intros Hg Hn vs Hin Hu. unfold markBy in Hin. apply in_map_iff in Hin as (x & E & Hx).
  destruct (Nat.eqb (slot_ix x) ix).
  - subst vs. destruct (Hg x) as (_ & _ & _ & G). congruence.
  - subst vs. apply Hn; assumption.
Qed.

Lemma marks_engage load :
  marks (fun vs => mkSlot (slot_ix vs) (slot_id vs) (slot_name vs) (slot_capacity vs)
                          true load).
Proof. intros x. repeat split. Qed.

Lemma marks_markUsed :
  marks (fun vs => mkSlot (slot_ix vs) (slot_id vs) (slot_name vs) (slot_capacity vs)
                          true (currentLoad vs)).
Proof. intros x. repeat split. Qed.

(** *** The first pass *)

Lemma loaded_more routes slots r :
  loaded routes slots -> loaded (routes ++ [r]) slots.
Proof.
  intros Hl vs Hin Hu. destruct (Hl vs Hin Hu) as (x & Hx & H). exists x.
  split; [apply in_or_app; now left|exact H].
Qed.

Lemma firstPassStep_inv processed acc r :
  (vehicle r = None) ->
  booked slots0 (fst acc) (snd acc) /\ loaded (fst acc) (snd acc) /\
  Forall2 sameTrip processed (fst acc) ->
  booked slots0 (fst (firstPassStep acc r)) (snd (firstPassStep acc r)) /\
  loaded (fst (firstPassStep acc r)) (snd (firstPassStep acc r)) /\
  Forall2 sameTrip (processed ++ [r]) (fst (firstPassStep acc r)).
Proof.
  intros Hv (Hb & Hl & Hs). unfold firstPassStep. rewrite Hv.
  destruct (freeSlot (snd acc) (js_orZ (totalCapacity r) 0)) as [slot|] eqn:Ef;
    cbn [fst snd].
  - apply freeSlot_Some in Ef as (Hin & Hu & Hfit). rewrite js_orZ_zero in *.
    split; [|split].
    + apply (booked_mark _ _ _ slot _ (marks_engage (totalCapacity r)) Hb Hin Hu);
        [reflexivity|exact Hfit].
    + intros vs Hvs Hused. unfold engage in Hvs. apply in_map_iff in Hvs as (x & E & Hx).
      destruct (Nat.eqb (slot_ix x) (slot_ix slot)).
      * subst vs. eexists. split; [apply in_or_app; right; now left|].
        split; [discriminate|reflexivity].
      * subst vs. destruct (Hl x Hx Hused) as (y & Hy & H). exists y.
        split; [apply in_or_app; now left|exact H].
    + apply Forall2_app; [exact Hs|]. constructor; [|constructor].
      split; [reflexivity|]. split; [reflexivity|]. split; [discriminate|congruence].
  - split; [apply booked_idle; assumption|]. split; [apply loaded_more, Hl|].
    apply Forall2_app; [exact Hs|]. constructor; [|constructor].
    split; [reflexivity|]. split; [reflexivity|]. split; reflexivity.
Qed.

Lemma firstPass_fold todo : forall processed acc,
  (forall r, In r todo -> vehicle r = None) ->
  booked slots0 (fst acc) (snd acc) /\ loaded (fst acc) (snd acc) /\
  Forall2 sameTrip processed (fst acc) ->
  let res := fold_left firstPassStep todo acc in
  booked slots0 (fst res) (snd res) /\ loaded (fst res) (snd res) /\
  Forall2 sameTrip (processed ++ todo) (fst res).
Proof.
  induction todo as [|r todo IH]; intros processed acc Hv Hinv; simpl.
  - rewrite app_nil_r. exact Hinv.
  - replace (processed ++ r :: todo) with ((processed ++ [r]) ++ todo)
      by (rewrite <- app_assoc; reflexivity).
    apply IH; [intros x Hx; apply Hv; now right|].
    apply firstPassStep_inv; [apply Hv; now left|exact Hinv].
Qed.

Lemma firstPass_inv routes :
  (forall r, In r routes -> vehicle r = None) ->
  (forall vs, In vs slots0 -> used vs = false) ->
  let res := firstPass routes slots0 in
  booked slots0 (fst res) (snd res) /\ loaded (fst res) (snd res) /\
  Forall2 sameTrip routes (fst res).
Proof.
  intros Hv Hu. apply (firstPass_fold routes [] ([], slots0) Hv). simpl.
  split; [|split; [|constructor]].
  - repeat split; try reflexivity.
    + intros vid. unfold usedSlots. simpl. symmetry.
      induction slots0 as [|vs l IHl]; [reflexivity|]. simpl.
      rewrite (Hu vs (or_introl eq_refl)). simpl. apply IHl.
      * apply NoDup_cons in slots0_nodup as [_ H]. exact H.
      * intros x Hx. apply Hu. now right.
    + intros r vid [].
  - intros vs Hvs Hused. rewrite (Hu vs Hvs) in Hused. discriminate.
Qed.

End BookedFacts.

Section SecondPassFacts.
Import ClarkeWright Passes.

Variables (calc : DistanceKernel) (distances : DistanceMatrix) (speedKmh : Q)
          (maxCapacity : Z).

Lemma packStep_idle state ui :
  maximalLoads maxCapacity (map totalCapacity (fst state)) ->
  loaded (fst state) (snd state) ->
  (forall vs, In vs (snd state) -> slot_capacity vs <= maxCapacity) ->
  Repair.packStep calc distances speedKmh state ui = state.
Proof.
  destruct state as [routes slots]. cbn [fst snd]. intros Hmax Hl Hcap.
  unfold Repair.packStep.
  destruct (routes !! ui) as [u|] eqn:Eu; [|reflexivity].
  destruct (vehicle u) eqn:Ev; [reflexivity|].
  destruct (List.find _ slots) as [vs|] eqn:Ef; [exfalso|reflexivity].
  apply find_some in Ef as (Hin & Hf). apply andb_true_iff in Hf as (Hu & Hfit).
  apply Z.leb_le in Hfit. rewrite js_orZ_zero in Hfit.
  destruct (Hl vs Hin Hu) as (r & Hr & Hvr & Hload).
  apply list_elem_of_In, list_elem_of_lookup_1 in Hr as (ei & Hei).
  assert (Hne : ei <> ui) by (intros ->; congruence).
  pose proof (maximalLoads_lookup maxCapacity routes ei ui r u Hmax Hne Hei Eu).
  specialize (Hcap vs Hin). lia.
Qed.

Lemma secondPass_idle state :
  maximalLoads maxCapacity (map totalCapacity (fst state)) ->
  loaded (fst state) (snd state) ->
  (forall vs, In vs (snd state) -> slot_capacity vs <= maxCapacity) ->
  secondPass calc distances speedKmh state = state.
Proof.
  intros Hmax Hl Hcap. unfold secondPass.
  induction (unassignedIndices (fst state)) as [|ui l IH]; [reflexivity|].
  simpl. rewrite packStep_idle; assumption.
Qed.

End SecondPassFacts.

Section PassesSetting.
Import ClarkeWright Passes.

Variables (calc : DistanceKernel) (vehicles : list Vehicle) (locations : list Location)
          (depot : Location).

Hypothesis ids_distinct : NoDup (map loc_id locations).
Hypothesis demands_nonneg : forall l, In l locations -> 0 <= loc_demand l.

Let distances := buildDistances calc locations.
Let slots0 := Assign.sortSlots (expandSlots vehicles).
Let savingsRoutes := routesAfterSavings calc vehicles locations depot.

Lemma slotPressure_perm routes :
  slotPressure calc distances SPEED_KMH vehicles savingsRoutes = Some routes ->
  Permutation routes savingsRoutes.
Proof.
  intros H. unfold slotPressure in H.
  destruct (0 <? totalVehicleSlotsOf vehicles); [|injection H as <-; reflexivity].
  destruct (pressureLoop_maximal calc distances SPEED_KMH (maxCapacityOf vehicles)
              (totalVehicleSlotsOf vehicles) 1000 savingsRoutes
              (routesAfterSavings_maximal calc vehicles locations depot
                 ids_distinct demands_nonneg)) as [E|E];
    rewrite E in H; injection H as <-; [reflexivity|apply sortAscending_perm].
Qed.

Lemma sortedRoutes_perm routes :
  Permutation routes savingsRoutes ->
  Permutation (Assign.sortRoutes (Assign.sortRoutes routes)) savingsRoutes.
Proof.
  intros H. unfold Assign.sortRoutes. rewrite !sort_by_perm. exact H.
Qed.

Lemma savingsRoutes_unassigned r : In r savingsRoutes -> vehicle r = None.
Proof.
  intros Hr.
  destruct (savings_outcome calc distances SPEED_KMH (maxCapacityOf vehicles) locations
              depot (basicSaving distances depot) ids_distinct demands_nonneg)
    as (Ht & _).
  destruct (Ht r Hr) as (picked & _ & _ & _ & Hv & _). exact Hv.
Qed.

Lemma sortedSlots_nodup : NoDup (map slot_ix slots0).
Proof. apply assign_initial. Qed.

Lemma slots0_unused vs : In vs slots0 -> used vs = false.
Proof. apply assign_initial. Qed.

Lemma slots0_capacity vs : In vs slots0 -> slot_capacity vs <= maxCapacityOf vehicles.
Proof.
  intros Hin. apply In_sort_by in Hin.
  destruct (expandSlots_from vehicles vs Hin) as (v & Hv & _ & ->).
  rewrite <- (js_orZ_zero (capacity v)). apply maxCapacityOf_ge, Hv.
Qed.

Lemma map_totalCapacity_sameTrip l l' :
  Forall2 sameTrip l l' -> map totalCapacity l' = map totalCapacity l.
Proof.
  induction 1 as [|r r' l l' (_ & Ht & _) _ IH]; [reflexivity|].
  simpl. rewrite Ht, IH. reflexivity.
Qed.

(** The second pass finds the state of the first pass and leaves it. *)
Lemma secondPass_of_firstPass routes :
  Permutation routes savingsRoutes ->
  let state := firstPass (Assign.sortRoutes (Assign.sortRoutes routes)) slots0 in
  secondPass calc distances SPEED_KMH state = state.
Proof.
  intros Hp state. pose proof (sortedRoutes_perm routes Hp) as Hs.
  destruct (firstPass_inv slots0 sortedSlots_nodup (Assign.sortRoutes (Assign.sortRoutes routes)))
    as (Hb & Hl & Hsame).
  { intros r Hr. apply savingsRoutes_unassigned.
    apply list_elem_of_In. rewrite <- Hs. apply list_elem_of_In, Hr. }
  { apply slots0_unused. }
  apply (secondPass_idle calc distances SPEED_KMH (maxCapacityOf vehicles)).
  - apply (maximalLoads_perm (maxCapacityOf vehicles) (map totalCapacity savingsRoutes)).
    + unfold state. rewrite (map_totalCapacity_sameTrip _ _ Hsame).
      apply Permutation_map. symmetry. exact Hs.
    + apply routesAfterSavings_maximal; assumption.
  - exact Hl.
  - intros vs Hvs. destruct (slot_origin slots0 _ _ vs Hb Hvs) as (vs0 & H0 & _ & <-).
    apply slots0_capacity, H0.
Qed.

End PassesSetting.

Section SecondPassTheorems.
Import ClarkeWright Passes.

(** X24. The second pass of [clarkeWrightAlgorithm], which adds the stops of
    a route without a vehicle to the route of a vehicle that has room left,
    never fires: when the depot is one of the locations, the location ids
    are distinct and no demand is negative, it returns the routes and the
    slots exactly as the first pass left them, whatever the fleet and the
    distances. *)
Theorem secondPass_never_merges
    (calc : DistanceKernel) (vehicles : list Vehicle) (locations : list Location)
    (depot : Location) (routes : list Route) :
  In depot locations ->
  NoDup (map loc_id locations) ->
  (forall l, In l locations -> 0 <= loc_demand l) ->
  slotPressure calc (buildDistances calc locations) SPEED_KMH vehicles
    (routesAfterSavings calc vehicles locations depot) = Some routes ->
  let state :=
    firstPass (Assign.sortRoutes (Assign.sortRoutes routes))
              (Assign.sortSlots (expandSlots vehicles)) in
  secondPass calc (buildDistances calc locations) SPEED_KMH state = state.
Proof.
  intros _ Hnd Hdem Hp.
  apply (secondPass_of_firstPass calc vehicles locations depot); [assumption..|].
  apply slotPressure_perm; assumption.
Qed.

End SecondPassTheorems.

Section RoundTripFacts.
Import ClarkeWright Passes.

Variable d : Id.

Lemma interior_middle (first last : Stop) mid : interior (first :: mid ++ [last]) = mid.
Proof. unfold interior. simpl. rewrite drop_0. apply removelast_last. Qed.

Lemma demandOf_middle (first last : Stop) mid :
  demandOf (first :: mid ++ [last]) = fold_right Z.add 0 (map demand mid).
Proof. unfold demandOf. rewrite interior_middle. reflexivity. Qed.

Lemma stops_of_ids (sts : list Stop) mids :
  map locationId sts = d :: mids ++ [d] ->
  exists first mid last,
    sts = first :: mid ++ [last] /\ locationId first = d /\ locationId last = d /\
    map locationId mid = mids.
Proof.
  destruct sts as [|first rest]; [discriminate|]. simpl. intros H. injection H as Hf Hr.
  change (map locationId rest) with (locationId <$> rest) in Hr.
  apply fmap_app_inv in Hr as (mid & l2 & Hm & Hl & ->).
  destruct l2 as [|last [|x l2]]; try discriminate. injection Hl as Hl.
  exists first, mid, last. auto.
Qed.

Lemma servedIds_ids r mids :
  map locationId (stops r) = d :: mids ++ [d] -> (forall x, In x mids -> x <> d) ->
  servedIds d [r] = mids.
Proof.
  intros H Hne. unfold servedIds. simpl. rewrite app_nil_r, H. simpl.
  rewrite String.eqb_refl. simpl. rewrite List.filter_app. simpl.
  rewrite String.eqb_refl. simpl. rewrite app_nil_r. clear H.
  induction mids as [|x mids IH]; [reflexivity|]. simpl.
  assert (Hx : x <> d) by (apply Hne; now left). apply String.eqb_neq in Hx.
  rewrite Hx. simpl. f_equal. apply IH. intros y Hy. apply Hne. now right.
Qed.

Lemma depotLoop_length r : depotLoop d r -> (3 <= length (stops r))%nat.
Proof.
  intros ((mids & Hne & Hids & _) & _).
  rewrite <- (length_map locationId), Hids. simpl. rewrite length_app. simpl.
  destruct mids; [congruence|simpl; lia].
Qed.

Lemma depotLoop_served r : depotLoop d r -> servedIds d [r] <> [].
Proof.
  intros ((mids & Hne & Hids & Hd) & _). rewrite (servedIds_ids r mids Hids Hd). exact Hne.
Qed.

Lemma tour_depotLoop depot picked r :
  d = loc_id depot -> picked <> [] -> (forall l, In l picked -> loc_id l <> d) ->
  stops r = tourStops depot picked -> totalCapacity r = demandOf (stops r) ->
  depotLoop d r.
Proof.
  intros -> Hne Hc Hs Ht. split; [|exact Ht].
  exists (map loc_id picked). split; [destruct picked; [congruence|discriminate]|].
  split; [rewrite Hs; apply map_locationId_tour|].
  intros x Hx. apply in_map_iff in Hx as (l & <- & Hl). apply Hc, Hl.
Qed.

Lemma closedRoute_facts calc distances speedKmh v (first last : Stop) chunk load :
  locationId first = d -> locationId last = d -> chunk <> [] ->
  (forall s, In s chunk -> locationId s <> d) ->
  load = fold_right Z.add 0 (map demand chunk) ->
  let p := closedRoute calc distances speedKmh v (first :: chunk) [last] load in
  vehicle p = Some (slot_id v) /\ totalCapacity p = load /\
  map locationId (stops p) = d :: map locationId chunk ++ [d] /\
  depotLoop d p /\ servedIds d [p] = map locationId chunk.
Proof.
  intros Hf Hl Hne Hc Hload p.
  assert (Hids : map locationId (stops p) = d :: map locationId chunk ++ [d]).
  { unfold p, closedRoute, recomputeRouteMetrics. simpl stops.
    rewrite map_locationId_renumber. simpl. rewrite map_app. simpl. congruence. }
  assert (Hmid : forall x, In x (map locationId chunk) -> x <> d).
  { intros x Hx. apply in_map_iff in Hx as (s & <- & Hs). apply Hc, Hs. }
  split; [reflexivity|]. split; [reflexivity|]. split; [exact Hids|]. split.
  - split.
    + exists (map locationId chunk). split; [destruct chunk; [congruence|discriminate]|].
      split; assumption.
    + unfold p, closedRoute, recomputeRouteMetrics. simpl.
      rewrite demandOf_renumber. change (first :: chunk ++ [last])
        with (first :: chunk ++ [last]). rewrite demandOf_middle. exact Hload.
  - apply servedIds_ids; assumption.
Qed.

Lemma onVehicle_more routes routes' id :
  (forall p, In p routes -> In p routes') -> onVehicle routes id -> onVehicle routes' id.
Proof. intros H (p & Hp & Hv). exists p. split; [apply H, Hp|exact Hv]. Qed.

Lemma moreUsed_refl slots : moreUsed slots slots.
Proof. intros need H. exact H. Qed.

Lemma moreUsed_trans a b c : moreUsed a b -> moreUsed b c -> moreUsed a c.
Proof. intros H1 H2 need H. apply H2, H1, H. Qed.

End RoundTripFacts.

Section SplitFacts.
Import ClarkeWright Passes.

Variables (calc : DistanceKernel) (distances : DistanceMatrix) (speedKmh : Q).
Variable slots0 : list VehicleSlot.
Hypothesis slots0_nodup : NoDup (map slot_ix slots0).
Variable d : Id.
Variables (first last : Stop).
Hypothesis first_depot : locationId first = d.
Hypothesis last_depot : locationId last = d.
Variable before : list Route.
Variable slots : list VehicleSlot.

Let all (st : Split) : list Route := splitRoutes calc distances speedKmh [last] st.
Let total (chunk : list Stop) : Z := fold_right Z.add 0 (map demand chunk).
Let closed (v : VehicleSlot) (chunk : list Stop) : Route :=
  closedRoute calc distances speedKmh v (first :: chunk) [last] (total chunk).

(** The state of the loop over the middle stops, after the stops [done]. *)
Let splitInv (done : list Stop) (st : Split) : Prop :=
  exists chunk,
    currentVehicleStops st = first :: chunk /\
    currentVehicleLoad st = total chunk /\
    (forall s, In s chunk -> locationId s <> d) /\
    match assignedVehicle st with
    | None => chunk = []
    | Some v => chunk <> [] /\ fromSlots slots0 v /\ total chunk <= slot_capacity v
    end /\
    booked slots0 (before ++ all st) (splitSlots st) /\
    (forall p, In p (all st) -> depotLoop d p /\ vehicle p <> None) /\
    sublist (servedIds d (all st)) (map locationId done) /\
    (forall s, In s done ->
       onVehicle (all st) (locationId s) \/ noFree (splitSlots st) (demand s)) /\
    moreUsed slots (splitSlots st).

Lemma total_snoc chunk stop : total (chunk ++ [stop]) = total chunk + demand stop.
Proof.
  unfold total. induction chunk as [|s chunk IH]; simpl; [lia|]. rewrite IH. lia.
Qed.

Lemma closed_facts v chunk :
  chunk <> [] -> (forall s, In s chunk -> locationId s <> d) ->
  vehicle (closed v chunk) = Some (slot_id v) /\
  totalCapacity (closed v chunk) = total chunk /\
  map locationId (stops (closed v chunk)) = d :: map locationId chunk ++ [d] /\
  depotLoop d (closed v chunk) /\ servedIds d [closed v chunk] = map locationId chunk.
Proof.
  intros Hne Hc.
  apply (closedRoute_facts d calc distances speedKmh v first last chunk (total chunk));
    auto.
Qed.

Lemma closeRoute_inv done st v :
  splitInv done st -> assignedVehicle st = Some v ->
  splitInv done
    (mkSplit 0 [first] None (splitSlots st)
       (pushed st ++ [closedRoute calc distances speedKmh v (currentVehicleStops st)
                        [last] (currentVehicleLoad st)])).
Proof.
  intros (chunk & Hs & Hl & Hc & Hv & Hb & Hr & Hsub & Hdone & Hmore) Ev.
  assert (Eall : all st = pushed st ++ [closedRoute calc distances speedKmh v
                   (currentVehicleStops st) [last] (currentVehicleLoad st)]).
  { unfold all, splitRoutes, pendingRoutes. rewrite Ev. reflexivity. }
  exists []. unfold all, splitRoutes, pendingRoutes in *.
  cbn [currentVehicleStops currentVehicleLoad assignedVehicle splitSlots pushed].
  rewrite app_nil_r. rewrite Ev in *.
  split; [reflexivity|]. split; [reflexivity|]. split; [intros s []|].
  split; [reflexivity|]. auto.
Qed.

Lemma placeStop_inv done st stop :
  locationId stop <> d -> splitInv done st -> assignedVehicle st = None ->
  splitInv (done ++ [stop])
    (match freeSlot (splitSlots st) (demand stop) with
     | None => st
     | Some v =>
         mkSplit (currentVehicleLoad st + demand stop) (currentVehicleStops st ++ [stop])
           (Some v) (markUsed (slot_ix v) (splitSlots st)) (pushed st)
     end).
Proof.
  intros Hstop (chunk & Hs & Hl & Hc & Hv & Hb & Hr & Hsub & Hdone & Hmore) Ev.
  assert (Eall : all st = pushed st).
  { unfold all, splitRoutes, pendingRoutes. rewrite Ev. apply app_nil_r. }
  rewrite Ev in Hv. subst chunk.
  destruct (freeSlot (splitSlots st) (demand stop)) as [v|] eqn:Ef.
  - apply freeSlot_Some in Ef as (Hin & Hu & Hfit).
    pose proof (slot_origin slots0 _ _ v Hb Hin) as Hfrom.
    assert (Hne : [stop] <> []) by discriminate.
    assert (Hc1 : forall s, In s [stop] -> locationId s <> d)
      by (intros s [<-|[]]; exact Hstop).
    destruct (closed_facts v [stop] Hne Hc1) as (F1 & F2 & F3 & F4 & F5).
    assert (Enew : all (mkSplit (currentVehicleLoad st + demand stop)
                          (currentVehicleStops st ++ [stop]) (Some v)
                          (markUsed (slot_ix v) (splitSlots st)) (pushed st))
                   = pushed st ++ [closed v [stop]]).
    { unfold all, splitRoutes, pendingRoutes, closed. cbn [assignedVehicle pushed
        currentVehicleStops currentVehicleLoad]. rewrite Hs, Hl. unfold total. simpl.
      rewrite Z.add_0_r. reflexivity. }
    exists [stop]. rewrite Enew.
    cbn [currentVehicleStops currentVehicleLoad assignedVehicle splitSlots pushed].
    split; [rewrite Hs; reflexivity|].
    split; [rewrite Hl; unfold total; simpl; lia|].
    split; [exact Hc1|].
    split; [split; [exact Hne|]; split; [exact Hfrom|]; unfold total; simpl; lia|].
    split.
    { rewrite app_assoc. rewrite Eall in Hb.
      apply (booked_mark slots0 slots0_nodup _ _ _ v _ marks_markUsed Hb Hin Hu F1).
      rewrite F2. unfold total. simpl. lia. }
    split.
    { intros p Hp. apply in_app_or in Hp as [Hp|[<-|[]]].
      - apply Hr. rewrite Eall. exact Hp.
      - split; [exact F4|]. rewrite F1. discriminate. }
    split.
    { change (pushed st ++ [closed v [stop]]) with (pushed st ++ [closed v [stop]]).
      rewrite servedIds_app, F5, map_app. rewrite Eall in Hsub.
      apply sublist_app; [exact Hsub|reflexivity]. }
    split.
    { intros s Hin'. apply in_app_or in Hin' as [Hin'|[<-|[]]].
      - destruct (Hdone s Hin') as [Ho|Hn].
        + left. eapply onVehicle_more; [|exact Ho]. intros p Hp. rewrite Eall in Hp.
          apply in_or_app. now left.
        + right. apply (noFree_mark _ (slot_ix v) _ _ marks_markUsed Hn).
      - left. exists (closed v [stop]). split; [apply in_or_app; right; now left|].
        split; [rewrite F1; discriminate|]. rewrite F3. simpl. right. now left. }
    intros need Hn. apply (noFree_mark _ (slot_ix v) _ _ marks_markUsed), Hmore, Hn.
  - apply freeSlot_None in Ef. exists []. rewrite Ev.
    split; [exact Hs|]. split; [exact Hl|]. split; [exact Hc|]. split; [reflexivity|].
    split; [exact Hb|]. split; [exact Hr|].
    split; [rewrite map_app; apply sublist_inserts_r, Hsub|].
    split; [|exact Hmore].
    intros s Hin. apply in_app_or in Hin as [Hin|[<-|[]]]; [apply Hdone, Hin|].
    right. exact Ef.
Qed.

Lemma addStop_inv done st v stop :
  locationId stop <> d -> splitInv done st -> assignedVehicle st = Some v ->
  currentVehicleLoad st + demand stop <= slot_capacity v ->
  splitInv (done ++ [stop])
    (mkSplit (currentVehicleLoad st + demand stop) (currentVehicleStops st ++ [stop])
       (Some v) (splitSlots st) (pushed st)).
Proof.
  intros Hstop (chunk & Hs & Hl & Hc & Hv & Hb & Hr & Hsub & Hdone & Hmore) Ev Hfit.
  assert (Eall : all st = pushed st ++ [closed v chunk]).
  { unfold all, splitRoutes, pendingRoutes, closed. rewrite Ev, Hs, Hl. reflexivity. }
  rewrite Ev in Hv. destruct Hv as (Hne & Hfrom & Hcap).
  assert (Hne' : chunk ++ [stop] <> []) by (destruct chunk; discriminate).
  assert (Hc' : forall s, In s (chunk ++ [stop]) -> locationId s <> d).
  { intros s Hin. apply in_app_or in Hin as [Hin|[<-|[]]]; [apply Hc, Hin|exact Hstop]. }
  destruct (closed_facts v chunk Hne Hc) as (O1 & O2 & O3 & O4 & O5).
  destruct (closed_facts v (chunk ++ [stop]) Hne' Hc') as (F1 & F2 & F3 & F4 & F5).
  assert (Enew : all (mkSplit (currentVehicleLoad st + demand stop)
                        (currentVehicleStops st ++ [stop]) (Some v) (splitSlots st)
                        (pushed st))
                 = pushed st ++ [closed v (chunk ++ [stop])]).
  { unfold all, splitRoutes, pendingRoutes, closed. cbn [assignedVehicle pushed
      currentVehicleStops currentVehicleLoad]. rewrite Hs, Hl, total_snoc. reflexivity. }
  exists (chunk ++ [stop]). rewrite Enew.
  cbn [currentVehicleStops currentVehicleLoad assignedVehicle splitSlots pushed].
  split; [rewrite Hs; reflexivity|].
  split; [rewrite Hl, total_snoc; reflexivity|].
  split; [exact Hc'|].
  split; [split; [exact Hne'|]; split; [exact Hfrom|]; rewrite total_snoc; lia|].
  split.
  { rewrite app_assoc. rewrite Eall, app_assoc in Hb.
    apply (booked_replace slots0 _ _ _ _ v Hb Hfrom O1 F1).
    rewrite F2, total_snoc. lia. }
  split.
  { intros p Hp. apply in_app_or in Hp as [Hp|[<-|[]]].
    - apply Hr. rewrite Eall. apply in_or_app. now left.
    - split; [exact F4|]. rewrite F1. discriminate. }
  split.
  { rewrite servedIds_app, F5, !map_app, app_assoc.
    rewrite Eall, servedIds_app, O5 in Hsub.
    apply sublist_app; [exact Hsub|reflexivity]. }
  split; [|exact Hmore].
  intros s Hin. apply in_app_or in Hin as [Hin|[<-|[]]].
  - destruct (Hdone s Hin) as [(p & Hp & Hvp & Hid)|Hn]; [left|right; exact Hn].
    rewrite Eall in Hp. apply in_app_or in Hp as [Hp|[<-|[]]].
    + exists p. split; [apply in_or_app; now left|]. split; assumption.
    + exists (closed v (chunk ++ [stop])). split; [apply in_or_app; right; now left|].
      split; [rewrite F1; discriminate|]. rewrite F3. rewrite O3 in Hid.
      destruct Hid as [Hid|Hid]; [now left|right].
      rewrite map_app, <- app_assoc. apply in_app_or in Hid as [Hid|Hid];
        apply in_or_app; [now left|right]. apply in_or_app. now right.
  - left. exists (closed v (chunk ++ [stop])). split; [apply in_or_app; right; now left|].
    split; [rewrite F1; discriminate|]. rewrite F3. right.
    rewrite map_app, <- app_assoc. apply in_or_app. right. now left.
Qed.

Lemma splitStep_inv done st stop :
  locationId stop <> d -> splitInv done st ->
  splitInv (done ++ [stop]) (splitStep calc distances speedKmh [first] [last] st stop).
Proof.
  intros Hstop Hinv. unfold splitStep. rewrite js_orZ_zero.
  destruct (assignedVehicle st) as [v|] eqn:Ev.
  - destruct (currentVehicleLoad st + demand stop >? slot_capacity v) eqn:Eo.
    + cbn [assignedVehicle splitSlots currentVehicleLoad currentVehicleStops pushed].
      apply (placeStop_inv done _ stop Hstop (closeRoute_inv done st v Hinv Ev)). reflexivity.
    + rewrite Ev. rewrite Z.gtb_ltb in Eo. apply Z.ltb_ge in Eo.
      apply addStop_inv; assumption.
  - rewrite Ev. apply placeStop_inv; assumption.
Qed.

Lemma split_fold todo : forall done st,
  (forall s, In s todo -> locationId s <> d) -> splitInv done st ->
  splitInv (done ++ todo)
    (fold_left (splitStep calc distances speedKmh [first] [last]) todo st).
Proof.
  induction todo as [|stop todo IH]; intros done st Hc Hinv; simpl.
  - rewrite app_nil_r. exact Hinv.
  - replace (done ++ stop :: todo) with ((done ++ [stop]) ++ todo)
      by (rewrite <- app_assoc; reflexivity).
    apply IH; [intros s Hs; apply Hc; now right|].
    apply splitStep_inv; [apply Hc; now left|exact Hinv].
Qed.

(** What the split of a route leaves: routes that have a vehicle each and
    carry some of the stops, each stop once; a stop that is on none of them
    fitted no unused slot. *)
Lemma splitRoute_spec r mid :
  stops r = first :: mid ++ [last] -> mid <> [] ->
  (forall s, In s mid -> locationId s <> d) ->
  booked slots0 before slots ->
  let res := splitRoute calc distances speedKmh slots r in
  booked slots0 (before ++ fst res) (snd res) /\
  (forall p, In p (fst res) -> depotLoop d p /\ vehicle p <> None) /\
  sublist (servedIds d (fst res)) (map locationId mid) /\
  (forall s, In s mid ->
     onVehicle (fst res) (locationId s) \/ noFree (snd res) (demand s)) /\
  moreUsed slots (snd res).
Proof.
  intros Hs Hne Hc Hb res.
  assert (E1 : take 1 (stops r) = [first]) by (rewrite Hs; reflexivity).
  assert (E2 : drop (length (stops r) - 1) (stops r) = [last]).
  { rewrite Hs. change (first :: mid ++ [last]) with ((first :: mid) ++ [last]).
    rewrite length_app. simpl length.
    replace (S (length mid) + 1 - 1)%nat with (length (first :: mid))
      by (simpl; lia).
    rewrite drop_app_length. reflexivity. }
  assert (E3 : interior (stops r) = mid) by (rewrite Hs; apply interior_middle).
  assert (H0 : splitInv [] (mkSplit 0 [first] None slots [])).
  { exists []. unfold all, splitRoutes, pendingRoutes. simpl. rewrite app_nil_r.
    split; [reflexivity|]. split; [reflexivity|]. split; [intros s []|].
    split; [reflexivity|]. split; [exact Hb|]. split; [intros p []|].
    split; [constructor|]. split; [intros s []|]. apply moreUsed_refl. }
  pose proof (split_fold mid [] _ Hc H0) as Hinv. simpl in Hinv.
  unfold res, splitRoute. rewrite E1, E2, E3. cbv zeta.
  set (st := fold_left _ mid _) in *.
  destruct Hinv as (chunk & Hst & Hl & Hcc & Hv & Hb' & Hr & Hsub & Hdone & Hmore).
  assert (Eres : (match assignedVehicle st with
                  | Some v =>
                      if (1 <? length (currentVehicleStops st))%nat
                      then (pushed st ++ [closedRoute calc distances speedKmh v
                                            (currentVehicleStops st) [last]
                                            (currentVehicleLoad st)], splitSlots st)
                      else (pushed st, splitSlots st)
                  | None => (pushed st, splitSlots st)
                  end) = (all st, splitSlots st)).
  { unfold all, splitRoutes, pendingRoutes. destruct (assignedVehicle st) as [v|].
    - destruct Hv as (Hcne & _). rewrite Hst.
      destruct chunk; [congruence|]. reflexivity.
    - rewrite app_nil_r. reflexivity. }
  rewrite Eres. cbn [fst snd]. auto.
Qed.

End SplitFacts.

Section ThirdPassFacts.
Import ClarkeWright Passes.

Variables (calc : DistanceKernel) (distances : DistanceMatrix) (speedKmh : Q).
Variable slots0 : list VehicleSlot.
Hypothesis slots0_nodup : NoDup (map slot_ix slots0).
Variable d : Id.

Let out (st : Third) : list Route := kept st ++ added st.

(** The state of the third pass before the routes [todo], after the routes
    [processed]. *)
Let thirdInv (todo processed : list Route) (st : Third) : Prop :=
  booked slots0 (out st ++ todo) (thirdSlots st) /\
  (forall p, In p (out st) ->
     depotLoop d p /\
     (vehicle p = None ->
      capacityExceeded p = Some true /\ length (stops p) = 3%nat)) /\
  servedIds d (out st) ⊆+ servedIds d processed /\
  (forall r s, In r processed -> In s (interior (stops r)) ->
     onVehicle (out st) (locationId s) \/ noFree (thirdSlots st) (demand s)).

Lemma interior_In (s : Stop) sts : In s (interior sts) -> In s sts.
Proof.
  unfold interior. intros H.
  assert (Hd : In s (drop 1 sts)).
  { destruct (drop 1 sts) as [|x l] eqn:E; [destruct H|].
    rewrite <- E. destruct (exists_last (l := x :: l)) as (l' & a & E');
      [discriminate|].
    rewrite E' in H. rewrite removelast_last in H. rewrite E, E'.
    apply in_or_app. now left. }
  apply list_elem_of_In in Hd. apply list_elem_of_In.
  eapply (subseteq_drop 1 sts), Hd.
Qed.

Lemma booked_drop routes routes' slots r :
  vehicle r = None -> booked slots0 (routes ++ r :: routes') slots ->
  booked slots0 (routes ++ routes') slots.
Proof.
  intros Hv (B1 & B2 & B3 & B4 & B5). repeat split; try assumption.
  - intros vid. rewrite <- B4, !routesOf_app. unfold routesOf at 4. simpl. rewrite Hv.
    reflexivity.
  - intros x vid Hx. apply B5. apply in_app_or in Hx as [Hx|Hx]; apply in_or_app;
      [now left|right; now right].
Qed.

Lemma depotLoop_same r r' :
  stops r' = stops r -> totalCapacity r' = totalCapacity r -> depotLoop d r ->
  depotLoop d r'.
Proof. intros Hs Ht H. unfold depotLoop. rewrite Hs, Ht. exact H. Qed.

Lemma servedIds_same r r' : stops r' = stops r -> servedIds d [r'] = servedIds d [r].
Proof. intros Hs. unfold servedIds. simpl. rewrite Hs. reflexivity. Qed.

Lemma out_keep st r todo :
  Permutation ((kept st ++ [r]) ++ added st ++ todo) (out st ++ r :: todo).
Proof.
  unfold out. rewrite <- !app_assoc. apply Permutation_app_head. simpl.
  apply Permutation_middle.
Qed.

Lemma thirdPassStep_inv todo processed st r :
  depotLoop d r -> thirdInv (r :: todo) processed st ->
  thirdInv todo (processed ++ [r]) (thirdPassStep calc distances speedKmh st r).
Proof.
  intros Hrt (Hb & Hr & Hsub & Hdone).
  pose proof Hrt as ((mids & Hmne & Hids & Hmd) & Htc).
  destruct (stops_of_ids d (stops r) mids Hids) as (first & mid & last & Hs & Hf & Hl & Hm).
  assert (Hmid_d : forall s, In s mid -> locationId s <> d).
  { intros s Hin. apply Hmd. rewrite <- Hm. apply in_map, Hin. }
  assert (Hmid_ne : mid <> []) by (intros ->; simpl in Hm; congruence).
  assert (Hint : interior (stops r) = mid) by (rewrite Hs; apply interior_middle).
  assert (Hserved : servedIds d [r] = map locationId mid).
  { rewrite Hm. apply (servedIds_ids d r mids Hids Hmd). }
  unfold thirdPassStep.
  destruct (vehicle r) as [vid|] eqn:Ev.
  - (* the route has a vehicle *)
    unfold thirdInv, out. cbn [kept added thirdSlots].
    split; [|split; [|split]].
    + eapply booked_perm; [|exact Hb]. symmetry. rewrite <- app_assoc. apply out_keep.
    + intros p Hp. apply in_app_or in Hp as [Hp|Hp].
      * apply in_app_or in Hp as [Hp|[<-|[]]].
        -- apply Hr. apply in_or_app. now left.
        -- split; [exact Hrt|]. congruence.
      * apply Hr. apply in_or_app. now right.
    + rewrite (servedIds_app d processed [r]).
      rewrite (servedIds_perm d ((kept st ++ [r]) ++ added st) (out st ++ [r])).
      * rewrite servedIds_app. apply submseteq_app; [exact Hsub|reflexivity].
      * unfold out. rewrite <- !app_assoc. apply Permutation_app_head.
        apply Permutation_app_comm.
    + intros r' s Hr' Hs'. apply in_app_or in Hr' as [Hr'|[<-|[]]].
      * destruct (Hdone r' s Hr' Hs') as [Ho|Hn]; [left|right; exact Hn].
        eapply onVehicle_more; [|exact Ho]. intros p Hp. unfold out in Hp.
        apply in_app_or in Hp as [Hp|Hp]; apply in_or_app; [left|now right].
        apply in_or_app. now left.
      * left. exists r. split; [apply in_or_app; left; apply in_or_app; right; now left|].
        split; [congruence|]. apply in_map, interior_In, Hs'.
  - destruct (Nat.ltb_spec 3 (length (stops r))) as [Hlen|Hlen].
    + (* the route is split *)
      pose proof (booked_drop _ _ _ r Ev Hb) as Hb0.
      pose proof (splitRoute_spec calc distances speedKmh slots0 slots0_nodup d first last
                    Hf Hl (out st ++ todo) (thirdSlots st) r mid Hs Hmid_ne Hmid_d Hb0)
        as Hspec.
      cbv zeta in Hspec.
      destruct (splitRoute calc distances speedKmh (thirdSlots st) r) as [pieces slots'].
      cbn [fst snd] in Hspec. destruct Hspec as (S1 & S2 & S3 & S4 & S5).
      unfold thirdInv, out. cbn [kept added thirdSlots].
      split; [|split; [|split]].
      * eapply booked_perm; [|exact S1]. unfold out. rewrite <- !app_assoc.
        apply Permutation_app_head. apply Permutation_app_head.
        apply Permutation_app_comm.
      * intros p Hp. apply in_app_or in Hp as [Hp|Hp].
        -- apply Hr. apply in_or_app. now left.
        -- apply in_app_or in Hp as [Hp|Hp].
           ++ apply Hr. apply in_or_app. now right.
           ++ destruct (S2 p Hp) as (G1 & G2). split; [exact G1|]. congruence.
      * rewrite app_assoc, !(servedIds_app d _ pieces), (servedIds_app d processed [r]).
        apply submseteq_app; [exact Hsub|]. rewrite Hserved.
        apply sublist_submseteq, S3.
      * intros r' s Hr' Hs'. apply in_app_or in Hr' as [Hr'|[<-|[]]].
        -- destruct (Hdone r' s Hr' Hs') as [Ho|Hn]; [left|right; apply S5, Hn].
           eapply onVehicle_more; [|exact Ho]. intros p Hp. unfold out in Hp.
           apply in_app_or in Hp as [Hp|Hp]; apply in_or_app; [now left|right].
           apply in_or_app. now left.
        -- rewrite Hint in Hs'. destruct (S4 s Hs') as [Ho|Hn]; [left|right; exact Hn].
           eapply onVehicle_more; [|exact Ho]. intros p Hp.
           apply in_or_app. right. apply in_or_app. now right.
    + (* a route of one customer *)
      assert (Hlen3 : length (stops r) = 3%nat).
      { pose proof (depotLoop_length d r Hrt). lia. }
      assert (Hone : exists s0, mid = [s0]).
      { rewrite Hs in Hlen3. simpl in Hlen3. rewrite length_app in Hlen3. simpl in Hlen3.
        destruct mid as [|s0 [|s1 mid]]; [congruence|eauto|simpl in Hlen3; lia]. }
      destruct Hone as (s0 & ->).
      assert (Hload : totalCapacity r = demand s0).
      { rewrite Htc, Hs. rewrite (demandOf_middle first last [s0]). simpl. lia. }
      pose proof (booked_drop _ _ _ r Ev Hb) as Hb0.
      unfold Assign.assignSingleStop. rewrite js_orZ_zero.
      change (List.find
                (fun vs => negb (used vs) && (totalCapacity r <=? slot_capacity vs))
                (thirdSlots st))
        with (freeSlot (thirdSlots st) (totalCapacity r)).
      destruct (freeSlot (thirdSlots st) (totalCapacity r)) as [slot|] eqn:Ef.
      * apply freeSlot_Some in Ef as (Hin & Hu & Hfit).
        set (r' := Assign.setFlag (setVehicle r slot) false).
        unfold thirdInv, out. cbn [kept added thirdSlots].
        split; [|split; [|split]].
        -- eapply booked_perm;
             [|apply (booked_mark slots0 slots0_nodup _ (out st ++ todo) _ slot r'
                        (marks_engage (totalCapacity r)) Hb0 Hin Hu eq_refl Hfit)].
           unfold out. rewrite <- !app_assoc. apply Permutation_app_head.
           rewrite app_assoc. apply Permutation_app_comm.
        -- intros p Hp. apply in_app_or in Hp as [Hp|Hp].
           ++ apply in_app_or in Hp as [Hp|[<-|[]]].
              ** apply Hr. apply in_or_app. now left.
              ** split; [apply (depotLoop_same r r'); auto|]. discriminate.
           ++ apply Hr. apply in_or_app. now right.
        -- rewrite (servedIds_app d processed [r]).
           rewrite (servedIds_perm d ((kept st ++ [r']) ++ added st) (out st ++ [r'])).
           ++ rewrite servedIds_app, (servedIds_same r r' eq_refl).
              apply submseteq_app; [exact Hsub|reflexivity].
           ++ unfold out. rewrite <- !app_assoc. apply Permutation_app_head.
              apply Permutation_app_comm.
        -- intros x s Hx Hs'. apply in_app_or in Hx as [Hx|[<-|[]]].
           ++ destruct (Hdone x s Hx Hs') as [Ho|Hn]; [left|right].
              ** eapply onVehicle_more; [|exact Ho]. intros p Hp. unfold out in Hp.
                 apply in_app_or in Hp as [Hp|Hp]; apply in_or_app; [left|now right].
                 apply in_or_app. now left.
              ** apply (noFree_mark _ (slot_ix slot) _ _ (marks_engage (totalCapacity r)) Hn).
           ++ left. exists r'.
              split; [apply in_or_app; left; apply in_or_app; right; now left|].
              split; [discriminate|]. apply in_map, interior_In, Hs'.
      * apply freeSlot_None in Ef.
        set (r' := {| vehicle := None; vehicleName := "Unassigned - Insufficient Capacity";
                      stops := stops r; distance := distance r; duration := duration r;
                      totalCapacity := totalCapacity r;
                      capacityExceeded := Some true |}).
        unfold thirdInv, out. cbn [kept added thirdSlots].
        split; [|split; [|split]].
        -- eapply booked_perm;
             [|apply (booked_idle slots0 (out st ++ todo) (thirdSlots st) r' eq_refl Hb0)].
           unfold out. rewrite <- !app_assoc. apply Permutation_app_head.
           rewrite app_assoc. apply Permutation_app_comm.
        -- intros p Hp. apply in_app_or in Hp as [Hp|Hp].
           ++ apply in_app_or in Hp as [Hp|[<-|[]]].
              ** apply Hr. apply in_or_app. now left.
              ** split; [apply (depotLoop_same r r'); auto|]. intros _.
                 split; [reflexivity|exact Hlen3].
           ++ apply Hr. apply in_or_app. now right.
        -- rewrite (servedIds_app d processed [r]).
           rewrite (servedIds_perm d ((kept st ++ [r']) ++ added st) (out st ++ [r'])).
           ++ rewrite servedIds_app, (servedIds_same r r' eq_refl).
              apply submseteq_app; [exact Hsub|reflexivity].
           ++ unfold out. rewrite <- !app_assoc. apply Permutation_app_head.
              apply Permutation_app_comm.
        -- intros x s Hx Hs'. apply in_app_or in Hx as [Hx|[<-|[]]].
           ++ destruct (Hdone x s Hx Hs') as [Ho|Hn]; [left|right; exact Hn].
              eapply onVehicle_more; [|exact Ho]. intros p Hp. unfold out in Hp.
              apply in_app_or in Hp as [Hp|Hp]; apply in_or_app; [left|now right].
              apply in_or_app. now left.
           ++ right. rewrite Hint in Hs'. destruct Hs' as [<-|[]].
              rewrite <- Hload. exact Ef.
Qed.

Lemma thirdPass_fold todo : forall processed st,
  (forall r, In r todo -> depotLoop d r) ->
  thirdInv todo processed st ->
  thirdInv [] (processed ++ todo)
    (fold_left (thirdPassStep calc distances speedKmh) todo st).
Proof.
  induction todo as [|r todo IH]; intros processed st Hrt Hinv; simpl.
  - rewrite app_nil_r. exact Hinv.
  - replace (processed ++ r :: todo) with ((processed ++ [r]) ++ todo)
      by (rewrite <- app_assoc; reflexivity).
    apply IH; [intros x Hx; apply Hrt; now right|].
    apply thirdPassStep_inv; [apply Hrt; now left|exact Hinv].
Qed.

(** The routes of the third pass, for routes that are round trips and slots
    booked by the routes that have a vehicle. *)
Lemma thirdPass_spec routes slots :
  (forall r, In r routes -> depotLoop d r) ->
  booked slots0 routes slots ->
  exists slots',
    let result := thirdPass calc distances speedKmh (routes, slots) in
    booked slots0 result slots' /\
    (forall p, In p result ->
       depotLoop d p /\
       (vehicle p = None ->
        capacityExceeded p = Some true /\ length (stops p) = 3%nat)) /\
    servedIds d result ⊆+ servedIds d routes /\
    (forall r s, In r routes -> In s (interior (stops r)) ->
       onVehicle result (locationId s) \/ noFree slots' (demand s)).
Proof.
  intros Hrt Hb.
  assert (H0 : thirdInv routes [] (mkThird [] [] slots)).
  { unfold thirdInv, out. simpl. split; [exact Hb|]. split; [intros p []|].
    split; [reflexivity|]. intros r s []. }
  pose proof (thirdPass_fold routes [] _ Hrt H0) as (T1 & T2 & T3 & T4).
  simpl in T1, T2, T3, T4. unfold thirdPass. cbn [fst snd].
  set (st := fold_left _ routes _) in *.
  exists (thirdSlots st). cbv zeta. fold (out st).
  rewrite app_nil_r in T1. auto.
Qed.

End ThirdPassFacts.

Section FinishFacts.
Import ClarkeWright Passes LocalSearch ThreeOpt.

Variables (calc : DistanceKernel) (locations : list Location) (speedKmh : Q).

Hypothesis kernel_nonneg : forall lat1 lon1 lat2 lon2, (0 <= calc lat1 lon1 lat2 lon2)%Q.

Let distances := buildDistances calc locations.
Let cost := calcDist calc distances.

(** The end of [clarkeWrightAlgorithm] on one route of three stops or more:
    the metrics are recomputed and the local search runs. *)
Lemma finish_searched p :
  (3 <= length (stops p))%nat ->
  exists fuel0 f,
    (forall fuel, (fuel0 <= fuel)%nat ->
       improveRouteWithLocalSearch fuel calc distances speedKmh
         (recomputeRouteMetrics calc distances speedKmh p) = Some f) /\
    searched p f /\ ordersMatch f.
Proof.
  intros Hlen. set (route := recomputeRouteMetrics calc distances speedKmh p).
  assert (Hcost : forall s, (0 <= cost s)%Q) by (intros s; apply calcDist_nonneg, kernel_nonneg).
  assert (Hbuilt : forall sq', rearranges (stops p) sq' ->
            let f := recomputeRouteMetrics calc distances speedKmh
                       (setStops route (renumber sq')) in
            searched p f /\ ordersMatch f).
  { intros sq' Hr f. split.
    - split; [reflexivity|]. split; [reflexivity|]. split; [reflexivity|].
      right. exists sq'. split; [exact Hr|reflexivity].
    - unfold ordersMatch, f, recomputeRouteMetrics. simpl. unfold renumber at 2.
      rewrite length_imap. apply map_order_renumber. }
  unfold improveRouteWithLocalSearch.
  assert (Hs : stops route = stops p) by reflexivity. rewrite Hs.
  destruct (Nat.ltb_spec (length (stops p)) 3) as [Hlt|_]; [lia|].
  cbv zeta. fold cost.
  destruct (sweepBound_suffices cost Hcost (stops p) _ (Nat.le_refl _)) as (sq & Hsq).
  destruct (twoOpt_spec cost _ _ _ Hsq) as (R1 & C1 & _).
  destruct (threeOptOnce cost sq) as [sq3|] eqn:H3.
  - pose proof H3 as E3. apply threeOptOnce_spec in H3 as (R3 & C3).
    assert (C3' : (cost sq3 <= cost sq)%Q).
    { eapply Qle_trans; [apply tolerance_nonneg|apply Qlt_le_weak, C3]. }
    assert (Hb : (sweepBound cost sq3 <= sweepBound cost (stops p))%nat).
    { apply sweepBound_mono. eapply Qle_trans; eassumption. }
    destruct (sweepBound_suffices cost Hcost sq3 _ Hb) as (sq' & Hsq').
    destruct (twoOpt_spec cost _ _ _ Hsq') as (R4 & C4 & _).
    assert (R : rearranges (stops p) sq').
    { eapply rearranges_trans; [exact R1|]. eapply rearranges_trans; eassumption. }
    eexists (sweepBound cost (stops p)), _. split.
    + intros fuel Hle. rewrite (twoOpt_fuel_mono cost _ _ _ _ Hsq Hle), E3,
        (twoOpt_fuel_mono cost _ _ _ _ Hsq' Hle). reflexivity.
    + apply Hbuilt, R.
  - eexists (sweepBound cost (stops p)), _. split.
    + intros fuel Hle. rewrite (twoOpt_fuel_mono cost _ _ _ _ Hsq Hle), H3. reflexivity.
    + apply Hbuilt, R1.
Qed.

End FinishFacts.

Section RelatedFacts.
Import ClarkeWright Passes.

Lemma Forall2_In_l {A B} (R : A -> B -> Prop) l l' a :
  Forall2 R l l' -> In a l -> exists b, In b l' /\ R a b.
Proof.
  induction 1 as [|x y l l' Hxy _ IH]; intros Ha; [destruct Ha|].
  destruct Ha as [<-|Ha]; [exists y; split; [now left|exact Hxy]|].
  destruct (IH Ha) as (b & Hb & Hab). exists b. split; [now right|exact Hab].
Qed.

Lemma routesOf_related vid (l l' : list Route) :
  Forall2 (fun p f => vehicle f = vehicle p) l l' ->
  length (routesOf vid l') = length (routesOf vid l).
Proof.
  induction 1 as [|p f l l' E _ IH]; [reflexivity|].
  unfold routesOf in *. simpl. rewrite E.
  destruct (vehicle p) as [id|]; [destruct (String.eqb id vid)|]; simpl; rewrite ?IH;
    reflexivity.
Qed.

Lemma booked_related slots0 (l l' : list Route) slots :
  Forall2 (fun p f => vehicle f = vehicle p /\ totalCapacity f = totalCapacity p) l l' ->
  booked slots0 l slots -> booked slots0 l' slots.
Proof.
  intros Hrel (B1 & B2 & B3 & B4 & B5). repeat split; try assumption.
  - intros vid. rewrite <- B4. apply routesOf_related.
    eapply Forall2_impl; [exact Hrel|]. intros p f (E & _). exact E.
  - intros f vid Hf Hv. destruct (Forall2_In_r _ _ _ _ Hrel Hf) as (p & Hp & Ev & Et).
    rewrite Et. apply (B5 p vid Hp). congruence.
Qed.

Lemma onVehicle_related (l l' : list Route) id :
  Forall2 (fun p f => vehicle f = vehicle p /\
                      Permutation (map locationId (stops f)) (map locationId (stops p)))
          l l' ->
  onVehicle l id -> onVehicle l' id.
Proof.
  intros Hrel (p & Hp & Hv & Hid).
  destruct (Forall2_In_l _ _ _ _ Hrel Hp) as (f & Hf & Ev & Ep).
  exists f. split; [exact Hf|]. split; [congruence|].
  apply list_elem_of_In. rewrite Ep. apply list_elem_of_In, Hid.
Qed.

Lemma searched_ids p f :
  searched p f -> Permutation (map locationId (stops f)) (map locationId (stops p)).
Proof.
  intros (_ & _ & _ & [->|(sq' & (Hp & _) & Hs)]); [reflexivity|].
  rewrite Hs, map_locationId_renumber. apply Permutation_map, Hp.
Qed.

Lemma searched_length p f : searched p f -> length (stops f) = length (stops p).
Proof.
  intros H. rewrite <- (length_map locationId (stops f)), <- (length_map locationId (stops p)).
  apply Permutation_length, searched_ids, H.
Qed.

Lemma count_by_id vid (l l' : list VehicleSlot) :
  map slot_id l = map slot_id l' ->
  length (List.filter (fun vs => String.eqb (slot_id vs) vid) l)
  = length (List.filter (fun vs => String.eqb (slot_id vs) vid) l').
Proof.
  revert l'. induction l as [|x l IH]; intros [|y l'] H; simpl in *; try discriminate;
    [reflexivity|].
  injection H as E H. rewrite E. destruct (String.eqb (slot_id y) vid); simpl;
    rewrite (IH l' H); reflexivity.
Qed.

Lemma usedSlots_le vid slots :
  (length (usedSlots vid slots)
   <= length (List.filter (fun vs => String.eqb (slot_id vs) vid) slots))%nat.
Proof.
  unfold usedSlots. induction slots as [|x l IH]; simpl; [lia|].
  destruct (used x), (String.eqb (slot_id x) vid); simpl; lia.
Qed.

Lemma usedSlots_all vid slots :
  (forall vs, In vs slots -> slot_id vs = vid -> used vs = true) ->
  length (usedSlots vid slots)
  = length (List.filter (fun vs => String.eqb (slot_id vs) vid) slots).
Proof.
  unfold usedSlots. induction slots as [|x l IH]; intros H; simpl; [reflexivity|].
  destruct (String.eqb (slot_id x) vid) eqn:E.
  - apply String.eqb_eq in E. rewrite (H x (or_introl eq_refl) E). simpl.
    rewrite IH; [reflexivity|]. intros vs Hvs. apply H. now right.
  - rewrite andb_false_r. apply IH. intros vs Hvs. apply H. now right.
Qed.

Lemma slotsOfId_sorted vid vehicles :
  length (List.filter (fun vs => String.eqb (slot_id vs) vid)
            (Assign.sortSlots (expandSlots vehicles)))
  = length (slotsOfId vid vehicles).
Proof.
  unfold slotsOfId, Assign.sortSlots. apply Permutation_length, filter_perm, sort_by_perm.
Qed.

End RelatedFacts.

Section WholeFacts.
Import ClarkeWright Passes.

Variables (calc : DistanceKernel) (vehicles : list Vehicle) (locations : list Location)
          (depot : Location).

Hypothesis kernel_nonneg : forall lat1 lon1 lat2 lon2, (0 <= calc lat1 lon1 lat2 lon2)%Q.
Hypothesis ids_distinct : NoDup (map loc_id locations).
Hypothesis demands_nonneg : forall l, In l locations -> 0 <= loc_demand l.

Let distances := buildDistances calc locations.
Let d := loc_id depot.
Let customers := nonDepotOf locations depot.
Let slots0 := Assign.sortSlots (expandSlots vehicles).
Let savingsRoutes := routesAfterSavings calc vehicles locations depot.

Lemma customers_not_depot_here l : In l customers -> loc_id l <> d.
Proof.
  intros Hl. apply filter_In in Hl as [_ Hl].
  apply negb_true_iff, String.eqb_neq in Hl. exact Hl.
Qed.

Lemma ids_injective l l' :
  In l locations -> In l' locations -> loc_id l = loc_id l' -> l = l'.
Proof.
  intros Hl Hl' E.
  apply list_elem_of_In, list_elem_of_lookup_1 in Hl as (i & Hi).
  apply list_elem_of_In, list_elem_of_lookup_1 in Hl' as (j & Hj).
  assert (i = j).
  { apply (NoDup_lookup (map loc_id locations) i j (loc_id l)).
    - exact ids_distinct.
    - change (map loc_id locations) with (loc_id <$> locations).
      rewrite list_lookup_fmap, Hi. reflexivity.
    - change (map loc_id locations) with (loc_id <$> locations).
      rewrite list_lookup_fmap, Hj, E. reflexivity. }
  subst j. congruence.
Qed.

Lemma savingsRoutes_facts :
  (forall r, In r savingsRoutes -> depotLoop d r /\ vehicle r = None) /\
  NoDup (servedIds d savingsRoutes) /\
  Permutation (servedIds d savingsRoutes) (map loc_id customers) /\
  (forall c, In c customers ->
     exists r s, In r savingsRoutes /\ In s (interior (stops r)) /\
                 locationId s = loc_id c /\ demand s = loc_demand c).
Proof.
  assert (Hout :
    (forall r, In r savingsRoutes ->
       exists picked, picked <> [] /\ (forall l, In l picked -> In l customers) /\
         stops r = tourStops depot picked /\ vehicle r = None /\
         capacityExceeded r = None) /\
    (forall r, In r savingsRoutes -> gated (maxCapacityOf vehicles) r) /\
    NoDup (servedIds d savingsRoutes) /\
    Permutation (servedIds d savingsRoutes) (map loc_id customers)).
  { destruct (savings_outcome calc distances SPEED_KMH (maxCapacityOf vehicles) locations
                depot (basicSaving distances depot) ids_distinct demands_nonneg)
      as (Ht & Hg & Hnd & Hperm & _).
    split; [exact Ht|]. split; [exact Hg|]. split; [exact Hnd|exact Hperm]. }
  destruct Hout as (Ht & Hg & Hnd & Hperm).
  split; [|split; [exact Hnd|split; [exact Hperm|]]].
  - intros r Hr. destruct (Ht r Hr) as (picked & Hne & Hc & Hs & Hv & _).
    destruct (Hg r Hr) as (_ & Hd & _).
    split; [|exact Hv].
    apply (tour_depotLoop d depot picked r eq_refl Hne); [|exact Hs|exact Hd].
    intros l Hl. apply customers_not_depot_here, Hc, Hl.
  - intros c Hc.
    assert (Hin : In (loc_id c) (servedIds d savingsRoutes)).
    { apply list_elem_of_In. rewrite Hperm. apply list_elem_of_In, in_map, Hc. }
    rewrite servedIds_flat in Hin. apply in_flat_map in Hin as (r & Hr & Hin).
    destruct (Ht r Hr) as (picked & Hne & Hpc & Hs & _).
    cbv beta in Hin. unfold d in Hin.
    rewrite (served_of_tour depot customers customers_not_depot_here r picked Hs Hpc) in Hin.
    apply in_map_iff in Hin as (l & El & Hl).
    assert (l = c).
    { apply ids_injective; [| |exact El].
      - apply Hpc in Hl. apply filter_In in Hl as [Hl _]. exact Hl.
      - apply filter_In in Hc as [Hc _]. exact Hc. }
    subst l. apply list_elem_of_In, list_elem_of_lookup_1 in Hl as (k & Hk).
    exists r, (stopOf c (S k)). split; [exact Hr|]. split.
    + rewrite Hs, interior_tour. apply list_elem_of_In.
      apply (list_elem_of_lookup_2 _ k). rewrite list_lookup_imap, Hk. reflexivity.
    + split; [reflexivity|]. simpl. apply js_orZ_zero.
Qed.

Lemma slotPressure_runs :
  exists routes,
    slotPressure calc distances SPEED_KMH vehicles savingsRoutes = Some routes /\
    Permutation routes savingsRoutes.
Proof.
  unfold slotPressure.
  destruct (0 <? totalVehicleSlotsOf vehicles); [|exists savingsRoutes; auto].
  destruct (pressureLoop_maximal calc distances SPEED_KMH (maxCapacityOf vehicles)
              (totalVehicleSlotsOf vehicles) 1000 savingsRoutes
              (routesAfterSavings_maximal calc vehicles locations depot
                 ids_distinct demands_nonneg)) as [E|E]; rewrite E.
  - exists savingsRoutes. auto.
  - exists (sortAscending savingsRoutes). split; [reflexivity|apply sortAscending_perm].
Qed.

Lemma map_stops_sameTrip l l' : Forall2 sameTrip l l' -> map stops l' = map stops l.
Proof.
  induction 1 as [|r r' l l' (Hs & _) _ IH]; [reflexivity|].
  simpl. rewrite Hs, IH. reflexivity.
Qed.

(** The run of [clarkeWrightAlgorithm] and what holds of its routes; the
    slots are those of the fleet as the passes left them. *)
Lemma clarkeWright_facts :
  exists fuel0 routes slots',
    (forall fuel, (fuel0 <= fuel)%nat ->
       clarkeWrightAlgorithm fuel calc vehicles locations depot = Some routes) /\
    booked slots0 routes slots' /\
    (forall f, In f routes ->
       ordersMatch f /\ totalCapacity f = demandOf (stops f) /\
       (vehicle f = None ->
        capacityExceeded f = Some true /\ length (stops f) = 3%nat)) /\
    servedIds d routes ⊆+ map loc_id customers /\
    (forall c, In c customers ->
       onVehicle routes (loc_id c) \/ noFree slots' (loc_demand c)).
Proof.
  destruct savingsRoutes_facts as (Hsav & Hnd & Hperm & Hcust).
  destruct slotPressure_runs as (routes1 & Hpress & Hp1).
  set (sorted := Assign.sortRoutes (Assign.sortRoutes routes1)).
  assert (Hsorted : Permutation sorted savingsRoutes)
    by exact (sortedRoutes_perm calc vehicles locations depot routes1 Hp1).
  assert (Hsorted_in : forall r, In r sorted -> In r savingsRoutes).
  { intros r Hr. apply list_elem_of_In. rewrite <- Hsorted. apply list_elem_of_In, Hr. }
  destruct (firstPass_inv slots0 (sortedSlots_nodup vehicles) sorted) as (Hb & Hl & Hsame).
  { intros r Hr. apply Hsav, Hsorted_in, Hr. }
  { apply slots0_unused. }
  set (state := firstPass sorted slots0) in *.
  assert (Hsecond : secondPass calc distances SPEED_KMH state = state)
    by exact (secondPass_of_firstPass calc vehicles locations depot ids_distinct
                demands_nonneg routes1 Hp1).
  assert (Hround : forall r, In r (fst state) -> depotLoop d r).
  { intros r1 Hr1. destruct (Forall2_In_r _ _ _ _ Hsame Hr1) as (r & Hr & Hs & Ht & _).
    apply (depotLoop_same d r r1 Hs Ht). apply Hsav, Hsorted_in, Hr. }
  destruct (thirdPass_spec calc distances SPEED_KMH slots0 (sortedSlots_nodup vehicles) d
              (fst state) (snd state) Hround Hb) as (slots' & T1 & T2 & T3 & T4).
  rewrite <- surjective_pairing in T1, T2, T3, T4.
  set (assigned := thirdPass calc distances SPEED_KMH state) in *.
  destruct (allSome_enough_fuel
              (fun fuel p => improveRouteWithLocalSearch fuel calc distances SPEED_KMH
                               (recomputeRouteMetrics calc distances SPEED_KMH p))
              (fun p f => searched p f /\ ordersMatch f) assigned)
    as (fuel0 & routes & Hrun & Hrel).
  { intros p Hp. apply finish_searched; [exact kernel_nonneg|].
    apply (depotLoop_length d), T2, Hp. }
  exists fuel0, routes, slots'. split; [|split; [|split; [|split]]].
  - intros fuel Hle. unfold clarkeWrightAlgorithm. cbv zeta.
    change (slotPressure calc (buildDistances calc locations) SPEED_KMH vehicles
              (routesAfterSavings calc vehicles locations depot))
      with (slotPressure calc distances SPEED_KMH vehicles savingsRoutes).
    rewrite Hpress.
    change (Tabu.allSome
              (map (fun r => improveRouteWithLocalSearch fuel calc distances SPEED_KMH
                               (recomputeRouteMetrics calc distances SPEED_KMH r))
                   (thirdPass calc distances SPEED_KMH
                      (secondPass calc distances SPEED_KMH state)))
            = Some routes).
    rewrite Hsecond. exact (Hrun fuel Hle).
  - apply (booked_related slots0 assigned routes slots'); [|exact T1].
    eapply Forall2_impl; [exact Hrel|]. intros p f ((Ev & Et & _) & _). auto.
  - intros f Hf. destruct (Forall2_In_r _ _ _ _ Hrel Hf) as (p & Hp & Hs & Ho).
    destruct (T2 p Hp) as ((_ & Htc) & Hnone).
    pose proof (searched_demand _ _ Hs) as Hd.
    pose proof (searched_length _ _ Hs) as Hlen.
    destruct Hs as (Ev & Et & Ec & _).
    split; [exact Ho|]. split; [rewrite Et, Hd; exact Htc|].
    intros Hv. rewrite Ev in Hv. destruct (Hnone Hv) as (Hflag & H3).
    split; [congruence|]. rewrite Hlen. exact H3.
  - assert (Hserved : Permutation (servedIds d routes) (servedIds d assigned)).
    { apply Forall2_searched_served. eapply Forall2_impl; [exact Hrel|].
      intros p f (Hs & _). exact Hs. }
    rewrite Hserved. etransitivity; [exact T3|].
    rewrite (servedIds_stops d _ _ (map_stops_sameTrip _ _ Hsame)).
    rewrite (servedIds_perm d _ _ Hsorted), Hperm. reflexivity.
  - intros c Hc. destruct (Hcust c Hc) as (r & s & Hr & Hs & Hid & Hdem).
    assert (Hr' : In r sorted).
    { apply list_elem_of_In. rewrite Hsorted. apply list_elem_of_In, Hr. }
    destruct (Forall2_In_l _ _ _ _ Hsame Hr') as (r1 & Hr1 & Hst & _).
    rewrite <- Hst in Hs. destruct (T4 r1 s Hr1 Hs) as [Ho|Hn].
    + left. rewrite <- Hid. apply (onVehicle_related assigned routes); [|exact Ho].
      eapply Forall2_impl; [exact Hrel|]. intros p f (Hsr & _).
      split; [apply Hsr|apply searched_ids, Hsr].
    + right. rewrite <- Hdem. exact Hn.
Qed.

End WholeFacts.

Section WholeTheorems.
Import ClarkeWright Passes.

Variables (calc : DistanceKernel) (vehicles : list Vehicle) (locations : list Location)
          (depot : Location).

Hypothesis kernel_nonneg : forall lat1 lon1 lat2 lon2, (0 <= calc lat1 lon1 lat2 lon2)%Q.
Hypothesis ids_distinct : NoDup (map loc_id locations).
Hypothesis demands_nonneg : forall l, In l locations -> 0 <= loc_demand l.

Lemma NoDup_injective {A B} (f : A -> B) (l : list A) x y :
  NoDup (map f l) -> In x l -> In y l -> f x = f y -> x = y.
Proof.
  intros Hnd Hx Hy E.
  apply list_elem_of_In, list_elem_of_lookup_1 in Hx as (i & Hi).
  apply list_elem_of_In, list_elem_of_lookup_1 in Hy as (j & Hj).
  assert (i = j).
  { apply (NoDup_lookup (map f l) i j (f x) Hnd).
    - change (map f l) with (f <$> l). rewrite list_lookup_fmap, Hi. reflexivity.
    - change (map f l) with (f <$> l). rewrite list_lookup_fmap, Hj, E. reflexivity. }
  subst j. congruence.
Qed.

Lemma fleet_slot vs :
  fromSlots (Assign.sortSlots (expandSlots vehicles)) vs ->
  exists v, In v vehicles /\ veh_id v = slot_id vs /\ slot_capacity vs = capacity v.
Proof.
  intros (vs0 & Hin & Hid & Hcap). apply In_sort_by in Hin.
  destruct (expandSlots_from vehicles vs0 Hin) as (v & Hv & Ev & Ec).
  exists v. split; [exact Hv|]. split; congruence.
Qed.

(** X25. [clarkeWrightAlgorithm] returns when the depot is one of the
    locations, the location ids are distinct, no demand is negative and the
    kernel yields no negative distance. Its routes then serve no location
    twice and only customers of the instance; on every route the [order]
    fields read 0, 1, 2, ... and [totalCapacity] is the demand of the
    route's customers; a route that has a vehicle carries no more than that
    vehicle's capacity, and no vehicle drives more routes than the fleet has
    slots for it; a route without a vehicle has one customer and is flagged
    [capacityExceeded]. *)
Theorem clarkeWright_routes :
  In depot locations ->
  exists fuel0 routes,
    (forall fuel, (fuel0 <= fuel)%nat ->
       clarkeWrightAlgorithm fuel calc vehicles locations depot = Some routes) /\
    servedAtMostOnce (loc_id depot) routes /\
    (forall id, In id (servedIds (loc_id depot) routes) ->
       In id (map loc_id (nonDepotOf locations depot))) /\
    (forall r, In r routes ->
       ordersMatch r /\ totalCapacity r = demandOf (stops r) /\
       (forall vid, vehicle r = Some vid ->
          exists v, In v vehicles /\ veh_id v = vid /\ totalCapacity r <= capacity v) /\
       (vehicle r = None ->
        capacityExceeded r = Some true /\ length (stops r) = 3%nat)) /\
    (forall vid, (length (routesOf vid routes) <= length (slotsOfId vid vehicles))%nat).
Proof.
  intros _.
  destruct (clarkeWright_facts calc vehicles locations depot kernel_nonneg ids_distinct
              demands_nonneg) as (fuel0 & routes & slots' & Hrun & Hb & Hr & Hsub & _).
  exists fuel0, routes. split; [exact Hrun|].
  apply submseteq_Permutation in Hsub as (rest & Hperm).
  assert (Hnd : NoDup (map loc_id (nonDepotOf locations depot)))
    by (apply NoDup_map_filter, ids_distinct).
  split; [|split; [|split]].
  - unfold servedAtMostOnce. rewrite Hperm in Hnd. apply NoDup_app in Hnd as (H & _).
    exact H.
  - intros id Hid. apply list_elem_of_In. rewrite Hperm. apply elem_of_app. left.
    apply list_elem_of_In, Hid.
  - intros r Hin. destruct (Hr r Hin) as (Ho & Ht & Hnone).
    split; [exact Ho|]. split; [exact Ht|]. split; [|exact Hnone].
    intros vid Hv. destruct Hb as (_ & _ & _ & _ & B5).
    destruct (B5 r vid Hin Hv) as (vs & Hvs & Hid & Hfit).
    destruct (fleet_slot vs) as (v & Hv' & Ev & Ec).
    { exists vs. auto. }
    exists v. split; [exact Hv'|]. split; [congruence|lia].
  - intros vid. destruct Hb as (_ & B2 & _ & B4 & _). rewrite B4.
    etransitivity; [apply usedSlots_le|].
    rewrite (count_by_id vid _ _ B2), slotsOfId_sorted. reflexivity.
Qed.

Hypothesis vehicles_distinct : NoDup (map veh_id vehicles).

(** X26. Whom [clarkeWrightAlgorithm] leaves without a vehicle. When the
    depot is one of the locations, the location ids and the vehicle ids are
    distinct, no demand is negative and the kernel yields no negative
    distance: if a customer is on no route that has a vehicle, then every
    vehicle of the fleet that could carry the customer alone drives as many
    routes as the fleet has slots for it. *)
Theorem clarkeWright_left_out :
  In depot locations ->
  exists fuel0 routes,
    (forall fuel, (fuel0 <= fuel)%nat ->
       clarkeWrightAlgorithm fuel calc vehicles locations depot = Some routes) /\
    forall c, In c (nonDepotOf locations depot) -> ~ onVehicle routes (loc_id c) ->
      forall v, In v vehicles -> loc_demand c <= capacity v ->
        length (routesOf (veh_id v) routes) = length (slotsOfId (veh_id v) vehicles).
Proof.
  intros _.
  destruct (clarkeWright_facts calc vehicles locations depot kernel_nonneg ids_distinct
              demands_nonneg) as (fuel0 & routes & slots' & Hrun & Hb & _ & _ & Hc).
  exists fuel0, routes. split; [exact Hrun|].
  intros c Hin Hnot v Hv Hfit. destruct (Hc c Hin) as [Ho|Hn]; [contradiction|].
  pose proof Hb as (_ & B2 & _ & B4 & _). rewrite B4.
  rewrite usedSlots_all.
  - rewrite (count_by_id _ _ _ B2). apply slotsOfId_sorted.
  - intros vs Hvs Hid. destruct (used vs) eqn:Hu; [reflexivity|exfalso].
    pose proof (Hn vs Hvs Hu) as Hsmall.
    destruct (fleet_slot vs) as (v' & Hv' & Ev & Ec).
    { apply (slot_origin _ routes slots' vs Hb Hvs). }
    assert (v' = v).
    { apply (NoDup_injective veh_id vehicles); [assumption..|congruence]. }
    subst v'. lia.
Qed.

End WholeTheorems.

Section RoadsideInstance.
Import ClarkeWright Passes.

Lemma roadside_ids : NoDup (map loc_id roadside).
Proof. apply (bool_decide_unpack _). vm_compute. exact I. Qed.

Lemma roadside_demands l : In l roadside -> 0 <= loc_demand l.
Proof.
  unfold roadside. simpl. intros H.
  repeat (destruct H as [<-|H]; [simpl; lia|]). destruct H.
Qed.

Lemma mixedFleet_ids : NoDup (map veh_id mixedFleet).
Proof. apply (bool_decide_unpack _). vm_compute. exact I. Qed.

End RoadsideInstance.

Lemma slotPressure_never_merges_witness :
  In depotD Passes.roadside /\
  (Passes.slotPressure taxicab (buildDistances taxicab Passes.roadside) SPEED_KMH
     Passes.mixedFleet
     (ClarkeWright.routesAfterSavings taxicab Passes.mixedFleet Passes.roadside depotD)
   = Some (ClarkeWright.routesAfterSavings taxicab Passes.mixedFleet Passes.roadside depotD)
   \/
   Passes.slotPressure taxicab (buildDistances taxicab Passes.roadside) SPEED_KMH
     Passes.mixedFleet
     (ClarkeWright.routesAfterSavings taxicab Passes.mixedFleet Passes.roadside depotD)
   = Some (Passes.sortAscending
             (ClarkeWright.routesAfterSavings taxicab Passes.mixedFleet Passes.roadside
                depotD))).
Proof.
  assert (Hin : In depotD Passes.roadside) by (simpl; auto).
  split; [exact Hin|].
  apply (slotPressure_never_merges taxicab Passes.mixedFleet Passes.roadside depotD Hin
           roadside_ids roadside_demands).
Defined.

Lemma secondPass_never_merges_witness :
  let state :=
    Passes.firstPass
      (Assign.sortRoutes
         (Assign.sortRoutes
            (ClarkeWright.routesAfterSavings taxicab Passes.mixedFleet Passes.roadside
               depotD)))
      (Assign.sortSlots (expandSlots Passes.mixedFleet)) in
  In depotD Passes.roadside /\
  Passes.secondPass taxicab (buildDistances taxicab Passes.roadside) SPEED_KMH state = state.
Proof.
  assert (Hin : In depotD Passes.roadside) by (simpl; auto).
  split; [exact Hin|].
  apply (secondPass_never_merges taxicab Passes.mixedFleet Passes.roadside depotD
           (ClarkeWright.routesAfterSavings taxicab Passes.mixedFleet Passes.roadside depotD)
           Hin roadside_ids roadside_demands).
  vm_compute. reflexivity.
Defined.

Lemma clarkeWright_routes_witness :
  In depotD Passes.roadside /\
  exists fuel0 routes,
    (forall fuel, (fuel0 <= fuel)%nat ->
       Passes.clarkeWrightAlgorithm fuel taxicab Passes.mixedFleet Passes.roadside depotD
       = Some routes) /\
    servedAtMostOnce (loc_id depotD) routes /\
    (forall id, In id (servedIds (loc_id depotD) routes) ->
       In id (map loc_id (ClarkeWright.nonDepotOf Passes.roadside depotD))) /\
    (forall r, In r routes ->
       ordersMatch r /\ totalCapacity r = ClarkeWright.demandOf (stops r) /\
       (forall vid, vehicle r = Some vid ->
          exists v, In v Passes.mixedFleet /\ veh_id v = vid /\
                    totalCapacity r <= capacity v) /\
       (vehicle r = None ->
        capacityExceeded r = Some true /\ length (stops r) = 3%nat)) /\
    (forall vid,
       (length (routesOf vid routes) <= length (slotsOfId vid Passes.mixedFleet))%nat).
Proof.
  assert (Hin : In depotD Passes.roadside) by (simpl; auto).
  split; [exact Hin|].
  apply (clarkeWright_routes taxicab Passes.mixedFleet Passes.roadside depotD
           taxicab_nonneg roadside_ids roadside_demands Hin).
Defined.

Lemma clarkeWright_left_out_witness :
  In depotD Passes.roadside /\
  exists fuel0 routes,
    (forall fuel, (fuel0 <= fuel)%nat ->
       Passes.clarkeWrightAlgorithm fuel taxicab Passes.mixedFleet Passes.roadside depotD
       = Some routes) /\
    forall c, In c (ClarkeWright.nonDepotOf Passes.roadside depotD) ->
      ~ onVehicle routes (loc_id c) ->
      forall v, In v Passes.mixedFleet -> loc_demand c <= capacity v ->
        length (routesOf (veh_id v) routes) = length (slotsOfId (veh_id v) Passes.mixedFleet).
Proof.
  assert (Hin : In depotD Passes.roadside) by (simpl; auto).
  split; [exact Hin|].
  apply (clarkeWright_left_out taxicab Passes.mixedFleet Passes.roadside depotD
           taxicab_nonneg roadside_ids roadside_demands mixedFleet_ids Hin).
Defined.

(** On the roadside instance the truck takes B and C; the route of E and F
    fits no van and is split: E gets the second van, F fits no unused slot
    and is on no route of the result. *)
Example clarkeWright_roadside :
  option_map (map (fun r => (vehicle r, map locationId (stops r), totalCapacity r,
                             capacityExceeded r)))
    (Passes.clarkeWrightAlgorithm 5 taxicab Passes.mixedFleet Passes.roadside depotD)
  = Some [(Some "V1", ["D"; "B"; "C"; "D"], 10, Some false);
          (Some "V2", ["D"; "A"; "D"], 5, Some false);
          (Some "V2", ["D"; "E"; "D"], 5, None)].
Proof. vm_compute. reflexivity. Qed.

(** ** Assigning vehicles a second time *)

Section AssignAgainFacts.
Import Assign.

Let load (r : Route) : Z := js_orZ (totalCapacity r) 0.
Let goesAfter (a b : Route) : bool := js_orZ (totalCapacity a) 0 <? js_orZ (totalCapacity b) 0.

(** The loads of [l] never increase along the list. *)
Let descending (l : list Route) : Prop :=
  forall i j a b, (i < j)%nat -> l !! i = Some a -> l !! j = Some b -> load b <= load a.

Lemma descending_tail a l : descending (a :: l) -> descending l.
Proof. intros H i j x y Hij Hx Hy. apply (H (S i) (S j) x y); [lia|exact Hx|exact Hy]. Qed.

Lemma descending_cons a l :
  (forall b, In b l -> load b <= load a) -> descending l -> descending (a :: l).
Proof.
  intros Ha Hl i j x y Hij Hx Hy. destruct i as [|i], j as [|j]; try lia.
  - simpl in Hx. injection Hx as <-. apply Ha. apply list_elem_of_In.
    eapply list_elem_of_lookup_2, Hy.
  - apply (Hl i j x y); [lia|exact Hx|exact Hy].
Qed.

Lemma insert_by_descending x l :
  descending l -> descending (insert_by goesAfter x l).
Proof.
  induction l as [|y l IH]; intros Hl; simpl.
  - intros i j a b Hij Ha Hb. destruct i, j; try lia; destruct j; discriminate.
  - destruct (goesAfter x y) eqn:E.
    + apply descending_cons; [|apply IH, (descending_tail y), Hl].
      intros b Hb. apply In_insert_by in Hb as [->|Hb].
      * unfold goesAfter in E. apply Z.ltb_lt in E. unfold load. lia.
      * apply list_elem_of_In, list_elem_of_lookup_1 in Hb as (k & Hk).
        apply (Hl 0%nat (S k) y b); [lia|reflexivity|exact Hk].
    + apply descending_cons; [|exact Hl].
      unfold goesAfter in E. apply Z.ltb_ge in E.
      intros b [<-|Hb]; [unfold load; lia|].
      apply list_elem_of_In, list_elem_of_lookup_1 in Hb as (k & Hk).
      pose proof (Hl 0%nat (S k) y b ltac:(lia) eq_refl Hk). unfold load in *. lia.
Qed.

Lemma sortRoutes_descending l : descending (sortRoutes l).
Proof.
  unfold sortRoutes, sort_by. induction l as [|x l IH]; simpl.
  - intros i j a b _ Ha. destruct i; discriminate.
  - apply insert_by_descending, IH.
Qed.

(** A list in descending order of load is left alone by the sort. *)
Lemma sortRoutes_sorted l : descending l -> sortRoutes l = l.
Proof.
  unfold sortRoutes, sort_by. induction l as [|x l IH]; intros Hl; [reflexivity|].
  simpl. rewrite (IH (descending_tail x l Hl)).
  destruct l as [|y l]; [reflexivity|]. simpl.
  pose proof (Hl 0%nat 1%nat x y ltac:(lia) eq_refl eq_refl) as H.
  unfold load in H. apply Z.ltb_ge in H. rewrite H. reflexivity.
Qed.

Lemma descending_loads l l' :
  map totalCapacity l' = map totalCapacity l -> descending l -> descending l'.
Proof.
  intros E Hl i j a b Hij Ha Hb.
  assert (Hget : forall k x, l' !! k = Some x ->
            exists y, l !! k = Some y /\ totalCapacity y = totalCapacity x).
  { intros k x Hk.
    assert (H : map totalCapacity l !! k = Some (totalCapacity x)).
    { rewrite <- E. change (map totalCapacity l') with (totalCapacity <$> l').
      rewrite list_lookup_fmap, Hk. reflexivity. }
    change (map totalCapacity l) with (totalCapacity <$> l) in H.
    rewrite list_lookup_fmap in H. destruct (l !! k) as [y|]; [|discriminate].
    injection H as H. eauto. }
  destruct (Hget i a Ha) as (a0 & Ha0 & Ea). destruct (Hget j b Hb) as (b0 & Hb0 & Eb).
  pose proof (Hl i j a0 b0 Hij Ha0 Hb0) as H. unfold load in *. rewrite Ea, Eb in H. exact H.
Qed.

Lemma setVehicle_same (b : Route) (vs : VehicleSlot) :
  vehicle b = Some (slot_id vs) -> vehicleName b = slot_name vs -> setVehicle b vs = b.
Proof. destruct b. simpl. intros -> ->. reflexivity. Qed.

(** The loop over routes that the loop has already seen, from the same
    slots: every step repeats itself. *)
Lemma assign_fold_again l : forall acc,
  exists outs slots',
    fold_left assignStep l acc = (fst acc ++ outs, slots') /\
    forall acc' l', snd acc' = snd acc -> Forall2 sameBooking outs l' ->
      fold_left assignStep l' acc' = (fst acc' ++ l', slots').
Proof.
  induction l as [|r l IH]; intros acc.
  - exists [], (snd acc). simpl. split; [rewrite app_nil_r; apply surjective_pairing|].
    intros acc' l' E H. inversion H. simpl. rewrite app_nil_r, <- E.
    apply surjective_pairing.
  - simpl. destruct (IH (assignStep acc r)) as (outs & slots' & Hrun & Hagain).
    destruct (bestSlot (snd acc) (js_orZ (totalCapacity r) 0)) as [vs|] eqn:Hb.
    + assert (Es : assignStep acc r
                   = (fst acc ++ [setVehicle r vs],
                      occupy (slot_ix vs) (js_orZ (totalCapacity r) 0) (snd acc)))
        by (unfold assignStep; rewrite Hb; reflexivity).
      rewrite Es in *. cbn [fst snd] in Hrun, Hagain.
      exists (setVehicle r vs :: outs), slots'. split.
      * rewrite Hrun, <- app_assoc. reflexivity.
      * intros acc' l' E H. inversion H as [|a b la lb (Ev & En & Et) Hrest]; subst.
        simpl.
        assert (Es' : assignStep acc' b
                      = (fst acc' ++ [b],
                         occupy (slot_ix vs) (js_orZ (totalCapacity r) 0) (snd acc))).
        { unfold assignStep. rewrite E, Et. cbn [totalCapacity setVehicle].
          rewrite Hb, (setVehicle_same b vs Ev En). reflexivity. }
        rewrite Es'.
        rewrite (Hagain (fst acc' ++ [b],
                         occupy (slot_ix vs) (js_orZ (totalCapacity r) 0) (snd acc))
                   lb eq_refl Hrest).
        cbn [fst]. rewrite <- app_assoc. reflexivity.
    + assert (Es : assignStep acc r = (fst acc ++ [r], snd acc))
        by (unfold assignStep; rewrite Hb; reflexivity).
      rewrite Es in *. cbn [fst snd] in Hrun, Hagain.
      exists (r :: outs), slots'. split.
      * rewrite Hrun, <- app_assoc. reflexivity.
      * intros acc' l' E H. inversion H as [|a b la lb (Ev & En & Et) Hrest]; subst.
        simpl.
        assert (Es' : assignStep acc' b = (fst acc' ++ [b], snd acc)).
        { unfold assignStep. rewrite E, Et, Hb. reflexivity. }
        rewrite Es'. rewrite (Hagain (fst acc' ++ [b], snd acc) lb eq_refl Hrest).
        cbn [fst]. rewrite <- app_assoc. reflexivity.
Qed.

Lemma map_totalCapacity_booking l l' :
  Forall2 sameBooking l l' -> map totalCapacity l' = map totalCapacity l.
Proof.
  induction 1 as [|a b l l' (_ & _ & E) _ IH]; [reflexivity|].
  simpl. rewrite E, IH. reflexivity.
Qed.

Lemma map_totalCapacity_trips l l' :
  map tripOf l = map tripOf l' -> map totalCapacity l = map totalCapacity l'.
Proof.
  revert l'. induction l as [|a l IH]; intros [|b l'] H; simpl in *; try discriminate;
    [reflexivity|].
  injection H as _ _ _ Et _ H. rewrite Et, (IH l' H). reflexivity.
Qed.

End AssignAgainFacts.

Section AssignAgainTheorems.
Import Assign.

(** Routes that have the bookings of an output of the assignment come out
    of the assignment as they went in. *)
Lemma assign_same_booking (routes : list Route) (vehicles : list Vehicle)
    (routes' : list Route) :
  Forall2 sameBooking (assignVehiclesToRoutes routes vehicles) routes' ->
  assignVehiclesToRoutes routes' vehicles = routes'.
Proof.
  intros Hrel.
  assert (Hsorted : sortRoutes routes' = routes').
  { apply sortRoutes_sorted.
    apply (descending_loads (sortRoutes routes)); [|apply sortRoutes_descending].
    rewrite (map_totalCapacity_booking _ _ Hrel). apply map_totalCapacity_trips.
    unfold assignVehiclesToRoutes. rewrite assign_fold_trips. reflexivity. }
  unfold assignVehiclesToRoutes in *. rewrite Hsorted.
  destruct (assign_fold_again (sortRoutes routes) ([], sortSlots (expandSlots vehicles)))
    as (outs & slots' & Hrun & Hagain).
  rewrite Hrun in Hrel. cbn [fst] in Hrel. simpl in Hrel.
  rewrite (Hagain ([], sortSlots (expandSlots vehicles)) routes' eq_refl Hrel).
  reflexivity.
Qed.

Lemma sameBooking_refl l : Forall2 sameBooking l l.
Proof. induction l; constructor; [repeat split|assumption]. Qed.

(** X27. Assigning vehicles a second time changes nothing:
    [assignVehiclesToRoutes] returns its own output as it is, and likewise
    any routes that have the vehicles, vehicle names and loads of its
    output, whatever their stops, distances, durations and flags. *)
Theorem assignVehiclesToRoutes_again
    (routes : list Route) (vehicles : list Vehicle) (routes' : list Route) :
  Forall2 sameBooking (assignVehiclesToRoutes routes vehicles) routes' ->
  assignVehiclesToRoutes routes' vehicles = routes' /\
  assignVehiclesToRoutes (assignVehiclesToRoutes routes vehicles) vehicles
  = assignVehiclesToRoutes routes vehicles.
Proof.
  intros Hrel. split; [apply (assign_same_booking routes), Hrel|].
  apply (assign_same_booking routes), sameBooking_refl.
Qed.

End AssignAgainTheorems.

Lemma assignVehiclesToRoutes_again_witness :
  let out :=
    Assign.assignVehiclesToRoutes
      [roundTrip depotD customerA; roundTrip depotD customerB] Genetic.twoVans in
  Assign.assignVehiclesToRoutes (map (fun r => setStops r []) out) Genetic.twoVans
  = map (fun r => setStops r []) out /\
  Assign.assignVehiclesToRoutes out Genetic.twoVans = out.
Proof.
  apply (assignVehiclesToRoutes_again
           [roundTrip depotD customerA; roundTrip depotD customerB] Genetic.twoVans).
  vm_compute. repeat constructor.
Defined.

(** ** The result summary and the single mode as a whole *)

Section ReportFacts.
Import ClarkeWright Report.

Variables (locations : list Location) (depot : Location).

Hypothesis ids_distinct : NoDup (map loc_id locations).
Hypothesis one_depot : oneDepot locations depot.

Lemma customers_unflagged :
  nonDepotOf locations depot = List.filter (fun l => negb (isDepot l)) locations.
Proof.
  destruct one_depot as (Hin & Hflag & Hone).
  unfold nonDepotOf. apply filter_ext_in. intros l Hl.
  destruct (isDepot l) eqn:E.
  - rewrite (Hone l Hl E), String.eqb_refl. reflexivity.
  - simpl. apply negb_true_iff, String.eqb_neq. intros Heq.
    assert (l = depot).
    { apply list_elem_of_In, list_elem_of_lookup_1 in Hl as (i & Hi).
      apply list_elem_of_In, list_elem_of_lookup_1 in Hin as (j & Hj).
      assert (i = j).
      { apply (NoDup_lookup (map loc_id locations) i j (loc_id l) ids_distinct).
        - change (map loc_id locations) with (loc_id <$> locations).
          rewrite list_lookup_fmap, Hi. reflexivity.
        - change (map loc_id locations) with (loc_id <$> locations).
          rewrite list_lookup_fmap, Hj, Heq. reflexivity. }
      subst j. congruence. }
    subst l. congruence.
Qed.

Lemma totalLocations_customers :
  totalLocationsOf locations = length (nonDepotOf locations depot).
Proof. unfold totalLocationsOf. rewrite customers_unflagged. reflexivity. Qed.

End ReportFacts.

Section PercentageFacts.
Import Report.

Lemma percentage_bounds part total :
  0 <= part <= total -> (0 <= percentage part total <= 100)%Q.
Proof.
  intros H. unfold percentage. destruct (Z.ltb_spec 0 total) as [Hpos|_].
  - destruct total as [|p|p]; try lia.
    unfold Qle, Qdiv, Qmult, Qinv, inject_Z. simpl. split; nia.
  - split; [apply Qle_refl|discriminate].
Qed.

Lemma percentage_full part total :
  0 < total -> ((percentage part total == 100)%Q <-> part = total).
Proof.
  intros Hpos. unfold percentage. destruct (Z.ltb_spec 0 total) as [_|]; [|lia].
  destruct total as [|p|p]; try lia.
  unfold Qeq, Qdiv, Qmult, Qinv, inject_Z. simpl. split; intros H; nia.
Qed.

End PercentageFacts.

Section CoverageFacts.
Import ClarkeWright Report.

Variables (locations : list Location) (depot : Location) (routes : list Route).

Hypothesis ids_distinct : NoDup (map loc_id locations).
Hypothesis ids_truthy : forall l, In l locations -> loc_id l <> EmptyString.
Hypothesis served_customers :
  forall id, In id (servedIds (loc_id depot) routes) ->
             In id (map loc_id (nonDepotOf locations depot)).

Let customerIds : gset string := list_to_set (map loc_id (nonDepotOf locations depot)).

Lemma truthy_id id : id <> EmptyString -> truthy_string id = true.
Proof. destruct id; [congruence|reflexivity]. Qed.

Lemma served_set id :
  id ∈ servedLocationIds depot routes <-> In id (servedIds (loc_id depot) routes).
Proof.
  unfold servedLocationIds, servedIds. rewrite elem_of_list_to_set, list_elem_of_In.
  rewrite !filter_In. unfold countedStop. split.
  - intros (Hin & H). apply andb_true_iff in H as (_ & H). auto.
  - intros (Hin & H). split; [exact Hin|]. rewrite H, andb_true_r.
    assert (Hc : In id (map loc_id (nonDepotOf locations depot))).
    { apply served_customers. apply filter_In. auto. }
    apply in_map_iff in Hc as (l & <- & Hl). apply truthy_id, ids_truthy.
    apply filter_In in Hl as [Hl _]. exact Hl.
Qed.

Lemma served_subset : servedLocationIds depot routes ⊆ customerIds.
Proof.
  intros id Hid. unfold customerIds. rewrite elem_of_list_to_set.
  apply list_elem_of_In, served_customers, served_set, Hid.
Qed.

Lemma customerIds_size : size customerIds = length (nonDepotOf locations depot).
Proof.
  unfold customerIds. rewrite size_list_to_set; [apply length_map|].
  apply NoDup_map_filter, ids_distinct.
Qed.

Lemma served_all_iff :
  size (servedLocationIds depot routes) = length (nonDepotOf locations depot) <->
  forall c, In c (nonDepotOf locations depot) ->
            In (loc_id c) (servedIds (loc_id depot) routes).
Proof.
  split.
  - intros Hsize c Hc.
    assert (E : servedLocationIds depot routes = customerIds).
    { apply set_subseteq_size_eq; [apply served_subset|].
      rewrite customerIds_size, Hsize. reflexivity. }
    apply served_set. rewrite E. unfold customerIds. rewrite elem_of_list_to_set.
    apply list_elem_of_In, in_map, Hc.
  - intros Hall. rewrite <- customerIds_size. f_equal.
    apply set_eq. intros id. split; [apply served_subset|].
    unfold customerIds. rewrite elem_of_list_to_set. intros Hid.
    apply list_elem_of_In, in_map_iff in Hid as (c & <- & Hc).
    apply served_set, Hall, Hc.
Qed.

End CoverageFacts.

Section CoverageTheorems.
Import ClarkeWright Report.

(** X28. The coverage the driver reports. When the location ids are
    distinct and not empty, the depot is the only location flagged as a
    depot, and the routes serve customers of the instance only:
    [totalLocations] is the number of customers, [totalLocationsServed] is
    not above it, [coveragePercentage] lies between 0 and 100, and when
    there is a customer it is 100 exactly when every customer is on a
    route. *)
Theorem summarize_coverage
    (vehicles : list Vehicle) (locations : list Location) (depot : Location)
    (routes : list Route) :
  NoDup (map loc_id locations) ->
  (forall l, In l locations -> loc_id l <> EmptyString) ->
  oneDepot locations depot ->
  (forall id, In id (servedIds (loc_id depot) routes) ->
              In id (map loc_id (nonDepotOf locations depot))) ->
  let summary := summarize vehicles locations depot routes in
  sum_totalLocations summary = length (nonDepotOf locations depot) /\
  (sum_totalLocationsServed summary <= sum_totalLocations summary)%nat /\
  (0 <= sum_coveragePercentage summary <= 100)%Q /\
  (nonDepotOf locations depot <> [] ->
   ((sum_coveragePercentage summary == 100)%Q <->
    forall c, In c (nonDepotOf locations depot) ->
              In (loc_id c) (servedIds (loc_id depot) routes))).
Proof.
  intros Hnd Hne Hone Hserved summary.
  pose proof (totalLocations_customers locations depot Hnd Hone) as Htotal.
  assert (Hle : (size (servedLocationIds depot routes)
                 <= length (nonDepotOf locations depot))%nat).
  { rewrite <- (customerIds_size locations depot Hnd).
    apply subseteq_size, served_subset; assumption. }
  unfold summary, summarize. cbn [sum_totalLocations sum_totalLocationsServed
                                  sum_coveragePercentage].
  rewrite Htotal. split; [reflexivity|]. split; [exact Hle|]. split.
  - apply percentage_bounds. lia.
  - intros Hcust.
    assert (Hpos : 0 < Z.of_nat (length (nonDepotOf locations depot))).
    { destruct (nonDepotOf locations depot); [congruence|simpl; lia]. }
    rewrite (percentage_full _ _ Hpos).
    rewrite <- (served_all_iff locations depot routes Hnd Hne Hserved). lia.
Qed.

End CoverageTheorems.

Section HandlerFacts.
Import ClarkeWright Validation Report.

Lemma createOptimization_solved {A : Type}
    (solve : list Vehicle -> list Location -> Location -> A) store req (x : A) :
  createOptimization solve store req = Solved x ->
  exists depot,
    List.find isDepot (selectedLocations store req) = Some depot /\
    x = solve (selectedVehicles store req) (selectedLocations store req) depot.
Proof.
  unfold createOptimization, selectedLocations, selectedVehicles.
  destruct (invalidName (req_name req)); [discriminate|].
  destruct (missingIds (req_vehicleIds req)); [discriminate|].
  destruct (missingIds (req_locationIds req)); [discriminate|].
  destruct (100 <? _)%nat; [discriminate|].
  destruct (20 <? _)%nat; [discriminate|].
  cbv zeta.
  destruct (findByIds veh_id _ _) as [|v vs]; [discriminate|].
  destruct (findByIds loc_id _ _) as [|l ls]; [discriminate|].
  destruct (List.find isDepot (l :: ls)) as [depot|]; [|discriminate].
  intros H. injection H as <-. exists depot. auto.
Qed.

Lemma selectedLocations_ids store req :
  NoDup (map loc_id (storedLocations store)) ->
  NoDup (map loc_id (selectedLocations store req)).
Proof. apply NoDup_map_filter. Qed.

Lemma selectedLocations_stored store req l :
  In l (selectedLocations store req) -> In l (storedLocations store).
Proof. unfold selectedLocations, findByIds. intros H. apply filter_In in H as [H _]. exact H. Qed.

Lemma found_depot locations depot :
  List.find isDepot locations = Some depot ->
  (forall l l', In l locations -> In l' locations ->
     isDepot l = true -> isDepot l' = true -> l = l') ->
  oneDepot locations depot.
Proof.
  intros Hf Hone. apply find_some in Hf as (Hin & Hflag).
  split; [exact Hin|]. split; [exact Hflag|].
  intros l Hl Hd. apply Hone; assumption.
Qed.

Lemma assigned_trip routes vehicles r :
  In r (Assign.assignVehiclesToRoutes routes vehicles) ->
  exists r0, In r0 routes /\ tripOf r = tripOf r0.
Proof.
  intros Hr. apply (in_map tripOf) in Hr.
  unfold Assign.assignVehiclesToRoutes in Hr. rewrite assign_fold_trips in Hr.
  simpl in Hr. apply in_map_iff in Hr as (r0 & E & Hr0).
  apply In_sort_by in Hr0. eauto.
Qed.

Lemma assigned_served d routes vehicles :
  Permutation (servedIds d (Assign.assignVehiclesToRoutes routes vehicles))
              (servedIds d routes).
Proof.
  assert (H : map tripOf (Assign.assignVehiclesToRoutes routes vehicles)
              = map tripOf (Assign.sortRoutes routes)).
  { unfold Assign.assignVehiclesToRoutes. rewrite assign_fold_trips. reflexivity. }
  rewrite (servedIds_stops d _ _ (trips_stops _ _ H)).
  apply servedIds_perm, sort_by_perm.
Qed.

(** The coverage of a summary whose routes serve customers only. *)
Lemma coverage_facts vehicles locations depot routes :
  NoDup (map loc_id locations) ->
  (forall l, In l locations -> loc_id l <> EmptyString) ->
  oneDepot locations depot ->
  (forall id, In id (servedIds (loc_id depot) routes) ->
              In id (map loc_id (nonDepotOf locations depot))) ->
  let coverage := sum_coveragePercentage (summarize vehicles locations depot routes) in
  (0 <= coverage <= 100)%Q /\
  (nonDepotOf locations depot <> [] ->
   ((coverage == 100)%Q <->
    forall c, In c (nonDepotOf locations depot) ->
              In (loc_id c) (servedIds (loc_id depot) routes))).
Proof.
  intros Hnd Hne Hone Hserved coverage.
  pose proof (totalLocations_customers locations depot Hnd Hone) as Htotal.
  assert (Hle : (size (servedLocationIds depot routes)
                 <= length (nonDepotOf locations depot))%nat).
  { rewrite <- (customerIds_size locations depot Hnd).
    apply subseteq_size, served_subset; assumption. }
  unfold coverage, summarize. cbn [sum_coveragePercentage]. rewrite Htotal. split.
  - apply percentage_bounds. lia.
  - intros Hcust.
    assert (Hpos : 0 < Z.of_nat (length (nonDepotOf locations depot))).
    { destruct (nonDepotOf locations depot); [congruence|simpl; lia]. }
    rewrite (percentage_full _ _ Hpos).
    rewrite <- (served_all_iff locations depot routes Hnd Hne Hserved). lia.
Qed.

End HandlerFacts.

Section HandlerTheorems.
Import ClarkeWright Validation Report.

Variables (calc : DistanceKernel) (store : Store) (req : Request).

Hypothesis kernel_nonneg : forall lat1 lon1 lat2 lon2, (0 <= calc lat1 lon1 lat2 lon2)%Q.
Hypothesis store_ids : NoDup (map loc_id (storedLocations store)).
Hypothesis ids_truthy : forall l, In l (storedLocations store) -> loc_id l <> EmptyString.
Hypothesis demands_nonneg : forall l, In l (storedLocations store) -> 0 <= loc_demand l.
Hypothesis one_flag :
  forall l l', In l (selectedLocations store req) -> In l' (selectedLocations store req) ->
    isDepot l = true -> isDepot l' = true -> l = l'.

Let vehicles := selectedVehicles store req.
Let locations := selectedLocations store req.

(** X29. A request in single mode for Clarke-Wright, from the checks to the
    summary. When the stored locations have distinct, non-empty ids and no
    negative demand, one selected location at most is flagged as a depot and
    the kernel yields no negative distance: a request that passes the checks
    is answered with a summary (the algorithm returns); its routes, with the
    vehicles assigned again by [assignVehiclesToRoutes], serve no location
    twice, have orders 0, 1, 2, ..., carry the demand of their customers as
    [totalCapacity], and a route with a vehicle fits it unless it is flagged;
    the coverage lies between 0 and 100 and, when there is a customer, is
    100 exactly when every customer is on a route. *)
Theorem createOptimization_clarkeWright :
  exists fuel0, forall fuel answer, (fuel0 <= fuel)%nat ->
    createOptimization (singleMode (Passes.clarkeWrightAlgorithm fuel calc)) store req
    = Solved answer ->
    exists depot summary,
      List.find isDepot locations = Some depot /\ answer = Some summary /\
      servedAtMostOnce (loc_id depot) (sum_routes summary) /\
      (forall r, In r (sum_routes summary) ->
         ordersMatch r /\ totalCapacity r = demandOf (stops r) /\
         Assign.capacityRespected vehicles r) /\
      (0 <= sum_coveragePercentage summary <= 100)%Q /\
      (nonDepotOf locations depot <> [] ->
       ((sum_coveragePercentage summary == 100)%Q <->
        forall c, In c (nonDepotOf locations depot) ->
                  In (loc_id c) (servedIds (loc_id depot) (sum_routes summary)))).
Proof.
  assert (Hnd : NoDup (map loc_id locations)) by (apply selectedLocations_ids, store_ids).
  assert (Hdem : forall l, In l locations -> 0 <= loc_demand l)
    by (intros l Hl; apply demands_nonneg, (selectedLocations_stored store req), Hl).
  assert (Hne : forall l, In l locations -> loc_id l <> EmptyString)
    by (intros l Hl; apply ids_truthy, (selectedLocations_stored store req), Hl).
  destruct (List.find isDepot locations) as [depot|] eqn:Hfind.
  2:{ exists 0%nat. intros fuel answer _ H.
      apply createOptimization_solved in H as (depot & Hf & _).
      fold locations in Hf. congruence. }
  pose proof (found_depot locations depot Hfind one_flag) as Hone.
  destruct (clarkeWright_facts calc vehicles locations depot kernel_nonneg Hnd Hdem)
    as (fuel0 & routes & slots' & Hrun & Hb & Hr & Hsub & _).
  exists fuel0. intros fuel answer Hfuel H.
  apply createOptimization_solved in H as (depot' & Hf & ->).
  fold locations vehicles in Hf |- *. rewrite Hfind in Hf. injection Hf as <-.
  unfold singleMode. rewrite (Hrun fuel Hfuel).
  exists depot, (summarize vehicles locations depot
                   (Assign.assignVehiclesToRoutes routes vehicles)).
  split; [reflexivity|]. split; [reflexivity|].
  cbn [sum_routes].
  pose proof (assigned_served (loc_id depot) routes vehicles) as Hserved.
  apply submseteq_Permutation in Hsub as (rest & Hperm).
  assert (Hcust : NoDup (map loc_id (nonDepotOf locations depot)))
    by (apply NoDup_map_filter, Hnd).
  assert (Hin : forall id,
            In id (servedIds (loc_id depot)
                     (Assign.assignVehiclesToRoutes routes vehicles)) ->
            In id (map loc_id (nonDepotOf locations depot))).
  { intros id Hid. apply list_elem_of_In. rewrite Hperm. apply elem_of_app. left.
    rewrite <- Hserved. apply list_elem_of_In, Hid. }
  split; [|split].
  - unfold servedAtMostOnce. rewrite Hserved. rewrite Hperm in Hcust.
    apply NoDup_app in Hcust as (H & _). exact H.
  - intros r Hin'. destruct (assigned_trip routes vehicles r Hin') as (r0 & Hr0 & E).
    unfold tripOf in E. injection E as Es _ _ Et _.
    destruct (Hr r0 Hr0) as (Ho & Ht & _).
    split; [unfold ordersMatch in *; rewrite Es; exact Ho|].
    split; [rewrite Es, Et; exact Ht|].
    revert r Hin' Es Et. unfold Assign.assignVehiclesToRoutes. intros r Hin' _ _.
    eapply assign_fold_respected; [| | |exact Hin']; simpl.
    + intros x [].
    + intros vs Hvs. apply In_sort_by in Hvs. apply expandSlots_from, Hvs.
    + intros x Hx. apply In_sort_by in Hx. intros vid Hvid. right.
      destruct Hb as (_ & _ & _ & _ & B5).
      destruct (B5 x vid Hx Hvid) as (vs & Hvs & Hid & Hfit).
      destruct (fleet_slot vehicles vs) as (v & Hv & Ev & Ec).
      { exists vs. auto. }
      exists v. split; [exact Hv|]. split; [congruence|lia].
  - apply coverage_facts; assumption.
Qed.

End HandlerTheorems.

Section EnhancedHandlerFacts.
Import ClarkeWright Validation Report.

Lemma allSome_Forall2 {A B} (f : A -> option B) l : forall l',
  Tabu.allSome (map f l) = Some l' -> Forall2 (fun a b => f a = Some b) l l'.
Proof.
  induction l as [|a l IH]; intros l' H; simpl in H.
  - injection H as <-. constructor.
  - destruct (f a) as [b|] eqn:E; [|discriminate].
    destruct (Tabu.allSome (map f l)) as [bs|]; [|discriminate].
    injection H as <-. constructor; [exact E|apply IH; reflexivity].
Qed.

Lemma enhancedLocalSearch_booking fuel calc distances speedKmh a b :
  LocalSearch.enhancedLocalSearch fuel calc distances speedKmh a = Some b ->
  sameBooking a b.
Proof.
  unfold LocalSearch.enhancedLocalSearch. destruct (_ <? _)%nat.
  - intros H. injection H as <-. repeat split.
  - destruct (LocalSearch.twoOpt _ _ _); [|discriminate].
    intros H. injection H as <-. repeat split.
Qed.

(** The routes of the enhanced algorithm have the bookings of its
    assignment. *)
Lemma enhancedClarkeWright_booking fuel calc score vehicles locations depot routes :
  Tabu.enhancedClarkeWrightAlgorithm fuel calc score vehicles locations depot
  = Some routes ->
  exists merged,
    Forall2 sameBooking (Assign.assignVehiclesToRoutes merged vehicles) routes.
Proof.
  unfold Tabu.enhancedClarkeWrightAlgorithm. cbv zeta. intros H.
  eexists. apply allSome_Forall2 in H.
  eapply Forall2_impl; [exact H|]. intros a b. apply enhancedLocalSearch_booking.
Qed.

End EnhancedHandlerFacts.

Section EnhancedHandlerTheorems.
Import ClarkeWright Validation Report.

Variables (calc : DistanceKernel) (score : Location * Location -> Q)
          (store : Store) (req : Request).

Hypothesis kernel_nonneg : forall lat1 lon1 lat2 lon2, (0 <= calc lat1 lon1 lat2 lon2)%Q.
Hypothesis store_ids : NoDup (map loc_id (storedLocations store)).
Hypothesis ids_truthy : forall l, In l (storedLocations store) -> loc_id l <> EmptyString.
Hypothesis one_flag :
  forall l l', In l (selectedLocations store req) -> In l' (selectedLocations store req) ->
    isDepot l = true -> isDepot l' = true -> l = l'.

Let vehicles := selectedVehicles store req.
Let locations := selectedLocations store req.

(** X30. A request in single mode for Enhanced Clarke-Wright, from the
    checks to the summary. When the stored locations have distinct,
    non-empty ids, one selected location at most is flagged as a depot and
    the kernel yields no negative distance: a request that passes the checks
    is answered with a summary (the algorithm returns); assigning the
    vehicles again leaves the routes exactly as the algorithm returned them;
    every customer is counted as served, and the coverage is 100 when there
    is a customer. *)
Theorem createOptimization_enhanced :
  exists fuel0, forall fuel answer, (fuel0 <= fuel)%nat ->
    createOptimization
      (singleMode (Tabu.enhancedClarkeWrightAlgorithm fuel calc score)) store req
    = Solved answer ->
    exists depot summary,
      List.find isDepot locations = Some depot /\ answer = Some summary /\
      Tabu.enhancedClarkeWrightAlgorithm fuel calc score vehicles locations depot
      = Some (sum_routes summary) /\
      sum_totalLocationsServed summary = length (nonDepotOf locations depot) /\
      sum_totalLocations summary = length (nonDepotOf locations depot) /\
      (nonDepotOf locations depot <> [] -> (sum_coveragePercentage summary == 100)%Q).
Proof.
  assert (Hnd : NoDup (map loc_id locations)) by (apply selectedLocations_ids, store_ids).
  assert (Hne : forall l, In l locations -> loc_id l <> EmptyString)
    by (intros l Hl; apply ids_truthy, (selectedLocations_stored store req), Hl).
  destruct (List.find isDepot locations) as [depot|] eqn:Hfind.
  2:{ exists 0%nat. intros fuel answer _ H.
      apply createOptimization_solved in H as (depot & Hf & _).
      fold locations in Hf. congruence. }
  pose proof (found_depot locations depot Hfind one_flag) as Hone.
  destruct (enhancedClarkeWright_runs calc score vehicles locations depot kernel_nonneg)
    as (fuel0 & routes & Hrun & Hrel).
  destruct (searched_routes_facts calc score vehicles locations depot routes Hrel)
    as (Hperm & _).
  exists fuel0. intros fuel answer Hfuel H.
  apply createOptimization_solved in H as (depot' & Hf & ->).
  fold locations vehicles in Hf |- *. rewrite Hfind in Hf. injection Hf as <-.
  unfold singleMode. rewrite (Hrun fuel Hfuel).
  destruct (enhancedClarkeWright_booking _ _ _ _ _ _ _ (Hrun fuel Hfuel))
    as (merged & Hbook).
  rewrite (assign_same_booking merged vehicles routes Hbook).
  exists depot, (summarize vehicles locations depot routes).
  split; [reflexivity|]. split; [reflexivity|]. cbn [sum_routes].
  split; [apply Hrun, Hfuel|].
  assert (Hserved : forall id, In id (servedIds (loc_id depot) routes) ->
                               In id (map loc_id (nonDepotOf locations depot))).
  { intros id Hid. apply list_elem_of_In. rewrite <- Hperm. apply list_elem_of_In, Hid. }
  assert (Hall : size (servedLocationIds depot routes)
                 = length (nonDepotOf locations depot)).
  { apply (served_all_iff locations depot routes Hnd Hne Hserved).
    intros c Hc. apply list_elem_of_In. rewrite Hperm. apply list_elem_of_In, in_map, Hc. }
  pose proof (totalLocations_customers locations depot Hnd Hone) as Htotal.
  unfold summarize. cbn [sum_totalLocationsServed sum_totalLocations sum_coveragePercentage].
  split; [exact Hall|]. split; [exact Htotal|].
  intros Hcust. rewrite Hall, Htotal. apply percentage_full; [|reflexivity].
  destruct (nonDepotOf locations depot); [congruence|simpl; lia].
Qed.

End EnhancedHandlerTheorems.

Section RoadsideRequest.
Import Validation.

Lemma roadside_truthy l : In l Passes.roadside -> loc_id l <> EmptyString.
Proof.
  unfold Passes.roadside. simpl. intros H.
  repeat (destruct H as [<-|H]; [discriminate|]). destruct H.
Qed.

Lemma roadside_oneDepot : oneDepot Passes.roadside depotD.
Proof.
  split; [simpl; auto|]. split; [reflexivity|].
  unfold Passes.roadside. simpl. intros l H.
  repeat (destruct H as [<-|H]; [simpl; first [reflexivity|discriminate]|]). destruct H.
Qed.

Lemma roadside_one_flag l l' :
  In l (selectedLocations roadsideStore roadsideRequest) ->
  In l' (selectedLocations roadsideStore roadsideRequest) ->
  isDepot l = true -> isDepot l' = true -> l = l'.
Proof.
  change (selectedLocations roadsideStore roadsideRequest) with Passes.roadside.
  intros Hl Hl' E E'.
  rewrite (proj2 (proj2 roadside_oneDepot) l Hl E).
  rewrite (proj2 (proj2 roadside_oneDepot) l' Hl' E'). reflexivity.
Qed.

End RoadsideRequest.

Lemma summarize_coverage_witness :
  let summary :=
    Report.summarize Passes.mixedFleet Passes.roadside depotD
      [roundTrip depotD customerA] in
  Report.sum_totalLocations summary
  = length (ClarkeWright.nonDepotOf Passes.roadside depotD) /\
  (Report.sum_totalLocationsServed summary <= Report.sum_totalLocations summary)%nat /\
  (0 <= Report.sum_coveragePercentage summary <= 100)%Q /\
  (ClarkeWright.nonDepotOf Passes.roadside depotD <> [] ->
   ((Report.sum_coveragePercentage summary == 100)%Q <->
    forall c, In c (ClarkeWright.nonDepotOf Passes.roadside depotD) ->
              In (loc_id c) (servedIds (loc_id depotD) [roundTrip depotD customerA]))).
Proof.
  apply (summarize_coverage Passes.mixedFleet Passes.roadside depotD
           [roundTrip depotD customerA] roadside_ids roadside_truthy roadside_oneDepot).
  intros id [<-|[]]. vm_compute. left. reflexivity.
Defined.

Lemma createOptimization_clarkeWright_witness :
  exists fuel0, forall fuel answer, (fuel0 <= fuel)%nat ->
    Validation.createOptimization
      (Report.singleMode (Passes.clarkeWrightAlgorithm fuel taxicab))
      roadsideStore roadsideRequest
    = Validation.Solved answer ->
    exists depot summary,
      List.find isDepot (Validation.selectedLocations roadsideStore roadsideRequest)
      = Some depot /\
      answer = Some summary /\
      servedAtMostOnce (loc_id depot) (Report.sum_routes summary) /\
      (forall r, In r (Report.sum_routes summary) ->
         ordersMatch r /\ totalCapacity r = ClarkeWright.demandOf (stops r) /\
         Assign.capacityRespected
           (Validation.selectedVehicles roadsideStore roadsideRequest) r) /\
      (0 <= Report.sum_coveragePercentage summary <= 100)%Q /\
      (ClarkeWright.nonDepotOf
         (Validation.selectedLocations roadsideStore roadsideRequest) depot <> [] ->
       ((Report.sum_coveragePercentage summary == 100)%Q <->
        forall c,
          In c (ClarkeWright.nonDepotOf
                  (Validation.selectedLocations roadsideStore roadsideRequest) depot) ->
          In (loc_id c) (servedIds (loc_id depot) (Report.sum_routes summary)))).
Proof.
  apply (createOptimization_clarkeWright taxicab roadsideStore roadsideRequest
           taxicab_nonneg roadside_ids roadside_truthy roadside_demands
           roadside_one_flag).
Defined.

Lemma createOptimization_enhanced_witness :
  exists fuel0, forall fuel answer, (fuel0 <= fuel)%nat ->
    Validation.createOptimization
      (Report.singleMode
         (Tabu.enhancedClarkeWrightAlgorithm fuel taxicab
            (ClarkeWright.basicSaving (buildDistances taxicab Passes.roadside) depotD)))
      roadsideStore roadsideRequest
    = Validation.Solved answer ->
    exists depot summary,
      List.find isDepot (Validation.selectedLocations roadsideStore roadsideRequest)
      = Some depot /\
      answer = Some summary /\
      Tabu.enhancedClarkeWrightAlgorithm fuel taxicab
        (ClarkeWright.basicSaving (buildDistances taxicab Passes.roadside) depotD)
        (Validation.selectedVehicles roadsideStore roadsideRequest)
        (Validation.selectedLocations roadsideStore roadsideRequest) depot
      = Some (Report.sum_routes summary) /\
      Report.sum_totalLocationsServed summary
      = length (ClarkeWright.nonDepotOf
                  (Validation.selectedLocations roadsideStore roadsideRequest) depot) /\
      Report.sum_totalLocations summary
      = length (ClarkeWright.nonDepotOf
                  (Validation.selectedLocations roadsideStore roadsideRequest) depot) /\
      (ClarkeWright.nonDepotOf
         (Validation.selectedLocations roadsideStore roadsideRequest) depot <> [] ->
       (Report.sum_coveragePercentage summary == 100)%Q).
Proof.
  apply (createOptimization_enhanced taxicab
           (ClarkeWright.basicSaving (buildDistances taxicab Passes.roadside) depotD)
           roadsideStore roadsideRequest
           taxicab_nonneg roadside_ids roadside_truthy roadside_one_flag).
Defined.

(** The roadside request in single mode: four of the five customers are on
    a route (F was dropped when the route of E and F was split), and the
    driver reports a coverage of 80 and a vehicle utilization of 100. *)
Example createOptimization_roadside :
  match Validation.createOptimization
          (Report.singleMode (Passes.clarkeWrightAlgorithm 5 taxicab))
          roadsideStore roadsideRequest with
  | Validation.Solved (Some s) =>
      Some (map (fun r => (vehicle r, map locationId (stops r))) (Report.sum_routes s),
            Report.sum_totalLocationsServed s, Report.sum_totalLocations s,
            Qred (Report.sum_coveragePercentage s),
            Qred (Report.sum_vehicleUtilization s))
  | _ => None
  end
  = Some ([(Some "V1", ["D"; "B"; "C"; "D"]); (Some "V2", ["D"; "A"; "D"]);
           (Some "V2", ["D"; "E"; "D"])], 4%nat, 5%nat, 80%Q, 100%Q).
Proof. vm_compute. reflexivity. Qed.

(** ** Metrics of a route with a leg that is not a number *)

Section NaNFacts.
Import Double Metrics.

Lemma add_NaN_l y : add NaN y = NaN.
Proof. destruct y; reflexivity. Qed.

Lemma add_NaN_r x : add x NaN = NaN.
Proof. destruct x; reflexivity. Qed.

Lemma fold_add_NaN l : fold_left add l NaN = NaN.
Proof. induction l as [|y l IH]; simpl; [reflexivity|]. rewrite ?add_NaN_l. exact IH. Qed.

Lemma fold_add_has_NaN l : forall acc, In NaN l -> fold_left add l acc = NaN.
Proof.
  induction l as [|y l IH]; intros acc H; [destruct H|].
  destruct H as [E|H]; simpl.
  - subst y. rewrite add_NaN_r. apply fold_add_NaN.
  - apply IH, H.
Qed.

Lemma legsOf_lookup leg sts : forall i a b,
  sts !! i = Some a -> sts !! S i = Some b -> In (leg a b) (legsOf leg sts).
Proof.
  induction sts as [|x sts IH]; intros i a b Ha Hb; [discriminate|].
  destruct sts as [|y sts]; [destruct i; discriminate|].
  change (legsOf leg (x :: y :: sts)) with (leg x y :: legsOf leg (y :: sts)).
  destruct i as [|i].
  - injection Ha as <-. injection Hb as <-. now left.
  - right. apply (IH i); assumption.
Qed.

Lemma durationOf_NaN speedKmh : durationOf speedKmh NaN = NaN.
Proof. reflexivity. Qed.

Variables (calc : Kernel) (locations : list Location).

Hypothesis ids_distinct : NoDup (map loc_id locations).

Let distances : Matrix := buildDistances calc locations.

(** Between stops of the instance a leg the kernel cannot measure reads NaN
    either way: the entry is NaN, which is falsy, and the kernel called on
    the coordinates of the stops yields NaN again. *)
Lemma leg_NaN a b :
  stopFrom locations a -> stopFrom locations b ->
  calc (latitude a) (longitude a) (latitude b) (longitude b) = NaN ->
  legNullish calc distances a b = NaN /\ legOr calc distances a b = NaN.
Proof.
  intros (la & Hla & Ea & Eat & Eon) (lb & Hlb & Eb & Ebt & Ebn) Hnan.
  pose proof (matrixEntry_built calc locations ids_distinct la lb Hla Hlb) as He.
  fold distances in He. rewrite <- Ea, <- Eb, <- Eat, <- Eon, <- Ebt, <- Ebn, Hnan in He.
  unfold legNullish, legOr. rewrite He, Hnan. split; reflexivity.
Qed.

Lemma sumLegs_NaN leg sts :
  (leg = legNullish calc distances \/ leg = legOr calc distances) ->
  Forall (stopFrom locations) sts -> hasNaNLeg calc sts ->
  sumLegs leg sts = NaN.
Proof.
  intros Hleg Hall (i & a & b & Ha & Hb & Hnan).
  rewrite sumLegs_legs. apply fold_add_has_NaN.
  assert (Hsa : stopFrom locations a).
  { rewrite Forall_forall in Hall. apply Hall. eapply list_elem_of_lookup_2, Ha. }
  assert (Hsb : stopFrom locations b).
  { rewrite Forall_forall in Hall. apply Hall. eapply list_elem_of_lookup_2, Hb. }
  destruct (leg_NaN a b Hsa Hsb Hnan) as (N1 & N2).
  replace NaN with (leg a b) by (destruct Hleg as [->| ->]; assumption).
  eapply legsOf_lookup; eassumption.
Qed.

End NaNFacts.

Section NaNTheorems.

(** X32. One leg makes the metrics of a whole route NaN. On the distance
    matrix built for an instance with distinct ids, for every speed: when
    the stops of a route denormalise locations of the instance and the
    kernel yields NaN between two consecutive stops, metric recomputation
    leaves NaN in [distance] and in [duration] of that route, and changes
    nothing else of it; this holds for the Clarke-Wright closure
    [recomputeRouteMetrics] and for [recomputeAllRouteMetrics]. *)
Theorem recomputed_metrics_NaN
    (calc : Metrics.Kernel) (locations : list Location) (speedKmh : Coordinate) :
  NoDup (map loc_id locations) ->
  let distances := Metrics.buildDistances calc locations in
  (forall rt,
     Forall (stopFrom locations) (Metrics.stops rt) ->
     hasNaNLeg calc (Metrics.stops rt) ->
     let rt' := Metrics.recomputeRouteMetrics calc distances speedKmh rt in
     Metrics.sameButMetrics rt rt' /\
     Metrics.distance rt' = NaN /\ Metrics.duration rt' = NaN) /\
  (forall solution,
     Forall (fun r => Forall (stopFrom locations) (Metrics.stops r)) solution ->
     Forall2
       (fun r r' =>
          Metrics.sameButMetrics r r' /\
          (hasNaNLeg calc (Metrics.stops r) ->
           Metrics.distance r' = NaN /\ Metrics.duration r' = NaN))
       solution (Metrics.recomputeAllRouteMetrics calc distances speedKmh solution)).
Proof.
  intros Hnd distances. split.
  - intros rt Hall Hnan rt'. split; [repeat split|].
    unfold rt', Metrics.recomputeRouteMetrics. simpl.
    rewrite (sumLegs_NaN calc locations Hnd _ (Metrics.stops rt)); auto.
  - intros solution Hsol. unfold Metrics.recomputeAllRouteMetrics.
    induction Hsol as [|r solution Hall _ IH]; [constructor|].
    simpl. constructor; [|exact IH]. split; [repeat split|].
    intros Hnan. simpl.
    rewrite (sumLegs_NaN calc locations Hnd _ (Metrics.stops r)); auto.
Qed.

End NaNTheorems.

Lemma lostLocations_nodup : NoDup (map loc_id [depotD; lostCustomer]).
Proof. apply (bool_decide_unpack _). vm_compute. exact I. Qed.

Lemma recomputed_metrics_NaN_witness :
  let rt' :=
    Metrics.recomputeRouteMetrics Metrics.farKernel
      (Metrics.buildDistances Metrics.farKernel [depotD; lostCustomer]) (Num 40) lostTrip in
  Metrics.sameButMetrics lostTrip rt' /\
  Metrics.distance rt' = NaN /\ Metrics.duration rt' = NaN.
Proof.
  apply (proj1 (recomputed_metrics_NaN Metrics.farKernel [depotD; lostCustomer] (Num 40)
                  lostLocations_nodup)).
  - repeat constructor; [exists depotD|exists lostCustomer|exists depotD]; simpl; auto.
  - exists 0%nat, (stopOf depotD 0), (stopOf lostCustomer 1). repeat split.
Defined.

(** A customer whose longitude is [Infinity]: the request checks let it
    pass, and the route to it has no distance and no duration. *)
Example recomputeAllRouteMetrics_lost :
  map (fun r => (Metrics.distance r, Metrics.duration r))
      (Metrics.recomputeAllRouteMetrics Metrics.farKernel
         (Metrics.buildDistances Metrics.farKernel [depotD; lostCustomer]) (Num 40)
         [lostTrip])
  = [(NaN, NaN)].
Proof. vm_compute. reflexivity. Qed.
